(** * QRAP_NC: quadratic resource allocation with nested constraints

    A shallow embedding of [Algorithms_QRAP_NC.py]:
    - [QRAP_median]            (median-of-breakpoints allocator),
    - [QRAP_NC_decomposition]  (merge decomposition, Vidal et al.),
    - [QRAP_NC_seq]            (sequential sweep, Schoot Uiterkamp et al.),
    - [QRAP_NC_infeasible]     (infeasibility-guided, Van der Klauw et al.).

    Numbers.  The program computes with Python floats, and the embedding
    is written twice.  The main one computes with exact rationals [Q]:
    it is the program up to rounding, and the control flow, the
    exceptions, the store and the bounds of the results are proved on
    it.  There [==] is [Qeq_bool], the tolerances [10**(-6)] and
    [pow(10,-5)] are the rationals [1/10^6] and [1/10^5], and [math.inf]
    is the [None] of an [option Q].  Module [B64] repeats [QRAP_median],
    [QRAP_NC_infeasible] and [QRAP_NC_decomposition] on binary64 floats,
    for what rounding decides.  The inputs are taken to be Python lists
    of Python floats, so that [x / 0] raises [ZeroDivisionError]; the
    rows of [QRAP_NC_decomposition] are numpy floats, where [x / 0] is
    inf or nan.

    Control.  Every function returns a [result]: a value, a Python
    exception, or [Timeout] when the fuel given to a loop or to a
    recursion is used up. *)

From Stdlib Require Import QArith Qabs List Bool Arith Lia Lqa Permutation.
From Stdlib Require PrimFloat.
Import ListNotations.

Local Open Scope Q_scope.

(** ** Python primitives *)

Module Py.

Inductive exn : Type :=
| IndexError          (* list index out of range *)
| ZeroDivisionError   (* float division by zero *)
| ValueError          (* min() of an empty sequence *)
| StatisticsError     (* statistics.median of no data *)
| NonFinite.          (* numpy division by zero: inf or nan, which [Q] lacks *)

Inductive result (A : Type) : Type :=
| Ok (a : A)
| Raise (e : exn)
| Timeout.

Arguments Ok {A} a.
Arguments Raise {A} e.
Arguments Timeout {A}.

Definition bind {A B : Type} (m : result A) (k : A -> result B) : result B :=
  match m with
  | Ok a => k a
  | Raise e => Raise e
  | Timeout => Timeout
  end.

Definition finished {A : Type} (r : result A) : Prop :=
  match r with Timeout => False | _ => True end.

Definition returns {A : Type} (r : result A) : Prop :=
  match r with Ok _ => True | _ => False end.

(** [xs[i]] for a non-negative index. *)
Definition get (xs : list Q) (i : nat) : result Q :=
  match nth_error xs i with
  | Some x => Ok x
  | None => Raise IndexError
  end.

(** [xs[i] = v] for a non-negative index. *)
Fixpoint set (xs : list Q) (i : nat) (v : Q) : result (list Q) :=
  match xs, i with
  | [], _ => Raise IndexError
  | _ :: t, O => Ok (v :: t)
  | x :: t, S i' => bind (set t i' v) (fun t' => Ok (x :: t'))
  end.

(** [x / y] on Python floats. *)
Definition div (x y : Q) : result Q :=
  if Qeq_bool y 0 then Raise ZeroDivisionError else Ok (x / y).

(** [x < y] as a test. *)
Definition ltb (x y : Q) : bool := negb (Qle_bool y x).

(** [max(x, y)] and [min(x, y)]: the first argument wins a tie. *)
Definition max (x y : Q) : Q := if ltb x y then y else x.
Definition min (x y : Q) : Q := if ltb y x then y else x.

(** [min(xs)] of a list. *)
Definition min_list (xs : list Q) : result Q :=
  match xs with
  | [] => Raise ValueError
  | x :: t => Ok (fold_left min t x)
  end.

(** [sum(xs)]. *)
Definition sum (xs : list Q) : Q := fold_left Qplus xs 0.

(** [sorted(xs)], by insertion. *)
Fixpoint insert (x : Q) (xs : list Q) : list Q :=
  match xs with
  | [] => [x]
  | y :: t => if Qle_bool x y then x :: xs else y :: insert x t
  end.

Definition sorted (xs : list Q) : list Q := fold_right insert [] xs.

(** [statistics.median(xs)]: the middle element of the sorted data, or
    the mean of the two middle elements. *)
Definition median (xs : list Q) : result Q :=
  let data := sorted xs in
  let n := length data in
  match n with
  | O => Raise StatisticsError
  | _ =>
      if Nat.odd n then Ok (nth (n / 2) data 0)
      else Ok ((nth (n / 2 - 1) data 0 + nth (n / 2) data 0) / 2)
  end.

(** [xs[i:j] = ys] on a list. *)
Definition slice_assign (xs : list Q) (i j : nat) (ys : list Q) : list Q :=
  firstn i xs ++ ys ++ skipn j xs.

(** [xs[i:j]]. *)
Definition slice (xs : list Q) (i j : nat) : list Q :=
  firstn (j - i) (skipn i xs).

(** [[f(j) for j in js]], left to right, stopping at the first exception. *)
Fixpoint comprehension {A B : Type} (f : A -> result B) (js : list A)
  : result (list B) :=
  match js with
  | [] => Ok []
  | j :: t =>
      bind (f j) (fun y => bind (comprehension f t) (fun ys => Ok (y :: ys)))
  end.

End Py.

Import Py.

Notation "x <- m ;; k" := (bind m (fun x => k))
  (at level 61, m at next level, right associativity).

(** The equality tolerances of the program. *)
Definition eps6 : Q := 1 # 1000000.   (* 10**(-6) *)
Definition eps5 : Q := 1 # 100000.    (* pow(10,-5) *)

(** ** QRAP_median *)

(** [max(lower_bound[j], min(upper_bound[j], objective_par[j]*m))]. *)
Definition clip (lo hi x : Q) : Q := Py.max lo (Py.min hi x).

Section Median.

Variables (objective_par lower_bound upper_bound : list Q).
Variable (resource_value : Q).

Let num_var := length objective_par.

(** [[bound[j]/objective_par[j] for j in range(0,num_var)]] *)
Definition breakpoints (bound : list Q) : result (list Q) :=
  comprehension
    (fun j => b <- get bound j ;; a <- get objective_par j ;; div b a)
    (seq 0 num_var).

(** The state of the [while] loop.  [upper_breakpoint_bound] is [None]
    while it still is [math.inf]. *)
Record median_state : Type := {
  current_breakpoints : list Q;
  num_current_breakpoints : nat;
  undecided_variables_indices : list nat;
  num_undecided_variables : nat;
  lower_breakpoint_bound : Q;
  upper_breakpoint_bound : option Q;
  fixed : Q;
  free : Q
}.

Variables (lower_breakpoints upper_breakpoints : list Q).

(* Every index read below is an element of [undecided_variables_indices]
   or of [range(0,num_var)]; the breakpoint comprehensions have read all
   of these from the three input lists before the loop starts, so [nth]
   with a default never meets a missing entry. *)
Definition lb (j : nat) := nth j lower_breakpoints 0.
Definition ub (j : nat) := nth j upper_breakpoints 0.
Definition l_ (j : nat) := nth j lower_bound 0.
Definition u_ (j : nat) := nth j upper_bound 0.
Definition a_ (j : nat) := nth j objective_par 0.

(** The contribution of one undecided variable to the candidate sum. *)
Definition candidate_term (candidate_breakpoint : Q) (var_index : nat) : Q :=
  if Qle_bool (ub var_index) candidate_breakpoint then u_ var_index
  else if Qle_bool candidate_breakpoint (lb var_index) then l_ var_index
  else a_ var_index * candidate_breakpoint.

Definition SummedVariables (st : median_state) (candidate_breakpoint : Q) : Q :=
  fold_left (fun s var_index => s + candidate_term candidate_breakpoint var_index)
            (undecided_variables_indices st) 0
  + (fixed st + free st * candidate_breakpoint).

(** [upper_breakpoint_bound <= x] and [x >= upper_breakpoint_bound]. *)
Definition hi_le (hi : option Q) (x : Q) : bool :=
  match hi with Some h => Qle_bool h x | None => false end.

(** One pass of "Determine value of newly decided variables". *)
Definition decide_one (lo : Q) (hi : option Q)
    (acc : Q * Q * nat * list nat) (var_index : nat) : Q * Q * nat * list nat :=
  let '(fx, fr, num, new_undecided_variables) := acc in
  if Qle_bool (ub var_index) lo then
    (fx + u_ var_index, fr, pred num, new_undecided_variables)
  else if Qle_bool (lb var_index) lo && hi_le hi (ub var_index) then
    (fx, fr + a_ var_index, pred num, new_undecided_variables)
  else if hi_le hi (lb var_index) then
    (fx + l_ var_index, fr, pred num, new_undecided_variables)
  else
    (fx, fr, num, new_undecided_variables ++ [var_index]).

Definition decide (st : median_state) : median_state :=
  let '(fx, fr, num, new_undecided_variables) :=
    fold_left (decide_one (lower_breakpoint_bound st) (upper_breakpoint_bound st))
              (undecided_variables_indices st)
              (fixed st, free st, num_undecided_variables st, []) in
  {| current_breakpoints := current_breakpoints st;
     num_current_breakpoints := num_current_breakpoints st;
     undecided_variables_indices := new_undecided_variables;
     num_undecided_variables := num;
     lower_breakpoint_bound := lower_breakpoint_bound st;
     upper_breakpoint_bound := upper_breakpoint_bound st;
     fixed := fx;
     free := fr |}.

(** The narrowing of the bracket after a candidate that missed. *)
Definition narrow (st : median_state) (candidate_breakpoint s : Q) : median_state :=
  if Py.ltb resource_value s then
    let bps := filter (fun BP => Py.ltb BP candidate_breakpoint) (current_breakpoints st) in
    {| current_breakpoints := bps;
       num_current_breakpoints := length bps;
       undecided_variables_indices := undecided_variables_indices st;
       num_undecided_variables := num_undecided_variables st;
       lower_breakpoint_bound := lower_breakpoint_bound st;
       upper_breakpoint_bound := Some candidate_breakpoint;
       fixed := fixed st;
       free := free st |}
  else
    let bps := filter (fun BP => Py.ltb candidate_breakpoint BP) (current_breakpoints st) in
    {| current_breakpoints := bps;
       num_current_breakpoints := length bps;
       undecided_variables_indices := undecided_variables_indices st;
       num_undecided_variables := num_undecided_variables st;
       lower_breakpoint_bound := candidate_breakpoint;
       upper_breakpoint_bound := upper_breakpoint_bound st;
       fixed := fixed st;
       free := free st |}.

(** How the [while] loop is left: by the [return] inside it, with the
    matching candidate, or by its condition, with the final state. *)
Inductive loop_exit : Type :=
| Matched (opt_multiplier : Q)
| Exhausted (st : median_state).

Fixpoint median_loop (fuel : nat) (st : median_state) : result loop_exit :=
  if (0 <? num_undecided_variables st)%nat && (0 <? num_current_breakpoints st)%nat then
    match fuel with
    | O => Timeout
    | S fuel' =>
        candidate_breakpoint <- median (current_breakpoints st) ;;
        let s := SummedVariables st candidate_breakpoint in
        if Qle_bool (Qabs (s - resource_value)) eps6 then
          Ok (Matched candidate_breakpoint)
        else
          median_loop fuel' (decide (narrow st candidate_breakpoint s))
    end
  else Ok (Exhausted st).

(** [[max(l[j],min(u[j],a[j]*opt_multiplier)) for j in range(0,num_var)]] *)
Definition clipped (opt_multiplier : Q) : list Q :=
  map (fun j => clip (l_ j) (u_ j) (a_ j * opt_multiplier)) (seq 0 num_var).

(** "Compute optimal multiplier" after the loop. *)
Definition final_multiplier (st : median_state) : Q :=
  if Qeq_bool (free st) 0 then lower_breakpoint_bound st
  else (resource_value - fixed st) / free st.

Definition median_result (ex : loop_exit) : list Q :=
  match ex with
  | Matched opt_multiplier => clipped opt_multiplier
  | Exhausted st => clipped (final_multiplier st)
  end.

Definition initial_state (lo : Q) : median_state :=
  {| current_breakpoints := lower_breakpoints ++ upper_breakpoints;
     num_current_breakpoints := 2 * num_var;
     undecided_variables_indices := seq 0 num_var;
     num_undecided_variables := num_var;
     lower_breakpoint_bound := lo;
     upper_breakpoint_bound := None;
     fixed := 0;
     free := 0 |}.

End Median.

Arguments current_breakpoints : clear implicits.
Arguments num_current_breakpoints : clear implicits.

(** The loop of [QRAP_median] up to its exit.  The fuel is the number of
    candidate breakpoints: every pass drops at least one of them. *)
Definition QRAP_median_loop (objective_par lower_bound upper_bound : list Q)
    (resource_value : Q) : result (loop_exit * (list Q * list Q)) :=
  let num_var := length objective_par in
  lower_breakpoints <- breakpoints objective_par lower_bound ;;
  upper_breakpoints <- breakpoints objective_par upper_bound ;;
  lo <- min_list (lower_breakpoints ++ upper_breakpoints) ;;
  ex <- median_loop objective_par lower_bound upper_bound resource_value
          lower_breakpoints upper_breakpoints (2 * num_var)
          (initial_state objective_par lower_breakpoints upper_breakpoints lo) ;;
  Ok (ex, (lower_breakpoints, upper_breakpoints)).

Definition QRAP_median (objective_par lower_bound upper_bound : list Q)
    (resource_value : Q) : result (list Q) :=
  r <- QRAP_median_loop objective_par lower_bound upper_bound resource_value ;;
  Ok (median_result objective_par lower_bound upper_bound resource_value (fst r)).

(** ** QRAP_NC_infeasible *)

(** [Violation_type]: 1 for an upper and 0 for a lower nested bound. *)
Inductive violation_type : Type := LowerViolation | UpperViolation.

(** The variables of the search for the most violated constraint.
    [Violation_type] and [Max_index] are assigned together and both start
    at -1: they are one optional pair here, [None] being -1. *)
Record scan_state : Type := {
  VAR_sum : Q;
  Violation_value : Q;
  most_violated : option (violation_type * nat)
}.

Definition scan_step (lower_nested2 upper_nested2 Sol_vec : list Q)
    (st : scan_state) (i : nat) : scan_state :=
  let s := VAR_sum st + nth i Sol_vec 0 in
  if Py.ltb (nth i upper_nested2 0 + eps5) s then
    if Py.ltb (Violation_value st) (s - nth i upper_nested2 0) then
      {| VAR_sum := s;
         Violation_value := s - nth i upper_nested2 0;
         most_violated := Some (UpperViolation, i) |}
    else
      {| VAR_sum := s; Violation_value := Violation_value st;
         most_violated := most_violated st |}
  else if Py.ltb s (nth i lower_nested2 0 - eps5) then
    if Py.ltb (Violation_value st) (nth i lower_nested2 0 - s) then
      {| VAR_sum := s;
         Violation_value := nth i lower_nested2 0 - s;
         most_violated := Some (LowerViolation, i) |}
    else
      {| VAR_sum := s; Violation_value := Violation_value st;
         most_violated := most_violated st |}
  else
    {| VAR_sum := s; Violation_value := Violation_value st;
       most_violated := most_violated st |}.

Definition scan (lower_nested2 upper_nested2 Sol_vec : list Q) (num_var : nat)
  : scan_state :=
  fold_left (scan_step lower_nested2 upper_nested2 Sol_vec) (seq 0 num_var)
    {| VAR_sum := 0; Violation_value := 0; most_violated := None |}.

(** "Set new lower and upper nested bound according to most violated
    constraint": the bound at [Max_index] is pinned to [pin] and [pin] is
    taken off every later nested bound. *)
Definition shift_after (Max_index : nat) (pin : Q) (nested : list Q) : list Q :=
  firstn (S Max_index) nested
  ++ map (fun x => x - pin) (skipn (S Max_index) nested).

Definition set_at (Max_index : nat) (pin : Q) (nested : list Q) : list Q :=
  firstn Max_index nested ++ pin :: skipn (S Max_index) nested.

Definition pin_bounds (ty : violation_type) (Max_index : nat)
    (lower_nested2 upper_nested2 : list Q) : list Q * list Q :=
  match ty with
  | UpperViolation =>
      let pin := nth Max_index upper_nested2 0 in
      (shift_after Max_index pin (set_at Max_index pin lower_nested2),
       shift_after Max_index pin upper_nested2)
  | LowerViolation =>
      let pin := nth Max_index lower_nested2 0 in
      (shift_after Max_index pin lower_nested2,
       shift_after Max_index pin (set_at Max_index pin upper_nested2))
  end.

(** [depth] bounds the nesting of the recursive calls. *)
Fixpoint QRAP_NC_infeasible (depth : nat)
    (objective_par lower_bound upper_bound lower_nested upper_nested : list Q)
  : result (list Q) :=
  match depth with
  | O => Timeout
  | S depth' =>
      let num_var := length objective_par in
      lower_nested2 <- comprehension (get lower_nested) (seq 0 num_var) ;;
      upper_nested2 <- comprehension (get upper_nested) (seq 0 num_var) ;;
      if (num_var =? 1)%nat then
        U0 <- get upper_nested2 0 ;; Ok [U0]
      else
        (* for num_var = 0 this reads index -1 of an empty list *)
        R <- get upper_nested2 (num_var - 1) ;;
        Sol_vec <- QRAP_median objective_par lower_bound upper_bound R ;;
        match most_violated (scan lower_nested2 upper_nested2 Sol_vec num_var) with
        | None => Ok Sol_vec
        | Some (ty, Max_index) =>
            let '(lower_nested2, upper_nested2) :=
              pin_bounds ty Max_index lower_nested2 upper_nested2 in
            left <- QRAP_NC_infeasible depth'
                      (slice objective_par 0 (Max_index + 1))
                      (slice lower_bound 0 (Max_index + 1))
                      (slice upper_bound 0 (Max_index + 1))
                      (slice lower_nested2 0 (Max_index + 1))
                      (slice upper_nested2 0 (Max_index + 1)) ;;
            let Sol_vec := slice_assign Sol_vec 0 (Max_index + 1) left in
            right <- QRAP_NC_infeasible depth'
                       (slice objective_par (Max_index + 1) num_var)
                       (slice lower_bound (Max_index + 1) num_var)
                       (slice upper_bound (Max_index + 1) num_var)
                       (slice lower_nested2 (Max_index + 1) num_var)
                       (slice upper_nested2 (Max_index + 1) num_var) ;;
            Ok (slice_assign Sol_vec (Max_index + 1) num_var right)
        end
  end.

(** ** QRAP_NC_decomposition *)

(** [result = numpy.zeros((2,2,num_var))]: one row per pair of regimes. *)
Definition table : Type := bool -> bool -> list Q.

Definition zeros (num_var : nat) : table := fun _ _ => repeat 0 num_var.

Definition row_set (t : table) (s0 s1 : bool) (row : list Q) : table :=
  fun b0 b1 => if Bool.eqb b0 s0 && Bool.eqb b1 s1 then row else t b0 b1.

(** [result[s0][s1][i:j] = ys] *)
Definition table_assign (t : table) (s0 s1 : bool) (i j : nat) (ys : list Q) : table :=
  row_set t s0 s1 (slice_assign (t s0 s1) i j ys).

(** [result[s0][s1][j]] *)
Definition entry (t : table) (s0 s1 : bool) (j : nat) : Q := nth j (t s0 s1) 0.

Section Decomposition.

Variables (objective_par lower_bound upper_bound lower_nested upper_nested : list Q).

(** The base case of [MDA]: one variable. *)
Definition MDA_single (start_index : nat) (result : table) : Py.result table :=
  L <- get lower_nested start_index ;;
  U <- get upper_nested start_index ;;
  match start_index with
  | O =>
      let r := table_assign result false false 0 1 [L] in
      let r := table_assign r false true 0 1 [U] in
      let r := table_assign r true false 0 1 [L] in
      Ok (table_assign r true true 0 1 [U])
  | S prev =>
      Lp <- get lower_nested prev ;;
      Up <- get upper_nested prev ;;
      let r := table_assign result false false start_index (S start_index) [L - Lp] in
      let r := table_assign r false true start_index (S start_index) [U - Lp] in
      let r := table_assign r true false start_index (S start_index) [L - Up] in
      Ok (table_assign r true true start_index (S start_index) [U - Up])
  end.

(** "Determine new variable bounds": the two [if] chains of the loop
    over [j], for one [j]. *)
Definition alternative_lower (cl cu l : Q) : Q :=
  if Py.ltb cu l then cu else if Py.ltb l cl then cl else l.

Definition alternative_upper (cl cu u : Q) : Q :=
  if Py.ltb u cl then cl else if Py.ltb cu u then cu else u.

Definition alternative_bounds (start_index end_index : nat)
    (current_lower_bounds current_upper_bounds : list Q)
  : Py.result (list (Q * Q)) :=
  comprehension
    (fun j =>
       let cl := nth j current_lower_bounds 0 in
       let cu := nth j current_upper_bounds 0 in
       l <- get lower_bound (j + start_index) ;;
       u <- get upper_bound (j + start_index) ;;
       Ok (alternative_lower cl cu l, alternative_upper cl cu u))
    (seq 0 (end_index + 1 - start_index)).

(** "Determine new target resource value". *)
Definition target (start_index end_index : nat) (s0 s1 : bool) : Py.result Q :=
  match start_index with
  | O => if s1 then get upper_nested end_index else get lower_nested end_index
  | S prev =>
      hi <- (if s1 then get upper_nested end_index else get lower_nested end_index) ;;
      lo <- (if s0 then get upper_nested prev else get lower_nested prev) ;;
      Ok (hi - lo)
  end.

(** [HELP_sum]: the quotient is taken on numpy floats, where a zero
    divisor gives inf or nan instead of an exception.  The program goes
    on and writes that value into the rows of [result]; [Q] has neither,
    and the model stops here with [NonFinite], which stands for a run
    whose result holds inf or nan from this point on. *)
Definition help_sum (x y : Q) : Py.result Q :=
  if Qeq_bool y 0 then Raise NonFinite else Ok (x / y).

(** The body of [for subcase in option_list]. *)
Definition MDA_subcase (start_index new_index end_index : nat)
    (result : table) (subcase : bool * bool) : Py.result table :=
  let '(s0, s1) := subcase in
  let left := seq start_index (new_index + 1 - start_index) in
  let right := seq (new_index + 1) (end_index - new_index) in
  let current_lower_bounds :=
    map (entry result s0 false) left ++ map (entry result true s1) right in
  let current_upper_bounds :=
    map (entry result s0 true) left ++ map (entry result false s1) right in
  alt <- alternative_bounds start_index end_index current_lower_bounds current_upper_bounds ;;
  let alternative_lower_bounds := map fst alt in
  let alternative_upper_bounds := map snd alt in
  target_value <- target start_index end_index s0 s1 ;;
  let sum_lower := Py.sum alternative_lower_bounds in
  let sum_upper := Py.sum alternative_upper_bounds in
  if Py.ltb target_value sum_lower then
    let sum_lower_original := Py.sum current_lower_bounds in
    HELP_sum <- help_sum (target_value - sum_lower) (sum_lower_original - sum_lower) ;;
    Ok (table_assign result s0 s1 start_index (end_index + 1)
          (map (fun j => nth j alternative_lower_bounds 0
                         + HELP_sum * (nth j current_lower_bounds 0
                                       - nth j alternative_lower_bounds 0))
               (seq 0 (end_index - start_index + 1))))
  else if Py.ltb sum_upper target_value then
    let sum_upper_original := Py.sum current_upper_bounds in
    HELP_sum <- help_sum (target_value - sum_upper) (sum_upper_original - sum_upper) ;;
    Ok (table_assign result s0 s1 start_index (end_index + 1)
          (map (fun j => nth j alternative_upper_bounds 0
                         + HELP_sum * (nth j current_upper_bounds 0
                                       - nth j alternative_upper_bounds 0))
               (seq 0 (end_index - start_index + 1))))
  else
    x <- QRAP_median (slice objective_par start_index (end_index + 1))
           alternative_lower_bounds alternative_upper_bounds target_value ;;
    Ok (table_assign result s0 s1 start_index (end_index + 1) x).

Definition option_list : list (bool * bool) :=
  [(false, false); (false, true); (true, false); (true, true)].

Fixpoint for_subcases (start_index new_index end_index : nat)
    (subcases : list (bool * bool)) (result : table) : Py.result table :=
  match subcases with
  | [] => Ok result
  | subcase :: rest =>
      r <- MDA_subcase start_index new_index end_index result subcase ;;
      for_subcases start_index new_index end_index rest r
  end.

(** [MDA(start_index,end_index,result)] for [start_index <= end_index];
    [depth] bounds the nesting of the recursive calls. *)
Fixpoint MDA (depth : nat) (start_index end_index : nat) (result : table)
  : Py.result table :=
  match depth with
  | O => Timeout
  | S depth' =>
      if (start_index =? end_index)%nat then MDA_single start_index result
      else
        let new_index := ((start_index + end_index) / 2)%nat in
        r <- MDA depth' start_index new_index result ;;
        r <- MDA depth' (new_index + 1) end_index r ;;
        for_subcases start_index new_index end_index option_list r
  end.

(** With no variable the first call is [MDA(0,-1,result)]: its midpoint
    is [floor(-1/2) = -1] and it calls itself with the same arguments
    until the call stack is used up. *)
Definition QRAP_NC_decomposition (depth : nat) : Py.result (list Q) :=
  match length objective_par with
  | O => Timeout
  | S last => main_result <- MDA depth 0 last (zeros (S last)) ;; Ok (main_result false true)
  end.

End Decomposition.

(** ** QRAP_NC_seq *)

(** The five lists of the caller.  [QRAP_NC_seq] writes into them, so it
    takes them as a store and hands the store back. *)
Record arrays : Type := {
  objective_par : list Q;
  lower_bound : list Q;
  upper_bound : list Q;
  lower_nested : list Q;
  upper_nested : list Q
}.

(** Statements over the store: an exception leaves the store as it was
    when it was raised. *)
Definition stmt (A : Type) : Type := arrays -> result A * arrays.

Definition pure {A : Type} (r : result A) : stmt A := fun s => (r, s).

Definition seqn {A B : Type} (m : stmt A) (k : A -> stmt B) : stmt B :=
  fun s =>
    match m s with
    | (Ok a, s') => k a s'
    | (Raise e, s') => (Raise e, s')
    | (Timeout, s') => (Timeout, s')
    end.

Notation "x <~ m ;; k" := (seqn m (fun x => k))
  (at level 61, m at next level, right associativity).

Definition read (field : arrays -> list Q) (i : nat) : stmt Q :=
  fun s => (get (field s) i, s).

Definition with_lower_bound (s : arrays) (xs : list Q) : arrays :=
  {| objective_par := objective_par s; lower_bound := xs;
     upper_bound := upper_bound s; lower_nested := lower_nested s;
     upper_nested := upper_nested s |}.

Definition with_upper_bound (s : arrays) (xs : list Q) : arrays :=
  {| objective_par := objective_par s; lower_bound := lower_bound s;
     upper_bound := xs; lower_nested := lower_nested s;
     upper_nested := upper_nested s |}.

Definition with_lower_nested (s : arrays) (xs : list Q) : arrays :=
  {| objective_par := objective_par s; lower_bound := lower_bound s;
     upper_bound := upper_bound s; lower_nested := xs;
     upper_nested := upper_nested s |}.

Definition with_upper_nested (s : arrays) (xs : list Q) : arrays :=
  {| objective_par := objective_par s; lower_bound := lower_bound s;
     upper_bound := upper_bound s; lower_nested := lower_nested s;
     upper_nested := xs |}.

Definition write (field : arrays -> list Q) (update : arrays -> list Q -> arrays)
    (i : nat) (v : Q) : stmt unit :=
  fun s =>
    match Py.set (field s) i v with
    | Ok xs => (Ok tt, update s xs)
    | Raise e => (Raise e, s)
    | Timeout => (Timeout, s)
    end.

(** Lines 186-189: the four assignments at index 0. *)
Definition tighten_first : stmt unit :=
  L0 <~ read lower_nested 0 ;; l0 <~ read lower_bound 0 ;;
  _ <~ write lower_nested with_lower_nested 0 (Py.max L0 l0) ;;
  U0 <~ read upper_nested 0 ;; u0 <~ read upper_bound 0 ;;
  _ <~ write upper_nested with_upper_nested 0 (Py.min U0 u0) ;;
  L0 <~ read lower_nested 0 ;; l0 <~ read lower_bound 0 ;;
  _ <~ write lower_bound with_lower_bound 0 (Py.max L0 l0) ;;
  U0 <~ read upper_nested 0 ;; u0 <~ read upper_bound 0 ;;
  write upper_bound with_upper_bound 0 (Py.min U0 u0).

(** Lines 191-194: the body of the first loop, for one [j >= 1]. *)
Definition tighten_at (j : nat) : stmt unit :=
  Lp <~ read lower_nested (j - 1) ;; l <~ read lower_bound j ;;
  L <~ read lower_nested j ;;
  _ <~ (if Py.ltb L (Lp + l) then
          Lp <~ read lower_nested (j - 1) ;; l <~ read lower_bound j ;;
          write lower_nested with_lower_nested j (Lp + l)
        else pure (Ok tt)) ;;
  Up <~ read upper_nested (j - 1) ;; u <~ read upper_bound j ;;
  U <~ read upper_nested j ;;
  if Py.ltb (Up + u) U then
    Up <~ read upper_nested (j - 1) ;; u <~ read upper_bound j ;;
    write upper_nested with_upper_nested j (Up + u)
  else pure (Ok tt).

Fixpoint for_each (body : nat -> stmt unit) (js : list nat) : stmt unit :=
  match js with
  | [] => pure (Ok tt)
  | j :: rest => _ <~ body j ;; for_each body rest
  end.

(** "Initialization of parameters". *)
Definition tighten : stmt unit :=
  fun s =>
    (_ <~ tighten_first ;;
     for_each tighten_at (seq 1 (length (objective_par s) - 1))) s.

(** *** The sweep *)

(** [xs[i] = v] on a list the function owns, [i] being in range. *)
Fixpoint upd {A : Type} (xs : list A) (i : nat) (v : A) : list A :=
  match xs, i with
  | [], _ => []
  | _ :: t, O => v :: t
  | x :: t, S i' => x :: upd t i' v
  end.

(** A [heapq] heap of [[value, index]] entries.  What the program sees
    of a heap is its least entry [heap[0]], in the order of Python lists,
    and what [heappop] leaves: the heap is kept here as the sorted list
    of its entries. *)
Definition heap : Type := list (Q * nat).

Definition entry_ltb (x y : Q * nat) : bool :=
  Py.ltb (fst x) (fst y) || (Qeq_bool (fst x) (fst y) && (snd x <? snd y)%nat).

Fixpoint heappush (h : heap) (x : Q * nat) : heap :=
  match h with
  | [] => [x]
  | y :: t => if entry_ltb y x then y :: heappush t x else x :: h
  end.

Definition heappop (h : heap) : result heap :=
  match h with
  | [] => Raise IndexError
  | _ :: t => Ok t
  end.

(** The [while FLAG_find_01 == 0] loops: pop the entries whose flag is
    set, stop at the first live entry. *)
Fixpoint first_live (Removed : list bool) (h : heap) : result ((Q * nat) * heap) :=
  match h with
  | [] => Raise IndexError
  | candidate :: t =>
      if nth (snd candidate) Removed false then first_live Removed t
      else Ok (candidate, h)
  end.

Definition get_index (xs : list nat) (i : nat) : result nat :=
  match nth_error xs i with
  | Some x => Ok x
  | None => Raise IndexError
  end.

Definition popleft (d : list nat) : result (list nat) :=
  match d with
  | [] => Raise IndexError
  | _ :: t => Ok t
  end.

Definition pop (d : list nat) : result (list nat) :=
  match d with
  | [] => Raise IndexError
  | _ => Ok (removelast d)
  end.

(** The lists kept per direction (lower or upper subproblem). *)
Record side : Type := {
  opt_multiplier : list Q;
  opt_multiplier_deque : list nat;
  num_opt_multiplier_deque : nat;
  fixed_ : list Q;
  free_ : list Q
}.

(** The initial breakpoints of one kind (lower or upper). *)
Record breakpoint_set : Type := {
  heap_min : heap;
  heap_max : heap;
  num_breakpoints_heap : nat;
  Removed_BP : list bool
}.

Record sweep_state : Type := {
  lower : side;
  upper : side;
  lower_BP : breakpoint_set;
  upper_BP : breakpoint_set
}.

Definition lower_opt_multiplier st := opt_multiplier (lower st).
Definition upper_opt_multiplier st := opt_multiplier (upper st).
Definition lower_fixed st := fixed_ (lower st).
Definition upper_fixed st := fixed_ (upper st).
Definition lower_free st := free_ (lower st).
Definition upper_free st := free_ (upper st).
Definition lower_opt_multiplier_deque st := opt_multiplier_deque (lower st).
Definition upper_opt_multiplier_deque st := opt_multiplier_deque (upper st).
Definition num_lower_opt_multiplier_deque st := num_opt_multiplier_deque (lower st).
Definition num_upper_opt_multiplier_deque st := num_opt_multiplier_deque (upper st).
Definition num_lower_breakpoints_heap st := num_breakpoints_heap (lower_BP st).
Definition num_upper_breakpoints_heap st := num_breakpoints_heap (upper_BP st).

Definition with_lower st x :=
  {| lower := x; upper := upper st; lower_BP := lower_BP st; upper_BP := upper_BP st |}.
Definition with_upper st x :=
  {| lower := lower st; upper := x; lower_BP := lower_BP st; upper_BP := upper_BP st |}.
Definition with_lower_BP st x :=
  {| lower := lower st; upper := upper st; lower_BP := x; upper_BP := upper_BP st |}.
Definition with_upper_BP st x :=
  {| lower := lower st; upper := upper st; lower_BP := lower_BP st; upper_BP := x |}.

(** [opt_multiplier[j] = m; fixed[j] = fx; free[j] = fr] followed by
    [deque.appendleft(j)] or [deque.append(j)]. *)
Definition close_side (front : bool) (j : nat) (m fx fr : Q) (sd : side) : side :=
  {| opt_multiplier := upd (opt_multiplier sd) j m;
     opt_multiplier_deque :=
       if front then j :: opt_multiplier_deque sd else opt_multiplier_deque sd ++ [j];
     num_opt_multiplier_deque := S (num_opt_multiplier_deque sd);
     fixed_ := upd (fixed_ sd) j fx;
     free_ := upd (free_ sd) j fr |}.

Definition with_deque (sd : side) (d : list nat) (num : nat) : side :=
  {| opt_multiplier := opt_multiplier sd;
     opt_multiplier_deque := d;
     num_opt_multiplier_deque := num;
     fixed_ := fixed_ sd;
     free_ := free_ sd |}.

Definition with_heap_min (b : breakpoint_set) (h : heap) : breakpoint_set :=
  {| heap_min := h; heap_max := heap_max b;
     num_breakpoints_heap := num_breakpoints_heap b; Removed_BP := Removed_BP b |}.

Definition with_heap_max (b : breakpoint_set) (h : heap) : breakpoint_set :=
  {| heap_min := heap_min b; heap_max := h;
     num_breakpoints_heap := num_breakpoints_heap b; Removed_BP := Removed_BP b |}.

(** [num += 1] and the two [heappush] of one initial breakpoint. *)
Definition add_breakpoint (b : breakpoint_set) (value : Q) (j : nat) : breakpoint_set :=
  {| heap_min := heappush (heap_min b) (value, j);
     heap_max := heappush (heap_max b) (- value, j);
     num_breakpoints_heap := S (num_breakpoints_heap b);
     Removed_BP := Removed_BP b |}.

(** [Removed[k] = 1], one [heappop] and [num -= 1]. *)
Definition remove_min (b : breakpoint_set) (k : nat) : result breakpoint_set :=
  h <- heappop (heap_min b) ;;
  Ok {| heap_min := h; heap_max := heap_max b;
        num_breakpoints_heap := pred (num_breakpoints_heap b);
        Removed_BP := upd (Removed_BP b) k true |}.

Definition remove_max (b : breakpoint_set) (k : nat) : result breakpoint_set :=
  h <- heappop (heap_max b) ;;
  Ok {| heap_min := heap_min b; heap_max := h;
        num_breakpoints_heap := pred (num_breakpoints_heap b);
        Removed_BP := upd (Removed_BP b) k true |}.

(** [Type_next_breakpoint]: 1 to 4. *)
Inductive breakpoint_type : Type :=
| LowerInitial | UpperInitial | LowerMultiplier | UpperMultiplier.

(** The running best candidate: [None] while [current_minimum_value] is
    [math.inf] (or [current_maximum_value] is [-math.inf]). *)
Definition best : Type := option (Q * nat * breakpoint_type).

Definition improve_min (cur : best) (value : Q) (index : nat) (ty : breakpoint_type) : best :=
  match cur with
  | None => Some (value, index, ty)
  | Some (current_minimum_value, _, _) =>
      if Py.ltb value current_minimum_value then Some (value, index, ty) else cur
  end.

Definition improve_max (cur : best) (value : Q) (index : nat) (ty : breakpoint_type) : best :=
  match cur with
  | None => Some (value, index, ty)
  | Some (current_maximum_value, _, _) =>
      if Py.ltb current_maximum_value value then Some (value, index, ty) else cur
  end.
Section Sweep.

(** The caller's lists after [tighten], and the two breakpoint lists.
    [tighten] and the breakpoint comprehensions have read every index
    below [num_var], so the reads below are in range. *)
Variables (a l u L U : list Q).
Variables (lower_breakpoints upper_breakpoints : list Q).

Let a' (j : nat) := nth j a 0.
Let l' (j : nat) := nth j l 0.
Let u' (j : nat) := nth j u 0.
Let L' (j : nat) := nth j L 0.
Let U' (j : nat) := nth j U 0.
Let lbp (j : nat) := nth j lower_breakpoints 0.
Let ubp (j : nat) := nth j upper_breakpoints 0.

(** "Apply initial checks for lower problem".  The second component is
    [Some (lower_fixed_help, lower_free_help)] when [FLAG_lower = 1]. *)
Definition lower_check (j : nat) (st : sweep_state)
  : result (sweep_state * option (Q * Q)) :=
  let sd := lower st in
  let prev := nth (j - 1) (opt_multiplier sd) 0 in
  let Help_par := L' (j - 1) + clip (l' j) (u' j) (a' j * prev) in
  if Qeq_bool Help_par (L' j) then
    d <- (if (0 <? num_opt_multiplier_deque sd)%nat then
            d0 <- get_index (opt_multiplier_deque sd) 0 ;;
            Ok (if (d0 =? j - 1)%nat then upd (opt_multiplier_deque sd) 0 j
                else opt_multiplier_deque sd)
          else Ok (opt_multiplier_deque sd)) ;;
    let fx := nth (j - 1) (fixed_ sd) 0 in
    let fr := nth (j - 1) (free_ sd) 0 in
    let '(fx, fr) :=
      if Py.ltb prev (lbp j) then (fx + l' j, fr)
      else if Py.ltb (ubp j) prev then (fx + u' j, fr)
      else (fx, fr + a' j) in
    Ok (with_lower st
          {| opt_multiplier := upd (opt_multiplier sd) j prev;
             opt_multiplier_deque := d;
             num_opt_multiplier_deque := num_opt_multiplier_deque sd;
             fixed_ := upd (fixed_ sd) j fx;
             free_ := upd (free_ sd) j fr |}, None)
  else if Py.ltb (L' j) Help_par then
    m <- div (L' j - L' (j - 1)) (a' j) ;;
    Ok (with_lower st (close_side true j m (L' (j - 1)) (a' j) sd), None)
  else
    sd' <- (if (0 <? num_opt_multiplier_deque sd)%nat then
              d0 <- get_index (opt_multiplier_deque sd) 0 ;;
              if (d0 =? j - 1)%nat then
                d <- popleft (opt_multiplier_deque sd) ;;
                Ok (with_deque sd d (pred (num_opt_multiplier_deque sd)))
              else Ok sd
            else Ok sd) ;;
    Ok (with_lower st sd',
        Some (nth (j - 1) (fixed_ sd) 0, nth (j - 1) (free_ sd) 0)).

(** "Apply initial checks for upper problem". *)
Definition upper_check (j : nat) (st : sweep_state)
  : result (sweep_state * option (Q * Q)) :=
  let sd := upper st in
  let last := (num_opt_multiplier_deque sd - 1)%nat in
  let prev := nth (j - 1) (opt_multiplier sd) 0 in
  let Help_par := U' (j - 1) + clip (l' j) (u' j) (a' j * prev) in
  if Qeq_bool Help_par (U' j) then
    d <- (if (0 <? num_opt_multiplier_deque sd)%nat then
            d0 <- get_index (opt_multiplier_deque sd) last ;;
            Ok (if (d0 =? j - 1)%nat then upd (opt_multiplier_deque sd) last j
                else opt_multiplier_deque sd)
          else Ok (opt_multiplier_deque sd)) ;;
    let fx := nth (j - 1) (fixed_ sd) 0 in
    let fr := nth (j - 1) (free_ sd) 0 in
    let '(fx, fr) :=
      if Py.ltb (ubp j) prev then (fx + u' j, fr)
      else if Py.ltb prev (lbp j) then (fx + l' j, fr)
      else (fx, fr + a' j) in
    Ok (with_upper st
          {| opt_multiplier := upd (opt_multiplier sd) j prev;
             opt_multiplier_deque := d;
             num_opt_multiplier_deque := num_opt_multiplier_deque sd;
             fixed_ := upd (fixed_ sd) j fx;
             free_ := upd (free_ sd) j fr |}, None)
  else if Py.ltb Help_par (U' j) then
    m <- div (U' j - U' (j - 1)) (a' j) ;;
    Ok (with_upper st (close_side false j m (U' (j - 1)) (a' j) sd), None)
  else
    sd' <- (if (0 <? num_opt_multiplier_deque sd)%nat then
              d0 <- get_index (opt_multiplier_deque sd) last ;;
              if (d0 =? j - 1)%nat then
                d <- pop (opt_multiplier_deque sd) ;;
                Ok (with_deque sd d (pred (num_opt_multiplier_deque sd)))
              else Ok sd
            else Ok sd) ;;
    Ok (with_upper st sd',
        Some (nth (j - 1) (fixed_ sd) 0, nth (j - 1) (free_ sd) 0)).

(** "If needed: add lower and upper breakpoints for j". *)
Definition add_breakpoints (j : nat) (FLAG_lower FLAG_upper : bool)
    (st : sweep_state) : sweep_state :=
  let Threshold_lower :=
    if FLAG_lower then nth (j - 1) (lower_opt_multiplier st) 0
    else nth j (lower_opt_multiplier st) 0 in
  let Threshold_upper :=
    if FLAG_upper then nth (j - 1) (upper_opt_multiplier st) 0
    else nth j (upper_opt_multiplier st) 0 in
  let st :=
    if Py.ltb Threshold_lower (lbp j - eps6)
       && Qle_bool (lbp j) (Threshold_upper - eps6)
    then with_lower_BP st (add_breakpoint (lower_BP st) (lbp j) j)
    else st in
  if Qle_bool Threshold_lower (ubp j - eps6)
     && Py.ltb (ubp j) (Threshold_upper - eps6)
  then with_upper_BP st (add_breakpoint (upper_BP st) (ubp j) j)
  else st.

(** "Determine next candidate breakpoint" of the lower search: the
    least of the four least candidates. *)
Definition lower_candidates (st : sweep_state) : result (sweep_state * best) :=
  p <- (if (0 <? num_lower_breakpoints_heap st)%nat then
          c <- first_live (Removed_BP (lower_BP st)) (heap_min (lower_BP st)) ;;
          Ok (with_lower_BP st (with_heap_min (lower_BP st) (snd c)),
              improve_min None (fst (fst c)) (snd (fst c)) LowerInitial)
        else Ok (st, None)) ;;
  let '(st, cur) := p in
  p <- (if (0 <? num_upper_breakpoints_heap st)%nat then
          c <- first_live (Removed_BP (upper_BP st)) (heap_min (upper_BP st)) ;;
          Ok (with_upper_BP st (with_heap_min (upper_BP st) (snd c)),
              improve_min cur (fst (fst c)) (snd (fst c)) UpperInitial)
        else Ok (st, cur)) ;;
  let '(st, cur) := p in
  cur <- (if (0 <? num_lower_opt_multiplier_deque st)%nat then
            k <- get_index (lower_opt_multiplier_deque st) 0 ;;
            Ok (improve_min cur (nth k (lower_opt_multiplier st) 0) k LowerMultiplier)
          else Ok cur) ;;
  cur <- (if (0 <? num_upper_opt_multiplier_deque st)%nat then
            k <- get_index (upper_opt_multiplier_deque st) 0 ;;
            Ok (improve_min cur (nth k (upper_opt_multiplier st) 0) k UpperMultiplier)
          else Ok cur) ;;
  Ok (st, cur).

(** The same for the upper search: the greatest of the four greatest
    candidates; the max-heaps hold the negated values. *)
Definition upper_candidates (st : sweep_state) : result (sweep_state * best) :=
  p <- (if (0 <? num_lower_breakpoints_heap st)%nat then
          c <- first_live (Removed_BP (lower_BP st)) (heap_max (lower_BP st)) ;;
          Ok (with_lower_BP st (with_heap_max (lower_BP st) (snd c)),
              improve_max None (- fst (fst c)) (snd (fst c)) LowerInitial)
        else Ok (st, None)) ;;
  let '(st, cur) := p in
  p <- (if (0 <? num_upper_breakpoints_heap st)%nat then
          c <- first_live (Removed_BP (upper_BP st)) (heap_max (upper_BP st)) ;;
          Ok (with_upper_BP st (with_heap_max (upper_BP st) (snd c)),
              improve_max cur (- fst (fst c)) (snd (fst c)) UpperInitial)
        else Ok (st, cur)) ;;
  let '(st, cur) := p in
  cur <- (if (0 <? num_lower_opt_multiplier_deque st)%nat then
            k <- get_index (lower_opt_multiplier_deque st)
                   (num_lower_opt_multiplier_deque st - 1) ;;
            Ok (improve_max cur (nth k (lower_opt_multiplier st) 0) k LowerMultiplier)
          else Ok cur) ;;
  cur <- (if (0 <? num_upper_opt_multiplier_deque st)%nat then
            k <- get_index (upper_opt_multiplier_deque st)
                   (num_upper_opt_multiplier_deque st - 1) ;;
            Ok (improve_max cur (nth k (upper_opt_multiplier st) 0) k UpperMultiplier)
          else Ok cur) ;;
  Ok (st, cur).

(** The two places of the lower search where the multiplier is the
    quotient by [lower_free_help] (lines 380 and 397). *)
Definition lower_close (j : nat) (st : sweep_state)
    (lower_fixed_help lower_free_help : Q) : result sweep_state :=
  m <- div (L' j - lower_fixed_help) lower_free_help ;;
  Ok (with_lower st (close_side true j m lower_fixed_help lower_free_help (lower st))).

(** The same of the upper search (lines 495 and 512). *)
Definition upper_close (j : nat) (st : sweep_state)
    (upper_fixed_help upper_free_help : Q) : result sweep_state :=
  m <- div (U' j - upper_fixed_help) upper_free_help ;;
  Ok (with_upper st (close_side false j m upper_fixed_help upper_free_help (upper st))).

(** The last [else] of the lower search: the candidate is passed. *)
Definition lower_pass (st : sweep_state) (fx fr candidate_breakpoint : Q)
    (k : nat) (ty : breakpoint_type) : result (sweep_state * (Q * Q)) :=
  match ty with
  | LowerInitial =>
      b <- remove_min (lower_BP st) k ;;
      Ok (with_lower_BP st b, (fx - l' k, fr + a' k))
  | UpperInitial =>
      b <- remove_min (upper_BP st) k ;;
      Ok (with_upper_BP st b, (fx + u' k, fr - a' k))
  | LowerMultiplier =>
      d <- popleft (lower_opt_multiplier_deque st) ;;
      Ok (with_lower st (with_deque (lower st) d (pred (num_lower_opt_multiplier_deque st))),
          (fx - nth k (lower_free st) 0 * candidate_breakpoint,
           fr + nth k (lower_free st) 0))
  | UpperMultiplier =>
      d <- popleft (upper_opt_multiplier_deque st) ;;
      Ok (with_upper st (with_deque (upper st) d (pred (num_upper_opt_multiplier_deque st))),
          (fx + nth k (upper_free st) 0 * candidate_breakpoint,
           fr - nth k (upper_free st) 0))
  end.

Definition upper_pass (st : sweep_state) (fx fr candidate_breakpoint : Q)
    (k : nat) (ty : breakpoint_type) : result (sweep_state * (Q * Q)) :=
  match ty with
  | LowerInitial =>
      b <- remove_max (lower_BP st) k ;;
      Ok (with_lower_BP st b, (fx + l' k, fr - a' k))
  | UpperInitial =>
      b <- remove_max (upper_BP st) k ;;
      Ok (with_upper_BP st b, (fx - u' k, fr + a' k))
  | LowerMultiplier =>
      d <- pop (lower_opt_multiplier_deque st) ;;
      Ok (with_lower st (with_deque (lower st) d (pred (num_lower_opt_multiplier_deque st))),
          (fx + nth k (lower_free st) 0 * candidate_breakpoint,
           fr - nth k (lower_free st) 0))
  | UpperMultiplier =>
      d <- pop (upper_opt_multiplier_deque st) ;;
      Ok (with_upper st (with_deque (upper st) d (pred (num_upper_opt_multiplier_deque st))),
          (fx - nth k (upper_free st) 0 * candidate_breakpoint,
           fr + nth k (upper_free st) 0))
  end.

(** [while FLAG_found == 0] of the lower problem. *)
Fixpoint lower_search (fuel : nat) (j : nat) (st : sweep_state)
    (lower_fixed_help lower_free_help : Q) : result sweep_state :=
  match fuel with
  | O => Timeout
  | S fuel' =>
      p <- lower_candidates st ;;
      let '(st, cur) := p in
      match cur with
      | None => lower_close j st lower_fixed_help lower_free_help
      | Some (candidate_breakpoint, candidate_breakpoint_index, ty) =>
          let Summed_variables := lower_fixed_help + lower_free_help * candidate_breakpoint in
          if Qle_bool (Qabs (Summed_variables - L' j)) eps6 then
            Ok (with_lower st
                  (close_side true j candidate_breakpoint
                     lower_fixed_help lower_free_help (lower st)))
          else if Py.ltb (L' j) Summed_variables then
            lower_close j st lower_fixed_help lower_free_help
          else
            q <- lower_pass st lower_fixed_help lower_free_help
                   candidate_breakpoint candidate_breakpoint_index ty ;;
            lower_search fuel' j (fst q) (fst (snd q)) (snd (snd q))
      end
  end.

(** [while FLAG_found == 0] of the upper problem. *)
Fixpoint upper_search (fuel : nat) (j : nat) (st : sweep_state)
    (upper_fixed_help upper_free_help : Q) : result sweep_state :=
  match fuel with
  | O => Timeout
  | S fuel' =>
      p <- upper_candidates st ;;
      let '(st, cur) := p in
      match cur with
      | None => upper_close j st upper_fixed_help upper_free_help
      | Some (candidate_breakpoint, candidate_breakpoint_index, ty) =>
          let Summed_variables := upper_fixed_help + upper_free_help * candidate_breakpoint in
          if Qle_bool (Qabs (Summed_variables - U' j)) eps6 then
            Ok (with_upper st
                  (close_side false j candidate_breakpoint
                     upper_fixed_help upper_free_help (upper st)))
          else if Py.ltb Summed_variables (U' j) then
            upper_close j st upper_fixed_help upper_free_help
          else
            q <- upper_pass st upper_fixed_help upper_free_help
                   candidate_breakpoint candidate_breakpoint_index ty ;;
            upper_search fuel' j (fst q) (fst (snd q)) (snd (snd q))
      end
  end.

(** Every pass of a search that does not close it pops one entry of a
    heap or of a deque: one more than their sizes is fuel enough. *)
Definition lower_search_fuel (st : sweep_state) : nat :=
  S (length (heap_min (lower_BP st)) + length (heap_min (upper_BP st))
     + length (lower_opt_multiplier_deque st) + length (upper_opt_multiplier_deque st)).

Definition upper_search_fuel (st : sweep_state) : nat :=
  S (length (heap_max (lower_BP st)) + length (heap_max (upper_BP st))
     + length (lower_opt_multiplier_deque st) + length (upper_opt_multiplier_deque st)).

(** "If required: prepare for breakpoint search for the lower
    subproblem" and the search. *)
Definition lower_problem (j : nat) (st : sweep_state) (help : Q * Q)
  : result sweep_state :=
  let prev := nth (j - 1) (lower_opt_multiplier st) 0 in
  let '(lower_fixed_help, lower_free_help) :=
    if Py.ltb prev (lbp j) then (nth (j - 1) (lower_fixed st) 0 + l' j, snd help)
    else if Py.ltb prev (ubp j) then (fst help, nth (j - 1) (lower_free st) 0 + a' j)
    else (nth (j - 1) (lower_fixed st) 0 + u' j, snd help) in
  lower_search (lower_search_fuel st) j st lower_fixed_help lower_free_help.

Definition upper_problem (j : nat) (st : sweep_state) (help : Q * Q)
  : result sweep_state :=
  let prev := nth (j - 1) (upper_opt_multiplier st) 0 in
  let '(upper_fixed_help, upper_free_help) :=
    if Py.ltb (ubp j) prev then (nth (j - 1) (upper_fixed st) 0 + u' j, snd help)
    else if Py.ltb (lbp j) prev then (fst help, nth (j - 1) (upper_free st) 0 + a' j)
    else (nth (j - 1) (upper_fixed st) 0 + l' j, snd help) in
  upper_search (upper_search_fuel st) j st upper_fixed_help upper_free_help.

(** The body of "Start the sequential procedures!" for one [j]. *)
Definition sweep_step (j : nat) (st : sweep_state) : result sweep_state :=
  p <- lower_check j st ;;
  let '(st, lower_help) := p in
  p <- upper_check j st ;;
  let '(st, upper_help) := p in
  let FLAG_lower := match lower_help with Some _ => true | None => false end in
  let FLAG_upper := match upper_help with Some _ => true | None => false end in
  let st := add_breakpoints j FLAG_lower FLAG_upper st in
  st <- match lower_help with
        | Some help => lower_problem j st help
        | None => Ok st
        end ;;
  match upper_help with
  | Some help => upper_problem j st help
  | None => Ok st
  end.

Fixpoint sweep (js : list nat) (st : sweep_state) : result sweep_state :=
  match js with
  | [] => Ok st
  | j :: rest => st' <- sweep_step j st ;; sweep rest st'
  end.

(** *** The backward pass *)

(** The three-way comparison against the range narrowed at [j+1]. *)
Definition narrow_multiplier (lower_j upper_j next : Q) : Q :=
  if Qle_bool upper_j next then upper_j
  else if Qle_bool next lower_j then lower_j
  else next.

(** The [if]/[elif]/[else] that sets [opt_lower[j]] and [opt_upper[j]]. *)
Definition opt_value (j : nat) (m : Q) : Q :=
  if Py.ltb (a' j * m) (l' j) then l' j
  else if Py.ltb (u' j) (a' j * m) then u' j
  else a' j * m.

Record backward_state : Type := {
  lower_opt_multiplier_new : list Q;
  upper_opt_multiplier_new : list Q;
  opt_lower : list Q;
  opt_upper : list Q
}.

Definition backward_step (st : sweep_state) (b : backward_state) (j : nat)
  : backward_state :=
  let lo := narrow_multiplier (nth j (lower_opt_multiplier st) 0)
              (nth j (upper_opt_multiplier st) 0)
              (nth (j + 1) (lower_opt_multiplier_new b) 0) in
  let hi := narrow_multiplier (nth j (lower_opt_multiplier st) 0)
              (nth j (upper_opt_multiplier st) 0)
              (nth (j + 1) (upper_opt_multiplier_new b) 0) in
  {| lower_opt_multiplier_new := upd (lower_opt_multiplier_new b) j lo;
     upper_opt_multiplier_new := upd (upper_opt_multiplier_new b) j hi;
     opt_lower := upd (opt_lower b) j (opt_value j lo);
     opt_upper := upd (opt_upper b) j (opt_value j hi) |}.

Definition backward_init (num_var : nat) (st : sweep_state) : backward_state :=
  let last := (num_var - 1)%nat in
  let lo := nth last (lower_opt_multiplier st) 0 in
  let hi := nth last (upper_opt_multiplier st) 0 in
  {| lower_opt_multiplier_new := upd (repeat 0 num_var) last lo;
     upper_opt_multiplier_new := upd (repeat 0 num_var) last hi;
     opt_lower := upd (repeat 0 num_var) last (clip (l' last) (u' last) (a' last * lo));
     opt_upper := upd (repeat 0 num_var) last (clip (l' last) (u' last) (a' last * hi)) |}.

(** [for j in range(num_var - 2,-1,-1)] *)
Definition backward (num_var : nat) (st : sweep_state) : backward_state :=
  fold_left (backward_step st) (rev (seq 0 (num_var - 1))) (backward_init num_var st).

(** "Compute optimal solution". *)
Definition solution (num_var : nat) (b : backward_state) : list Q :=
  if Qeq_bool (L' (num_var - 1)) (U' (num_var - 1)) then opt_lower b
  else map (fun j => Py.max (nth j (opt_lower b) 0)
                            (Py.min (nth j (opt_upper b) 0) (a' j * 0)))
           (seq 0 num_var).

(** The state before the sweep. *)
Definition sweep_init (num_var : nat) (lower0 upper0 : Q) : sweep_state :=
  let new_side (m : Q) :=
    {| opt_multiplier := upd (repeat 0 num_var) 0 m;
       opt_multiplier_deque := [0%nat];
       num_opt_multiplier_deque := 1;
       fixed_ := repeat 0 num_var;
       free_ := upd (repeat 0 num_var) 0 (a' 0) |} in
  let no_breakpoints :=
    {| heap_min := []; heap_max := []; num_breakpoints_heap := 0;
       Removed_BP := repeat false num_var |} in
  {| lower := new_side lower0; upper := new_side upper0;
     lower_BP := no_breakpoints; upper_BP := no_breakpoints |}.

End Sweep.

(** Everything of [QRAP_NC_seq] after the tightening: it only reads the
    caller's lists. *)
Definition seq_solve (s : arrays) : result (list Q) :=
  let a := objective_par s in
  let l := lower_bound s in
  let u := upper_bound s in
  let num_var := length a in
  lower_breakpoints <- breakpoints a l ;;
  upper_breakpoints <- breakpoints a u ;;
  lower0 <- get lower_breakpoints 0 ;;
  upper0 <- get upper_breakpoints 0 ;;
  st <- sweep a l u (lower_nested s) (upper_nested s)
          lower_breakpoints upper_breakpoints
          (seq 1 (num_var - 1)) (sweep_init a num_var lower0 upper0) ;;
  Ok (solution a (lower_nested s) (upper_nested s) num_var
        (backward a l u num_var st)).

(** The solver on a store: the result and the store it leaves. *)
Definition QRAP_NC_seq (s : arrays) : result (list Q) * arrays :=
  match tighten s with
  | (Ok _, s') => (seq_solve s', s')
  | (Raise e, s') => (Raise e, s')
  | (Timeout, s') => (Timeout, s')
  end.

Definition instance (a l u L U : list Q) : arrays :=
  {| objective_par := a; lower_bound := l; upper_bound := u;
     lower_nested := L; upper_nested := U |}.

(** ** The solvers in binary64 *)

(** [QRAP_median], [QRAP_NC_infeasible] and [QRAP_NC_decomposition] once
    more, with the numbers of the program: Python floats, that is
    IEEE 754 binary64 ([PrimFloat]), rounded to nearest at every
    operation.  The definitions repeat the ones above statement by
    statement; only the numbers differ.  [math.inf] is [infinity]; the
    accumulators that start from the int [0] start from [0.0], which is
    what the first [+=] of a float makes of them; [10**(-6)] and
    [pow(10,-5)] are the doubles nearest to [10^-6] and [10^-5]; [x / y]
    raises [ZeroDivisionError] for [y == 0] and rounds otherwise. *)
Module B64.

Import PrimFloat.
Local Open Scope float_scope.

Definition eps6 : float := 0x1.0c6f7a0b5ed8dp-20.   (* 10**(-6) *)
Definition eps5 : float := 0x1.4f8b588e368f1p-17.   (* pow(10,-5) *)

Definition get (xs : list float) (i : nat) : result float :=
  match nth_error xs i with
  | Some x => Ok x
  | None => Raise IndexError
  end.

Definition div (x y : float) : result float :=
  if y =? 0 then Raise ZeroDivisionError else Ok (x / y).

Definition max (x y : float) : float := if x <? y then y else x.
Definition min (x y : float) : float := if y <? x then y else x.

Definition min_list (xs : list float) : result float :=
  match xs with
  | [] => Raise ValueError
  | x :: t => Ok (fold_left min t x)
  end.

Fixpoint insert (x : float) (xs : list float) : list float :=
  match xs with
  | [] => [x]
  | y :: t => if x <=? y then x :: xs else y :: insert x t
  end.

Definition sorted (xs : list float) : list float := fold_right insert [] xs.

Definition median (xs : list float) : result float :=
  let data := sorted xs in
  let n := length data in
  match n with
  | O => Raise StatisticsError
  | _ =>
      if Nat.odd n then Ok (nth (n / 2) data 0)
      else Ok ((nth (n / 2 - 1) data 0 + nth (n / 2) data 0) / 2)
  end.

Definition slice_assign (xs : list float) (i j : nat) (ys : list float)
  : list float :=
  firstn i xs ++ ys ++ skipn j xs.

Definition slice (xs : list float) (i j : nat) : list float :=
  firstn (j - i) (skipn i xs).

Definition clip (lo hi x : float) : float := max lo (min hi x).

Section Median.

Variables (objective_par lower_bound upper_bound : list float).
Variable (resource_value : float).

Let num_var := length objective_par.

Definition breakpoints (bound : list float) : result (list float) :=
  comprehension
    (fun j => b <- get bound j ;; a <- get objective_par j ;; div b a)
    (seq 0 num_var).

Record median_state : Type := {
  current_breakpoints : list float;
  num_current_breakpoints : nat;
  undecided_variables_indices : list nat;
  num_undecided_variables : nat;
  lower_breakpoint_bound : float;
  upper_breakpoint_bound : float;
  fixed : float;
  free : float
}.

Variables (lower_breakpoints upper_breakpoints : list float).

Definition lb (j : nat) := nth j lower_breakpoints 0.
Definition ub (j : nat) := nth j upper_breakpoints 0.
Definition l_ (j : nat) := nth j lower_bound 0.
Definition u_ (j : nat) := nth j upper_bound 0.
Definition a_ (j : nat) := nth j objective_par 0.

Definition candidate_term (candidate_breakpoint : float) (var_index : nat)
  : float :=
  if ub var_index <=? candidate_breakpoint then u_ var_index
  else if candidate_breakpoint <=? lb var_index then l_ var_index
  else a_ var_index * candidate_breakpoint.

Definition SummedVariables (st : median_state) (candidate_breakpoint : float)
  : float :=
  fold_left (fun s var_index => s + candidate_term candidate_breakpoint var_index)
            (undecided_variables_indices st) 0
  + (fixed st + free st * candidate_breakpoint).

Definition decide_one (lo hi : float)
    (acc : float * float * nat * list nat) (var_index : nat)
  : float * float * nat * list nat :=
  let '(fx, fr, num, new_undecided_variables) := acc in
  if ub var_index <=? lo then
    (fx + u_ var_index, fr, pred num, new_undecided_variables)
  else if (lb var_index <=? lo) && (hi <=? ub var_index) then
    (fx, fr + a_ var_index, pred num, new_undecided_variables)
  else if hi <=? lb var_index then
    (fx + l_ var_index, fr, pred num, new_undecided_variables)
  else
    (fx, fr, num, new_undecided_variables ++ [var_index]).

Definition decide (st : median_state) : median_state :=
  let '(fx, fr, num, new_undecided_variables) :=
    fold_left (decide_one (lower_breakpoint_bound st) (upper_breakpoint_bound st))
              (undecided_variables_indices st)
              (fixed st, free st, num_undecided_variables st, []) in
  {| current_breakpoints := current_breakpoints st;
     num_current_breakpoints := num_current_breakpoints st;
     undecided_variables_indices := new_undecided_variables;
     num_undecided_variables := num;
     lower_breakpoint_bound := lower_breakpoint_bound st;
     upper_breakpoint_bound := upper_breakpoint_bound st;
     fixed := fx;
     free := fr |}.

Definition narrow (st : median_state) (candidate_breakpoint s : float)
  : median_state :=
  if resource_value <? s then
    let bps := filter (fun BP => BP <? candidate_breakpoint) (current_breakpoints st) in
    {| current_breakpoints := bps;
       num_current_breakpoints := length bps;
       undecided_variables_indices := undecided_variables_indices st;
       num_undecided_variables := num_undecided_variables st;
       lower_breakpoint_bound := lower_breakpoint_bound st;
       upper_breakpoint_bound := candidate_breakpoint;
       fixed := fixed st;
       free := free st |}
  else
    let bps := filter (fun BP => candidate_breakpoint <? BP) (current_breakpoints st) in
    {| current_breakpoints := bps;
       num_current_breakpoints := length bps;
       undecided_variables_indices := undecided_variables_indices st;
       num_undecided_variables := num_undecided_variables st;
       lower_breakpoint_bound := candidate_breakpoint;
       upper_breakpoint_bound := upper_breakpoint_bound st;
       fixed := fixed st;
       free := free st |}.

Inductive loop_exit : Type :=
| Matched (opt_multiplier : float)
| Exhausted (st : median_state).

Fixpoint median_loop (fuel : nat) (st : median_state) : result loop_exit :=
  if (0 <? num_undecided_variables st)%nat && (0 <? num_current_breakpoints st)%nat then
    match fuel with
    | O => Timeout
    | S fuel' =>
        candidate_breakpoint <- median (current_breakpoints st) ;;
        let s := SummedVariables st candidate_breakpoint in
        if abs (s - resource_value) <=? eps6 then
          Ok (Matched candidate_breakpoint)
        else
          median_loop fuel' (decide (narrow st candidate_breakpoint s))
    end
  else Ok (Exhausted st).

Definition clipped (opt_multiplier : float) : list float :=
  map (fun j => clip (l_ j) (u_ j) (a_ j * opt_multiplier)) (seq 0 num_var).

Definition final_multiplier (st : median_state) : float :=
  if free st =? 0 then lower_breakpoint_bound st
  else (resource_value - fixed st) / free st.

Definition median_result (ex : loop_exit) : list float :=
  match ex with
  | Matched opt_multiplier => clipped opt_multiplier
  | Exhausted st => clipped (final_multiplier st)
  end.

Definition initial_state (lo : float) : median_state :=
  {| current_breakpoints := lower_breakpoints ++ upper_breakpoints;
     num_current_breakpoints := 2 * num_var;
     undecided_variables_indices := seq 0 num_var;
     num_undecided_variables := num_var;
     lower_breakpoint_bound := lo;
     upper_breakpoint_bound := infinity;
     fixed := 0;
     free := 0 |}.

End Median.

Definition QRAP_median (objective_par lower_bound upper_bound : list float)
    (resource_value : float) : result (list float) :=
  let num_var := length objective_par in
  lower_breakpoints <- breakpoints objective_par lower_bound ;;
  upper_breakpoints <- breakpoints objective_par upper_bound ;;
  lo <- min_list (lower_breakpoints ++ upper_breakpoints) ;;
  ex <- median_loop objective_par lower_bound upper_bound resource_value
          lower_breakpoints upper_breakpoints (2 * num_var)
          (initial_state objective_par lower_breakpoints upper_breakpoints lo) ;;
  Ok (median_result objective_par lower_bound upper_bound resource_value ex).

Record scan_state : Type := {
  VAR_sum : float;
  Violation_value : float;
  most_violated : option (violation_type * nat)
}.

Definition scan_step (lower_nested2 upper_nested2 Sol_vec : list float)
    (st : scan_state) (i : nat) : scan_state :=
  let s := VAR_sum st + nth i Sol_vec 0 in
  if nth i upper_nested2 0 + eps5 <? s then
    if Violation_value st <? s - nth i upper_nested2 0 then
      {| VAR_sum := s;
         Violation_value := s - nth i upper_nested2 0;
         most_violated := Some (UpperViolation, i) |}
    else
      {| VAR_sum := s; Violation_value := Violation_value st;
         most_violated := most_violated st |}
  else if s <? nth i lower_nested2 0 - eps5 then
    if Violation_value st <? nth i lower_nested2 0 - s then
      {| VAR_sum := s;
         Violation_value := nth i lower_nested2 0 - s;
         most_violated := Some (LowerViolation, i) |}
    else
      {| VAR_sum := s; Violation_value := Violation_value st;
         most_violated := most_violated st |}
  else
    {| VAR_sum := s; Violation_value := Violation_value st;
       most_violated := most_violated st |}.

Definition scan (lower_nested2 upper_nested2 Sol_vec : list float) (num_var : nat)
  : scan_state :=
  fold_left (scan_step lower_nested2 upper_nested2 Sol_vec) (seq 0 num_var)
    {| VAR_sum := 0; Violation_value := 0; most_violated := None |}.

Definition shift_after (Max_index : nat) (pin : float) (nested : list float)
  : list float :=
  firstn (S Max_index) nested
  ++ map (fun x => x - pin) (skipn (S Max_index) nested).

Definition set_at (Max_index : nat) (pin : float) (nested : list float)
  : list float :=
  firstn Max_index nested ++ pin :: skipn (S Max_index) nested.

Definition pin_bounds (ty : violation_type) (Max_index : nat)
    (lower_nested2 upper_nested2 : list float) : list float * list float :=
  match ty with
  | UpperViolation =>
      let pin := nth Max_index upper_nested2 0 in
      (shift_after Max_index pin (set_at Max_index pin lower_nested2),
       shift_after Max_index pin upper_nested2)
  | LowerViolation =>
      let pin := nth Max_index lower_nested2 0 in
      (shift_after Max_index pin lower_nested2,
       shift_after Max_index pin (set_at Max_index pin upper_nested2))
  end.

Fixpoint QRAP_NC_infeasible (depth : nat)
    (objective_par lower_bound upper_bound lower_nested upper_nested : list float)
  : result (list float) :=
  match depth with
  | O => Timeout
  | S depth' =>
      let num_var := length objective_par in
      lower_nested2 <- comprehension (get lower_nested) (seq 0 num_var) ;;
      upper_nested2 <- comprehension (get upper_nested) (seq 0 num_var) ;;
      if (num_var =? 1)%nat then
        U0 <- get upper_nested2 0 ;; Ok [U0]
      else
        R <- get upper_nested2 (num_var - 1) ;;
        Sol_vec <- QRAP_median objective_par lower_bound upper_bound R ;;
        match most_violated (scan lower_nested2 upper_nested2 Sol_vec num_var) with
        | None => Ok Sol_vec
        | Some (ty, Max_index) =>
            let '(lower_nested2, upper_nested2) :=
              pin_bounds ty Max_index lower_nested2 upper_nested2 in
            left <- QRAP_NC_infeasible depth'
                      (slice objective_par 0 (Max_index + 1))
                      (slice lower_bound 0 (Max_index + 1))
                      (slice upper_bound 0 (Max_index + 1))
                      (slice lower_nested2 0 (Max_index + 1))
                      (slice upper_nested2 0 (Max_index + 1)) ;;
            let Sol_vec := slice_assign Sol_vec 0 (Max_index + 1) left in
            right <- QRAP_NC_infeasible depth'
                       (slice objective_par (Max_index + 1) num_var)
                       (slice lower_bound (Max_index + 1) num_var)
                       (slice upper_bound (Max_index + 1) num_var)
                       (slice lower_nested2 (Max_index + 1) num_var)
                       (slice upper_nested2 (Max_index + 1) num_var) ;;
            Ok (slice_assign Sol_vec (Max_index + 1) num_var right)
        end
  end.

(** [sum(xs)]: the int [0] plus the entries, from left to right. *)
Definition sum (xs : list float) : float := fold_left add xs 0.

(** [result = numpy.zeros((2,2,num_var))].  Its entries are numpy floats,
    and so is every sum and difference they enter. *)
Definition table : Type := bool -> bool -> list float.

Definition zeros (num_var : nat) : table := fun _ _ => repeat 0 num_var.

Definition row_set (t : table) (s0 s1 : bool) (row : list float) : table :=
  fun b0 b1 => if Bool.eqb b0 s0 && Bool.eqb b1 s1 then row else t b0 b1.

Definition table_assign (t : table) (s0 s1 : bool) (i j : nat) (ys : list float)
  : table :=
  row_set t s0 s1 (slice_assign (t s0 s1) i j ys).

Definition entry (t : table) (s0 s1 : bool) (j : nat) : float := nth j (t s0 s1) 0.

Section Decomposition.

Variables (objective_par lower_bound upper_bound lower_nested upper_nested : list float).

Definition MDA_single (start_index : nat) (result : table) : Py.result table :=
  L <- get lower_nested start_index ;;
  U <- get upper_nested start_index ;;
  match start_index with
  | O =>
      let r := table_assign result false false 0 1 [L] in
      let r := table_assign r false true 0 1 [U] in
      let r := table_assign r true false 0 1 [L] in
      Ok (table_assign r true true 0 1 [U])
  | S prev =>
      Lp <- get lower_nested prev ;;
      Up <- get upper_nested prev ;;
      let r := table_assign result false false start_index (S start_index) [L - Lp] in
      let r := table_assign r false true start_index (S start_index) [U - Lp] in
      let r := table_assign r true false start_index (S start_index) [L - Up] in
      Ok (table_assign r true true start_index (S start_index) [U - Up])
  end.

Definition alternative_lower (cl cu l : float) : float :=
  if cu <? l then cu else if l <? cl then cl else l.

Definition alternative_upper (cl cu u : float) : float :=
  if u <? cl then cl else if cu <? u then cu else u.

Definition alternative_bounds (start_index end_index : nat)
    (current_lower_bounds current_upper_bounds : list float)
  : Py.result (list (float * float)) :=
  comprehension
    (fun j =>
       let cl := nth j current_lower_bounds 0 in
       let cu := nth j current_upper_bounds 0 in
       l <- get lower_bound (j + start_index) ;;
       u <- get upper_bound (j + start_index) ;;
       Ok (alternative_lower cl cu l, alternative_upper cl cu u))
    (seq 0 (end_index + 1 - start_index)).

Definition target (start_index end_index : nat) (s0 s1 : bool) : Py.result float :=
  match start_index with
  | O => if s1 then get upper_nested end_index else get lower_nested end_index
  | S prev =>
      hi <- (if s1 then get upper_nested end_index else get lower_nested end_index) ;;
      lo <- (if s0 then get upper_nested prev else get lower_nested prev) ;;
      Ok (hi - lo)
  end.

Definition MDA_subcase (start_index new_index end_index : nat)
    (result : table) (subcase : bool * bool) : Py.result table :=
  let '(s0, s1) := subcase in
  let left := seq start_index (new_index + 1 - start_index) in
  let right := seq (new_index + 1) (end_index - new_index) in
  let current_lower_bounds :=
    map (entry result s0 false) left ++ map (entry result true s1) right in
  let current_upper_bounds :=
    map (entry result s0 true) left ++ map (entry result false s1) right in
  alt <- alternative_bounds start_index end_index current_lower_bounds current_upper_bounds ;;
  let alternative_lower_bounds := map fst alt in
  let alternative_upper_bounds := map snd alt in
  target_value <- target start_index end_index s0 s1 ;;
  let sum_lower := sum alternative_lower_bounds in
  let sum_upper := sum alternative_upper_bounds in
  if target_value <? sum_lower then
    let sum_lower_original := sum current_lower_bounds in
    (* numpy floats: a zero divisor gives inf or nan and a warning *)
    let HELP_sum := (target_value - sum_lower) / (sum_lower_original - sum_lower) in
    Ok (table_assign result s0 s1 start_index (end_index + 1)
          (map (fun j => nth j alternative_lower_bounds 0
                         + HELP_sum * (nth j current_lower_bounds 0
                                       - nth j alternative_lower_bounds 0))
               (seq 0 (end_index - start_index + 1))))
  else if sum_upper <? target_value then
    let sum_upper_original := sum current_upper_bounds in
    let HELP_sum := (target_value - sum_upper) / (sum_upper_original - sum_upper) in
    Ok (table_assign result s0 s1 start_index (end_index + 1)
          (map (fun j => nth j alternative_upper_bounds 0
                         + HELP_sum * (nth j current_upper_bounds 0
                                       - nth j alternative_upper_bounds 0))
               (seq 0 (end_index - start_index + 1))))
  else
    x <- QRAP_median (slice objective_par start_index (end_index + 1))
           alternative_lower_bounds alternative_upper_bounds target_value ;;
    Ok (table_assign result s0 s1 start_index (end_index + 1) x).

Definition option_list : list (bool * bool) :=
  [(false, false); (false, true); (true, false); (true, true)].

Fixpoint for_subcases (start_index new_index end_index : nat)
    (subcases : list (bool * bool)) (result : table) : Py.result table :=
  match subcases with
  | [] => Ok result
  | subcase :: rest =>
      r <- MDA_subcase start_index new_index end_index result subcase ;;
      for_subcases start_index new_index end_index rest r
  end.

Fixpoint MDA (depth : nat) (start_index end_index : nat) (result : table)
  : Py.result table :=
  match depth with
  | O => Timeout
  | S depth' =>
      if (start_index =? end_index)%nat then MDA_single start_index result
      else
        let new_index := ((start_index + end_index) / 2)%nat in
        r <- MDA depth' start_index new_index result ;;
        r <- MDA depth' (new_index + 1) end_index r ;;
        for_subcases start_index new_index end_index option_list r
  end.

Definition QRAP_NC_decomposition (depth : nat) : Py.result (list float) :=
  match length objective_par with
  | O => Timeout
  | S last => main_result <- MDA depth 0 last (zeros (S last)) ;; Ok (main_result false true)
  end.

End Decomposition.

End B64.

(** ** The instances the solvers are specified for *)

(** [sum_{k<=i} x_k] for every [i], against the nested bounds. *)
Fixpoint nested_ok (acc : Q) (x L U : list Q) : Prop :=
  match x, L, U with
  | [], [], [] => True
  | xi :: x', Li :: L', Ui :: U' =>
      Li <= acc + xi /\ acc + xi <= Ui /\ nested_ok (acc + xi) x' L' U'
  | _, _, _ => False
  end.

Record well_formed (a l u L U : list Q) : Prop := {
  wf_nonempty : a <> [];
  wf_positive : Forall (fun aj => 0 < aj) a;
  wf_lower : length l = length a;
  wf_box : Forall2 Qle l u;
  wf_nested_length : length L = length a;
  wf_nested : Forall2 Qle L U
}.

(** Some vector meets the box bounds and the nested bounds. *)
Definition feasible (l u L U : list Q) : Prop :=
  exists x, Forall2 Qle l x /\ Forall2 Qle x u /\ nested_ok 0 x L U.

(** [|x_j - y_j| <= tol] for every [j]. *)
Definition within (tol : Q) (x y : list Q) : Prop :=
  Forall2 (fun xj yj => Qabs (xj - yj) <= tol) x y.

(** Results are compared as numbers: [Q] has several fractions for one
    rational. *)
Definition same_vector (xs ys : list Q) : Prop := Forall2 Qeq xs ys.

Definition same_result (r1 r2 : result (list Q)) : Prop :=
  match r1, r2 with
  | Ok xs, Ok ys => same_vector xs ys
  | Raise e1, Raise e2 => e1 = e2
  | Timeout, Timeout => True
  | _, _ => False
  end.

(** ** The tightening of the nested bounds *)

(** The tightening as the specification words it: [L_0 <- max(L_0, l_0)]
    and [L_i <- max(L_i, L_{i-1} + l_i)], [U_0 <- min(U_0, u_0)] and
    [U_i <- min(U_i, U_{i-1} + u_i)], each from the tightened
    predecessor. *)
Fixpoint tightened_lower_from (prev : Q) (L l : list Q) : list Q :=
  match L, l with
  | Li :: L', li :: l' =>
      let t := Py.max Li (prev + li) in t :: tightened_lower_from t L' l'
  | _, _ => L
  end.

Definition tightened_lower (L l : list Q) : list Q :=
  match L, l with
  | L0 :: L', l0 :: l' =>
      let t := Py.max L0 l0 in t :: tightened_lower_from t L' l'
  | _, _ => L
  end.

Fixpoint tightened_upper_from (prev : Q) (U u : list Q) : list Q :=
  match U, u with
  | Ui :: U', ui :: u' =>
      let t := Py.min Ui (prev + ui) in t :: tightened_upper_from t U' u'
  | _, _ => U
  end.

Definition tightened_upper (U u : list Q) : list Q :=
  match U, u with
  | U0 :: U', u0 :: u' =>
      let t := Py.min U0 u0 in t :: tightened_upper_from t U' u'
  | _, _ => U
  end.

(** ** Notions of the proofs *)

(** Data of moderate size: at most 100 variables, coefficients between
    [10^-4] and [10^4], bounds of absolute value [10^4] at most.  The
    program computes in binary64 where the embedding computes in [Q].
    For such data the sums the program forms stay below [2^20] in
    absolute value, where one rounding is below [2^-33], so that what
    it computes stays orders of magnitude closer to the exact values
    than the tolerances [10^-6] and [10^-5] are wide; for large data
    that is not so (see the instance with bounds [2^54] below).  What is
    proved by comparing sums with these tolerances is stated for data
    of moderate size. *)
Definition moderate (a : list Q) (bounds : list (list Q)) : Prop :=
  (length a <= 100)%nat /\
  Forall (fun aj => 1 # 10000 <= aj <= 10000) a /\
  Forall (Forall (fun v => Qabs v <= 10000)) bounds.

(** A coefficient that can divide. *)
Definition nonzero (x : Q) : Prop := ~ x == 0.

(** Ascending lists: every entry is below every later one. *)
Inductive ascending : list Q -> Prop :=
| asc_nil : ascending []
| asc_cons x xs : Forall (Qle x) xs -> ascending xs -> ascending (x :: xs).

(** [sum_{j in js} f(j)] *)
Definition total (f : nat -> Q) (js : list nat) : Q :=
  fold_right (fun j s => f j + s) 0 js.

(** [sum_{t<k} xs_t] *)
Definition pre (xs : list Q) (k : nat) : Q := Py.sum (firstn k xs).

(** The nested bound on the first [k] variables; none on no variable. *)
Definition hat (X : list Q) (k : nat) : Q :=
  match k with O => 0 | S k' => nth k' X 0 end.

Section MedianSpec.

Variables (a l u : list Q) (R : Q).

Let n := length a.
Let lbs := map (fun j => nth j l 0 / nth j a 0) (seq 0 n).
Let ubs := map (fun j => nth j u 0 / nth j a 0) (seq 0 n).

(** The value of variable [j] at the multiplier [m]. *)
Definition value (m : Q) (j : nat) : Q :=
  clip (nth j l 0) (nth j u 0) (nth j a 0 * m).

(** The sum of all variables at the multiplier [m]. *)
Definition value_sum (m : Q) : Q := total (value m) (seq 0 n).

(** [m] is not above [upper_breakpoint_bound]. *)
Definition below (hi : option Q) (m : Q) : Prop :=
  match hi with Some h => m <= h | None => True end.

Definition strictly_below (hi : option Q) (m : Q) : Prop :=
  match hi with Some h => m < h | None => True end.

(** An undecided variable keeps a breakpoint strictly inside the bracket. *)
Definition pending (lo : Q) (hi : option Q) (j : nat) : Prop :=
  (j < n)%nat /\
  ((lo < lb lbs j /\ strictly_below hi (lb lbs j)) \/
   (lo < ub ubs j /\ strictly_below hi (ub ubs j))).

(** What one pass over the undecided variables preserves: [target] is
    the sum of the variables not yet decided before the pass plus the
    two accumulators, as a function of the multiplier. *)
Definition decide_inv (lo : Q) (hi : option Q)
    (target : Q -> Q) (all rest : list nat)
    (acc : Q * Q * nat * list nat) : Prop :=
  let '(fx, fr, num, new) := acc in
  (forall m, lo <= m -> below hi m ->
     fx + fr * m + total (value m) new + total (value m) rest == target m) /\
  0 <= fr /\
  num = (length new + length rest)%nat /\
  Forall (pending lo hi) new /\
  incl (new ++ rest) all.

(** The invariant of the [while] loop. *)
Record median_inv (st : median_state) : Prop := {
  inv_indices : Forall (fun j => (j < n)%nat) (undecided_variables_indices st);
  inv_num_undecided :
    num_undecided_variables st = length (undecided_variables_indices st);
  inv_num_current :
    num_current_breakpoints st = length (current_breakpoints st);
  inv_sum : forall m,
    lower_breakpoint_bound st <= m -> below (upper_breakpoint_bound st) m ->
    value_sum m
    == fixed st + free st * m + total (value m) (undecided_variables_indices st);
  inv_free : 0 <= free st;
  inv_lower : value_sum (lower_breakpoint_bound st) <= R;
  inv_upper : forall h,
    upper_breakpoint_bound st = Some h ->
    R < value_sum h /\ lower_breakpoint_bound st <= h;
  inv_current : forall b,
    In b (current_breakpoints st) ->
    lower_breakpoint_bound st <= b /\ strictly_below (upper_breakpoint_bound st) b;
  inv_breakpoints : forall j b,
    In j (undecided_variables_indices st) ->
    b = lb lbs j \/ b = ub ubs j ->
    lower_breakpoint_bound st < b ->
    strictly_below (upper_breakpoint_bound st) b ->
    In b (current_breakpoints st)
}.

End MedianSpec.

(** Entries [m .. num_var-1] of both solutions are set and within the box. *)
Definition bounded_from (l u : list Q) (num_var : nat)
    (m : nat) (b : backward_state) : Prop :=
  length (opt_lower b) = num_var /\ length (opt_upper b) = num_var /\
  forall j, (m <= j < num_var)%nat ->
    nth j l 0 <= nth j (opt_lower b) 0 <= nth j u 0 /\
    nth j l 0 <= nth j (opt_upper b) 0 <= nth j u 0.

(** What the search knows after the first [k] prefix sums. *)
Definition scan_inv (L U y : list Q) (k : nat) (st : scan_state) : Prop :=
  VAR_sum st == pre y k /\
  match most_violated st with
  | None =>
      Violation_value st == 0 /\
      forall i, (i < k)%nat ->
        pre y (S i) <= nth i U 0 + eps5 /\ nth i L 0 - eps5 <= pre y (S i)
  | Some (ty, M) =>
      (M < k)%nat /\ eps5 < Violation_value st /\
      Violation_value st
      == match ty with
         | UpperViolation => pre y (S M) - nth M U 0
         | LowerViolation => nth M L 0 - pre y (S M)
         end /\
      forall i, (i < k)%nat ->
        pre y (S i) - nth i U 0 <= Violation_value st /\
        nth i L 0 - pre y (S i) <= Violation_value st
  end.

(** What feasibility asks of the bounds alone: between any two prefixes
    the nested bounds leave room for the box bounds. *)
Record nested_inv (n : nat) (l u L U : list Q) : Prop := {
  ni_lower : forall i j, (i <= j <= n)%nat ->
    hat L j - hat U i <= pre u j - pre u i;
  ni_upper : forall i j, (i <= j <= n)%nat ->
    pre l j - pre l i <= hat U j - hat L i
}.

(** What the pinned value at [Max_index] must satisfy for both halves to
    keep [nested_inv]. *)
Record pin_ok (n : nat) (l u L U : list Q) (M : nat) (pin : Q) : Prop := {
  pin_a : forall i, (i <= S M)%nat -> pin - hat U i <= pre u (S M) - pre u i;
  pin_b : forall i, (i <= S M)%nat -> pre l (S M) - pre l i <= pin - hat L i;
  pin_c : forall j, (S M <= j <= n)%nat -> hat L j - pin <= pre u j - pre u (S M);
  pin_d : forall j, (S M <= j <= n)%nat -> pre l j - pre l (S M) <= hat U j - pin
}.

Section BracketSpec.

Variables (a l u : list Q).

Let n := length a.
Let lbs := map (fun j => nth j l 0 / nth j a 0) (seq 0 n).
Let ubs := map (fun j => nth j u 0 / nth j a 0) (seq 0 n).

(** The part of the loop invariant that does not mention the resource
    value: the bracket, the breakpoints inside it and the two
    accumulators. *)
Record bracket_inv (st : median_state) : Prop := {
  bi_indices : Forall (fun j => (j < n)%nat) (undecided_variables_indices st);
  bi_num_undecided :
    num_undecided_variables st = length (undecided_variables_indices st);
  bi_num_current :
    num_current_breakpoints st = length (current_breakpoints st);
  bi_sum : forall m,
    lower_breakpoint_bound st <= m -> below (upper_breakpoint_bound st) m ->
    value_sum a l u m
    == fixed st + free st * m
       + total (value a l u m) (undecided_variables_indices st);
  bi_free : 0 <= free st;
  bi_order : forall h,
    upper_breakpoint_bound st = Some h -> lower_breakpoint_bound st <= h;
  bi_current : forall b,
    In b (current_breakpoints st) ->
    lower_breakpoint_bound st <= b /\ strictly_below (upper_breakpoint_bound st) b;
  bi_breakpoints : forall j b,
    In j (undecided_variables_indices st) ->
    b = lb lbs j \/ b = ub ubs j ->
    lower_breakpoint_bound st < b ->
    strictly_below (upper_breakpoint_bound st) b ->
    In b (current_breakpoints st)
}.

End BracketSpec.

(** The separable quadratic cost [sum_j x_j^2 / (2 a_j)]: its
    unconstrained minimiser under the multiplier [m] is [a_j * m]. *)
Definition cost (a x : list Q) : Q :=
  total (fun j => nth j x 0 * nth j x 0 / (2 * nth j a 0)) (seq 0 (length a)).

(** The slack the nested bounds are met with by [QRAP_NC_infeasible] on
    [n] variables: [10^-5] for each of at most [n-1] splits. *)
Definition nested_slack (n : nat) : Q := inject_Z (Z.of_nat (n - 1)) * eps5.

(** What the search knows of the indices before [Max_index]: the
    comparison with [Violation_value] is strict, so an equal violation
    found later does not replace an earlier one. *)
Definition scan_first (L U y : list Q) (st : scan_state) : Prop :=
  match most_violated st with
  | None => True
  | Some (_, M) =>
      forall i, (i < M)%nat ->
        pre y (S i) - nth i U 0 < Violation_value st /\
        nth i L 0 - pre y (S i) < Violation_value st
  end.

(** Every row of the table has one entry per variable. *)
Definition rows (n : nat) (t : table) : Prop :=
  forall s0 s1, length (t s0 s1) = n.

(** A call that returns a result with [P], unless a quotient of numpy
    floats had a zero divisor. *)
Definition returns_unless_nonfinite {A : Type} (P : A -> Prop) (r : result A) : Prop :=
  match r with
  | Ok x => P x
  | Raise NonFinite => True
  | _ => False
  end.

(** *** The bookkeeping of the sweep *)

(** The entries of a heap whose flag is not set. *)
Definition live (Removed : list bool) (h : heap) : heap :=
  filter (fun e => negb (nth (snd e) Removed false)) h.

(** What the sweep keeps of one set of initial breakpoints once the
    indices below [j] have been seen: the two heaps hold the same live
    indices, each once, and the counter is their number. *)
Record bp_inv (n j : nat) (b : breakpoint_set) : Prop := {
  bp_removed : length (Removed_BP b) = n;
  bp_bound : (j <= n)%nat;
  bp_min_index : Forall (fun e => (snd e < j)%nat) (heap_min b);
  bp_max_index : Forall (fun e => (snd e < j)%nat) (heap_max b);
  bp_min_once : NoDup (map snd (heap_min b));
  bp_max_once : NoDup (map snd (heap_max b));
  bp_same : forall k,
    nth k (Removed_BP b) false = false ->
    (In k (map snd (heap_min b)) <-> In k (map snd (heap_max b)));
  bp_num_min :
    num_breakpoints_heap b = length (live (Removed_BP b) (heap_min b));
  bp_num_max :
    num_breakpoints_heap b = length (live (Removed_BP b) (heap_max b));
  bp_fresh : forall k, (j <= k)%nat -> nth k (Removed_BP b) false = false
}.

(** The counter of a deque is its length. *)
Definition side_inv (sd : side) : Prop :=
  num_opt_multiplier_deque sd = length (opt_multiplier_deque sd).

Record sweep_inv (n j : nat) (st : sweep_state) : Prop := {
  sw_lower : side_inv (lower st);
  sw_upper : side_inv (upper st);
  sw_lower_BP : bp_inv n j (lower_BP st);
  sw_upper_BP : bp_inv n j (upper_BP st)
}.

(** A call that returns a result with [P] or ends in a division by
    zero. *)
Definition returns_unless_zero_division {A : Type} (P : A -> Prop)
    (r : result A) : Prop :=
  match r with
  | Ok x => P x
  | Raise ZeroDivisionError => True
  | _ => False
  end.

(** The candidates a search can still pass. *)
Definition candidates_min (st : sweep_state) : nat :=
  length (heap_min (lower_BP st)) + length (heap_min (upper_BP st))
  + length (lower_opt_multiplier_deque st) + length (upper_opt_multiplier_deque st).

Definition candidates_max (st : sweep_state) : nat :=
  length (heap_max (lower_BP st)) + length (heap_max (upper_BP st))
  + length (lower_opt_multiplier_deque st) + length (upper_opt_multiplier_deque st).

(** The best candidate names an entry that is there to be removed. *)
Definition candidate_there (top : breakpoint_set -> heap)
    (st : sweep_state) (cur : best) : Prop :=
  match cur with
  | None => True
  | Some (_, k, LowerInitial) =>
      exists v t, top (lower_BP st) = (v, k) :: t /\
                  nth k (Removed_BP (lower_BP st)) false = false
  | Some (_, k, UpperInitial) =>
      exists v t, top (upper_BP st) = (v, k) :: t /\
                  nth k (Removed_BP (upper_BP st)) false = false
  | Some (_, _, LowerMultiplier) => lower_opt_multiplier_deque st <> []
  | Some (_, _, UpperMultiplier) => upper_opt_multiplier_deque st <> []
  end.

(** The entries outside [start .. end_index] are those of [t]. *)
Definition writes_within (start end_index : nat) (t t' : table) : Prop :=
  forall s0 s1 k, (k < start \/ end_index < k)%nat ->
    nth k (t' s0 s1) 0 = nth k (t s0 s1) 0.

(** ** Facts about the primitives *)

(** [moderate], decided. *)
Lemma moderate_decided (a : list Q) (bounds : list (list Q)) :
  (length a <=? 100)%nat = true ->
  forallb (fun aj => Qle_bool (1 # 10000) aj && Qle_bool aj 10000) a = true ->
  forallb (forallb (fun v => Qle_bool (Qabs v) 10000)) bounds = true ->
  moderate a bounds.
Proof.
  intros Hn Ha Hb. split; [now apply Nat.leb_le|]. split.
  - apply Forall_forall. intros aj Hin.
    rewrite forallb_forall in Ha. specialize (Ha aj Hin).
    apply andb_true_iff in Ha. destruct Ha as [H1 H2].
    split; now apply Qle_bool_iff.
  - apply Forall_forall. intros vs Hvs. apply Forall_forall. intros v Hv.
    rewrite forallb_forall in Hb. specialize (Hb vs Hvs).
    rewrite forallb_forall in Hb. apply Qle_bool_iff. now apply Hb.
Qed.


(** Closed instances are settled by running the program. *)
Ltac run := vm_compute; repeat constructor.


Lemma ltb_lt x y : Py.ltb x y = true <-> x < y.
Proof.
  unfold Py.ltb. rewrite negb_true_iff. split; intros H.
  - apply Qnot_le_lt. intros Hle. apply Qle_bool_iff in Hle. congruence.
  - destruct (Qle_bool y x) eqn:E; [|reflexivity].
    apply Qle_bool_iff in E. exfalso. apply (Qlt_not_le _ _ H E).
Qed.

Lemma ltb_ge x y : Py.ltb x y = false <-> y <= x.
Proof.
  unfold Py.ltb. rewrite negb_false_iff. apply Qle_bool_iff.
Qed.

Lemma leb_gt x y : Qle_bool x y = false <-> y < x.
Proof.
  rewrite <- ltb_lt. unfold Py.ltb. now rewrite negb_true_iff.
Qed.

Lemma eqb_false x y : Qeq_bool x y = false -> ~ x == y.
Proof. intros H E. apply Qeq_bool_iff in E. congruence. Qed.

(** Case analysis on a comparison, with the order fact in the context. *)
Ltac cmp :=
  match goal with
  | |- context [Py.ltb ?x ?y] =>
      let E := fresh "E" in
      destruct (Py.ltb x y) eqn:E;
      [apply ltb_lt in E | apply ltb_ge in E]
  | |- context [Qle_bool ?x ?y] =>
      let E := fresh "E" in
      destruct (Qle_bool x y) eqn:E;
      [apply Qle_bool_iff in E | apply leb_gt in E]
  | |- context [Qeq_bool ?x ?y] =>
      let E := fresh "E" in
      destruct (Qeq_bool x y) eqn:E;
      [apply Qeq_bool_iff in E | apply eqb_false in E]
  end.

Lemma max_ge_l x y : x <= Py.max x y.
Proof. unfold Py.max. cmp; lra. Qed.

Lemma max_ge_r x y : y <= Py.max x y.
Proof. unfold Py.max. cmp; lra. Qed.

Lemma max_lub x y z : x <= z -> y <= z -> Py.max x y <= z.
Proof. unfold Py.max. cmp; lra. Qed.

Lemma min_le_l x y : Py.min x y <= x.
Proof. unfold Py.min. cmp; lra. Qed.

Lemma min_le_r x y : Py.min x y <= y.
Proof. unfold Py.min. cmp; lra. Qed.

Lemma min_glb x y z : z <= x -> z <= y -> z <= Py.min x y.
Proof. unfold Py.min. cmp; lra. Qed.

Lemma max_compat x x' y y' : x == x' -> y == y' -> Py.max x y == Py.max x' y'.
Proof. intros Hx Hy. unfold Py.max. cmp; cmp; lra. Qed.

Lemma min_compat x x' y y' : x == x' -> y == y' -> Py.min x y == Py.min x' y'.
Proof. intros Hx Hy. unfold Py.min. cmp; cmp; lra. Qed.

Lemma clip_ge lo hi x : lo <= clip lo hi x.
Proof. apply max_ge_l. Qed.

Lemma clip_le lo hi x : lo <= hi -> clip lo hi x <= hi.
Proof. intros H. apply max_lub; [exact H | apply min_le_l]. Qed.

(** [clip] as a function of the number clipped. *)
Lemma clip_cases lo hi x :
  lo <= hi ->
  (x <= lo /\ clip lo hi x == lo) \/
  (lo <= x <= hi /\ clip lo hi x == x) \/
  (hi <= x /\ clip lo hi x == hi).
Proof.
  intros H. unfold clip, Py.min. cmp; unfold Py.max; cmp;
    first [ left; repeat split; lra
          | right; left; repeat split; lra
          | right; right; repeat split; lra ].
Qed.

Lemma get_Ok (xs : list Q) (i : nat) :
  (i < length xs)%nat -> get xs i = Ok (nth i xs 0).
Proof.
  intros H. unfold get.
  destruct (nth_error xs i) eqn:E.
  - now rewrite (nth_error_nth _ _ _ E).
  - apply nth_error_None in E. lia.
Qed.

Lemma comprehension_Ok {A B : Type} (f : A -> result B) (g : A -> B) js :
  (forall j, In j js -> f j = Ok (g j)) ->
  comprehension f js = Ok (map g js).
Proof.
  induction js as [|j js IH]; intros H; simpl; [reflexivity|].
  rewrite (H j (or_introl eq_refl)). simpl.
  rewrite IH; [reflexivity|]. intros k Hk. apply H. now right.
Qed.

Lemma comprehension_length {A B : Type} (f : A -> result B) js ys :
  comprehension f js = Ok ys -> length ys = length js.
Proof.
  revert ys; induction js as [|j js IH]; intros ys; simpl.
  - intros [= <-]. reflexivity.
  - destruct (f j); simpl; try discriminate.
    destruct (comprehension f js); simpl; try discriminate.
    intros [= <-]. simpl. f_equal. now apply IH.
Qed.

(** *** [sorted] and [median] *)

Lemma insert_perm x xs : Permutation (Py.insert x xs) (x :: xs).
Proof.
  induction xs as [|y t IH]; simpl; [reflexivity|].
  destruct (Qle_bool x y); [reflexivity|].
  rewrite IH. apply perm_swap.
Qed.

Lemma sorted_perm xs : Permutation (Py.sorted xs) xs.
Proof.
  induction xs as [|x t IH]; simpl; [reflexivity|].
  unfold Py.sorted in *. simpl. rewrite insert_perm. now constructor.
Qed.

Lemma sorted_length xs : length (Py.sorted xs) = length xs.
Proof. apply Permutation_length, sorted_perm. Qed.


Lemma insert_ascending x xs : ascending xs -> ascending (Py.insert x xs).
Proof.
  induction 1 as [|y t Hy Ht IH]; simpl.
  - repeat constructor.
  - cmp.
    + constructor; [|now constructor].
      constructor; [exact E|].
      eapply Forall_impl; [|exact Hy]. intros z Hz. simpl in Hz. lra.
    + constructor; [|exact IH].
      apply (Permutation_Forall (Permutation_sym (insert_perm x t))).
      constructor; [lra | exact Hy].
Qed.

Lemma sorted_ascending xs : ascending (Py.sorted xs).
Proof.
  induction xs as [|x t IH]; [constructor|].
  unfold Py.sorted in *. simpl. now apply insert_ascending.
Qed.

Lemma ascending_nth xs :
  ascending xs ->
  forall i j, (i <= j < length xs)%nat -> nth i xs 0 <= nth j xs 0.
Proof.
  induction 1 as [|x t Hx Ht IH]; intros i j Hij; simpl in Hij; [lia|].
  destruct i as [|i], j as [|j]; simpl; try lia.
  - lra.
  - rewrite Forall_forall in Hx. apply Hx, nth_In. lia.
  - apply IH. lia.
Qed.

(** The median exists for data and lies between two of them. *)
Lemma median_between xs :
  xs <> [] ->
  exists m x y, Py.median xs = Ok m /\ In x xs /\ In y xs /\ x <= m /\ m <= y.
Proof.
  intros Hne. unfold Py.median.
  pose proof (sorted_length xs) as Hlen.
  pose proof (sorted_ascending xs) as Hasc.
  pose proof (sorted_perm xs) as Hperm.
  set (data := Py.sorted xs) in *.
  assert (Hpos : (0 < length data)%nat).
  { rewrite Hlen. destruct xs; [congruence | simpl; lia]. }
  destruct (length data) as [|k] eqn:Hk; [lia|].
  assert (Hhalf : (S k / 2 < S k)%nat) by (apply Nat.div_lt; lia).
  assert (Hin : forall i, (i < S k)%nat -> In (nth i data 0) xs).
  { intros i Hi. apply (Permutation_in _ Hperm), nth_In. lia. }
  destruct (Nat.odd (S k)) eqn:Hodd.
  - exists (nth (S k / 2) data 0), (nth (S k / 2) data 0), (nth (S k / 2) data 0).
    repeat split; auto; lra.
  - assert (Hk1 : (1 <= S k / 2)%nat).
    { destruct k as [|k]; [discriminate Hodd|].
      change (S (S k)) with (2 + k)%nat.
      replace (2 + k)%nat with (k + 1 * 2)%nat by lia.
      rewrite Nat.div_add by lia. lia. }
    assert (Hle : nth (S k / 2 - 1) data 0 <= nth (S k / 2) data 0).
    { apply ascending_nth; [exact Hasc | lia]. }
    exists ((nth (S k / 2 - 1) data 0 + nth (S k / 2) data 0) / 2),
           (nth (S k / 2 - 1) data 0), (nth (S k / 2) data 0).
    split; [reflexivity|].
    split; [apply Hin; lia|]. split; [apply Hin; lia|].
    split.
    + apply Qle_shift_div_l; lra.
    + apply Qle_shift_div_r; lra.
Qed.

Lemma filter_drops (f : Q -> bool) xs x :
  In x xs -> f x = false -> (length (filter f xs) < length xs)%nat.
Proof.
  induction xs as [|y t IH]; simpl; [tauto|].
  intros [->|Hin] Hf.
  - rewrite Hf. pose proof (filter_length_le f t). lia.
  - specialize (IH Hin Hf). destruct (f y); simpl; lia.
Qed.

(** *** The loop of [QRAP_median] always ends *)

Section MedianLoop.

Variables (a l u : list Q) (R : Q) (lbs ubs : list Q).

#[local] Abbreviation loop := (median_loop a l u R lbs ubs).
#[local] Abbreviation decide' := (decide a l u lbs ubs).
#[local] Abbreviation narrow' := (narrow R).

Lemma decide_breakpoints st :
  current_breakpoints (decide' st) = current_breakpoints st /\
  num_current_breakpoints (decide' st) = num_current_breakpoints st /\
  lower_breakpoint_bound (decide' st) = lower_breakpoint_bound st /\
  upper_breakpoint_bound (decide' st) = upper_breakpoint_bound st.
Proof.
  unfold decide.
  destruct (fold_left _ _ _) as [[[fx fr] num] new]. simpl. auto.
Qed.

Lemma narrow_shrinks st c s x y :
  In x (current_breakpoints st) -> In y (current_breakpoints st) ->
  x <= c -> c <= y ->
  num_current_breakpoints (narrow' st c s)
    = length (current_breakpoints (narrow' st c s)) /\
  (length (current_breakpoints (narrow' st c s))
     < length (current_breakpoints st))%nat.
Proof.
  intros Hx Hy Hxc Hcy. unfold narrow.
  destruct (Py.ltb R s); simpl; (split; [reflexivity|]).
  - apply (filter_drops _ _ y Hy). apply ltb_ge. exact Hcy.
  - apply (filter_drops _ _ x Hx). apply ltb_ge. exact Hxc.
Qed.

Lemma median_loop_total fuel :
  forall st,
    num_current_breakpoints st = length (current_breakpoints st) ->
    (length (current_breakpoints st) <= fuel)%nat ->
    exists ex, loop fuel st = Ok ex.
Proof.
  induction fuel as [|fuel IH]; intros st Hnum Hfuel.
  - simpl. rewrite Hnum.
    replace (length (current_breakpoints st)) with 0%nat by lia.
    rewrite andb_false_r. eauto.
  - simpl.
    destruct ((0 <? num_undecided_variables st)%nat
              && (0 <? num_current_breakpoints st)%nat) eqn:Hcond; [|eauto].
    apply andb_true_iff in Hcond as [_ Hcur]. apply Nat.ltb_lt in Hcur.
    assert (Hne : current_breakpoints st <> []).
    { intros E. rewrite E in Hnum. simpl in Hnum. lia. }
    destruct (median_between _ Hne) as (c & x & y & Hmed & Hx & Hy & Hxc & Hcy).
    rewrite Hmed. simpl.
    destruct (Qle_bool _ eps6); [eauto|].
    set (s := SummedVariables a l u lbs ubs st c).
    destruct (narrow_shrinks st c s x y Hx Hy Hxc Hcy) as [Hn Hlt].
    destruct (decide_breakpoints (narrow' st c s)) as (Hc & Hnc & _).
    apply IH.
    + rewrite Hc, Hnc. exact Hn.
    + rewrite Hc. lia.
Qed.

(** The loop is left by its condition only when the condition fails. *)
Lemma median_loop_exhausted fuel :
  forall st st',
    loop fuel st = Ok (Exhausted st') ->
    num_undecided_variables st' = 0%nat \/ num_current_breakpoints st' = 0%nat.
Proof.
  induction fuel as [|fuel IH]; intros st st'; simpl;
    destruct ((0 <? num_undecided_variables st)%nat
              && (0 <? num_current_breakpoints st)%nat) eqn:Hcond;
    try discriminate.
  - intros [= <-]. apply andb_false_iff in Hcond as [H|H];
      apply Nat.ltb_ge in H; lia.
  - destruct (median (current_breakpoints st)); simpl; try discriminate.
    destruct (Qle_bool _ eps6); [discriminate|]. apply IH.
  - intros [= <-]. apply andb_false_iff in Hcond as [H|H];
      apply Nat.ltb_ge in H; lia.
Qed.

End MedianLoop.

Lemma positive_nonzero a : Forall (fun aj => 0 < aj) a -> Forall nonzero a.
Proof.
  apply Forall_impl. intros x Hx E. rewrite E in Hx. apply (Qlt_irrefl _ Hx).
Qed.

(** [[bound[j]/a[j] for j in range(0,len(a))]] when no entry is missing
    and no [a[j]] is zero. *)
Lemma breakpoints_Ok a bound :
  (length a <= length bound)%nat -> Forall nonzero a ->
  breakpoints a bound
  = Ok (map (fun j => nth j bound 0 / nth j a 0) (seq 0 (length a))).
Proof.
  intros Hlen Ha. unfold breakpoints. apply comprehension_Ok.
  intros j Hj. apply in_seq in Hj.
  rewrite !get_Ok by lia. simpl. unfold div.
  rewrite Forall_forall in Ha.
  destruct (Qeq_bool (nth j a 0) 0) eqn:E; [|reflexivity].
  apply Qeq_bool_iff in E. exfalso. apply (Ha (nth j a 0)); [|exact E].
  apply nth_In. lia.
Qed.

(** [QRAP_median] returns for every non-empty input without a zero
    coefficient and without a missing bound. *)
Lemma QRAP_median_loop_Ok a l u R :
  a <> [] -> Forall nonzero a ->
  (length a <= length l)%nat -> (length a <= length u)%nat ->
  exists ex bps, QRAP_median_loop a l u R = Ok (ex, bps).
Proof.
  intros Hne Ha Hl Hu. unfold QRAP_median_loop.
  rewrite (breakpoints_Ok a l Hl Ha), (breakpoints_Ok a u Hu Ha). simpl.
  set (lbs := map _ _). set (ubs := map (fun j => nth j u 0 / _) _).
  assert (Hlen : length (lbs ++ ubs) = (2 * length a)%nat).
  { rewrite length_app. unfold lbs, ubs. rewrite !length_map, !length_seq. lia. }
  destruct (lbs ++ ubs) as [|b bs] eqn:Hbs.
  { destruct a; [congruence | simpl in Hlen; lia]. }
  simpl min_list. cbv beta iota. simpl bind at 1.
  change (length a + (length a + 0))%nat with (2 * length a)%nat.
  destruct (median_loop_total a l u R lbs ubs (2 * length a)
              (initial_state a lbs ubs (fold_left Py.min bs b))) as [ex Hex].
  - simpl. rewrite length_app. unfold lbs, ubs.
    rewrite !length_map, !length_seq. lia.
  - simpl current_breakpoints. rewrite Hbs. lia.
  - rewrite Hex. simpl. eauto.
Qed.

Lemma QRAP_median_Ok a l u R :
  a <> [] -> Forall nonzero a ->
  (length a <= length l)%nat -> (length a <= length u)%nat ->
  exists m, QRAP_median a l u R = Ok (clipped a l u m).
Proof.
  intros Hne Ha Hl Hu.
  destruct (QRAP_median_loop_Ok a l u R Hne Ha Hl Hu) as (ex & bps & H).
  unfold QRAP_median. rewrite H. simpl.
  destruct ex as [m|st]; simpl; eauto.
Qed.

(** *** Lists read by index *)

Lemma nth_map_seq (f : nat -> Q) n j :
  (j < n)%nat -> nth j (map f (seq 0 n)) 0 = f j.
Proof.
  intros Hj. rewrite (nth_indep _ 0 (f 0%nat)) by (rewrite length_map, length_seq; lia).
  rewrite map_nth, seq_nth by lia. reflexivity.
Qed.

Lemma Forall2_nth (P : Q -> Q -> Prop) xs ys :
  Forall2 P xs ys ->
  forall j, (j < length xs)%nat -> P (nth j xs 0) (nth j ys 0).
Proof.
  induction 1 as [|x y xs ys Hxy _ IH]; intros j Hj; simpl in Hj; [lia|].
  destruct j as [|j]; simpl; [exact Hxy | apply IH; lia].
Qed.

Lemma Forall2_of_nth (P : Q -> Q -> Prop) xs ys :
  length xs = length ys ->
  (forall j, (j < length xs)%nat -> P (nth j xs 0) (nth j ys 0)) ->
  Forall2 P xs ys.
Proof.
  revert ys; induction xs as [|x xs IH]; intros [|y ys] Hlen H;
    simpl in Hlen; try discriminate; constructor.
  - apply (H 0%nat). simpl. lia.
  - apply IH; [lia|]. intros j Hj. apply (H (S j)). simpl. lia.
Qed.

Lemma sum_acc xs acc : fold_left Qplus xs acc == acc + Py.sum xs.
Proof.
  unfold Py.sum. revert acc.
  induction xs as [|x xs IH]; intros acc; simpl; [lra|].
  rewrite (IH (acc + x)), (IH (0 + x)). lra.
Qed.

Lemma sum_cons x xs : Py.sum (x :: xs) == x + Py.sum xs.
Proof. unfold Py.sum at 1. simpl. rewrite sum_acc. lra. Qed.

Lemma sum_le xs ys : Forall2 Qle xs ys -> Py.sum xs <= Py.sum ys.
Proof.
  induction 1 as [|x y xs ys Hxy _ IH]; [unfold Py.sum; simpl; lra|].
  rewrite !sum_cons. lra.
Qed.

(** *** The vector [QRAP_median] returns *)

Lemma clipped_length a l u m : length (clipped a l u m) = length a.
Proof. unfold clipped. now rewrite length_map, length_seq. Qed.

Lemma clipped_nth a l u m j :
  (j < length a)%nat ->
  nth j (clipped a l u m) 0
  = Py.max (nth j l 0) (Py.min (nth j u 0) (nth j a 0 * m)).
Proof. intros Hj. unfold clipped. now rewrite nth_map_seq. Qed.

Lemma clipped_box a l u m :
  length l = length a -> Forall2 Qle l u ->
  Forall2 Qle l (clipped a l u m) /\ Forall2 Qle (clipped a l u m) u.
Proof.
  intros Hl Hlu.
  pose proof (Forall2_length Hlu) as Hu.
  split; apply Forall2_of_nth; rewrite ?clipped_length; try congruence.
  - intros j Hj. rewrite clipped_nth by lia. apply max_ge_l.
  - intros j Hj. rewrite clipped_nth by lia.
    apply clip_le. apply (Forall2_nth _ _ _ Hlu). lia.
Qed.

(** C10.  For every non-empty input [(a, l, u, R)] with [a_j > 0] and
    [l_j <= u_j], whatever [R] is, [QRAP_median] returns a vector of
    length [n] with [x_j = max(l_j, min(u_j, a_j * m))] for one
    multiplier [m] common to all [j]; so every [x_j] lies within its box
    bounds. *)
Theorem QRAP_median_common_multiplier (a l u : list Q) (R : Q) :
  a <> [] ->
  Forall (fun aj => 0 < aj) a ->
  length l = length a ->
  Forall2 Qle l u ->
  exists (m : Q) (x : list Q),
    QRAP_median a l u R = Ok x /\
    length x = length a /\
    forall j, (j < length a)%nat ->
      nth j x 0 = Py.max (nth j l 0) (Py.min (nth j u 0) (nth j a 0 * m)) /\
      nth j l 0 <= nth j x 0 <= nth j u 0.
Proof.
  intros Hne Ha Hl Hlu.
  pose proof (Forall2_length Hlu) as Hu.
  destruct (QRAP_median_Ok a l u R Hne (positive_nonzero a Ha)) as [m Hm]; try lia.
  exists m, (clipped a l u m). split; [exact Hm|].
  split; [apply clipped_length|].
  intros j Hj. split; [now apply clipped_nth|].
  rewrite clipped_nth by exact Hj. split.
  - apply max_ge_l.
  - apply clip_le. apply (Forall2_nth _ _ _ Hlu). lia.
Qed.

Lemma QRAP_median_common_multiplier_witness :
  exists (m : Q) (x : list Q),
    QRAP_median [1; 2] [0; 1] [4; 3] 100 = Ok x /\
    length x = 2%nat /\
    forall j, (j < 2)%nat ->
      nth j x 0 = Py.max (nth j [0; 1] 0) (Py.min (nth j [4; 3] 0) (nth j [1; 2] 0 * m)) /\
      nth j [0; 1] 0 <= nth j x 0 <= nth j [4; 3] 0.
Proof.
  apply (QRAP_median_common_multiplier [1; 2] [0; 1] [4; 3] 100).
  - discriminate.
  - repeat constructor.
  - reflexivity.
  - repeat constructor; discriminate.
Defined.

(** C7.  When the main loop of [QRAP_median] ends without the
    within-tolerance match, no undecided variable or no candidate
    breakpoint is left, and the vector returned is
    [max(l_j, min(u_j, a_j * m))] with [m = (R - fixed)/free], or with
    [m] the lower end of the bracket when [free == 0]. *)
Theorem QRAP_median_after_loop (a l u : list Q) (R : Q)
    (st : median_state) (bps : list Q * list Q) :
  QRAP_median_loop a l u R = Ok (Exhausted st, bps) ->
  (num_undecided_variables st = 0%nat \/ num_current_breakpoints st = 0%nat) /\
  QRAP_median a l u R
  = Ok (map (fun j =>
               Py.max (nth j l 0)
                 (Py.min (nth j u 0)
                    (nth j a 0 *
                     (if Qeq_bool (free st) 0 then lower_breakpoint_bound st
                      else (R - fixed st) / free st))))
            (seq 0 (length a))).
Proof.
  intros H. split.
  - unfold QRAP_median_loop in H.
    destruct (breakpoints a l) as [lbs| |]; simpl in H; try discriminate.
    destruct (breakpoints a u) as [ubs| |]; simpl in H; try discriminate.
    destruct (min_list (lbs ++ ubs)) as [lo| |]; simpl in H; try discriminate.
    destruct (median_loop _ _ _ _ _ _ _ _) as [ex| |] eqn:Hloop;
      simpl in H; try discriminate.
    injection H as -> _.
    exact (median_loop_exhausted _ _ _ _ _ _ _ _ _ Hloop).
  - unfold QRAP_median. rewrite H. reflexivity.
Qed.

Lemma QRAP_median_after_loop_witness :
  (0%nat = 0%nat \/ 0%nat = 0%nat) /\
  QRAP_median [1] [0] [1] 5
  = Ok (map (fun j =>
               Py.max (nth j [0] 0)
                 (Py.min (nth j [1] 0)
                    (nth j [1] 0 * (if Qeq_bool 0 0 then 1 else (5 - 1) / 0))))
            (seq 0 1)).
Proof.
  apply (QRAP_median_after_loop [1] [0] [1] 5
           {| current_breakpoints := [];
              num_current_breakpoints := 0;
              undecided_variables_indices := [];
              num_undecided_variables := 0;
              lower_breakpoint_bound := 1;
              upper_breakpoint_bound := None;
              fixed := 1;
              free := 0 |} ([0], [1])).
  vm_compute. reflexivity.
Defined.

(** C3, as the program has it.  [QRAP_median] has no infeasibility
    test: for a non-empty input with [a_j > 0] and [l_j <= u_j] and with
    [R] outside [[sum l, sum u]] it returns a vector within the box
    bounds, whose sum therefore is not [R]. *)
Theorem QRAP_median_returns_when_infeasible (a l u : list Q) (R : Q) :
  a <> [] ->
  Forall (fun aj => 0 < aj) a ->
  length l = length a ->
  Forall2 Qle l u ->
  R < Py.sum l \/ Py.sum u < R ->
  exists x : list Q,
    QRAP_median a l u R = Ok x /\
    Forall2 Qle l x /\ Forall2 Qle x u /\
    ~ Py.sum x == R.
Proof.
  intros Hne Ha Hl Hlu HR.
  pose proof (Forall2_length Hlu) as Hu.
  destruct (QRAP_median_Ok a l u R Hne (positive_nonzero a Ha)) as [m Hm]; try lia.
  destruct (clipped_box a l u m Hl Hlu) as [Hlo Hhi].
  exists (clipped a l u m). repeat split; auto.
  pose proof (sum_le _ _ Hlo). pose proof (sum_le _ _ Hhi).
  intros E. lra.
Qed.

Lemma QRAP_median_returns_when_infeasible_witness :
  exists x : list Q,
    QRAP_median [1; 2] [0; 1] [4; 3] 100 = Ok x /\
    Forall2 Qle [0; 1] x /\ Forall2 Qle x [4; 3] /\
    ~ Py.sum x == 100.
Proof.
  apply (QRAP_median_returns_when_infeasible [1; 2] [0; 1] [4; 3] 100).
  - discriminate.
  - repeat constructor.
  - reflexivity.
  - repeat constructor; discriminate.
  - right. reflexivity.
Defined.

(** C3 fails as stated: [R = 5] is above [sum u = 1], and the call
    returns the clipped vector [[1]]. *)
Lemma QRAP_median_reports_no_infeasibility :
  Py.sum [1] < 5 /\ QRAP_median [1] [0] [1] 5 = Ok [1].
Proof. split; reflexivity. Qed.

(** ** One variable *)

Lemma infeasible_single depth a0 l u L0 Ls U0 Us :
  QRAP_NC_infeasible (S depth) [a0] l u (L0 :: Ls) (U0 :: Us) = Ok [U0].
Proof. reflexivity. Qed.

Lemma decomposition_single depth a0 l u L0 Ls U0 Us :
  QRAP_NC_decomposition [a0] l u (L0 :: Ls) (U0 :: Us) (S depth) = Ok [U0].
Proof. reflexivity. Qed.

(** What [QRAP_NC_seq] computes and leaves behind for one variable. *)
Lemma seq_single a0 l0 u0 L0 U0 :
  let L0' := Py.max L0 l0 in
  let U0' := Py.min U0 u0 in
  let l0' := Py.max L0' l0 in
  let u0' := Py.min U0' u0 in
  let lo := clip l0' u0' (a0 * (l0' / a0)) in
  let hi := clip l0' u0' (a0 * (u0' / a0)) in
  QRAP_NC_seq (instance [a0] [l0] [u0] [L0] [U0])
  = (if Qeq_bool a0 0 then Raise ZeroDivisionError
     else Ok [if Qeq_bool L0' U0' then lo else Py.max lo (Py.min hi (a0 * 0))],
     instance [a0] [l0'] [u0'] [L0'] [U0']).
Proof.
  intros. unfold QRAP_NC_seq, tighten, seqn, tighten_first, seqn, read, write.
  cbn. unfold seq_solve, breakpoints, div. cbn.
  destruct (Qeq_bool a0 0); cbn; [reflexivity|].
  unfold solution. cbn. fold L0' U0'.
  destruct (Qeq_bool L0' U0'); reflexivity.
Qed.

(** C9.  For every single-variable instance, [QRAP_NC_infeasible]
    returns exactly [[U_0]], whatever [a_0], the box bounds [l_0], [u_0]
    and the lower nested bound [L_0] are. *)
Theorem QRAP_NC_infeasible_single_variable (depth : nat) (a0 l0 u0 L0 U0 : Q) :
  QRAP_NC_infeasible (S depth) [a0] [l0] [u0] [L0] [U0] = Ok [U0].
Proof. apply infeasible_single. Qed.

(** C4, as the program has it.  No entry point validates its instance.
    With no zero coefficient and no list shorter than [a],
    [QRAP_median] returns a vector whatever the signs of the [a_j] and
    the order of [l_j] and [u_j] are; with one coefficient,
    [QRAP_NC_infeasible] and [QRAP_NC_decomposition] return [[U_0]]
    whatever the other lists hold. *)
Theorem solvers_do_not_validate (a l u L U : list Q) (R : Q) (depth : nat) :
  a <> [] ->
  Forall nonzero a ->
  (length a <= length l)%nat -> (length a <= length u)%nat ->
  (length a <= length L)%nat -> (length a <= length U)%nat ->
  returns (QRAP_median a l u R) /\
  (length a = 1%nat ->
   QRAP_NC_infeasible (S depth) a l u L U = Ok [nth 0 U 0] /\
   QRAP_NC_decomposition a l u L U (S depth) = Ok [nth 0 U 0]).
Proof.
  intros Hne Ha Hl Hu HL HU. split.
  - destruct (QRAP_median_Ok a l u R Hne Ha Hl Hu) as [m ->]. exact I.
  - intros Hone.
    destruct a as [|a0 [|? ?]]; try discriminate.
    destruct L as [|L0 Ls]; [simpl in HL; lia|].
    destruct U as [|U0 Us]; [simpl in HU; lia|].
    split; reflexivity.
Qed.

Lemma solvers_do_not_validate_witness :
  returns (QRAP_median [-1] [5; 9] [2] 0) /\
  (length [-1] = 1%nat ->
   QRAP_NC_infeasible 1 [-1] [5; 9] [2] [7] [3] = Ok [nth 0 [3] 0] /\
   QRAP_NC_decomposition [-1] [5; 9] [2] [7] [3] 1 = Ok [nth 0 [3] 0]).
Proof.
  apply (solvers_do_not_validate [-1] [5; 9] [2] [7] [3] 0 0).
  - discriminate.
  - repeat constructor. discriminate.
  - simpl. lia.
  - simpl. lia.
  - simpl. lia.
  - simpl. lia.
Defined.

(** C4 fails as stated: a negative coefficient, box bounds of another
    length with [l_0 > u_0], and [L_0 > U_0]; every solver computes on
    these data and returns a vector. *)
Lemma invalid_instance_is_solved :
  ~ well_formed [-1] [5; 9] [2] [7] [3] /\
  QRAP_median [-1] [5; 9] [2] 0 = Ok [5] /\
  QRAP_NC_infeasible 1 [-1] [5; 9] [2] [7] [3] = Ok [3] /\
  QRAP_NC_decomposition [-1] [5; 9] [2] [7] [3] 1 = Ok [3] /\
  fst (QRAP_NC_seq (instance [-1] [5; 9] [2] [7] [3])) = Ok [7].
Proof.
  split.
  - intros [_ Hpos _ _ _ _]. inversion Hpos as [|? ? H _]. discriminate H.
  - repeat split; reflexivity.
Qed.

(** C1, as the program has it.  On a feasible single-variable instance
    [QRAP_NC_decomposition] and [QRAP_NC_infeasible] return [[U_0]],
    and [QRAP_NC_seq] returns the point of
    [[max(L_0,l_0), min(U_0,u_0)]] nearest to 0.  So the three solvers
    return the same vector when the nested bounds coincide, [L_0 = U_0]
    inside the box; they need not otherwise. *)
Theorem single_variable_solutions (a0 l0 u0 L0 U0 : Q) (depth : nat) :
  0 < a0 ->
  Py.max L0 l0 <= Py.min U0 u0 ->
  QRAP_NC_decomposition [a0] [l0] [u0] [L0] [U0] (S depth) = Ok [U0] /\
  QRAP_NC_infeasible (S depth) [a0] [l0] [u0] [L0] [U0] = Ok [U0] /\
  exists x0,
    fst (QRAP_NC_seq (instance [a0] [l0] [u0] [L0] [U0])) = Ok [x0] /\
    x0 == Py.max (Py.max L0 l0) (Py.min (Py.min U0 u0) 0) /\
    (L0 == U0 -> l0 <= U0 -> U0 <= u0 -> x0 == U0).
Proof.
  intros Ha Hfeas. split; [reflexivity|]. split; [reflexivity|].
  rewrite seq_single. cbn [fst].
  destruct (Qeq_bool a0 0) eqn:E0.
  { apply Qeq_bool_iff in E0. lra. }
  set (L0' := Py.max L0 l0) in *. set (U0' := Py.min U0 u0) in *.
  assert (Hl : Py.max L0' l0 = L0').
  { unfold Py.max at 1. cmp; [|reflexivity].
    pose proof (max_ge_r L0 l0). fold L0' in H. lra. }
  assert (Hu : Py.min U0' u0 = U0').
  { unfold Py.min at 1. cmp; [|reflexivity].
    pose proof (min_le_r U0 u0). fold U0' in H. lra. }
  rewrite Hl, Hu.
  assert (E1 : a0 * (L0' / a0) == L0') by (field; lra).
  assert (E2 : a0 * (U0' / a0) == U0') by (field; lra).
  assert (E3 : a0 * 0 == 0) by ring.
  assert (Hlo : clip L0' U0' (a0 * (L0' / a0)) == L0').
  { unfold clip, Py.min. cmp; unfold Py.max; cmp; lra. }
  assert (Hhi : clip L0' U0' (a0 * (U0' / a0)) == U0').
  { unfold clip, Py.min. cmp; unfold Py.max; cmp; lra. }
  eexists. split; [reflexivity|].
  assert (Hx : (if Qeq_bool L0' U0' then clip L0' U0' (a0 * (L0' / a0))
                else Py.max (clip L0' U0' (a0 * (L0' / a0)))
                       (Py.min (clip L0' U0' (a0 * (U0' / a0))) (a0 * 0)))
               == Py.max L0' (Py.min U0' 0)).
  { cmp.
    - rewrite Hlo. unfold Py.min. cmp; unfold Py.max; cmp; lra.
    - apply max_compat; [exact Hlo|]. apply min_compat; [exact Hhi | exact E3]. }
  split; [exact Hx|].
  intros HLU Hl0 Hu0. rewrite Hx.
  assert (HL : L0' = L0) by (unfold L0', Py.max; cmp; [lra | reflexivity]).
  assert (HU : U0' = U0) by (unfold U0', Py.min; cmp; [lra | reflexivity]).
  rewrite HL, HU. unfold Py.min. cmp; unfold Py.max; cmp; lra.
Qed.

Lemma single_variable_solutions_witness :
  QRAP_NC_decomposition [2] [0] [10] [3] [3] 1 = Ok [3] /\
  QRAP_NC_infeasible 1 [2] [0] [10] [3] [3] = Ok [3] /\
  exists x0,
    fst (QRAP_NC_seq (instance [2] [0] [10] [3] [3])) = Ok [x0] /\
    x0 == Py.max (Py.max 3 0) (Py.min (Py.min 3 10) 0) /\
    (3 == 3 -> 0 <= 3 -> 3 <= 10 -> x0 == 3).
Proof.
  apply (single_variable_solutions 2 0 10 3 3 0).
  - reflexivity.
  - vm_compute. discriminate.
Defined.

Section Disagreement.

Import PrimFloat.

(** C1 fails as stated, in four ways.  By design, where the last nested
    bounds leave the total open: one variable with [0 <= x <= 10] and
    [2 <= x <= 5] is a feasible instance, [QRAP_NC_seq] returns [[2]]
    and the other two solvers return [[5]]; two variables with
    [0 <= x_j <= 1], [x_0 <= 1] and [x_0 + x_1 <= 5] are one, and the
    three solvers return three vectors, [[1, 4]], [[0, 0]] and
    [[1, 1]].  And with the total pinned, [x_0 + x_1 = 5], through the
    margin [10**(-6)] of the sweep: with [l_1 = 2^-21]
    [QRAP_NC_seq] returns [[5 - 2^-21, 5 - 2^-21]], while the other
    two solvers return [[5/2, 5/2]] up to [10^-6].  And, with the total
    pinned again, through a zero divisor that rounding makes: for
    [-10 <= x_j <= 10], [-4 <= x_0 <= -3] and [x_0 + x_1 = 0.1] the
    three solvers return [[-3, 3.1]] in exact arithmetic, and in
    binary64 [QRAP_NC_decomposition] returns [[nan, nan]]. *)
Lemma solvers_disagree :
  (well_formed [1] [0] [10] [2] [5] /\
   feasible [0] [10] [2] [5] /\
   QRAP_NC_decomposition [1] [0] [10] [2] [5] 1 = Ok [5] /\
   fst (QRAP_NC_seq (instance [1] [0] [10] [2] [5])) = Ok [2] /\
   QRAP_NC_infeasible 1 [1] [0] [10] [2] [5] = Ok [5] /\
   ~ within (1 # 10000) [5] [2]) /\
  (well_formed [1; 1] [0; 0] [1; 1] [0; 0] [1; 5] /\
   feasible [0; 0] [1; 1] [0; 0] [1; 5] /\
   QRAP_NC_decomposition [1; 1] [0; 0] [1; 1] [0; 0] [1; 5] 2 = Ok [1; 4] /\
   fst (QRAP_NC_seq (instance [1; 1] [0; 0] [1; 1] [0; 0] [1; 5])) = Ok [0; 0] /\
   QRAP_NC_infeasible 2 [1; 1] [0; 0] [1; 1] [0; 0] [1; 5] = Ok [1; 1] /\
   ~ within (1 # 10000) [1; 4] [0; 0] /\
   ~ within (1 # 10000) [1; 4] [1; 1] /\
   ~ within (1 # 10000) [0; 0] [1; 1]) /\
  (well_formed [1; 1] [0; 1 # 2097152] [10; 10] [0; 5] [10; 5] /\
   feasible [0; 1 # 2097152] [10; 10] [0; 5] [10; 5] /\
   QRAP_NC_decomposition [1; 1] [0; 1 # 2097152] [10; 10] [0; 5] [10; 5] 2
   = Ok [10485761 # 4194304; 10485761 # 4194304] /\
   fst (QRAP_NC_seq (instance [1; 1] [0; 1 # 2097152] [10; 10] [0; 5] [10; 5]))
   = Ok [10485759 # 2097152; 10485759 # 2097152] /\
   QRAP_NC_infeasible 2 [1; 1] [0; 1 # 2097152] [10; 10] [0; 5] [10; 5]
   = Ok [5 # 2; 5 # 2] /\
   within (1 # 1000000) [10485761 # 4194304; 10485761 # 4194304] [5 # 2; 5 # 2] /\
   ~ within (1 # 10000) [10485759 # 2097152; 10485759 # 2097152] [5 # 2; 5 # 2]) /\
  (well_formed [1; 1] [-10; -10] [10; 10] [-4; 3602879701896397 # 36028797018963968] [-3; 3602879701896397 # 36028797018963968] /\
   feasible [-10; -10] [10; 10] [-4; 3602879701896397 # 36028797018963968] [-3; 3602879701896397 # 36028797018963968] /\
   QRAP_NC_decomposition [1; 1] [-10; -10] [10; 10] [-4; 3602879701896397 # 36028797018963968] [-3; 3602879701896397 # 36028797018963968] 2
   = Ok [-3; 111689270758788301 # 36028797018963968] /\
   fst (QRAP_NC_seq (instance [1; 1] [-10; -10] [10; 10] [-4; 3602879701896397 # 36028797018963968] [-3; 3602879701896397 # 36028797018963968]))
   = Ok [-3; 111689270758788301 # 36028797018963968] /\
   QRAP_NC_infeasible 2 [1; 1] [-10; -10] [10; 10] [-4; 3602879701896397 # 36028797018963968] [-3; 3602879701896397 # 36028797018963968]
   = Ok [-3; 111689270758788301 # 36028797018963968] /\
   B64.QRAP_NC_decomposition [1; 1]%float [-10; -10]%float [10; 10]%float
     [-4; 0x1.999999999999ap-4]%float [-3; 0x1.999999999999ap-4]%float 2
   = Ok [nan; nan]%float /\
   B64.QRAP_NC_infeasible 2 [1; 1]%float [-10; -10]%float [10; 10]%float
     [-4; 0x1.999999999999ap-4]%float [-3; 0x1.999999999999ap-4]%float
   = Ok [-3; 0x1.8cccccccccccdp+1]%float).
Proof.
  assert (Hfar : forall x y xs ys,
            (1 # 10000) < Qabs (x - y) -> ~ within (1 # 10000) (x :: xs) (y :: ys)).
  { intros x y xs ys Hxy H. inversion H as [|? ? ? ? Habs _]. lra. }
  split; [|split; [|split]].
  - split; [|split].
    + constructor; try reflexivity; try discriminate;
        repeat constructor; discriminate.
    + exists [3]. repeat split; repeat constructor; discriminate.
    + repeat split; try reflexivity. apply Hfar. reflexivity.
  - split; [|split].
    + constructor; try reflexivity; try discriminate;
        repeat constructor; discriminate.
    + exists [0; 0]. repeat split; repeat constructor; discriminate.
    + repeat split; try reflexivity.
      * apply Hfar. reflexivity.
      * intros H. inversion H as [|? ? ? ? _ H']. revert H'. apply Hfar. reflexivity.
      * apply Hfar. reflexivity.
  - split; [|split].
    + constructor; try reflexivity; try discriminate;
        repeat constructor; discriminate.
    + exists [5 # 2; 5 # 2].
      repeat split; repeat constructor; vm_compute; discriminate.
    + repeat split; try (vm_compute; reflexivity).
      * repeat constructor; vm_compute; discriminate.
      * apply Hfar. reflexivity.
  - split; [|split].
    + constructor; try reflexivity; try discriminate;
        repeat constructor; discriminate.
    + exists [-3; 111689270758788301 # 36028797018963968].
      repeat split; repeat constructor; vm_compute; discriminate.
    + repeat split; vm_compute; reflexivity.
Qed.

End Disagreement.


(** ** The store after [QRAP_NC_seq] *)

Lemma get_middle (pre post : list Q) x :
  get (pre ++ x :: post) (length pre) = Ok x.
Proof.
  unfold get. rewrite nth_error_app2 by lia.
  now rewrite Nat.sub_diag.
Qed.

Lemma set_middle (pre post : list Q) x v :
  Py.set (pre ++ x :: post) (length pre) v = Ok (pre ++ v :: post).
Proof.
  induction pre as [|p pre IH]; simpl; [reflexivity|].
  now rewrite IH.
Qed.

Lemma tighten_at_run a lp lj ls up uj us Lp Lprev Lj Ls Up Uprev Uj Us :
  length lp = S (length Lp) -> length up = S (length Lp) ->
  length Up = length Lp ->
  tighten_at (S (length Lp))
    (instance a (lp ++ lj :: ls) (up ++ uj :: us)
       (Lp ++ Lprev :: Lj :: Ls) (Up ++ Uprev :: Uj :: Us))
  = (Ok tt,
     instance a (lp ++ lj :: ls) (up ++ uj :: us)
       (Lp ++ Lprev :: Py.max Lj (Lprev + lj) :: Ls)
       (Up ++ Uprev :: Py.min Uj (Uprev + uj) :: Us)).
Proof.
  intros Hlp Hup HUp.
  assert (HgLp : forall x y zs, get (Lp ++ x :: y :: zs) (S (length Lp) - 1) = Ok x).
  { intros. replace (S (length Lp) - 1)%nat with (length Lp) by lia. apply get_middle. }
  assert (HgL : forall x y zs, get (Lp ++ x :: y :: zs) (S (length Lp)) = Ok y).
  { intros. replace (Lp ++ x :: y :: zs) with ((Lp ++ [x]) ++ y :: zs)
      by (now rewrite <- app_assoc).
    replace (S (length Lp)) with (length (Lp ++ [x]))
      by (rewrite length_app; simpl; lia).
    apply get_middle. }
  assert (HsL : forall x y zs v,
             Py.set (Lp ++ x :: y :: zs) (S (length Lp)) v = Ok (Lp ++ x :: v :: zs)).
  { intros. replace (Lp ++ x :: y :: zs) with ((Lp ++ [x]) ++ y :: zs)
      by (now rewrite <- app_assoc).
    replace (S (length Lp)) with (length (Lp ++ [x]))
      by (rewrite length_app; simpl; lia).
    rewrite set_middle. now rewrite <- app_assoc. }
  assert (HgUp : forall x y zs, get (Up ++ x :: y :: zs) (S (length Lp) - 1) = Ok x).
  { intros. replace (S (length Lp) - 1)%nat with (length Up) by lia. apply get_middle. }
  assert (HgU : forall x y zs, get (Up ++ x :: y :: zs) (S (length Lp)) = Ok y).
  { intros. rewrite <- HUp. replace (Up ++ x :: y :: zs) with ((Up ++ [x]) ++ y :: zs)
      by (now rewrite <- app_assoc).
    replace (S (length Up)) with (length (Up ++ [x]))
      by (rewrite length_app; simpl; lia).
    apply get_middle. }
  assert (HsU : forall x y zs v,
             Py.set (Up ++ x :: y :: zs) (S (length Lp)) v = Ok (Up ++ x :: v :: zs)).
  { intros. rewrite <- HUp. replace (Up ++ x :: y :: zs) with ((Up ++ [x]) ++ y :: zs)
      by (now rewrite <- app_assoc).
    replace (S (length Up)) with (length (Up ++ [x]))
      by (rewrite length_app; simpl; lia).
    rewrite set_middle. now rewrite <- app_assoc. }
  assert (Hgl : get (lp ++ lj :: ls) (S (length Lp)) = Ok lj).
  { rewrite <- Hlp. apply get_middle. }
  assert (Hgu : get (up ++ uj :: us) (S (length Lp)) = Ok uj).
  { rewrite <- Hup. apply get_middle. }
  unfold tighten_at, seqn, read, write, pure, instance. cbn [lower_nested lower_bound upper_nested upper_bound objective_par].
  rewrite HgLp, Hgl, HgL.
  unfold Py.max, Py.min.
  destruct (Py.ltb Lj (Lprev + lj));
    cbn [lower_nested lower_bound upper_nested upper_bound objective_par
         with_lower_nested with_upper_nested];
    rewrite ?HgLp, ?Hgl, ?HsL;
    cbn [lower_nested lower_bound upper_nested upper_bound objective_par
         with_lower_nested with_upper_nested];
    rewrite HgUp, Hgu, HgU;
    destruct (Py.ltb (Uprev + uj) Uj);
    cbn [lower_nested lower_bound upper_nested upper_bound objective_par
         with_lower_nested with_upper_nested];
    rewrite ?HgUp, ?Hgu, ?HsU; reflexivity.
Qed.

Lemma tighten_loop_run a :
  forall Ls ls Us us lp up Lp Lprev Up Uprev,
    length ls = length Ls -> length Us = length Ls -> length us = length Ls ->
    length lp = S (length Lp) -> length up = S (length Lp) ->
    length Up = length Lp ->
    for_each tighten_at (seq (S (length Lp)) (length Ls))
      (instance a (lp ++ ls) (up ++ us) (Lp ++ Lprev :: Ls) (Up ++ Uprev :: Us))
    = (Ok tt,
       instance a (lp ++ ls) (up ++ us)
         (Lp ++ Lprev :: tightened_lower_from Lprev Ls ls)
         (Up ++ Uprev :: tightened_upper_from Uprev Us us)).
Proof.
  induction Ls as [|Lj Ls IH];
    intros [|lj ls] [|Uj Us] [|uj us] lp up Lp Lprev Up Uprev
           Hls HUs Hus Hlp Hup HUp; simpl in Hls, HUs, Hus; try discriminate.
  - reflexivity.
  - simpl seq. simpl for_each. unfold seqn at 1.
    rewrite tighten_at_run by assumption.
    specialize (IH ls Us us (lp ++ [lj]) (up ++ [uj]) (Lp ++ [Lprev])
                  (Py.max Lj (Lprev + lj)) (Up ++ [Uprev]) (Py.min Uj (Uprev + uj))).
    rewrite !length_app in IH. simpl length in IH.
    replace (length Lp + 1)%nat with (S (length Lp)) in IH by lia.
    rewrite <- !app_assoc in IH. simpl app in IH.
    rewrite IH by lia. reflexivity.
Qed.

(** The store [tighten] leaves for lists of one length [n >= 1]. *)
Lemma tighten_run a l u L U :
  a <> [] -> length l = length a -> length u = length a ->
  length L = length a -> length U = length a ->
  tighten (instance a l u L U)
  = (Ok tt,
     instance a
       (upd l 0 (Py.max (Py.max (nth 0 L 0) (nth 0 l 0)) (nth 0 l 0)))
       (upd u 0 (Py.min (Py.min (nth 0 U 0) (nth 0 u 0)) (nth 0 u 0)))
       (tightened_lower L l) (tightened_upper U u)).
Proof.
  intros Hne Hl Hu HL HU.
  destruct a as [|a0 a']; [congruence|].
  destruct l as [|l0 ls], u as [|u0 us], L as [|L0 Ls], U as [|U0 Us];
    simpl in Hl, Hu, HL, HU; try discriminate.
  unfold tighten. unfold seqn at 1.
  change (tighten_first (instance (a0 :: a') (l0 :: ls) (u0 :: us) (L0 :: Ls) (U0 :: Us)))
    with (Ok tt, instance (a0 :: a')
                   (Py.max (Py.max L0 l0) l0 :: ls)
                   (Py.min (Py.min U0 u0) u0 :: us)
                   (Py.max L0 l0 :: Ls) (Py.min U0 u0 :: Us)).
  cbn [objective_par instance length Nat.sub].
  replace (length a' - 0)%nat with (length Ls) by lia.
  apply (tighten_loop_run (a0 :: a') Ls ls Us us
           [Py.max (Py.max L0 l0) l0] [Py.min (Py.min U0 u0) u0]
           [] (Py.max L0 l0) [] (Py.min U0 u0)); simpl; lia.
Qed.

Lemma QRAP_NC_seq_snd s :
  snd (QRAP_NC_seq s) = snd (tighten s).
Proof.
  unfold QRAP_NC_seq. destruct (tighten s) as [[[]| |] s']; reflexivity.
Qed.

(** C6, as the program has it.  [QRAP_NC_seq] leaves [a] as it was,
    tightens the nested bounds in place,
    [L_0 <- max(L_0, l_0)], [L_i <- max(L_i, L_{i-1} + l_i)],
    [U_0 <- min(U_0, u_0)], [U_i <- min(U_i, U_{i-1} + u_i)],
    and also overwrites the first box bounds: [l_0] becomes
    [max(L_0, l_0)] and [u_0] becomes [min(U_0, u_0)] of the tightened
    [L_0] and [U_0]; the other entries of [l] and [u] stay.
    ([QRAP_median], [QRAP_NC_decomposition] and [QRAP_NC_infeasible]
    assign to no element of an argument: they are functions of the
    lists.) *)
Theorem QRAP_NC_seq_store (a l u L U : list Q) :
  a <> [] ->
  length l = length a -> length u = length a ->
  length L = length a -> length U = length a ->
  let s' := snd (QRAP_NC_seq (instance a l u L U)) in
  objective_par s' = a /\
  lower_bound s' = upd l 0 (Py.max (Py.max (nth 0 L 0) (nth 0 l 0)) (nth 0 l 0)) /\
  upper_bound s' = upd u 0 (Py.min (Py.min (nth 0 U 0) (nth 0 u 0)) (nth 0 u 0)) /\
  lower_nested s' = tightened_lower L l /\
  upper_nested s' = tightened_upper U u.
Proof.
  intros Hne Hl Hu HL HU s'. subst s'.
  rewrite QRAP_NC_seq_snd, (tighten_run a l u L U) by assumption.
  repeat split; reflexivity.
Qed.

Lemma QRAP_NC_seq_store_witness :
  let s' := snd (QRAP_NC_seq (instance [1; 1] [0; 1] [10; 10] [2; 4] [5; 20])) in
  objective_par s' = [1; 1] /\
  lower_bound s' = upd [0; 1] 0 (Py.max (Py.max 2 0) 0) /\
  upper_bound s' = upd [10; 10] 0 (Py.min (Py.min 5 10) 10) /\
  lower_nested s' = tightened_lower [2; 4] [0; 1] /\
  upper_nested s' = tightened_upper [5; 20] [10; 10].
Proof.
  apply (QRAP_NC_seq_store [1; 1] [0; 1] [10; 10] [2; 4] [5; 20]);
    first [discriminate | reflexivity].
Defined.

(** C6 fails as stated: after the call the caller's [l_0 = 0] is 2 and
    the caller's [u_0 = 10] is 5. *)
Lemma QRAP_NC_seq_writes_box_bounds :
  let s' := snd (QRAP_NC_seq (instance [1] [0] [10] [2] [5])) in
  lower_bound s' = [2] /\ upper_bound s' = [5] /\
  ~ same_vector (lower_bound s') [0] /\ ~ same_vector (upper_bound s') [10].
Proof.
  cbv zeta. split; [reflexivity|]. split; [reflexivity|].
  split; intros H; vm_compute in H; inversion H as [|? ? ? ? E _]; discriminate E.
Qed.

(** ** The divisions of [QRAP_NC_seq] *)

(** C5, as the program has it.  The quotients by [free_help] that close
    a breakpoint search are taken without a test of the divisor: with a
    non-zero [free_help] the multiplier is
    [(L_j - fixed_help)/free_help] (or the same with [U_j]), and with
    [free_help = 0] the call ends in the division error of the runtime.
    A search that is left without a candidate closes with that
    quotient. *)
Theorem seq_division_unguarded (a l u L U : list Q) (fuel j : nat)
    (st : sweep_state) (fixed_help free_help : Q) :
  num_lower_breakpoints_heap st = 0%nat ->
  num_upper_breakpoints_heap st = 0%nat ->
  num_lower_opt_multiplier_deque st = 0%nat ->
  num_upper_opt_multiplier_deque st = 0%nat ->
  lower_search a l u L (S fuel) j st fixed_help free_help
  = lower_close L j st fixed_help free_help /\
  upper_search a l u U (S fuel) j st fixed_help free_help
  = upper_close U j st fixed_help free_help /\
  (forall st' fx fr,
     lower_close L j st' fx fr
     = if Qeq_bool fr 0 then Raise ZeroDivisionError
       else Ok (with_lower st'
                  (close_side true j ((nth j L 0 - fx) / fr) fx fr (lower st')))) /\
  (forall st' fx fr,
     upper_close U j st' fx fr
     = if Qeq_bool fr 0 then Raise ZeroDivisionError
       else Ok (with_upper st'
                  (close_side false j ((nth j U 0 - fx) / fr) fx fr (upper st')))).
Proof.
  intros H1 H2 H3 H4. split; [|split; [|split]].
  - simpl. unfold lower_candidates. rewrite H1. simpl.
    rewrite H2. simpl. rewrite H3. simpl. rewrite H4. reflexivity.
  - simpl. unfold upper_candidates. rewrite H1. simpl.
    rewrite H2. simpl. rewrite H3. simpl. rewrite H4. reflexivity.
  - intros st' fx fr. unfold lower_close, div.
    destruct (Qeq_bool fr 0); reflexivity.
  - intros st' fx fr. unfold upper_close, div.
    destruct (Qeq_bool fr 0); reflexivity.
Qed.

Lemma seq_division_unguarded_witness :
  let side0 := {| opt_multiplier := [0]; opt_multiplier_deque := [];
                  num_opt_multiplier_deque := 0; fixed_ := [0]; free_ := [1] |} in
  let none := {| heap_min := []; heap_max := []; num_breakpoints_heap := 0;
                 Removed_BP := [false] |} in
  let st := {| lower := side0; upper := side0; lower_BP := none; upper_BP := none |} in
  lower_search [1] [0] [1] [3] 1 0 st 1 0 = lower_close [3] 0 st 1 0 /\
  upper_search [1] [0] [1] [3] 1 0 st 1 0 = upper_close [3] 0 st 1 0 /\
  (forall st' fx fr,
     lower_close [3] 0 st' fx fr
     = if Qeq_bool fr 0 then Raise ZeroDivisionError
       else Ok (with_lower st'
                  (close_side true 0 ((nth 0 [3] 0 - fx) / fr) fx fr (lower st')))) /\
  (forall st' fx fr,
     upper_close [3] 0 st' fx fr
     = if Qeq_bool fr 0 then Raise ZeroDivisionError
       else Ok (with_upper st'
                  (close_side false 0 ((nth 0 [3] 0 - fx) / fr) fx fr (upper st')))).
Proof.
  cbv zeta.
  apply (seq_division_unguarded [1] [0] [1] [3] [3] 0 0); reflexivity.
Defined.

(** C5 fails as stated: the instance below is feasible (by the vector
    [[1, 1 - 2^-21]]), and the lower search of [QRAP_NC_seq] at [j = 1]
    runs out of candidates with [lower_free_help = 0]: both breakpoints
    of the second variable lie within [10**(-6)] of the thresholds and
    are not pushed. *)
Lemma seq_divides_by_zero :
  let h := 1 # 2097152 in
  well_formed [1; 1] [0; h] [1; 1 - h] [0; 2 - h] [1; 2 - h] /\
  feasible [0; h] [1; 1 - h] [0; 2 - h] [1; 2 - h] /\
  fst (QRAP_NC_seq (instance [1; 1] [0; h] [1; 1 - h] [0; 2 - h] [1; 2 - h]))
  = Raise ZeroDivisionError.
Proof.
  cbv zeta. split; [|split].
  - constructor; try reflexivity; try discriminate;
      repeat constructor; vm_compute; discriminate.
  - exists [1; 1 - (1 # 2097152)].
    repeat split; repeat constructor; vm_compute; discriminate.
  - vm_compute. reflexivity.
Qed.

(** ** Box bounds of what [QRAP_NC_seq] returns *)

Lemma upd_length {A : Type} (xs : list A) i v : length (upd xs i v) = length xs.
Proof.
  revert i; induction xs as [|x xs IH]; intros [|i]; simpl; auto.
Qed.

Lemma upd_nth_same (xs : list Q) i v :
  (i < length xs)%nat -> nth i (upd xs i v) 0 = v.
Proof.
  revert i; induction xs as [|x xs IH]; intros [|i] H; simpl in *; try lia; auto.
  apply IH. lia.
Qed.

Lemma upd_nth_other (xs : list Q) i j v :
  i <> j -> nth j (upd xs i v) 0 = nth j xs 0.
Proof.
  revert i j; induction xs as [|x xs IH]; intros [|i] [|j] H; simpl; auto;
    try congruence.
Qed.

Section BackwardBounds.

Variables (a l u : list Q) (num_var : nat) (st : sweep_state).
Hypothesis box : forall j, (j < num_var)%nat -> nth j l 0 <= nth j u 0.
Hypothesis nonempty : (0 < num_var)%nat.

#[local] Abbreviation bounded_from := (bounded_from l u num_var).

Lemma opt_value_box j m :
  (j < num_var)%nat ->
  nth j l 0 <= opt_value a l u j m <= nth j u 0.
Proof.
  intros Hj. specialize (box j Hj). unfold opt_value.
  cmp; [lra|]. cmp; lra.
Qed.

Lemma backward_init_bounded :
  bounded_from (num_var - 1) (backward_init a l u num_var st).
Proof.
  unfold bounded_from, backward_init. cbn [opt_lower opt_upper].
  rewrite !upd_length, repeat_length. repeat split; try reflexivity;
    replace j with (num_var - 1)%nat by lia;
    rewrite upd_nth_same by (rewrite repeat_length; lia);
    first [apply clip_ge | apply clip_le; apply box; lia].
Qed.

Lemma backward_step_bounded m b :
  (m < num_var)%nat ->
  bounded_from (S m) b -> bounded_from m (backward_step a l u st b m).
Proof.
  intros Hm (Hlo & Hhi & H). unfold bounded_from, backward_step.
  cbn [opt_lower opt_upper]. rewrite !upd_length.
  split; [exact Hlo|]. split; [exact Hhi|].
  intros j Hj. destruct (Nat.eq_dec m j) as [<-|Hne].
  - rewrite !upd_nth_same by lia. split; apply opt_value_box; lia.
  - rewrite !upd_nth_other by exact Hne. apply H. lia.
Qed.

Lemma backward_fold_bounded m :
  forall b, (m < num_var)%nat \/ m = 0%nat ->
    bounded_from m b ->
    bounded_from 0 (fold_left (backward_step a l u st) (rev (seq 0 m)) b).
Proof.
  induction m as [|m IH]; intros b Hm Hb; [exact Hb|].
  rewrite seq_S, rev_app_distr. simpl.
  apply IH; [lia|]. apply backward_step_bounded; [lia | exact Hb].
Qed.

Lemma backward_bounded : bounded_from 0 (backward a l u num_var st).
Proof.
  unfold backward. apply backward_fold_bounded; [lia|].
  apply backward_init_bounded.
Qed.

Lemma solution_box L U j :
  (j < num_var)%nat ->
  length (solution a L U num_var (backward a l u num_var st)) = num_var /\
  nth j l 0 <= nth j (solution a L U num_var (backward a l u num_var st)) 0
            <= nth j u 0.
Proof.
  intros Hj. destruct backward_bounded as (Hlo & Hhi & H).
  destruct (H j) as [[H1 H2] [H3 H4]]; [lia|].
  unfold solution. destruct (Qeq_bool _ _).
  - split; [exact Hlo | split; assumption].
  - rewrite length_map, length_seq. split; [reflexivity|].
    rewrite nth_map_seq by exact Hj. split.
    + eapply Qle_trans; [exact H1 | apply max_ge_l].
    + apply max_lub; [exact H2|].
      eapply Qle_trans; [apply min_le_l | exact H4].
Qed.

End BackwardBounds.

(** Whatever [seq_solve] returns lies within the box bounds of the
    store it reads. *)
Lemma seq_solve_box s x :
  objective_par s <> [] ->
  (forall j, (j < length (objective_par s))%nat ->
     nth j (lower_bound s) 0 <= nth j (upper_bound s) 0) ->
  seq_solve s = Ok x ->
  length x = length (objective_par s) /\
  forall j, (j < length (objective_par s))%nat ->
    nth j (lower_bound s) 0 <= nth j x 0 <= nth j (upper_bound s) 0.
Proof.
  intros Hne Hbox. unfold seq_solve.
  destruct (breakpoints _ (lower_bound s)) as [lbs| |]; simpl; try discriminate.
  destruct (breakpoints _ (upper_bound s)) as [ubs| |]; simpl; try discriminate.
  destruct (get lbs 0) as [lower0| |]; simpl; try discriminate.
  destruct (get ubs 0) as [upper0| |]; simpl; try discriminate.
  destruct (sweep _ _ _ _ _ _ _ _ _) as [st| |]; simpl; try discriminate.
  intros [= <-].
  assert (Hpos : (0 < length (objective_par s))%nat).
  { destruct (objective_par s); [congruence | simpl; lia]. }
  split.
  - apply (solution_box _ _ _ _ st Hbox Hpos _ _ 0%nat Hpos).
  - intros j Hj. apply (solution_box _ _ _ _ st Hbox Hpos _ _ j Hj).
Qed.

(** ** The sum of what [QRAP_median] returns *)

Lemma total_app f xs ys : total f (xs ++ ys) == total f xs + total f ys.
Proof. induction xs as [|x xs IH]; simpl; [lra | rewrite IH; lra]. Qed.

Lemma total_fold_left f js acc :
  fold_left (fun s j => s + f j) js acc == acc + total f js.
Proof.
  revert acc; induction js as [|j js IH]; intros acc; simpl; [lra|].
  rewrite IH. lra.
Qed.

Lemma total_ext f g js :
  (forall j, In j js -> f j == g j) -> total f js == total g js.
Proof.
  induction js as [|j js IH]; intros H; simpl; [lra|].
  rewrite (H j (or_introl eq_refl)), IH; [lra|].
  intros k Hk. apply H. now right.
Qed.


Lemma sum_map_total f js : Py.sum (map f js) == total f js.
Proof.
  induction js as [|j js IH]; simpl; [reflexivity|].
  rewrite sum_cons, IH. lra.
Qed.

Lemma map_nth_seq_self (xs : list Q) :
  map (fun j => nth j xs 0) (seq 0 (length xs)) = xs.
Proof.
  apply nth_ext with (d := 0) (d' := 0).
  - now rewrite length_map, length_seq.
  - intros j Hj. rewrite length_map, length_seq in Hj.
    now rewrite nth_map_seq.
Qed.

Lemma sum_as_total xs : Py.sum xs == total (fun j => nth j xs 0) (seq 0 (length xs)).
Proof.
  rewrite <- sum_map_total, map_nth_seq_self. reflexivity.
Qed.

Section MedianSum.

Variables (a l u : list Q) (R : Q).

Let n := length a.

Hypothesis a_positive : forall j, (j < n)%nat -> 0 < nth j a 0.
Hypothesis box : forall j, (j < n)%nat -> nth j l 0 <= nth j u 0.

Let lbs := map (fun j => nth j l 0 / nth j a 0) (seq 0 n).
Let ubs := map (fun j => nth j u 0 / nth j a 0) (seq 0 n).

#[local] Abbreviation value := (value a l u).
#[local] Abbreviation value_sum := (value_sum a l u).
#[local] Abbreviation pending := (pending a l u).
#[local] Abbreviation median_inv := (median_inv a l u R).
#[local] Abbreviation inv_indices := (inv_indices a l u R).
#[local] Abbreviation inv_num_undecided := (inv_num_undecided a l u R).
#[local] Abbreviation inv_num_current := (inv_num_current a l u R).
#[local] Abbreviation inv_sum := (inv_sum a l u R).
#[local] Abbreviation inv_free := (inv_free a l u R).
#[local] Abbreviation inv_lower := (inv_lower a l u R).
#[local] Abbreviation inv_upper := (inv_upper a l u R).
#[local] Abbreviation inv_current := (inv_current a l u R).
#[local] Abbreviation inv_breakpoints := (inv_breakpoints a l u R).

Lemma lb_spec j m :
  (j < n)%nat -> (m <= lb lbs j <-> nth j a 0 * m <= nth j l 0).
Proof.
  intros Hj. unfold lb, lbs. rewrite nth_map_seq by exact Hj.
  pose proof (a_positive j Hj) as Ha.
  assert (E : nth j a 0 * (nth j l 0 / nth j a 0) == nth j l 0) by (field; lra).
  split; intros H.
  - rewrite <- E. apply Qmult_le_l; assumption.
  - rewrite <- E in H. apply Qmult_le_l in H; assumption.
Qed.

Lemma lb_spec' j m :
  (j < n)%nat -> (lb lbs j <= m <-> nth j l 0 <= nth j a 0 * m).
Proof.
  intros Hj. unfold lb, lbs. rewrite nth_map_seq by exact Hj.
  pose proof (a_positive j Hj) as Ha.
  assert (E : nth j a 0 * (nth j l 0 / nth j a 0) == nth j l 0) by (field; lra).
  split; intros H.
  - rewrite <- E. apply Qmult_le_l; assumption.
  - rewrite <- E in H. apply Qmult_le_l in H; assumption.
Qed.

Lemma ub_spec j m :
  (j < n)%nat -> (m <= ub ubs j <-> nth j a 0 * m <= nth j u 0).
Proof.
  intros Hj. unfold ub, ubs. rewrite nth_map_seq by exact Hj.
  pose proof (a_positive j Hj) as Ha.
  assert (E : nth j a 0 * (nth j u 0 / nth j a 0) == nth j u 0) by (field; lra).
  split; intros H.
  - rewrite <- E. apply Qmult_le_l; assumption.
  - rewrite <- E in H. apply Qmult_le_l in H; assumption.
Qed.

Lemma ub_spec' j m :
  (j < n)%nat -> (ub ubs j <= m <-> nth j u 0 <= nth j a 0 * m).
Proof.
  intros Hj. unfold ub, ubs. rewrite nth_map_seq by exact Hj.
  pose proof (a_positive j Hj) as Ha.
  assert (E : nth j a 0 * (nth j u 0 / nth j a 0) == nth j u 0) by (field; lra).
  split; intros H.
  - rewrite <- E. apply Qmult_le_l; assumption.
  - rewrite <- E in H. apply Qmult_le_l in H; assumption.
Qed.

Lemma value_low j m :
  (j < n)%nat -> m <= lb lbs j -> value m j == nth j l 0.
Proof.
  intros Hj H. apply (lb_spec j m Hj) in H. pose proof (box j Hj).
  destruct (clip_cases (nth j l 0) (nth j u 0) (nth j a 0 * m)) as [[? E]|[[? E]|[? E]]];
    try assumption; unfold value; rewrite E; lra.
Qed.

Lemma value_high j m :
  (j < n)%nat -> ub ubs j <= m -> value m j == nth j u 0.
Proof.
  intros Hj H. apply (ub_spec' j m Hj) in H. pose proof (box j Hj).
  destruct (clip_cases (nth j l 0) (nth j u 0) (nth j a 0 * m)) as [[? E]|[[? E]|[? E]]];
    try assumption; unfold value; rewrite E; lra.
Qed.

Lemma value_middle j m :
  (j < n)%nat -> lb lbs j <= m -> m <= ub ubs j -> value m j == nth j a 0 * m.
Proof.
  intros Hj H1 H2. apply (lb_spec' j m Hj) in H1. apply (ub_spec j m Hj) in H2.
  pose proof (box j Hj).
  destruct (clip_cases (nth j l 0) (nth j u 0) (nth j a 0 * m)) as [[? E]|[[? E]|[? E]]];
    try assumption; unfold value; rewrite E; lra.
Qed.

(** The term the loop adds for an undecided variable is its value. *)
Lemma candidate_term_value c j :
  (j < n)%nat -> candidate_term a l u lbs ubs c j == value c j.
Proof.
  intros Hj. unfold candidate_term, l_, u_, a_.
  cmp; [now rewrite value_high|].
  cmp; [now rewrite value_low|].
  rewrite value_middle; [reflexivity | exact Hj | lra | lra].
Qed.

Lemma hi_le_true hi x : hi_le hi x = true <-> exists h, hi = Some h /\ h <= x.
Proof.
  destruct hi as [h|]; simpl.
  - rewrite Qle_bool_iff. split; [eauto | now intros (? & [= <-] & ?)].
  - split; [discriminate | now intros (? & ? & _)].
Qed.

Lemma hi_le_false hi x : hi_le hi x = false <-> strictly_below hi x.
Proof.
  destruct hi as [h|]; simpl; [apply leb_gt | tauto].
Qed.

Section Decide.

Variables (lo : Q) (hi : option Q).

#[local] Abbreviation decide_inv := (decide_inv a l u lo hi).

Lemma decide_one_inv target all j rest acc :
  (j < n)%nat ->
  decide_inv target all (j :: rest) acc ->
  decide_inv target all rest (decide_one a l u lbs ubs lo hi acc j).
Proof.
  intros Hj. destruct acc as [[[fx fr] num] new].
  intros (Hsum & Hfr & Hnum & Hnew & Hincl).
  assert (Hincl' : incl (new ++ rest) all).
  { intros k Hk. apply Hincl. apply in_app_iff in Hk as [Hk|Hk];
      apply in_app_iff; [now left | right; now right]. }
  unfold decide_one, l_, u_, a_.
  destruct (Qle_bool (ub ubs j) lo) eqn:E1.
  { apply Qle_bool_iff in E1. repeat split; auto.
    - intros m Hm Hb. rewrite <- (Hsum m Hm Hb). simpl.
      rewrite (value_high j m Hj); lra.
    - simpl in Hnum. lia. }
  apply leb_gt in E1.
  destruct (Qle_bool (lb lbs j) lo && hi_le hi (ub ubs j)) eqn:E2.
  { apply andb_true_iff in E2 as [E2 E3]. apply Qle_bool_iff in E2.
    apply hi_le_true in E3 as (h & Hh & E3).
    repeat split; auto.
    - intros m Hm Hb. rewrite <- (Hsum m Hm Hb).
      assert (m <= h) by (unfold below in Hb; rewrite Hh in Hb; exact Hb).
      simpl. rewrite (value_middle j m Hj); lra.
    - pose proof (a_positive j Hj). lra.
    - simpl in Hnum. lia. }
  destruct (hi_le hi (lb lbs j)) eqn:E3.
  { apply hi_le_true in E3 as (h & Hh & E3).
    repeat split; auto.
    - intros m Hm Hb. rewrite <- (Hsum m Hm Hb).
      assert (m <= h) by (unfold below in Hb; rewrite Hh in Hb; exact Hb).
      simpl. rewrite (value_low j m Hj); lra.
    - simpl in Hnum. lia. }
  apply hi_le_false in E3.
  repeat split; auto.
  - intros m Hm Hb. rewrite <- (Hsum m Hm Hb). simpl.
    rewrite total_app. simpl. lra.
  - rewrite length_app. simpl in *. lia.
  - apply Forall_app. split; [exact Hnew|]. constructor; [|constructor].
    split; [exact Hj|].
    apply andb_false_iff in E2 as [E2|E2].
    + apply leb_gt in E2. left. split; assumption.
    + apply hi_le_false in E2. right. split; assumption.
  - intros k Hk. apply Hincl. rewrite <- app_assoc in Hk. exact Hk.
Qed.

Lemma decide_fold_inv target all rest :
  forall acc,
    Forall (fun j => (j < n)%nat) rest ->
    decide_inv target all rest acc ->
    decide_inv target all [] (fold_left (decide_one a l u lbs ubs lo hi) rest acc).
Proof.
  induction rest as [|j rest IH]; intros acc Hn H; [exact H|].
  simpl. inversion Hn; subst. apply IH; [assumption|].
  now apply decide_one_inv.
Qed.

End Decide.

Lemma SummedVariables_value st c :
  median_inv st ->
  lower_breakpoint_bound st <= c -> below (upper_breakpoint_bound st) c ->
  SummedVariables a l u lbs ubs st c == value_sum c.
Proof.
  intros I Hlo Hhi. unfold SummedVariables.
  rewrite total_fold_left, (inv_sum st I c Hlo Hhi).
  rewrite (total_ext (candidate_term a l u lbs ubs c) (value c)); [lra|].
  intros j Hj. apply candidate_term_value.
  pose proof (inv_indices st I) as H. rewrite Forall_forall in H. now apply H.
Qed.

Lemma narrow_inv st c x y :
  median_inv st ->
  In x (current_breakpoints st) -> In y (current_breakpoints st) ->
  x <= c -> c <= y ->
  median_inv (narrow R st c (SummedVariables a l u lbs ubs st c)).
Proof.
  intros I Hx Hy Hxc Hcy.
  destruct (inv_current st I x Hx) as [Hlox _].
  destruct (inv_current st I y Hy) as [_ Hyhi].
  assert (Hlo : lower_breakpoint_bound st <= c) by lra.
  assert (Hhi : strictly_below (upper_breakpoint_bound st) c).
  { destruct (upper_breakpoint_bound st); simpl in *; [lra | trivial]. }
  assert (Hhi' : below (upper_breakpoint_bound st) c).
  { destruct (upper_breakpoint_bound st); simpl in *; [lra | trivial]. }
  pose proof (SummedVariables_value st c I Hlo Hhi') as Hs.
  unfold narrow. cmp.
  - constructor; simpl.
    + apply I.
    + apply I.
    + reflexivity.
    + intros m Hm Hb. apply (inv_sum st I); [exact Hm|].
      destruct (upper_breakpoint_bound st); simpl in *; [lra | trivial].
    + apply I.
    + apply I.
    + intros h [= <-]. split; lra.
    + intros b Hb. apply filter_In in Hb as [Hb Hlt]. apply ltb_lt in Hlt.
      split; [apply (inv_current st I b Hb) | exact Hlt].
    + intros j b Hj Hb Hlob Hbc. apply filter_In. split.
      * apply (inv_breakpoints st I j b Hj Hb Hlob).
        destruct (upper_breakpoint_bound st); simpl in *; [lra | trivial].
      * apply ltb_lt. exact Hbc.
  - constructor; simpl.
    + apply I.
    + apply I.
    + reflexivity.
    + intros m Hm Hb. apply (inv_sum st I); [lra | exact Hb].
    + apply I.
    + lra.
    + intros h Hh. destruct (inv_upper st I h Hh) as [H1 H2].
      split; [exact H1|]. rewrite Hh in Hhi. simpl in Hhi. lra.
    + intros b Hb. apply filter_In in Hb as [Hb Hlt]. apply ltb_lt in Hlt.
      split; [lra | apply (inv_current st I b Hb)].
    + intros j b Hj Hb Hcb Hbh. apply filter_In. split.
      * apply (inv_breakpoints st I j b Hj Hb); [lra | exact Hbh].
      * apply ltb_lt. exact Hcb.
Qed.

Lemma decide_state_inv st :
  median_inv st ->
  median_inv (decide a l u lbs ubs st) /\
  Forall (pending (lower_breakpoint_bound st) (upper_breakpoint_bound st))
         (undecided_variables_indices (decide a l u lbs ubs st)).
Proof.
  intros I.
  pose proof (decide_fold_inv (lower_breakpoint_bound st) (upper_breakpoint_bound st)
                value_sum (undecided_variables_indices st)
                (undecided_variables_indices st)
                (fixed st, free st, num_undecided_variables st, [])
                (inv_indices st I)) as H.
  unfold decide.
  destruct (fold_left _ _ _) as [[[fx fr] num] new].
  destruct H as (Hsum & Hfr & Hnum & Hnew & Hincl).
  { repeat split.
    - intros m Hm Hb. rewrite (inv_sum st I m Hm Hb). simpl. lra.
    - apply I.
    - rewrite (inv_num_undecided st I). reflexivity.
    - constructor.
    - simpl. apply incl_refl. }
  split; [|exact Hnew].
  constructor; simpl.
  - eapply Forall_impl; [|exact Hnew]. intros j Hj. apply Hj.
  - simpl in Hnum. lia.
  - apply I.
  - intros m Hm Hb. rewrite <- (Hsum m Hm Hb). simpl. lra.
  - exact Hfr.
  - apply I.
  - apply I.
  - apply I.
  - intros j b Hj. apply (inv_breakpoints st I j b).
    apply Hincl. rewrite app_nil_r. exact Hj.
Qed.

Lemma median_loop_inv fuel :
  forall st ex,
    median_inv st ->
    median_loop a l u R lbs ubs fuel st = Ok ex ->
    match ex with
    | Matched c => Qabs (value_sum c - R) <= eps6
    | Exhausted st' =>
        median_inv st' /\
        (st' = st \/
         Forall (pending (lower_breakpoint_bound st') (upper_breakpoint_bound st'))
                (undecided_variables_indices st'))
    end.
Proof.
  induction fuel as [|fuel IH]; intros st ex I; cbn [median_loop];
    destruct ((0 <? num_undecided_variables st)%nat
              && (0 <? num_current_breakpoints st)%nat) eqn:Hcond;
    try discriminate; try (intros [= <-]; split; [exact I | now left]).
  apply andb_true_iff in Hcond as [_ Hcur]. apply Nat.ltb_lt in Hcur.
  assert (Hne : current_breakpoints st <> []).
  { intros E. rewrite (inv_num_current st I), E in Hcur. simpl in Hcur. lia. }
  destruct (median_between _ Hne) as (c & x & y & Hmed & Hx & Hy & Hxc & Hcy).
  rewrite Hmed. cbn [bind].
  destruct (inv_current st I x Hx) as [Hlox _].
  destruct (inv_current st I y Hy) as [_ Hyhi].
  assert (Hhi : below (upper_breakpoint_bound st) c).
  { destruct (upper_breakpoint_bound st); simpl in *; [lra | trivial]. }
  pose proof (SummedVariables_value st c I ltac:(lra) Hhi) as Hs.
  destruct (Qle_bool _ eps6) eqn:Hmatch.
  - intros [= <-]. apply Qle_bool_iff in Hmatch.
    rewrite Hs in Hmatch. exact Hmatch.
  - intros Hloop.
    pose proof (narrow_inv st c x y I Hx Hy Hxc Hcy) as I1.
    destruct (decide_state_inv _ I1) as [I2 Hpend].
    specialize (IH _ _ I2 Hloop). destruct ex as [c'|st']; [exact IH|].
    destruct IH as [I' [->|Hp]]; (split; [assumption|]); right; [|exact Hp].
    destruct (decide_breakpoints a l u lbs ubs
                (narrow R st c (SummedVariables a l u lbs ubs st c)))
      as (_ & _ & -> & ->).
    exact Hpend.
Qed.

(** Some multiplier is above the bracket's lower end and above every
    upper breakpoint. *)
Lemma above_all (lo : Q) (bs : list Q) :
  exists M, lo <= M /\ forall b, In b bs -> b <= M.
Proof.
  induction bs as [|b bs (M & HM & Hall)].
  - exists lo. split; [lra | intros ? []].
  - exists (Py.max M b). split.
    + pose proof (max_ge_l M b). lra.
    + intros b' [<-|Hb]; [apply max_ge_r|].
      pose proof (max_ge_l M b). specialize (Hall b' Hb). lra.
Qed.

Lemma value_sum_upper M :
  (forall j, (j < n)%nat -> ub ubs j <= M) ->
  value_sum M == total (fun j => nth j u 0) (seq 0 n).
Proof.
  intros H. apply total_ext. intros j Hj. apply in_seq in Hj.
  apply value_high; [lia | apply H; lia].
Qed.

Lemma value_sum_lower m :
  (forall j, (j < n)%nat -> m <= lb lbs j) ->
  value_sum m == total (fun j => nth j l 0) (seq 0 n).
Proof.
  intros H. apply total_ext. intros j Hj. apply in_seq in Hj.
  apply value_low; [lia | apply H; lia].
Qed.

(** The multiplier computed after the loop meets the resource value,
    unless every variable sits at its upper bound below it. *)
Lemma final_multiplier_sum st :
  median_inv st ->
  Forall (pending (lower_breakpoint_bound st) (upper_breakpoint_bound st))
         (undecided_variables_indices st) ->
  num_undecided_variables st = 0%nat \/ num_current_breakpoints st = 0%nat ->
  value_sum (final_multiplier R st) == R \/
  (value_sum (final_multiplier R st) == total (fun j => nth j u 0) (seq 0 n) /\
   total (fun j => nth j u 0) (seq 0 n) <= R).
Proof.
  intros I Hpend Hexit.
  assert (Hund : undecided_variables_indices st = []).
  { destruct (undecided_variables_indices st) as [|j js] eqn:E; [reflexivity|].
    exfalso. destruct Hexit as [H|H].
    - rewrite (inv_num_undecided st I), E in H. discriminate H.
    - rewrite (inv_num_current st I) in H.
      apply length_zero_iff_nil in H.
      inversion Hpend as [|? ? [_ Hj] _]; subst.
      assert (Hin : In j (undecided_variables_indices st)) by (rewrite E; now left).
      destruct Hj as [[H1 H2]|[H1 H2]].
      + pose proof (inv_breakpoints st I j _ Hin (or_introl eq_refl) H1 H2) as F.
        rewrite H in F. exact F.
      + pose proof (inv_breakpoints st I j _ Hin (or_intror eq_refl) H1 H2) as F.
        rewrite H in F. exact F. }
  assert (Hsum : forall m, lower_breakpoint_bound st <= m ->
                           below (upper_breakpoint_bound st) m ->
                           value_sum m == fixed st + free st * m).
  { intros m Hm Hb. rewrite (inv_sum st I m Hm Hb), Hund. simpl. lra. }
  pose proof (inv_lower st I) as Hlo.
  pose proof (inv_free st I) as Hfree.
  unfold final_multiplier. cmp.
  - (* free == 0 *)
    right.
    destruct (upper_breakpoint_bound st) as [h|] eqn:Hh.
    { exfalso. destruct (inv_upper st I h Hh) as [H1 H2].
      rewrite (Hsum h) in H1 by (rewrite ?Hh; simpl; lra).
      rewrite (Hsum (lower_breakpoint_bound st)) in Hlo
        by (rewrite ?Hh; simpl; lra).
      rewrite E in H1, Hlo. lra. }
    destruct (above_all (lower_breakpoint_bound st) ubs) as (M & HM & Hall).
    assert (HMu : value_sum M == total (fun j => nth j u 0) (seq 0 n)).
    { apply value_sum_upper. intros j Hj. apply Hall. unfold ub.
      apply nth_In. unfold ubs. rewrite length_map, length_seq. exact Hj. }
    assert (HMlo : value_sum M == value_sum (lower_breakpoint_bound st)).
    { rewrite (Hsum M HM), (Hsum (lower_breakpoint_bound st));
        try rewrite Hh; simpl; try lra; trivial.
      rewrite E. lra. }
    split; lra.
  - (* free <> 0 *)
    left.
    assert (Hpos : 0 < free st) by lra.
    set (m := (R - fixed st) / free st).
    assert (Em : free st * m == R - fixed st) by (unfold m; field; lra).
    assert (Hlom : lower_breakpoint_bound st <= m).
    { rewrite (Hsum (lower_breakpoint_bound st)) in Hlo.
      - apply (Qmult_le_l _ _ (free st) Hpos). lra.
      - lra.
      - destruct (upper_breakpoint_bound st) as [h|] eqn:Hh; simpl; [|trivial].
        apply (inv_upper st I h Hh). }
    assert (Hmh : below (upper_breakpoint_bound st) m).
    { destruct (upper_breakpoint_bound st) as [h|] eqn:Hh; simpl; [|trivial].
      destruct (inv_upper st I h Hh) as [H1 H2].
      rewrite (Hsum h) in H1 by (rewrite ?Hh; simpl; lra).
      apply Qlt_le_weak. apply (Qmult_lt_l _ _ (free st) Hpos). lra. }
    rewrite (Hsum m Hlom Hmh). lra.
Qed.

End MedianSum.

Lemma fold_min_le bs : forall b x, In x (b :: bs) -> fold_left Py.min bs b <= x.
Proof.
  induction bs as [|b' bs IH]; intros b x Hx; simpl.
  - destruct Hx as [Hx|[]]. subst. lra.
  - pose proof (min_le_l b b'). pose proof (min_le_r b b').
    destruct Hx as [Hx|[Hx|Hx]]; subst.
    + pose proof (IH (Py.min x b') (Py.min x b') (or_introl eq_refl)). lra.
    + pose proof (IH (Py.min b x) (Py.min b x) (or_introl eq_refl)). lra.
    + apply IH. now right.
Qed.

Lemma nth_positive a j :
  Forall (fun aj => 0 < aj) a -> (j < length a)%nat -> 0 < nth j a 0.
Proof.
  intros H Hj. rewrite Forall_forall in H. apply H, nth_In, Hj.
Qed.

(** For a resource value not below [sum l], [QRAP_median] returns a
    vector whose sum is [R] within the tolerance, or the vector of the
    upper bounds when these sum up to less than [R]. *)
Lemma QRAP_median_sum a l u R :
  a <> [] ->
  Forall (fun aj => 0 < aj) a ->
  length l = length a ->
  Forall2 Qle l u ->
  Py.sum l <= R ->
  exists m,
    QRAP_median a l u R = Ok (clipped a l u m) /\
    (Qabs (Py.sum (clipped a l u m) - R) <= eps6 \/
     (Py.sum (clipped a l u m) == Py.sum u /\ Py.sum u <= R)).
Proof.
  intros Hne Ha Hl Hlu HR.
  pose proof (Forall2_length Hlu) as Hu.
  assert (Hpos : forall j, (j < length a)%nat -> 0 < nth j a 0).
  { intros j Hj. now apply nth_positive. }
  assert (Hbox : forall j, (j < length a)%nat -> nth j l 0 <= nth j u 0).
  { intros j Hj. apply (Forall2_nth _ _ _ Hlu). lia. }
  assert (Hn : (0 < length a)%nat).
  { destruct a; [congruence | simpl; lia]. }
  unfold QRAP_median, QRAP_median_loop.
  rewrite (breakpoints_Ok a l) by (try apply positive_nonzero; auto; lia).
  rewrite (breakpoints_Ok a u) by (try apply positive_nonzero; auto; lia).
  cbn [bind].
  set (lbs := map (fun j => nth j l 0 / nth j a 0) (seq 0 (length a))).
  set (ubs := map (fun j => nth j u 0 / nth j a 0) (seq 0 (length a))).
  assert (Hlen : length (lbs ++ ubs) = (2 * length a)%nat).
  { rewrite length_app. unfold lbs, ubs. rewrite !length_map, !length_seq. lia. }
  destruct (lbs ++ ubs) as [|b bs] eqn:Hbs; [simpl in Hlen; lia|].
  cbn [min_list bind].
  set (lo := fold_left Py.min bs b).
  assert (Hlo : forall x, In x (lbs ++ ubs) -> lo <= x).
  { intros x Hx. rewrite Hbs in Hx. now apply fold_min_le. }
  set (st0 := initial_state a lbs ubs lo).
  assert (I0 : median_inv a l u R st0).
  { constructor; simpl.
    - apply Forall_forall. intros j Hj. apply in_seq in Hj. lia.
    - now rewrite length_seq.
    - rewrite length_app. unfold lbs, ubs.
      rewrite !length_map, !length_seq. lia.
    - intros m _ _. unfold value_sum. lra.
    - lra.
    - rewrite (value_sum_lower a l u Hpos Hbox).
      + rewrite <- Hl, <- sum_as_total. exact HR.
      + intros j Hj. apply Hlo, in_or_app. left. unfold lb. fold lbs.
        apply nth_In. unfold lbs. rewrite length_map, length_seq. exact Hj.
    - discriminate.
    - intros x Hx. split; [now apply Hlo | trivial].
    - intros j x Hj [->| ->] _ _; apply in_seq in Hj; apply in_or_app.
      + left. unfold lb. apply nth_In. unfold lbs.
        rewrite length_map, length_seq. lia.
      + right. unfold ub. apply nth_In. unfold ubs.
        rewrite length_map, length_seq. lia. }
  destruct (median_loop_total a l u R lbs ubs (2 * length a) st0) as [ex Hex].
  { apply I0. }
  { simpl. rewrite Hbs. lia. }
  fold lbs ubs lo st0 in Hex |- *. rewrite Hex. cbn [bind fst].
  pose proof (median_loop_inv a l u R Hpos Hbox _ _ _ I0 Hex) as Hinv.
  assert (Hsum : forall m, Py.sum (clipped a l u m) == value_sum a l u m).
  { intros m. unfold clipped. apply sum_map_total. }
  assert (Hsu : total (fun j => nth j u 0) (seq 0 (length a)) == Py.sum u).
  { rewrite <- Hl, Hu. symmetry. apply sum_as_total. }
  destruct ex as [c|st']; cbn [median_result].
  - exists c. split; [reflexivity|]. left. rewrite Hsum. exact Hinv.
  - exists (final_multiplier R st'). split; [reflexivity|].
    destruct Hinv as [I' Hp].
    pose proof (median_loop_exhausted _ _ _ _ _ _ _ _ _ Hex) as Hexit.
    destruct Hp as [->|Hp].
    { exfalso. simpl in Hexit. lia. }
    destruct (final_multiplier_sum a l u R Hpos Hbox st' I' Hp Hexit) as [E|[E1 E2]].
    + left. rewrite Hsum, E.
      setoid_replace (R - R) with 0 by ring. discriminate.
    + right. rewrite Hsum, E1, <- Hsu. split; [reflexivity | exact E2].
Qed.

(** ** Prefix sums *)

Lemma pre_0 xs : pre xs 0 == 0.
Proof. reflexivity. Qed.

Lemma pre_cons x xs k : pre (x :: xs) (S k) == x + pre xs k.
Proof. unfold pre. simpl firstn. apply sum_cons. Qed.

Lemma pre_S xs : forall k, (k < length xs)%nat -> pre xs (S k) == pre xs k + nth k xs 0.
Proof.
  induction xs as [|x xs IH]; intros k Hk; simpl in Hk; [lia|].
  destruct k as [|k].
  - rewrite pre_cons, !pre_0. simpl. lra.
  - rewrite pre_cons, IH by lia. rewrite pre_cons. simpl. lra.
Qed.

Lemma pre_all xs k : (length xs <= k)%nat -> pre xs k = Py.sum xs.
Proof. intros H. unfold pre. now rewrite firstn_all2. Qed.

Lemma pre_firstn xs m k : (k <= m)%nat -> pre (firstn m xs) k = pre xs k.
Proof.
  intros H. unfold pre. rewrite firstn_firstn.
  now replace (Nat.min k m) with k by lia.
Qed.

Lemma pre_skipn xs : forall m k, pre (skipn m xs) k == pre xs (m + k) - pre xs m.
Proof.
  induction xs as [|x xs IH]; intros m k.
  - rewrite skipn_nil. unfold pre. rewrite !firstn_nil. reflexivity.
  - destruct m as [|m]; simpl skipn.
    + rewrite pre_0. simpl. lra.
    + rewrite IH. simpl Nat.add. rewrite !pre_cons. lra.
Qed.

Lemma pre_range_le xs ys :
  Forall2 Qle xs ys ->
  forall i j, (i <= j)%nat -> pre xs j - pre xs i <= pre ys j - pre ys i.
Proof.
  induction 1 as [|x y xs ys Hxy _ IH]; intros i j Hij.
  - unfold pre. rewrite !firstn_nil. lra.
  - destruct j as [|j].
    + replace i with 0%nat by lia. lra.
    + destruct i as [|i].
      * rewrite !pre_cons, !pre_0.
        specialize (IH 0%nat j ltac:(lia)). rewrite !pre_0 in IH. lra.
      * rewrite !pre_cons. specialize (IH i j ltac:(lia)). lra.
Qed.

(** ** The search for the most violated constraint *)

Section Scan.

Variables (L U y : list Q) (n : nat).
Hypothesis y_length : length y = n.
Hypothesis L_le_U : forall i, (i < n)%nat -> nth i L 0 <= nth i U 0.

#[local] Abbreviation scan_inv := (scan_inv L U y).

Lemma scan_step_inv k st :
  (k < n)%nat -> scan_inv k st -> scan_inv (S k) (scan_step L U y st k).
Proof.
  intros Hk [Hsum Hv].
  assert (Hs : VAR_sum st + nth k y 0 == pre y (S k)).
  { rewrite pre_S by lia. rewrite Hsum. reflexivity. }
  pose proof (L_le_U k Hk) as HLU.
  assert (Heps : 0 < eps5) by reflexivity.
  unfold scan_step.
  destruct (Py.ltb (nth k U 0 + eps5) (VAR_sum st + nth k y 0)) eqn:E1;
    [apply ltb_lt in E1 | apply ltb_ge in E1].
  - (* above the upper nested bound *)
    destruct (Py.ltb (Violation_value st) (VAR_sum st + nth k y 0 - nth k U 0)) eqn:E2;
      [apply ltb_lt in E2 | apply ltb_ge in E2]; split; simpl; try exact Hs.
    + split; [lia|]. split; [lra|]. split; [rewrite Hs; reflexivity|].
      intros i Hi. destruct (Nat.eq_dec i k) as [->|Hne].
      * rewrite <- Hs. split; lra.
      * destruct (most_violated st) as [[ty M]|].
        -- destruct Hv as (_ & _ & _ & Hall).
           destruct (Hall i ltac:(lia)). split; lra.
        -- destruct Hv as (_ & Hall).
           destruct (Hall i ltac:(lia)). split; lra.
    + destruct (most_violated st) as [[ty M]|].
      * destruct Hv as (HM & Hpos & HV & Hall).
        split; [lia|]. split; [exact Hpos|]. split; [exact HV|].
        intros i Hi. destruct (Nat.eq_dec i k) as [->|Hne].
        -- rewrite <- Hs. split; lra.
        -- apply Hall. lia.
      * destruct Hv as (HV & _). exfalso. lra.
  - destruct (Py.ltb (VAR_sum st + nth k y 0) (nth k L 0 - eps5)) eqn:E3;
      [apply ltb_lt in E3 | apply ltb_ge in E3].
    + (* below the lower nested bound *)
      destruct (Py.ltb (Violation_value st) (nth k L 0 - (VAR_sum st + nth k y 0))) eqn:E2;
        [apply ltb_lt in E2 | apply ltb_ge in E2]; split; simpl; try exact Hs.
      * split; [lia|]. split; [lra|]. split; [rewrite Hs; reflexivity|].
        intros i Hi. destruct (Nat.eq_dec i k) as [->|Hne].
        -- rewrite <- Hs. split; lra.
        -- destruct (most_violated st) as [[ty M]|].
           ++ destruct Hv as (_ & _ & _ & Hall).
              destruct (Hall i ltac:(lia)). split; lra.
           ++ destruct Hv as (_ & Hall).
              destruct (Hall i ltac:(lia)). split; lra.
      * destruct (most_violated st) as [[ty M]|].
        -- destruct Hv as (HM & Hpos & HV & Hall).
           split; [lia|]. split; [exact Hpos|]. split; [exact HV|].
           intros i Hi. destruct (Nat.eq_dec i k) as [->|Hne].
           ++ rewrite <- Hs. split; lra.
           ++ apply Hall. lia.
        -- destruct Hv as (HV & _). exfalso. lra.
    + (* within the tolerance *)
      split; simpl; [exact Hs|].
      destruct (most_violated st) as [[ty M]|].
      * destruct Hv as (HM & Hpos & HV & Hall).
        split; [lia|]. split; [exact Hpos|]. split; [exact HV|].
        intros i Hi. destruct (Nat.eq_dec i k) as [->|Hne].
        -- rewrite <- Hs. split; lra.
        -- apply Hall. lia.
      * destruct Hv as (HV & Hall). split; [exact HV|].
        intros i Hi. destruct (Nat.eq_dec i k) as [->|Hne].
        -- rewrite <- Hs. split; lra.
        -- apply Hall. lia.
Qed.

Lemma scan_fold_inv m :
  forall k st,
    (k + m <= n)%nat -> scan_inv k st ->
    scan_inv (k + m) (fold_left (scan_step L U y) (seq k m) st).
Proof.
  induction m as [|m IH]; intros k st Hk Hst; simpl.
  - now rewrite Nat.add_0_r.
  - replace (k + S m)%nat with (S k + m)%nat by lia.
    apply IH; [lia|]. apply scan_step_inv; [lia | exact Hst].
Qed.

Lemma scan_spec : scan_inv n (scan L U y n).
Proof.
  unfold scan. apply (scan_fold_inv n 0%nat); [lia|].
  split; simpl; [reflexivity|]. split; [reflexivity|]. intros i Hi. lia.
Qed.

End Scan.

(** ** The instances [QRAP_NC_infeasible] recurses on *)

Lemma nested_ok_hat :
  forall x L U acc,
    nested_ok acc x L U ->
    forall k, (1 <= k <= length x)%nat ->
      hat L k <= acc + pre x k /\ acc + pre x k <= hat U k.
Proof.
  induction x as [|xi x IH]; intros [|Li L] [|Ui U] acc H k Hk;
    simpl in H, Hk; try contradiction; try lia.
  destruct H as (H1 & H2 & H3).
  destruct k as [|[|k]]; [lia | |].
  - rewrite pre_cons, pre_0. simpl. split; lra.
  - rewrite pre_cons.
    destruct (IH L U (acc + xi) H3 (S k) ltac:(lia)) as [H4 H5].
    simpl hat in *. split; lra.
Qed.


Lemma feasible_nested_inv l u L U :
  feasible l u L U -> nested_inv (length l) l u L U.
Proof.
  intros (x & Hlx & Hxu & Hn).
  pose proof (Forall2_length Hlx) as Hlen.
  assert (Hhat : forall k, (k <= length l)%nat ->
                           hat L k <= pre x k /\ pre x k <= hat U k).
  { intros [|k] Hk; [rewrite pre_0; simpl; split; lra|].
    destruct (nested_ok_hat x L U 0 Hn (S k) ltac:(lia)). split; lra. }
  constructor; intros i j Hij.
  - pose proof (pre_range_le x u Hxu i j ltac:(lia)).
    destruct (Hhat i ltac:(lia)), (Hhat j ltac:(lia)). lra.
  - pose proof (pre_range_le l x Hlx i j ltac:(lia)).
    destruct (Hhat i ltac:(lia)), (Hhat j ltac:(lia)). lra.
Qed.

Lemma nested_inv_left n l u L U M pin L1 U1 :
  nested_inv n l u L U -> pin_ok n l u L U M pin -> (M < n)%nat ->
  (forall k, (k <= M)%nat -> hat L1 k = hat L k /\ hat U1 k = hat U k) ->
  hat L1 (S M) = pin -> hat U1 (S M) = pin ->
  nested_inv (S M) (firstn (S M) l) (firstn (S M) u) L1 U1.
Proof.
  intros I P HM Hk HL HU.
  constructor; intros i j Hij; rewrite !pre_firstn by lia.
  - destruct (Nat.eq_dec j (S M)) as [->|Hj].
    + rewrite HL. destruct (Nat.eq_dec i (S M)) as [->|Hi].
      * rewrite HU. lra.
      * destruct (Hk i ltac:(lia)) as [_ ->]. apply (pin_a _ _ _ _ _ _ _ P). lia.
    + destruct (Hk i ltac:(lia)) as [_ ->]. destruct (Hk j ltac:(lia)) as [-> _].
      apply (ni_lower _ _ _ _ _ I). lia.
  - destruct (Nat.eq_dec j (S M)) as [->|Hj].
    + rewrite HU. destruct (Nat.eq_dec i (S M)) as [->|Hi].
      * rewrite HL. lra.
      * destruct (Hk i ltac:(lia)) as [-> _]. apply (pin_b _ _ _ _ _ _ _ P). lia.
    + destruct (Hk i ltac:(lia)) as [-> _]. destruct (Hk j ltac:(lia)) as [_ ->].
      apply (ni_upper _ _ _ _ _ I). lia.
Qed.

Lemma nested_inv_right n l u L U M pin L2 U2 :
  nested_inv n l u L U -> pin_ok n l u L U M pin -> (M < n)%nat ->
  (forall k, (1 <= k <= n - S M)%nat ->
     hat L2 k == hat L (S M + k) - pin /\ hat U2 k == hat U (S M + k) - pin) ->
  nested_inv (n - S M) (skipn (S M) l) (skipn (S M) u) L2 U2.
Proof.
  intros I P HM Hk.
  constructor; intros i j Hij; rewrite !pre_skipn.
  - destruct j as [|j].
    + replace i with 0%nat by lia. simpl hat. lra.
    + destruct (Hk (S j) ltac:(lia)) as [-> _].
      destruct i as [|i].
      * simpl (hat U2 0). rewrite Nat.add_0_r.
        pose proof (pin_c _ _ _ _ _ _ _ P (S M + S j)%nat ltac:(lia)). lra.
      * destruct (Hk (S i) ltac:(lia)) as [_ ->].
        pose proof (ni_lower _ _ _ _ _ I (S M + S i)%nat (S M + S j)%nat ltac:(lia)).
        lra.
  - destruct j as [|j].
    + replace i with 0%nat by lia. simpl hat. lra.
    + destruct (Hk (S j) ltac:(lia)) as [_ ->].
      destruct i as [|i].
      * simpl (hat L2 0). rewrite Nat.add_0_r.
        pose proof (pin_d _ _ _ _ _ _ _ P (S M + S j)%nat ltac:(lia)). lra.
      * destruct (Hk (S i) ltac:(lia)) as [-> _].
        pose proof (ni_upper _ _ _ _ _ I (S M + S i)%nat (S M + S j)%nat ltac:(lia)).
        lra.
Qed.

(** The most violated constraint gives a pin that is fine. *)
Lemma pin_ok_upper n l u L U y M V :
  nested_inv n l u L U -> Forall2 Qle l y -> Forall2 Qle y u ->
  (M < n)%nat -> 0 <= V ->
  V == pre y (S M) - nth M U 0 ->
  (forall i, (i < n)%nat -> pre y (S i) - nth i U 0 <= V) ->
  pin_ok n l u L U M (nth M U 0).
Proof.
  intros I Hly Hyu HM HV0 HV Hall.
  assert (Hhat : forall i, (i <= n)%nat -> pre y i - hat U i <= V).
  { intros [|i] Hi; [rewrite pre_0; simpl; lra | apply Hall; lia]. }
  constructor.
  - intros i Hi. pose proof (Hhat i ltac:(lia)).
    pose proof (pre_range_le y u Hyu i (S M) Hi). lra.
  - intros i Hi. apply (ni_upper _ _ _ _ _ I i (S M)). lia.
  - intros j Hj. apply (ni_lower _ _ _ _ _ I (S M) j). lia.
  - intros j Hj. pose proof (Hhat j ltac:(lia)).
    pose proof (pre_range_le l y Hly (S M) j ltac:(lia)). lra.
Qed.

Lemma pin_ok_lower n l u L U y M V :
  nested_inv n l u L U -> Forall2 Qle l y -> Forall2 Qle y u ->
  (M < n)%nat -> 0 <= V ->
  V == nth M L 0 - pre y (S M) ->
  (forall i, (i < n)%nat -> nth i L 0 - pre y (S i) <= V) ->
  pin_ok n l u L U M (nth M L 0).
Proof.
  intros I Hly Hyu HM HV0 HV Hall.
  assert (Hhat : forall i, (i <= n)%nat -> hat L i - pre y i <= V).
  { intros [|i] Hi; [rewrite pre_0; simpl; lra | apply Hall; lia]. }
  constructor.
  - intros i Hi. apply (ni_lower _ _ _ _ _ I i (S M)). lia.
  - intros i Hi. pose proof (Hhat i ltac:(lia)).
    pose proof (pre_range_le l y Hly i (S M) Hi). lra.
  - intros j Hj. pose proof (Hhat j ltac:(lia)).
    pose proof (pre_range_le y u Hyu (S M) j ltac:(lia)). lra.
  - intros j Hj. apply (ni_upper _ _ _ _ _ I (S M) j). lia.
Qed.

(** *** Slices of the pinned bounds *)

Lemma slice_0 (xs : list Q) m : slice xs 0 m = firstn m xs.
Proof. unfold slice. now rewrite Nat.sub_0_r. Qed.

Lemma slice_tail (xs : list Q) m : slice xs m (length xs) = skipn m xs.
Proof.
  unfold slice. apply firstn_all2. rewrite length_skipn. lia.
Qed.

Lemma shift_after_left M pin X :
  (S M <= length X)%nat -> firstn (S M) (shift_after M pin X) = firstn (S M) X.
Proof.
  intros H. unfold shift_after. rewrite firstn_app, firstn_firstn.
  rewrite firstn_length_le by exact H.
  rewrite Nat.min_id, Nat.sub_diag. simpl. apply app_nil_r.
Qed.

Lemma shift_after_right M pin X :
  (S M <= length X)%nat ->
  skipn (S M) (shift_after M pin X) = map (fun x => x - pin) (skipn (S M) X).
Proof.
  intros H. unfold shift_after. rewrite skipn_app.
  rewrite firstn_length_le by exact H. rewrite Nat.sub_diag.
  rewrite skipn_all2 by (rewrite firstn_length_le; lia). reflexivity.
Qed.

Lemma shift_after_length M pin X : length (shift_after M pin X) = length X.
Proof.
  unfold shift_after. rewrite length_app, length_map, length_firstn, length_skipn. lia.
Qed.

Lemma set_at_length M pin X : (M < length X)%nat -> length (set_at M pin X) = length X.
Proof.
  intros H. unfold set_at. rewrite length_app. cbn [length].
  rewrite length_firstn, length_skipn. lia.
Qed.

Lemma set_at_skipn M pin X :
  (M < length X)%nat -> skipn (S M) (set_at M pin X) = skipn (S M) X.
Proof.
  intros H. unfold set_at. rewrite skipn_app.
  rewrite firstn_length_le by lia.
  rewrite skipn_all2 by (rewrite firstn_length_le; lia).
  replace (S M - M)%nat with 1%nat by lia. reflexivity.
Qed.

Lemma hat_firstn X m k : (k <= m)%nat -> hat (firstn m X) k = hat X k.
Proof.
  intros H. destruct k as [|k]; [reflexivity|]. simpl.
  rewrite nth_firstn. destruct (k <? m)%nat eqn:E; [reflexivity|].
  apply Nat.ltb_ge in E. lia.
Qed.

Lemma hat_set_at M pin X :
  (M < length X)%nat ->
  hat (firstn (S M) (set_at M pin X)) (S M) = pin /\
  forall k, (k <= M)%nat -> hat (firstn (S M) (set_at M pin X)) k = hat X k.
Proof.
  intros H. split.
  - rewrite hat_firstn by lia. simpl. unfold set_at.
    rewrite app_nth2 by (rewrite firstn_length_le; lia).
    rewrite firstn_length_le by lia. now rewrite Nat.sub_diag.
  - intros k Hk. rewrite hat_firstn by lia.
    destruct k as [|k]; [reflexivity|]. simpl. unfold set_at.
    rewrite app_nth1 by (rewrite firstn_length_le; lia).
    rewrite nth_firstn. destruct (k <? M)%nat eqn:E; [reflexivity|].
    apply Nat.ltb_ge in E. lia.
Qed.

Lemma hat_shifted M pin X k :
  (1 <= k <= length X - S M)%nat ->
  hat (map (fun x => x - pin) (skipn (S M) X)) k = hat X (S M + k) - pin.
Proof.
  intros Hk. destruct k as [|k]; [lia|]. cbn [hat].
  rewrite (nth_indep _ 0 (0 - pin)) by (rewrite length_map, length_skipn; lia).
  rewrite (map_nth (fun x => x - pin)), nth_skipn.
  change (hat X (S M + S k)) with (nth (M + S k) X 0).
  replace (S M + k)%nat with (M + S k)%nat by lia. reflexivity.
Qed.

Lemma Forall_firstn_skipn {A : Type} (P : A -> Prop) m (xs : list A) :
  Forall P xs -> Forall P (firstn m xs) /\ Forall P (skipn m xs).
Proof.
  intros H. rewrite <- (firstn_skipn m xs) in H.
  now apply Forall_app in H.
Qed.

Lemma Forall2_firstn_skipn (P : Q -> Q -> Prop) xs ys :
  Forall2 P xs ys ->
  forall m, Forall2 P (firstn m xs) (firstn m ys) /\ Forall2 P (skipn m xs) (skipn m ys).
Proof.
  induction 1 as [|x y xs ys Hxy H IH]; intros [|m]; simpl;
    try (split; constructor; assumption).
  destruct (IH m) as [H1 H2]. split; [constructor; assumption | exact H2].
Qed.

Lemma comprehension_get (X : list Q) :
  comprehension (get X) (seq 0 (length X)) = Ok X.
Proof.
  rewrite (comprehension_Ok (get X) (fun j => nth j X 0)).
  - now rewrite map_nth_seq_self.
  - intros j Hj. apply in_seq in Hj. apply get_Ok. lia.
Qed.

Lemma slice_to_end (xs : list Q) m n : length xs = n -> slice xs m n = skipn m xs.
Proof. intros <-. apply slice_tail. Qed.

(** Both halves of a split at the most violated constraint keep
    [nested_inv]. *)
Lemma pin_bounds_inv n l u L U y ty M :
  length L = n -> length U = n ->
  nested_inv n l u L U -> Forall2 Qle l y -> Forall2 Qle y u ->
  length y = n ->
  most_violated (scan L U y n) = Some (ty, M) ->
  (M < n)%nat /\
  eps5 < Violation_value (scan L U y n) /\
  Violation_value (scan L U y n)
  == match ty with
     | UpperViolation => pre y (S M) - nth M U 0
     | LowerViolation => nth M L 0 - pre y (S M)
     end /\
  let '(L', U') := pin_bounds ty M L U in
  length L' = n /\ length U' = n /\
  nested_inv (S M) (firstn (S M) l) (firstn (S M) u)
    (firstn (S M) L') (firstn (S M) U') /\
  nested_inv (n - S M) (skipn (S M) l) (skipn (S M) u)
    (skipn (S M) L') (skipn (S M) U').
Proof.
  intros HL HU I Hly Hyu Hy Hmv.
  assert (HLU : forall i, (i < n)%nat -> nth i L 0 <= nth i U 0).
  { intros i Hi. pose proof (ni_lower _ _ _ _ _ I (S i) (S i) ltac:(lia)) as H.
    simpl hat in H. lra. }
  destruct (scan_spec L U y n Hy HLU) as [_ Hscan].
  rewrite Hmv in Hscan. destruct Hscan as (HM & Hpos & HV & Hall).
  assert (Heps : 0 < eps5) by reflexivity.
  split; [exact HM|]. split; [exact Hpos|]. split; [exact HV|].
  set (V := Violation_value (scan L U y n)) in *.
  destruct ty; cbn [pin_bounds].
  - (* the bound pinned is L_M *)
    assert (P : pin_ok n l u L U M (nth M L 0)).
    { apply (pin_ok_lower n l u L U y M V); auto; try lra.
      intros i Hi. apply Hall. exact Hi. }
    rewrite !shift_after_length, set_at_length by lia.
    rewrite !shift_after_left by (rewrite ?set_at_length; lia).
    rewrite !shift_after_right by (rewrite ?set_at_length; lia).
    rewrite set_at_skipn by lia.
    split; [exact HL|]. split; [exact HU|]. split.
    + destruct (hat_set_at M (nth M L 0) U ltac:(lia)) as [H1 H2].
      apply (nested_inv_left n l u L U M (nth M L 0)); auto.
      * intros k Hk. split; [apply hat_firstn; lia | apply H2; exact Hk].
      * rewrite hat_firstn by lia. reflexivity.
    + apply (nested_inv_right n l u L U M (nth M L 0)); auto.
      intros k Hk. rewrite !hat_shifted by lia. split; reflexivity.
  - (* the bound pinned is U_M *)
    assert (P : pin_ok n l u L U M (nth M U 0)).
    { apply (pin_ok_upper n l u L U y M V); auto; try lra.
      intros i Hi. apply Hall. exact Hi. }
    rewrite !shift_after_length, set_at_length by lia.
    rewrite !shift_after_left by (rewrite ?set_at_length; lia).
    rewrite !shift_after_right by (rewrite ?set_at_length; lia).
    rewrite set_at_skipn by lia.
    split; [exact HL|]. split; [exact HU|]. split.
    + destruct (hat_set_at M (nth M U 0) L ltac:(lia)) as [H1 H2].
      apply (nested_inv_left n l u L U M (nth M U 0)); auto.
      * intros k Hk. split; [apply H2; exact Hk | apply hat_firstn; lia].
      * rewrite hat_firstn by lia. reflexivity.
    + apply (nested_inv_right n l u L U M (nth M U 0)); auto.
      intros k Hk. rewrite !hat_shifted by lia. split; reflexivity.
Qed.

(** The relaxation meets the last nested bounds: the most violated
    constraint is never the last one. *)
Lemma last_not_violated n l u L U y ty M :
  (1 <= n)%nat -> length y = n -> length u = n ->
  nested_inv n l u L U ->
  (Qabs (Py.sum y - nth (n - 1) U 0) <= eps6 \/
   (Py.sum y == Py.sum u /\ Py.sum u <= nth (n - 1) U 0)) ->
  (M < n)%nat ->
  eps5 < match ty with
         | UpperViolation => pre y (S M) - nth M U 0
         | LowerViolation => nth M L 0 - pre y (S M)
         end ->
  (M < n - 1)%nat.
Proof.
  intros Hn Hy Hu I Hsum HM Hv.
  destruct (Nat.eq_dec M (n - 1)) as [->|]; [exfalso | lia].
  replace (S (n - 1)) with n in Hv by lia.
  rewrite (pre_all y n) in Hv by lia.
  pose proof (ni_lower _ _ _ _ _ I n n ltac:(lia)) as H1.
  pose proof (ni_lower _ _ _ _ _ I 0%nat n ltac:(lia)) as H2.
  rewrite pre_0, (pre_all u n) in H2 by lia.
  replace (hat L n) with (nth (n - 1) L 0) in H1, H2
    by (destruct n; [lia | simpl; now rewrite Nat.sub_0_r]).
  replace (hat U n) with (nth (n - 1) U 0) in H1
    by (destruct n; [lia | simpl; now rewrite Nat.sub_0_r]).
  simpl hat in H2.
  assert (H56 : eps6 < eps5) by reflexivity.
  assert (H6 : 0 < eps6) by reflexivity.
  destruct Hsum as [Habs|[E1 E2]].
  - apply Qabs_Qle_condition in Habs. destruct ty; lra.
  - destruct ty; lra.
Qed.

(** On an instance with [nested_inv], [QRAP_NC_infeasible] returns a
    vector, within as many nested calls as there are variables. *)
Lemma infeasible_returns :
  forall depth a l u L U,
    (1 <= length a <= depth)%nat ->
    length l = length a -> length L = length a -> length U = length a ->
    Forall (fun aj => 0 < aj) a -> Forall2 Qle l u ->
    nested_inv (length a) l u L U ->
    exists x, QRAP_NC_infeasible depth a l u L U = Ok x /\ length x = length a.
Proof.
  induction depth as [|depth IH]; intros a l u L U Hn Hl HL HU Ha Hlu I; [lia|].
  pose proof (Forall2_length Hlu) as Hu.
  cbn [QRAP_NC_infeasible].
  replace (comprehension (get L) (seq 0 (length a))) with (Ok L)
    by (rewrite <- HL; symmetry; apply comprehension_get).
  replace (comprehension (get U) (seq 0 (length a))) with (Ok U)
    by (rewrite <- HU; symmetry; apply comprehension_get).
  cbn [bind].
  destruct (length a =? 1)%nat eqn:E1.
  { apply Nat.eqb_eq in E1. rewrite get_Ok by lia. cbn [bind].
    eexists. split; [reflexivity|]. simpl. lia. }
  apply Nat.eqb_neq in E1.
  rewrite get_Ok by lia. cbn [bind].
  assert (Hne : a <> []) by (destruct a; [simpl in Hn; lia | discriminate]).
  destruct (QRAP_median_sum a l u (nth (length a - 1) U 0) Hne Ha Hl Hlu)
    as (m & Hmed & Hsum).
  { pose proof (ni_upper _ _ _ _ _ I 0%nat (length a) ltac:(lia)) as H.
    rewrite pre_0, (pre_all l) in H by lia.
    replace (hat U (length a)) with (nth (length a - 1) U 0) in H
      by (destruct (length a); [lia | simpl; now rewrite Nat.sub_0_r]).
    simpl hat in H. lra. }
  rewrite Hmed. cbn [bind].
  set (y := clipped a l u m) in *.
  assert (Hy : length y = length a) by apply clipped_length.
  destruct (clipped_box a l u m Hl Hlu) as [Hly Hyu]. fold y in Hly, Hyu.
  destruct (most_violated (scan L U y (length a))) as [[ty M]|] eqn:Hmv.
  2: { exists y. split; [reflexivity | exact Hy]. }
  destruct (pin_bounds_inv (length a) l u L U y ty M HL HU I Hly Hyu Hy Hmv)
    as (HM & Hpos & HV & Hparts).
  assert (HMlast : (M < length a - 1)%nat).
  { apply (last_not_violated (length a) l u L U y ty M); auto; try lia.
    destruct ty; rewrite <- HV; exact Hpos. }
  destruct (pin_bounds ty M L U) as [L' U'].
  destruct Hparts as (HL' & HU' & Ileft & Iright).
  rewrite !slice_0, !Nat.add_1_r.
  rewrite (slice_to_end a), (slice_to_end l), (slice_to_end u),
          (slice_to_end L'), (slice_to_end U') by congruence.
  destruct (Forall_firstn_skipn _ (S M) a Ha) as [Ha1 Ha2].
  destruct (Forall2_firstn_skipn _ _ _ Hlu (S M)) as [Hlu1 Hlu2].
  destruct (IH (firstn (S M) a) (firstn (S M) l) (firstn (S M) u)
               (firstn (S M) L') (firstn (S M) U')) as (xl & Hxl & Hxl_len);
    rewrite ?firstn_length_le by lia; auto; try lia.
  destruct (IH (skipn (S M) a) (skipn (S M) l) (skipn (S M) u)
               (skipn (S M) L') (skipn (S M) U')) as (xr & Hxr & Hxr_len);
    rewrite ?length_skipn; auto; try lia.
  rewrite Hxl. cbn [bind]. rewrite Hxr. cbn [bind].
  eexists. split; [reflexivity|].
  rewrite firstn_length_le in Hxl_len by lia.
  rewrite length_skipn in Hxr_len.
  unfold slice_assign.
  rewrite !length_app, !length_firstn, !length_skipn, !length_app, !length_skipn.
  simpl length. lia.
Qed.

(** ** No call runs out of depth, in exact arithmetic *)

Lemma bind_finished {A B : Type} (m : result A) (k : A -> result B) :
  finished m -> (forall x, finished (k x)) -> finished (bind m k).
Proof. destruct m; simpl; auto. Qed.

Lemma get_finished xs i : finished (get xs i).
Proof. unfold get. destruct (nth_error xs i); exact I. Qed.

Lemma div_finished x y : finished (div x y).
Proof. unfold div. destruct (Qeq_bool y 0); exact I. Qed.

Lemma comprehension_finished {A B : Type} (f : A -> result B) js :
  (forall j, finished (f j)) -> finished (comprehension f js).
Proof.
  intros H. induction js as [|j js IH]; simpl; [exact I|].
  apply bind_finished; [apply H|]. intros y.
  apply bind_finished; [exact IH|]. intros ys. exact I.
Qed.

Lemma breakpoints_finished a bound : finished (breakpoints a bound).
Proof.
  apply comprehension_finished. intros j.
  apply bind_finished; [apply get_finished|]. intros b.
  apply bind_finished; [apply get_finished|]. intros aj. apply div_finished.
Qed.

Lemma breakpoints_length a bound bs :
  breakpoints a bound = Ok bs -> length bs = length a.
Proof.
  intros H. apply comprehension_length in H. now rewrite length_seq in H.
Qed.

Lemma QRAP_median_finished a l u R : finished (QRAP_median a l u R).
Proof.
  unfold QRAP_median, QRAP_median_loop.
  pose proof (breakpoints_finished a l) as Fl.
  destruct (breakpoints a l) as [lbs| |] eqn:El; [|exact I | contradiction].
  pose proof (breakpoints_finished a u) as Fu.
  cbn [bind].
  destruct (breakpoints a u) as [ubs| |] eqn:Eu; [|exact I | contradiction].
  cbn [bind].
  apply breakpoints_length in El, Eu.
  destruct (lbs ++ ubs) as [|b bs] eqn:Hbs; [exact I|].
  cbn [min_list bind].
  destruct (median_loop_total a l u R lbs ubs (2 * length a)
              (initial_state a lbs ubs (fold_left Py.min bs b))) as [ex Hex].
  - simpl. rewrite length_app. lia.
  - simpl. rewrite length_app. lia.
  - rewrite Hex. exact I.
Qed.

Section DecompositionDepth.

Variables (a l u L U : list Q).

Lemma MDA_single_finished start result :
  finished (MDA_single L U start result).
Proof.
  unfold MDA_single.
  apply bind_finished; [apply get_finished|]. intros Ls.
  apply bind_finished; [apply get_finished|]. intros Us.
  destruct start; [exact I|].
  apply bind_finished; [apply get_finished|]. intros Lp.
  apply bind_finished; [apply get_finished|]. intros Up. exact I.
Qed.

Lemma help_sum_finished x y : finished (help_sum x y).
Proof. unfold help_sum. destruct (Qeq_bool y 0); exact I. Qed.

Lemma MDA_subcase_finished start new_index end_index result subcase :
  finished (MDA_subcase a l u L U start new_index end_index result subcase).
Proof.
  unfold MDA_subcase. destruct subcase as [s0 s1].
  apply bind_finished.
  { apply comprehension_finished. intros j.
    apply bind_finished; [apply get_finished|]. intros lj.
    apply bind_finished; [apply get_finished|]. intros uj. exact I. }
  intros alt. apply bind_finished.
  { unfold target. destruct start.
    - destruct s1; apply get_finished.
    - apply bind_finished; [destruct s1; apply get_finished|]. intros hi.
      apply bind_finished; [destruct s0; apply get_finished|]. intros lo. exact I. }
  intros target_value.
  destruct (Py.ltb target_value _).
  { apply bind_finished; [apply help_sum_finished|]. intros h. exact I. }
  destruct (Py.ltb _ target_value).
  { apply bind_finished; [apply help_sum_finished|]. intros h. exact I. }
  apply bind_finished; [apply QRAP_median_finished|]. intros x. exact I.
Qed.

Lemma for_subcases_finished start new_index end_index subcases :
  forall result,
    finished (for_subcases a l u L U start new_index end_index subcases result).
Proof.
  induction subcases as [|sc rest IH]; intros result; simpl; [exact I|].
  apply bind_finished; [apply MDA_subcase_finished | exact IH].
Qed.

(** A range of at most [2^d] indices is solved within depth [d + 1]:
    both halves of a split hold at most half of the indices. *)
Lemma MDA_finished d :
  forall start end_index result,
    (start <= end_index)%nat -> (end_index - start < 2 ^ d)%nat ->
    finished (MDA a l u L U (S d) start end_index result).
Proof.
  induction d as [|d IH]; intros start end_index result Hle Hsize;
    cbn [MDA]; destruct (start =? end_index)%nat eqn:E;
    try apply MDA_single_finished.
  - apply Nat.eqb_neq in E. simpl in Hsize. lia.
  - apply Nat.eqb_neq in E. rewrite Nat.pow_succ_r' in Hsize.
    pose proof (Nat.div_mod_eq (start + end_index) 2) as Hdiv.
    pose proof (Nat.mod_upper_bound (start + end_index) 2 ltac:(lia)) as Hmod.
    apply bind_finished; [apply IH; lia|]. intros r1.
    apply bind_finished; [apply IH; lia|]. intros r2.
    apply for_subcases_finished.
Qed.

Lemma QRAP_NC_decomposition_finished d :
  a <> [] -> (length a <= 2 ^ d)%nat ->
  finished (QRAP_NC_decomposition a l u L U (S d)).
Proof.
  intros Hne Hlen. unfold QRAP_NC_decomposition.
  destruct (length a) as [|last] eqn:E.
  { destruct a; [congruence | discriminate]. }
  apply bind_finished; [apply MDA_finished; lia|]. intros r. exact I.
Qed.

End DecompositionDepth.

(** With exact arithmetic both recursive solvers end on every instance
    that satisfies the preconditions.  A split of [MDA] at the midpoint
    leaves two strictly smaller ranges, so that depth [d + 1] is enough
    for [n <= 2^d] variables; a split of [QRAP_NC_infeasible] is at an
    index [Max_index < n - 1], so that both recursive calls are on
    strictly shorter sequences, depth [n] is enough, and a vector is
    returned.  The binary64 embedding below shows where rounding breaks
    the second half. *)
Theorem recursive_solvers_terminate (a l u L U : list Q) (d depth : nat) :
  well_formed a l u L U ->
  feasible l u L U ->
  (length a <= 2 ^ d)%nat ->
  (length a <= depth)%nat ->
  (forall start end_index, (start < end_index)%nat ->
     (start <= (start + end_index) / 2 < end_index)%nat) /\
  finished (QRAP_NC_decomposition a l u L U (S d)) /\
  (exists x, QRAP_NC_infeasible depth a l u L U = Ok x /\ length x = length a) /\
  (forall y ty Max_index,
     QRAP_median a l u (nth (length a - 1) U 0) = Ok y ->
     most_violated (scan L U y (length a)) = Some (ty, Max_index) ->
     (Max_index < length a - 1)%nat).
Proof.
  intros [Hne Ha Hl Hlu HL HLU] Hfeas Hd Hdepth.
  pose proof (Forall2_length HLU) as HU.
  assert (Hn : (1 <= length a)%nat) by (destruct a; [congruence | simpl; lia]).
  assert (I : nested_inv (length a) l u L U).
  { rewrite <- Hl. now apply feasible_nested_inv. }
  split; [|split; [|split]].
  - intros s e Hse.
    pose proof (Nat.div_mod_eq (s + e) 2).
    pose proof (Nat.mod_upper_bound (s + e) 2 ltac:(lia)). lia.
  - now apply QRAP_NC_decomposition_finished.
  - apply infeasible_returns; auto; try lia; congruence.
  - intros y ty M Hmed Hmv.
    destruct (QRAP_median_sum a l u (nth (length a - 1) U 0) Hne Ha Hl Hlu)
      as (m & Hmed' & Hsum).
    { pose proof (ni_upper _ _ _ _ _ I 0%nat (length a) ltac:(lia)) as H.
      rewrite pre_0, (pre_all l) in H by lia.
      replace (hat U (length a)) with (nth (length a - 1) U 0) in H
        by (destruct (length a); [lia | simpl; now rewrite Nat.sub_0_r]).
      simpl hat in H. lra. }
    rewrite Hmed in Hmed'. injection Hmed' as ->.
    destruct (clipped_box a l u m Hl Hlu) as [Hly Hyu].
    destruct (pin_bounds_inv (length a) l u L U (clipped a l u m) ty M)
      as (HM & Hpos & HV & _); auto; try congruence.
    { apply clipped_length. }
    apply (last_not_violated (length a) l u L U (clipped a l u m) ty M);
      auto; try congruence; try lia.
    { apply clipped_length. }
    { pose proof (Forall2_length Hlu). congruence. }
    destruct ty; rewrite <- HV; exact Hpos.
Qed.

(** ** The recursion of [QRAP_NC_infeasible] in binary64 *)

Section Binary64.

Import PrimFloat.
Local Open Scope float_scope.

(** Where no operation rounds, the two embeddings compute the same. *)
Example QRAP_median_exactness_binary64 :
  B64.QRAP_median [1; 1; 1] [0; 0; 0] [10; 10; 10] 15 = Ok [5; 5; 5].
Proof. vm_compute. reflexivity. Qed.

(** The relaxation of the instance below.  All three variables end up
    free, and the multiplier [(2^54 - 2) / 3] is rounded up to the next
    double, 6004799503160661: the entries add up to [2^54 - 1]. *)
Lemma wide_relaxation :
  B64.QRAP_median [1; 1; 1] [0; 0; 0] [0x1p54; 0x1p54; 0x1p54] 18014398509481982
  = Ok [6004799503160661; 6004799503160661; 6004799503160661].
Proof. vm_compute. reflexivity. Qed.

(** The third prefix sum is rounded to [2^54], two above [U_2]: the
    most violated constraint is the last one, whether [L_2] is 0 or has
    been pinned to [U_2]. *)
Lemma wide_scan L2 :
  L2 = 0 \/ L2 = 18014398509481982 ->
  B64.most_violated
    (B64.scan [0; 0; L2] [0x1p54; 0x1p54; 18014398509481982]
       [6004799503160661; 6004799503160661; 6004799503160661] 3)
  = Some (UpperViolation, 2%nat).
Proof. intros [->| ->]; vm_compute; reflexivity. Qed.

(** So the first recursive call is on all three variables again, with
    [L_2] pinned to [U_2], and so is every later one. *)
Lemma wide_recursion depth :
  forall L2,
    L2 = 0 \/ L2 = 18014398509481982 ->
    B64.QRAP_NC_infeasible depth [1; 1; 1] [0; 0; 0]
      [0x1p54; 0x1p54; 0x1p54] [0; 0; L2] [0x1p54; 0x1p54; 18014398509481982]
    = Timeout.
Proof.
  induction depth as [|depth IH]; intros L2 HL2; [reflexivity|].
  cbn [B64.QRAP_NC_infeasible].
  cbn [comprehension B64.get nth_error seq length bind Nat.eqb Nat.sub].
  rewrite wide_relaxation. cbn [bind].
  rewrite (wide_scan L2 HL2).
  cbn [B64.pin_bounds B64.shift_after B64.set_at B64.slice
       firstn skipn nth app map Nat.add Nat.sub length].
  rewrite IH by (right; reflexivity).
  reflexivity.
Qed.

(** C8 fails on the program.  Three variables with [0 <= x_j <= 2^54],
    lower nested bounds 0 and upper nested bounds
    [[2^54, 2^54, 2^54 - 2]] are a well-formed feasible instance.  Its
    relaxation returns three times 6004799503160661; the scan finds the
    last constraint the most violated one, [Max_index = 2 = n - 1];
    the first recursive call, on [objective_par[0:Max_index+1]], is on
    the whole instance again, and no depth of the recursion is enough
    for the call to return. *)
Theorem QRAP_NC_infeasible_recursion_without_end :
  B64.QRAP_median [1; 1; 1] [0; 0; 0] [0x1p54; 0x1p54; 0x1p54] 18014398509481982
  = Ok [6004799503160661; 6004799503160661; 6004799503160661] /\
  B64.most_violated
    (B64.scan [0; 0; 0] [0x1p54; 0x1p54; 18014398509481982]
       [6004799503160661; 6004799503160661; 6004799503160661] 3)
  = Some (UpperViolation, 2%nat) /\
  forall depth,
    B64.QRAP_NC_infeasible depth [1; 1; 1] [0; 0; 0]
      [0x1p54; 0x1p54; 0x1p54] [0; 0; 0] [0x1p54; 0x1p54; 18014398509481982]
    = Timeout.
Proof.
  split; [exact wide_relaxation|]. split.
  - apply wide_scan. now left.
  - intros depth. apply wide_recursion. now left.
Qed.

(** ** A zero divisor in [QRAP_NC_decomposition], in binary64 *)

(** Two variables with [-10 <= x_j <= 10], [-4 <= x_0 <= -3] and
    [x_0 + x_1 = 0.1].  The base case of [MDA] stores the differences
    [0.1 - (-3)] and [0.1 - (-4)]: the first is rounded up to the double
    above [3.1]. *)
Lemma narrow_base_case :
  0x1.999999999999ap-4 - -3 = 0x1.8cccccccccccdp+1 /\
  0x1.999999999999ap-4 - -4 = 0x1.0666666666666p+2.
Proof. split; vm_compute; reflexivity. Qed.

(** The merge of the subcase [[0,0]] is a call of [QRAP_median]: [x_0]
    ends at its upper bound [-3]. *)
Lemma narrow_first_merge :
  B64.QRAP_median [1; 1] [-4; 0x1.8cccccccccccdp+1] [-3; 0x1.0666666666666p+2]
    0x1.999999999999ap-4
  = Ok [-3; 0x1.8cccccccccccdp+1].
Proof. vm_compute. reflexivity. Qed.

(** In the subcase [[0,1]] the lower bounds are [[-3, 3.1]], with and
    without the box.  Their sum is [0.10000000000000009], above the
    target [0.1], and the divisor [sum_lower_original - sum_lower] is 0:
    [HELP_sum] is [-inf], and [-inf * 0] is nan. *)
Lemma narrow_zero_divisor :
  B64.sum [-3; 0x1.8cccccccccccdp+1] = 0x1.99999999999a0p-4 /\
  (0x1.999999999999ap-4 <? 0x1.99999999999a0p-4) = true /\
  (0x1.999999999999ap-4 - 0x1.99999999999a0p-4)
  / (0x1.99999999999a0p-4 - 0x1.99999999999a0p-4) = neg_infinity /\
  -3 + neg_infinity * (-3 - -3) = nan.
Proof. repeat split; vm_compute; reflexivity. Qed.

(** So the vector returned is [[nan, nan]]. *)
Lemma QRAP_NC_decomposition_not_a_number (depth : nat) :
  B64.QRAP_NC_decomposition [1; 1] [-10; -10] [10; 10]
    [-4; 0x1.999999999999ap-4] [-3; 0x1.999999999999ap-4] (S (S depth))
  = Ok [nan; nan].
Proof. vm_compute. reflexivity. Qed.

(** [QRAP_NC_infeasible] returns the optimal vector of this instance. *)
Lemma QRAP_NC_infeasible_narrow :
  B64.QRAP_NC_infeasible 2 [1; 1] [-10; -10] [10; 10]
    [-4; 0x1.999999999999ap-4] [-3; 0x1.999999999999ap-4]
  = Ok [-3; 0x1.8cccccccccccdp+1].
Proof. vm_compute. reflexivity. Qed.

End Binary64.

(** ** The nested bounds of the vector [QRAP_NC_infeasible] returns *)

Lemma nested_slack_mono n m : (n <= m)%nat -> nested_slack n <= nested_slack m.
Proof.
  intros H. unfold nested_slack. apply Qmult_le_compat_r; [|discriminate].
  rewrite <- Zle_Qle. lia.
Qed.

Lemma nested_slack_split n m :
  (1 <= n)%nat -> (1 <= m)%nat ->
  nested_slack n + nested_slack m <= nested_slack (n + m).
Proof.
  intros Hn Hm. unfold nested_slack.
  rewrite <- Qmult_plus_distr_l, <- inject_Z_plus.
  apply Qmult_le_compat_r; [|discriminate].
  rewrite <- Zle_Qle. lia.
Qed.

Lemma nested_slack_two n : (2 <= n)%nat -> eps5 <= nested_slack n.
Proof.
  intros H. unfold nested_slack.
  setoid_replace eps5 with (inject_Z 1 * eps5) at 1 by (unfold inject_Z; ring).
  apply Qmult_le_compat_r; [|discriminate].
  rewrite <- Zle_Qle. lia.
Qed.

Lemma nested_slack_nonneg n : 0 <= nested_slack n.
Proof.
  unfold nested_slack. apply Qmult_le_0_compat; [|discriminate].
  change 0 with (inject_Z 0). rewrite <- Zle_Qle. lia.
Qed.

Lemma sum_app xs ys : Py.sum (xs ++ ys) == Py.sum xs + Py.sum ys.
Proof.
  induction xs as [|x xs IH]; simpl app.
  - unfold Py.sum at 2. simpl. lra.
  - rewrite !sum_cons, IH. lra.
Qed.

Lemma pre_app_left xs ys k : (k <= length xs)%nat -> pre (xs ++ ys) k = pre xs k.
Proof.
  intros H. unfold pre. rewrite firstn_app.
  replace (k - length xs)%nat with 0%nat by lia. simpl. now rewrite app_nil_r.
Qed.

Lemma pre_app_right xs ys k :
  pre (xs ++ ys) (length xs + k) == Py.sum xs + pre ys k.
Proof.
  unfold pre. rewrite firstn_app.
  replace (length xs + k - length xs)%nat with k by lia.
  rewrite firstn_all2 by lia. apply sum_app.
Qed.

(** The two halves written back make up the whole vector. *)
Lemma slice_assign_halves (y xl xr : list Q) M n :
  length y = n -> length xl = S M -> (length xl + length xr = n)%nat ->
  slice_assign (slice_assign y 0 (M + 1) xl) (M + 1) n xr = xl ++ xr.
Proof.
  intros Hy Hxl Hn. unfold slice_assign. simpl firstn. simpl app.
  rewrite Nat.add_1_r.
  rewrite firstn_app, <- Hxl, firstn_all, Nat.sub_diag. simpl firstn.
  rewrite app_nil_r.
  rewrite skipn_all2; [now rewrite app_nil_r|].
  rewrite length_app, length_skipn. lia.
Qed.

(** The nested bounds of the two halves, in terms of those of the
    whole. *)
Lemma pin_bounds_hat n L U ty M :
  length L = n -> length U = n -> (M < n)%nat ->
  let pin := match ty with
             | UpperViolation => nth M U 0
             | LowerViolation => nth M L 0
             end in
  let '(L', U') := pin_bounds ty M L U in
  (forall k, (k <= M)%nat ->
     hat (firstn (S M) L') k = hat L k /\ hat (firstn (S M) U') k = hat U k) /\
  hat (firstn (S M) L') (S M) = pin /\
  hat (firstn (S M) U') (S M) = pin /\
  (forall k, (1 <= k <= n - S M)%nat ->
     hat (skipn (S M) L') k = hat L (S M + k) - pin /\
     hat (skipn (S M) U') k = hat U (S M + k) - pin).
Proof.
  intros HL HU HM. destruct ty; cbn [pin_bounds]; cbv zeta.
  - rewrite !shift_after_left by (rewrite ?set_at_length; lia).
    rewrite !shift_after_right by (rewrite ?set_at_length; lia).
    rewrite set_at_skipn by lia.
    destruct (hat_set_at M (nth M L 0) U ltac:(lia)) as [H1 H2].
    repeat split.
    + apply hat_firstn; lia.
    + now apply H2.
    + rewrite hat_firstn by lia. reflexivity.
    + exact H1.
    + rewrite hat_shifted by lia. reflexivity.
    + rewrite hat_shifted by lia. reflexivity.
  - rewrite !shift_after_left by (rewrite ?set_at_length; lia).
    rewrite !shift_after_right by (rewrite ?set_at_length; lia).
    rewrite set_at_skipn by lia.
    destruct (hat_set_at M (nth M U 0) L ltac:(lia)) as [H1 H2].
    repeat split.
    + now apply H2.
    + apply hat_firstn; lia.
    + exact H1.
    + rewrite hat_firstn by lia. reflexivity.
    + rewrite hat_shifted by lia. reflexivity.
    + rewrite hat_shifted by lia. reflexivity.
Qed.

Lemma infeasible_nested :
  forall depth a l u L U,
    (1 <= length a <= depth)%nat ->
    length l = length a -> length L = length a -> length U = length a ->
    Forall (fun aj => 0 < aj) a -> Forall2 Qle l u ->
    nested_inv (length a) l u L U ->
    exists x,
      QRAP_NC_infeasible depth a l u L U = Ok x /\ length x = length a /\
      forall k, (1 <= k <= length a)%nat ->
        hat L k - nested_slack (length a) <= pre x k
        /\ pre x k <= hat U k + nested_slack (length a).
Proof.
  induction depth as [|depth IH]; intros a l u L U Hn Hl HL HU Ha Hlu I; [lia|].
  pose proof (Forall2_length Hlu) as Hu.
  assert (HLU : forall i, (i < length a)%nat -> nth i L 0 <= nth i U 0).
  { intros i Hi. pose proof (ni_lower _ _ _ _ _ I (S i) (S i) ltac:(lia)) as H.
    simpl hat in H. lra. }
  cbn [QRAP_NC_infeasible].
  replace (comprehension (get L) (seq 0 (length a))) with (Ok L)
    by (rewrite <- HL; symmetry; apply comprehension_get).
  replace (comprehension (get U) (seq 0 (length a))) with (Ok U)
    by (rewrite <- HU; symmetry; apply comprehension_get).
  cbn [bind].
  destruct (length a =? 1)%nat eqn:E1.
  { apply Nat.eqb_eq in E1. rewrite get_Ok by lia. cbn [bind].
    eexists. split; [reflexivity|]. split; [simpl; lia|].
    intros k Hk. assert (k = 1%nat) by lia. subst k.
    pose proof (HLU 0%nat ltac:(lia)) as H0.
    pose proof (nested_slack_nonneg (length a)).
    unfold pre. simpl firstn. unfold Py.sum. simpl. lra. }
  apply Nat.eqb_neq in E1.
  rewrite get_Ok by lia. cbn [bind].
  assert (Hne : a <> []) by (destruct a; [simpl in Hn; lia | discriminate]).
  destruct (QRAP_median_sum a l u (nth (length a - 1) U 0) Hne Ha Hl Hlu)
    as (m & Hmed & Hsum).
  { pose proof (ni_upper _ _ _ _ _ I 0%nat (length a) ltac:(lia)) as H.
    rewrite pre_0, (pre_all l) in H by lia.
    replace (hat U (length a)) with (nth (length a - 1) U 0) in H
      by (destruct (length a); [lia | simpl; now rewrite Nat.sub_0_r]).
    simpl hat in H. lra. }
  rewrite Hmed. cbn [bind].
  set (y := clipped a l u m) in *.
  assert (Hy : length y = length a) by apply clipped_length.
  destruct (clipped_box a l u m Hl Hlu) as [Hly Hyu]. fold y in Hly, Hyu.
  destruct (most_violated (scan L U y (length a))) as [[ty M]|] eqn:Hmv.
  2: { exists y. split; [reflexivity|]. split; [exact Hy|].
       destruct (scan_spec L U y (length a) Hy HLU) as [_ Hscan].
       rewrite Hmv in Hscan. destruct Hscan as [_ Hall].
       intros k Hk. destruct k as [|k]; [lia|].
       destruct (Hall k ltac:(lia)) as [H1 H2].
       pose proof (nested_slack_two (length a) ltac:(lia)).
       simpl hat. split; lra. }
  destruct (pin_bounds_inv (length a) l u L U y ty M HL HU I Hly Hyu Hy Hmv)
    as (HM & Hpos & HV & Hparts).
  assert (HMlast : (M < length a - 1)%nat).
  { apply (last_not_violated (length a) l u L U y ty M); auto; try lia.
    destruct ty; rewrite <- HV; exact Hpos. }
  pose proof (pin_bounds_hat (length a) L U ty M HL HU HM) as Hhat.
  cbv zeta in Hhat.
  set (pin := match ty with
              | UpperViolation => nth M U 0
              | LowerViolation => nth M L 0
              end) in *.
  assert (Hpin : nth M L 0 <= pin <= nth M U 0).
  { pose proof (HLU M HM). unfold pin. destruct ty; lra. }
  destruct (pin_bounds ty M L U) as [L' U'].
  destruct Hparts as (HL' & HU' & Ileft & Iright).
  destruct Hhat as (Hleft & HpinL & HpinU & Hright).
  rewrite !slice_0, !Nat.add_1_r.
  rewrite (slice_to_end a), (slice_to_end l), (slice_to_end u),
          (slice_to_end L'), (slice_to_end U') by congruence.
  destruct (Forall_firstn_skipn _ (S M) a Ha) as [Ha1 Ha2].
  destruct (Forall2_firstn_skipn _ _ _ Hlu (S M)) as [Hlu1 Hlu2].
  destruct (IH (firstn (S M) a) (firstn (S M) l) (firstn (S M) u)
               (firstn (S M) L') (firstn (S M) U'))
    as (xl & Hxl & Hxl_len & Hxl_post);
    rewrite ?firstn_length_le by lia; auto; try lia.
  destruct (IH (skipn (S M) a) (skipn (S M) l) (skipn (S M) u)
               (skipn (S M) L') (skipn (S M) U'))
    as (xr & Hxr & Hxr_len & Hxr_post);
    rewrite ?length_skipn; auto; try lia.
  rewrite Hxl. cbn [bind]. rewrite Hxr. cbn [bind].
  rewrite firstn_length_le in Hxl_len, Hxl_post by lia.
  rewrite length_skipn in Hxr_len, Hxr_post.
  rewrite <- (Nat.add_1_r M).
  rewrite (slice_assign_halves y xl xr M (length a)) by lia.
  exists (xl ++ xr). split; [reflexivity|].
  split; [rewrite length_app; lia|].
  pose proof (nested_slack_mono (S M) (length a) ltac:(lia)) as Hmono.
  pose proof (nested_slack_split (S M) (length a - S M) ltac:(lia) ltac:(lia))
    as Hsplit.
  replace (S M + (length a - S M))%nat with (length a) in Hsplit by lia.
  intros k Hk.
  destruct (Nat.le_gt_cases k (S M)) as [Hle|Hgt].
  - rewrite pre_app_left by lia.
    destruct (Hxl_post k ltac:(lia)) as [H1 H2].
    destruct (Nat.eq_dec k (S M)) as [->|Hne'].
    + rewrite HpinL in H1. rewrite HpinU in H2. simpl hat. lra.
    + destruct (Hleft k ltac:(lia)) as [E1' E2'].
      rewrite E1' in H1. rewrite E2' in H2. lra.
  - replace k with (length xl + (k - S M))%nat by lia.
    rewrite pre_app_right.
    destruct (Hxl_post (S M) ltac:(lia)) as [H1 H2].
    rewrite HpinL in H1. rewrite HpinU in H2.
    rewrite (pre_all xl (S M)) in H1, H2 by lia.
    destruct (Hxr_post (k - S M)%nat ltac:(lia)) as [H3 H4].
    destruct (Hright (k - S M)%nat ltac:(lia)) as [E3 E4].
    rewrite E3 in H3. rewrite E4 in H4.
    replace (S M + (k - S M))%nat with k in H3, H4 by lia.
    rewrite Hxl_len.
    replace (S M + (k - S M))%nat with k by lia.
    lra.
Qed.

(** More depth than a call needs changes nothing. *)
Lemma infeasible_more_depth :
  forall d a l u L U,
    finished (QRAP_NC_infeasible d a l u L U) ->
    forall d', (d <= d')%nat ->
      QRAP_NC_infeasible d' a l u L U = QRAP_NC_infeasible d a l u L U.
Proof.
  induction d as [|d IH]; intros a l u L U Hfin d' Hd; [destruct Hfin|].
  destruct d' as [|d']; [lia|].
  cbn [QRAP_NC_infeasible] in Hfin |- *.
  destruct (comprehension (get L) (seq 0 (length a))) as [L2| |]; try reflexivity.
  destruct (comprehension (get U) (seq 0 (length a))) as [U2| |]; try reflexivity.
  cbn [bind] in Hfin |- *.
  destruct (length a =? 1)%nat; [reflexivity|].
  destruct (get U2 (length a - 1)) as [R| |]; try reflexivity.
  cbn [bind] in Hfin |- *.
  destruct (QRAP_median a l u R) as [y| |]; try reflexivity.
  cbn [bind] in Hfin |- *.
  destruct (most_violated (scan L2 U2 y (length a))) as [[ty M]|]; [|reflexivity].
  destruct (pin_bounds ty M L2 U2) as [L3 U3].
  destruct (QRAP_NC_infeasible d (slice a 0 (M + 1)) (slice l 0 (M + 1))
              (slice u 0 (M + 1)) (slice L3 0 (M + 1)) (slice U3 0 (M + 1)))
    as [xl|e|] eqn:El.
  - rewrite (IH _ _ _ _ _ ltac:(rewrite El; exact I) d' ltac:(lia)), El.
    cbn [bind] in Hfin |- *.
    destruct (QRAP_NC_infeasible d (slice a (M + 1) (length a))
                (slice l (M + 1) (length a)) (slice u (M + 1) (length a))
                (slice L3 (M + 1) (length a)) (slice U3 (M + 1) (length a)))
      as [xr|e|] eqn:Er.
    + rewrite (IH _ _ _ _ _ ltac:(rewrite Er; exact I) d' ltac:(lia)), Er.
      reflexivity.
    + rewrite (IH _ _ _ _ _ ltac:(rewrite Er; exact I) d' ltac:(lia)), Er.
      reflexivity.
    + destruct Hfin.
  - rewrite (IH _ _ _ _ _ ltac:(rewrite El; exact I) d' ltac:(lia)), El.
    reflexivity.
  - destruct Hfin.
Qed.

(** What a call of [QRAP_NC_infeasible] on a feasible instance returns,
    at whatever depth it returns: no exception, and a vector whose
    prefix sums meet the nested bounds up to [10^-5] for every split. *)
Lemma infeasible_returned a l u L U depth :
  well_formed a l u L U -> feasible l u L U ->
  (forall e, QRAP_NC_infeasible depth a l u L U <> Raise e) /\
  forall x, QRAP_NC_infeasible depth a l u L U = Ok x ->
    length x = length a /\
    forall i, (i < length a)%nat ->
      nth i L 0 - nested_slack (length a) <= pre x (S i)
      <= nth i U 0 + nested_slack (length a).
Proof.
  intros [Hne Ha Hl Hlu HL HLU] Hfeas.
  pose proof (Forall2_length HLU) as HU.
  assert (Hn : (1 <= length a)%nat) by (destruct a; [congruence | simpl; lia]).
  pose proof (feasible_nested_inv l u L U Hfeas) as Inv. rewrite Hl in Inv.
  destruct (infeasible_nested (Nat.max depth (length a)) a l u L U)
    as (x' & Hx' & Hlen & Hpost); auto; try lia.
  assert (Hsame : finished (QRAP_NC_infeasible depth a l u L U) ->
                  QRAP_NC_infeasible depth a l u L U = Ok x').
  { intros Hfin. rewrite <- Hx'. symmetry.
    apply infeasible_more_depth; [exact Hfin | lia]. }
  split.
  - intros e He. rewrite Hsame in He by (rewrite He; exact I). discriminate.
  - intros x Hx. rewrite Hsame in Hx by (rewrite Hx; exact I).
    injection Hx as <-. split; [exact Hlen|].
    intros i Hi. apply (Hpost (S i)). lia.
Qed.

(** ** What the returned vectors satisfy *)

(** Every vector [QRAP_NC_seq] returns lies within the box bounds, and
    its first entry within the first nested bounds. *)
Lemma seq_box a l u L U x :
  well_formed a l u L U -> feasible l u L U ->
  fst (QRAP_NC_seq (instance a l u L U)) = Ok x ->
  length x = length a /\
  (forall j, (j < length a)%nat -> nth j l 0 <= nth j x 0 <= nth j u 0) /\
  nth 0 L 0 <= nth 0 x 0 <= nth 0 U 0.
Proof.
  intros [Hne Ha Hl Hlu HL HLU] (x0 & Hlx & Hxu & Hn) Hx.
  pose proof (Forall2_length Hlu) as Hu.
  pose proof (Forall2_length HLU) as HU.
  assert (Hpos : (0 < length a)%nat) by (destruct a; [congruence | simpl; lia]).
  unfold QRAP_NC_seq in Hx.
  rewrite (tighten_run a l u L U) in Hx by congruence.
  cbn [fst] in Hx.
  set (l0' := Py.max (Py.max (nth 0 L 0) (nth 0 l 0)) (nth 0 l 0)) in Hx.
  set (u0' := Py.min (Py.min (nth 0 U 0) (nth 0 u 0)) (nth 0 u 0)) in Hx.
  (* the first variable of a feasible vector *)
  assert (H0 : nth 0 l 0 <= nth 0 x0 0 /\ nth 0 x0 0 <= nth 0 u 0 /\
               nth 0 L 0 <= nth 0 x0 0 /\ nth 0 x0 0 <= nth 0 U 0).
  { pose proof (Forall2_nth _ _ _ Hlx 0%nat ltac:(lia)).
    pose proof (Forall2_nth _ _ _ Hxu 0%nat
                  ltac:(rewrite <- (Forall2_length Hlx); lia)).
    destruct (nested_ok_hat x0 L U 0 Hn 1%nat) as [H1 H2].
    { rewrite <- (Forall2_length Hlx). lia. }
    assert (E : pre x0 1 == nth 0 x0 0).
    { rewrite pre_S by (rewrite <- (Forall2_length Hlx); lia).
      rewrite pre_0. lra. }
    simpl hat in H1, H2. repeat split; lra. }
  destruct H0 as (H1 & H2 & H3 & H4).
  assert (Hl0 : nth 0 l 0 <= l0' /\ nth 0 L 0 <= l0' /\ l0' <= nth 0 x0 0).
  { unfold l0'. repeat split.
    - apply max_ge_r.
    - eapply Qle_trans; [apply max_ge_l | apply max_ge_l].
    - apply max_lub; [apply max_lub|]; assumption. }
  assert (Hu0 : u0' <= nth 0 u 0 /\ u0' <= nth 0 U 0 /\ nth 0 x0 0 <= u0').
  { unfold u0'. repeat split.
    - apply min_le_r.
    - eapply Qle_trans; [apply min_le_l | apply min_le_l].
    - apply min_glb; [apply min_glb|]; assumption. }
  destruct (seq_solve_box
              (instance a (upd l 0 l0') (upd u 0 u0')
                 (tightened_lower L l) (tightened_upper U u)) x Hne)
    as [Hlen Hbox]; [|exact Hx|].
  { cbn [objective_par lower_bound upper_bound instance]. intros j Hj.
    destruct j as [|j].
    - rewrite !upd_nth_same by lia. lra.
    - rewrite !upd_nth_other by lia. apply (Forall2_nth _ _ _ Hlu). lia. }
  cbn [objective_par lower_bound upper_bound instance] in Hlen, Hbox.
  split; [exact Hlen|].
  assert (Hx0 : l0' <= nth 0 x 0 <= u0').
  { specialize (Hbox 0%nat Hpos). rewrite !upd_nth_same in Hbox by lia. exact Hbox. }
  split; [|lra].
  intros [|j] Hj; [lra|].
  specialize (Hbox (S j) Hj). rewrite !upd_nth_other in Hbox by lia. exact Hbox.
Qed.

(** C2, as the program has it.  For a well-formed feasible instance:
    every vector [QRAP_NC_seq] returns meets the box bounds, and the
    first nested bounds; for one variable, [QRAP_NC_decomposition] and
    [QRAP_NC_infeasible] return [[U_0]], which meets the nested bounds
    (not always the box bounds); [QRAP_NC_infeasible] raises no
    exception, and when its relaxation passes the scan it returns it,
    within the box bounds.  For data of moderate size moreover: a
    relaxation that passes the scan has every prefix sum within
    [10^-5] of its nested bounds, [QRAP_NC_infeasible] returns within
    depth [n], and the prefix sums of what it returns, after whatever
    splits, are within [(n-1) * 10^-5] of the nested bounds. *)
Theorem returned_vectors_bounds (a l u L U : list Q) (depth : nat) :
  well_formed a l u L U ->
  feasible l u L U ->
  (forall x, fst (QRAP_NC_seq (instance a l u L U)) = Ok x ->
     length x = length a /\
     (forall j, (j < length a)%nat -> nth j l 0 <= nth j x 0 <= nth j u 0) /\
     nth 0 L 0 <= nth 0 x 0 <= nth 0 U 0) /\
  (length a = 1%nat ->
     QRAP_NC_decomposition a l u L U (S depth) = Ok [nth 0 U 0] /\
     QRAP_NC_infeasible (S depth) a l u L U = Ok [nth 0 U 0] /\
     nested_ok 0 [nth 0 U 0] L U) /\
  (forall e, QRAP_NC_infeasible depth a l u L U <> Raise e) /\
  (forall y,
     length a <> 1%nat ->
     QRAP_median a l u (nth (length a - 1) U 0) = Ok y ->
     most_violated (scan L U y (length a)) = None ->
     QRAP_NC_infeasible (S depth) a l u L U = Ok y /\
     Forall2 Qle l y /\ Forall2 Qle y u) /\
  (moderate a [l; u; L; U] ->
     (forall y,
        QRAP_median a l u (nth (length a - 1) U 0) = Ok y ->
        most_violated (scan L U y (length a)) = None ->
        forall i, (i < length a)%nat ->
          nth i L 0 - eps5 <= pre y (S i) <= nth i U 0 + eps5) /\
     ((length a <= depth)%nat ->
        exists x, QRAP_NC_infeasible depth a l u L U = Ok x) /\
     (forall x,
        QRAP_NC_infeasible depth a l u L U = Ok x ->
        length x = length a /\
        forall i, (i < length a)%nat ->
          nth i L 0 - nested_slack (length a) <= pre x (S i)
          <= nth i U 0 + nested_slack (length a))).
Proof.
  intros Hwf Hfeas.
  split; [|split; [|split; [|split]]].
  - intros x Hx. now apply seq_box.
  - destruct Hwf as [Hne Ha Hl Hlu HL HLU]. intros Hone.
    pose proof (Forall2_length HLU) as HU.
    destruct a as [|a0 [|? ?]]; try discriminate.
    destruct L as [|L0 [|? ?]]; try discriminate.
    destruct U as [|U0 [|? ?]]; try discriminate.
    split; [reflexivity|]. split; [reflexivity|].
    inversion HLU; subst. simpl. repeat split; lra.
  - now apply infeasible_returned.
  - destruct Hwf as [Hne Ha Hl Hlu HL HLU]. intros y Hn1 Hmed Hmv.
    pose proof (Forall2_length HLU) as HU.
    pose proof (Forall2_length Hlu) as Hu.
    assert (Hpos : (1 <= length a)%nat) by (destruct a; [congruence | simpl; lia]).
    destruct (QRAP_median_Ok a l u (nth (length a - 1) U 0) Hne
                (positive_nonzero a Ha)) as [m Hm]; try lia.
    rewrite Hmed in Hm. injection Hm as ->.
    destruct (clipped_box a l u m Hl Hlu) as [Hly Hyu].
    split; [|split; [exact Hly | exact Hyu]].
    cbn [QRAP_NC_infeasible].
    replace (comprehension (get L) (seq 0 (length a))) with (Ok L)
      by (rewrite <- HL; symmetry; apply comprehension_get).
    replace (comprehension (get U) (seq 0 (length a))) with (Ok U)
      by (rewrite <- HL, HU; symmetry; apply comprehension_get).
    cbn [bind].
    destruct (length a =? 1)%nat eqn:E1; [apply Nat.eqb_eq in E1; lia|].
    rewrite get_Ok by lia. cbn [bind]. rewrite Hmed. cbn [bind].
    rewrite Hmv. reflexivity.
  - intros _. split; [|split].
    + destruct Hwf as [Hne Ha Hl Hlu HL HLU]. intros y Hmed Hmv.
      pose proof (Forall2_length HLU) as HU.
      pose proof (Forall2_length Hlu) as Hu.
      destruct (QRAP_median_Ok a l u (nth (length a - 1) U 0) Hne
                  (positive_nonzero a Ha)) as [m Hm]; try lia.
      rewrite Hmed in Hm. injection Hm as ->.
      assert (HLU' : forall i, (i < length a)%nat -> nth i L 0 <= nth i U 0).
      { intros i Hi. apply (Forall2_nth _ _ _ HLU). lia. }
      destruct (scan_spec L U (clipped a l u m) (length a)
                  (clipped_length a l u m) HLU') as [_ Hscan].
      rewrite Hmv in Hscan. destruct Hscan as [_ Hall].
      intros i Hi. destruct (Hall i Hi). split; lra.
    + intros Hdepth. destruct Hwf as [Hne Ha Hl Hlu HL HLU].
      pose proof (Forall2_length HLU) as HU.
      assert (Hn : (1 <= length a)%nat) by (destruct a; [congruence | simpl; lia]).
      pose proof (feasible_nested_inv l u L U Hfeas) as Inv. rewrite Hl in Inv.
      destruct (infeasible_nested depth a l u L U) as (x & Hx & _);
        auto; try lia.
      now exists x.
    + now apply infeasible_returned.
Qed.

(** The theorem at three instances of moderate size: two variables that
    [QRAP_NC_infeasible] splits, at index 0, into [[4]] and [[6]]; one
    variable; and two variables whose relaxation [[5, 5]] is returned
    as it is. *)
Lemma returned_vectors_bounds_witness :
  (length [4; 6] = length [1; 1] /\
   (forall j, (j < length [1; 1])%nat ->
      nth j [0; 0] 0 <= nth j [4; 6] 0 <= nth j [10; 10] 0) /\
   nth 0 [0; 10] 0 <= nth 0 [4; 6] 0 <= nth 0 [4; 10] 0) /\
  ((exists x, QRAP_NC_infeasible 2 [1; 1] [0; 0] [10; 10] [0; 10] [4; 10] = Ok x) /\
   length [4; 6] = length [1; 1] /\
   forall i, (i < length [1; 1])%nat ->
     nth i [0; 10] 0 - nested_slack (length [1; 1]) <= pre [4; 6] (S i)
     <= nth i [4; 10] 0 + nested_slack (length [1; 1])) /\
  (QRAP_NC_decomposition [2] [0] [10] [3] [3] 1 = Ok [nth 0 [3] 0] /\
   QRAP_NC_infeasible 1 [2] [0] [10] [3] [3] = Ok [nth 0 [3] 0] /\
   nested_ok 0 [nth 0 [3] 0] [3] [3]) /\
  (QRAP_NC_infeasible 1 [1; 1] [0; 0] [10; 10] [0; 10] [6; 10]
   = Ok [10 # 2; 10 # 2] /\
   Forall2 Qle [0; 0] [10 # 2; 10 # 2] /\
   Forall2 Qle [10 # 2; 10 # 2] [10; 10]) /\
  (forall i, (i < length [1; 1])%nat ->
     nth i [0; 10] 0 - eps5 <= pre [10 # 2; 10 # 2] (S i)
     <= nth i [6; 10] 0 + eps5).
Proof.
  destruct (returned_vectors_bounds [1; 1] [0; 0] [10; 10] [0; 10] [4; 10] 2)
    as (Hseq & _ & _ & _ & Hsplit).
  { constructor; try reflexivity; try discriminate;
      repeat constructor; discriminate. }
  { exists [4; 6]. repeat split; repeat constructor; vm_compute; discriminate. }
  destruct Hsplit as (_ & Hreturns & Hsplit); [apply moderate_decided; reflexivity|].
  destruct (returned_vectors_bounds [2] [0] [10] [3] [3] 0)
    as (_ & Hone & _).
  { constructor; try reflexivity; try discriminate;
      repeat constructor; discriminate. }
  { exists [3]. repeat split; repeat constructor; vm_compute; discriminate. }
  destruct (returned_vectors_bounds [1; 1] [0; 0] [10; 10] [0; 10] [6; 10] 0)
    as (_ & _ & _ & Hrelaxed & Hclose).
  { constructor; try reflexivity; try discriminate;
      repeat constructor; discriminate. }
  { exists [5; 5]. repeat split; repeat constructor; vm_compute; discriminate. }
  destruct Hclose as (Hclose & _); [apply moderate_decided; reflexivity|].
  split; [apply Hseq; vm_compute; reflexivity|].
  split.
  { split; [apply Hreturns; simpl; lia|].
    apply Hsplit; vm_compute; reflexivity. }
  split; [apply Hone; reflexivity|].
  split.
  { apply Hrelaxed; [discriminate | vm_compute; reflexivity | vm_compute; reflexivity]. }
  apply Hclose; vm_compute; reflexivity.
Defined.

Section RoundedBound.

Import PrimFloat.

(** C2 fails as stated, in four ways.  By design: two variables with
    [0 <= x_0 <= 10], [0 <= x_1 <= 1], [0 <= x_0 <= 2] and
    [0 <= x_0 + x_1 <= 10] are a feasible instance (by [[1, 1]]);
    [QRAP_NC_infeasible] and [QRAP_NC_decomposition] allocate the total
    [U_1 = 10] all the same and return [[2, 8]], and 8 is above
    [u_1 = 1].  By the margin [10**(-6)] of the sweep: with
    [l_1 = 2^-21] and the total pinned to 5, [QRAP_NC_seq] returns
    [[5 - 2^-21, 5 - 2^-21]], whose sum is nearly 5 above [U_1 = 5].
    By rounding: with [x_0 = 1] and [2^53 <= x_0 + x_1 <= 2^53 + 4]
    (feasible by [[1, 2^53]]) [QRAP_NC_infeasible] pins [x_0] to 1, has
    [U_1 - 1] rounded up to [2^53 + 4] and returns [[1, 2^53 + 4]],
    whose sum is 1 above [U_1].  By a zero divisor that rounding makes,
    on data of moderate size: with [-10 <= x_j <= 10],
    [-4 <= x_0 <= -3] and [x_0 + x_1 = 0.1] (feasible by [[-3, 3.1]])
    [QRAP_NC_decomposition] returns [[nan, nan]]. *)
Lemma returned_vector_outside_box :
  (well_formed [1; 1] [0; 0] [10; 1] [0; 0] [2; 10] /\
   feasible [0; 0] [10; 1] [0; 0] [2; 10] /\
   QRAP_NC_infeasible 2 [1; 1] [0; 0] [10; 1] [0; 0] [2; 10] = Ok [2; 8] /\
   QRAP_NC_decomposition [1; 1] [0; 0] [10; 1] [0; 0] [2; 10] 2 = Ok [2; 8] /\
   nth 1 [10; 1] 0 + eps5 < nth 1 [2; 8] 0) /\
  (well_formed [1; 1] [0; 1 # 2097152] [10; 10] [0; 5] [10; 5] /\
   feasible [0; 1 # 2097152] [10; 10] [0; 5] [10; 5] /\
   fst (QRAP_NC_seq (instance [1; 1] [0; 1 # 2097152] [10; 10] [0; 5] [10; 5]))
   = Ok [10485759 # 2097152; 10485759 # 2097152] /\
   nth 1 [10; 5] 0 + 4 < pre [10485759 # 2097152; 10485759 # 2097152] 2) /\
  (well_formed [1; 1] [0; 0] [18014398509481984; 18014398509481984]
     [1; 9007199254740992] [1; 9007199254740996] /\
   feasible [0; 0] [18014398509481984; 18014398509481984]
     [1; 9007199254740992] [1; 9007199254740996] /\
   B64.QRAP_NC_infeasible 2 [1; 1]%float [0; 0]%float
     [18014398509481984; 18014398509481984]%float
     [1; 9007199254740992]%float [1; 9007199254740996]%float
   = Ok [1; 9007199254740996]%float /\
   nth 1 [1; 9007199254740996] 0 + (1 # 2) < pre [1; 9007199254740996] 2) /\
  (well_formed [1; 1] [-10; -10] [10; 10] [-4; 3602879701896397 # 36028797018963968] [-3; 3602879701896397 # 36028797018963968] /\
   feasible [-10; -10] [10; 10] [-4; 3602879701896397 # 36028797018963968] [-3; 3602879701896397 # 36028797018963968] /\
   moderate [1; 1] [[-10; -10]; [10; 10]; [-4; 3602879701896397 # 36028797018963968]; [-3; 3602879701896397 # 36028797018963968]] /\
   B64.QRAP_NC_decomposition [1; 1]%float [-10; -10]%float [10; 10]%float
     [-4; 0x1.999999999999ap-4]%float [-3; 0x1.999999999999ap-4]%float 2
   = Ok [nan; nan]%float).
Proof.
  split; [|split; [|split]].
  - split; [|split].
    + constructor; try reflexivity; try discriminate;
        repeat constructor; discriminate.
    + exists [1; 1]. repeat split; repeat constructor; vm_compute; discriminate.
    + repeat split; vm_compute; reflexivity.
  - split; [|split].
    + constructor; try reflexivity; try discriminate;
        repeat constructor; discriminate.
    + exists [5 # 2; 5 # 2].
      repeat split; repeat constructor; vm_compute; discriminate.
    + split; vm_compute; reflexivity.
  - split; [|split].
    + constructor; try reflexivity; try discriminate;
        repeat constructor; discriminate.
    + exists [1; 9007199254740992].
      repeat split; repeat constructor; vm_compute; discriminate.
    + split; vm_compute; reflexivity.
  - split; [|split; [|split]].
    + constructor; try reflexivity; try discriminate;
        repeat constructor; discriminate.
    + exists [-3; 111689270758788301 # 36028797018963968].
      repeat split; repeat constructor; vm_compute; discriminate.
    + apply moderate_decided; reflexivity.
    + vm_compute. reflexivity.
Qed.

End RoundedBound.

(** ** The solvers on instances with a pinned total *)

Example QRAP_median_exactness :
  same_result (QRAP_median [1; 1; 1] [0; 0; 0] [10; 10; 10] 15) (Ok [5; 5; 5]).
Proof. run. Qed.

Example three_solvers_three_variables :
  let a := [1; 1; 2] in
  let l := [0; 0; 1] in
  let u := [10; 10; 5] in
  let L := [3; 5; 12] in
  let U := [4; 15; 12] in
  same_result (QRAP_NC_decomposition a l u L U 3) (Ok [7 # 2; 7 # 2; 5]) /\
  same_result (QRAP_NC_infeasible 3 a l u L U) (Ok [7 # 2; 7 # 2; 5]) /\
  same_result (fst (QRAP_NC_seq (instance a l u L U))) (Ok [7 # 2; 7 # 2; 5]).
Proof. cbv zeta. split; [run | split; run]. Qed.

(** * Further properties of the program *)

(** ** The outcomes of [QRAP_median] *)

Lemma breakpoints_from_outcome a bound k :
  forall s, (s + k <= length a)%nat ->
  match comprehension
          (fun j => b <- get bound j ;; a <- get a j ;; div b a) (seq s k) with
  | Ok bs =>
      (s + k <= length bound)%nat \/ k = 0%nat
  | Raise IndexError => (length bound < s + k)%nat
  | Raise ZeroDivisionError => exists j, (s <= j < s + k)%nat /\ nth j a 0 == 0
  | _ => False
  end.
Proof.
  induction k as [|k IH]; intros s Hs; simpl.
  - now right.
  - unfold get at 1. destruct (nth_error bound s) as [b|] eqn:Eb; cbn [bind].
    2: { apply nth_error_None in Eb. lia. }
    assert (Hb : (s < length bound)%nat).
    { apply nth_error_Some. congruence. }
    rewrite get_Ok by lia. cbn [bind]. unfold div.
    destruct (Qeq_bool (nth s a 0) 0) eqn:E0; cbn [bind].
    { apply Qeq_bool_iff in E0. exists s. split; [lia | exact E0]. }
    specialize (IH (S s) ltac:(lia)).
    destruct (comprehension _ (seq (S s) k)) as [bs|[]|]; cbn [bind]; try exact IH.
    + left. destruct IH; lia.
    + lia.
    + destruct IH as (j & Hj & E). exists j. split; [lia | exact E].
Qed.

Lemma breakpoints_nonzero a bound k :
  forall s bs, (s + k <= length a)%nat ->
  comprehension
    (fun j => b <- get bound j ;; a <- get a j ;; div b a) (seq s k) = Ok bs ->
  forall j, (s <= j < s + k)%nat -> nonzero (nth j a 0).
Proof.
  induction k as [|k IH]; intros s bs Hs; simpl; [intros _ j Hj; lia|].
  unfold get at 1. destruct (nth_error bound s) as [b|] eqn:Eb; cbn [bind];
    [|discriminate].
  rewrite get_Ok by lia. cbn [bind]. unfold div.
  destruct (Qeq_bool (nth s a 0) 0) eqn:E0; cbn [bind]; [discriminate|].
  destruct (comprehension _ (seq (S s) k)) as [bs'|e|] eqn:E; cbn [bind];
    try discriminate.
  intros _ j Hj. destruct (Nat.eq_dec j s) as [->|Hne].
  - now apply eqb_false.
  - apply (IH (S s) bs'); [lia | exact E | lia].
Qed.

Lemma breakpoints_outcome a bound :
  match breakpoints a bound with
  | Ok bs => (length a <= length bound)%nat /\ Forall nonzero a
  | Raise IndexError => (length bound < length a)%nat
  | Raise ZeroDivisionError => exists j, (j < length a)%nat /\ nth j a 0 == 0
  | _ => False
  end.
Proof.
  unfold breakpoints.
  pose proof (breakpoints_from_outcome a bound (length a) 0 ltac:(lia)) as H.
  pose proof (breakpoints_nonzero a bound (length a) 0) as Hnz.
  destruct (comprehension _ (seq 0 (length a))) as [bs|[]|]; try exact H.
  - split.
    + destruct H as [H|H]; lia.
    + apply Forall_forall. intros x Hx.
      destruct (In_nth _ _ 0 Hx) as (j & Hj & <-).
      apply (Hnz bs); [lia | reflexivity | lia].
  - destruct H as (j & Hj & E). exists j. split; [lia | exact E].
Qed.

(** X1.  What a call of [QRAP_median] can end in.  It returns a vector, of
    length [n], exactly for a non-empty input without a zero coefficient
    whose bound lists have [n] entries or more; the empty input ends in
    the [ValueError] of [min], a short bound list in an [IndexError], a
    zero coefficient in a [ZeroDivisionError]; nothing else occurs. *)
Theorem QRAP_median_outcome (a l u : list Q) (R : Q) :
  match QRAP_median a l u R with
  | Ok x =>
      a <> [] /\ Forall nonzero a /\
      (length a <= length l)%nat /\ (length a <= length u)%nat /\
      length x = length a
  | Raise ValueError => a = []
  | Raise IndexError => (length l < length a)%nat \/ (length u < length a)%nat
  | Raise ZeroDivisionError => exists j, (j < length a)%nat /\ nth j a 0 == 0
  | Raise _ => False
  | Timeout => False
  end.
Proof.
  destruct a as [|a0 a'] eqn:Ea; [reflexivity|].
  rewrite <- Ea. assert (Hne : a <> []) by (rewrite Ea; discriminate).
  clear Ea.
  pose proof (breakpoints_outcome a l) as Hl.
  pose proof (breakpoints_outcome a u) as Hu.
  destruct (breakpoints a l) as [lbs|e|] eqn:El.
  - destruct (breakpoints a u) as [ubs|e|] eqn:Eu.
    + destruct Hl as [Hl Hnz]. destruct Hu as [Hu _].
      destruct (QRAP_median_Ok a l u R Hne Hnz Hl Hu) as [m ->].
      repeat split; auto. apply clipped_length.
    + unfold QRAP_median, QRAP_median_loop. rewrite El, Eu. cbn [bind].
      destruct e; try exact Hu; try contradiction. now right.
    + destruct Hu.
  - unfold QRAP_median, QRAP_median_loop. rewrite El. cbn [bind].
    destruct e; try exact Hl; try contradiction. now left.
  - destruct Hl.
Qed.

(** ** The resource constraint *)

(** X2.  For data of moderate size and a resource value between [sum l]
    and [sum u], [QRAP_median] returns a vector within the box bounds
    whose sum is [R] up to [10^-6]. *)
Theorem QRAP_median_meets_resource (a l u : list Q) (R : Q) :
  a <> [] ->
  Forall (fun aj => 0 < aj) a ->
  length l = length a ->
  Forall2 Qle l u ->
  moderate a [l; u] ->
  Py.sum l <= R <= Py.sum u ->
  exists x,
    QRAP_median a l u R = Ok x /\
    Forall2 Qle l x /\ Forall2 Qle x u /\
    Qabs (Py.sum x - R) <= eps6.
Proof.
  intros Hne Ha Hl Hlu _ [HlR HRu].
  destruct (QRAP_median_sum a l u R Hne Ha Hl Hlu HlR) as (m & Hm & Hsum).
  destruct (clipped_box a l u m Hl Hlu) as [Hlo Hhi].
  exists (clipped a l u m). repeat split; auto.
  destruct Hsum as [H|[E1 E2]]; [exact H|].
  apply Qabs_Qle_condition. assert (0 < eps6) by reflexivity. split; lra.
Qed.

Lemma QRAP_median_meets_resource_witness :
  exists x,
    QRAP_median [1; 2] [0; 1] [4; 3] 5 = Ok x /\
    Forall2 Qle [0; 1] x /\ Forall2 Qle x [4; 3] /\
    Qabs (Py.sum x - 5) <= eps6.
Proof.
  apply (QRAP_median_meets_resource [1; 2] [0; 1] [4; 3] 5).
  - discriminate.
  - repeat constructor.
  - reflexivity.
  - repeat constructor; discriminate.
  - apply moderate_decided; reflexivity.
  - split; discriminate.
Defined.

(** ** Resource values outside the reach of the bounds *)

Lemma sum_eq_pointwise xs ys :
  Forall2 Qle xs ys -> Py.sum xs == Py.sum ys -> Forall2 Qeq xs ys.
Proof.
  induction 1 as [|x y xs ys Hxy Hrest IH]; intros Hs; constructor.
  - rewrite !sum_cons in Hs. pose proof (sum_le _ _ Hrest). lra.
  - apply IH. rewrite !sum_cons in Hs. pose proof (sum_le _ _ Hrest). lra.
Qed.

Section Bracket.

Variables (a l u : list Q) (R : Q).

Let n := length a.

Hypothesis a_positive : forall j, (j < n)%nat -> 0 < nth j a 0.
Hypothesis box : forall j, (j < n)%nat -> nth j l 0 <= nth j u 0.

Let lbs := map (fun j => nth j l 0 / nth j a 0) (seq 0 n).
Let ubs := map (fun j => nth j u 0 / nth j a 0) (seq 0 n).

#[local] Abbreviation value := (value a l u).
#[local] Abbreviation value_sum := (value_sum a l u).
#[local] Abbreviation pending := (pending a l u).
#[local] Abbreviation bracket_inv := (bracket_inv a l u).

Lemma SummedVariables_bracket st c :
  bracket_inv st ->
  lower_breakpoint_bound st <= c -> below (upper_breakpoint_bound st) c ->
  SummedVariables a l u lbs ubs st c == value_sum c.
Proof.
  intros I Hlo Hhi. unfold SummedVariables.
  rewrite total_fold_left, (bi_sum a l u st I c Hlo Hhi).
  rewrite (total_ext (candidate_term a l u lbs ubs c) (value c)); [lra|].
  intros j Hj. apply candidate_term_value; auto.
  pose proof (bi_indices a l u st I) as H. rewrite Forall_forall in H. now apply H.
Qed.

Lemma narrow_bracket st c s x y :
  bracket_inv st ->
  In x (current_breakpoints st) -> In y (current_breakpoints st) ->
  x <= c -> c <= y ->
  bracket_inv (narrow R st c s).
Proof.
  intros I Hx Hy Hxc Hcy.
  destruct (bi_current a l u st I x Hx) as [Hlox _].
  destruct (bi_current a l u st I y Hy) as [_ Hyhi].
  assert (Hlo : lower_breakpoint_bound st <= c) by lra.
  assert (Hhi : strictly_below (upper_breakpoint_bound st) c).
  { destruct (upper_breakpoint_bound st); simpl in *; [lra | trivial]. }
  unfold narrow. destruct (Py.ltb R s).
  - constructor; simpl.
    + apply I.
    + apply I.
    + reflexivity.
    + intros m Hm Hb. apply (bi_sum a l u st I); [exact Hm|].
      destruct (upper_breakpoint_bound st); simpl in *; [lra | trivial].
    + apply I.
    + intros h [= <-]. exact Hlo.
    + intros b Hb. apply filter_In in Hb as [Hb Hlt]. apply ltb_lt in Hlt.
      split; [apply (bi_current a l u st I b Hb) | exact Hlt].
    + intros j b Hj Hb Hlob Hbc. apply filter_In. split.
      * apply (bi_breakpoints a l u st I j b Hj Hb Hlob).
        destruct (upper_breakpoint_bound st); simpl in *; [lra | trivial].
      * apply ltb_lt. exact Hbc.
  - constructor; simpl.
    + apply I.
    + apply I.
    + reflexivity.
    + intros m Hm Hb. apply (bi_sum a l u st I); [lra | exact Hb].
    + apply I.
    + intros h Hh. rewrite Hh in Hhi. simpl in Hhi. lra.
    + intros b Hb. apply filter_In in Hb as [Hb Hlt]. apply ltb_lt in Hlt.
      split; [lra | apply (bi_current a l u st I b Hb)].
    + intros j b Hj Hb Hcb Hbh. apply filter_In. split.
      * apply (bi_breakpoints a l u st I j b Hj Hb); [lra | exact Hbh].
      * apply ltb_lt. exact Hcb.
Qed.

Lemma decide_bracket st :
  bracket_inv st ->
  bracket_inv (decide a l u lbs ubs st) /\
  Forall (pending (lower_breakpoint_bound st) (upper_breakpoint_bound st))
         (undecided_variables_indices (decide a l u lbs ubs st)).
Proof.
  intros I.
  pose proof (decide_fold_inv a l u a_positive box
                (lower_breakpoint_bound st) (upper_breakpoint_bound st)
                value_sum (undecided_variables_indices st)
                (undecided_variables_indices st)
                (fixed st, free st, num_undecided_variables st, [])
                (bi_indices a l u st I)) as H.
  unfold decide. fold n lbs ubs in H.
  destruct (fold_left _ _ _) as [[[fx fr] num] new].
  destruct H as (Hsum & Hfr & Hnum & Hnew & Hincl).
  { repeat split.
    - intros m Hm Hb. rewrite (bi_sum a l u st I m Hm Hb). simpl. lra.
    - apply I.
    - rewrite (bi_num_undecided a l u st I). reflexivity.
    - constructor.
    - simpl. apply incl_refl. }
  split; [|exact Hnew].
  constructor; simpl.
  - eapply Forall_impl; [|exact Hnew]. intros j Hj. apply Hj.
  - simpl in Hnum. lia.
  - apply I.
  - intros m Hm Hb. rewrite <- (Hsum m Hm Hb). simpl. lra.
  - exact Hfr.
  - apply I.
  - apply I.
  - intros j b Hj. apply (bi_breakpoints a l u st I j b).
    apply Hincl. rewrite app_nil_r. exact Hj.
Qed.

(** When the loop is left by its condition, no variable is undecided. *)
Lemma bracket_exit st :
  bracket_inv st ->
  Forall (pending (lower_breakpoint_bound st) (upper_breakpoint_bound st))
         (undecided_variables_indices st) ->
  num_undecided_variables st = 0%nat \/ num_current_breakpoints st = 0%nat ->
  undecided_variables_indices st = [].
Proof.
  intros I Hpend Hexit.
  destruct (undecided_variables_indices st) as [|j js] eqn:E; [reflexivity|].
  exfalso. destruct Hexit as [H|H].
  - rewrite (bi_num_undecided a l u st I), E in H. discriminate H.
  - rewrite (bi_num_current a l u st I) in H.
    apply length_zero_iff_nil in H.
    inversion Hpend as [|? ? [_ Hj] _]; subst.
    assert (Hin : In j (undecided_variables_indices st)) by (rewrite E; now left).
    destruct Hj as [[H1 H2]|[H1 H2]].
    + pose proof (bi_breakpoints a l u st I j _ Hin (or_introl eq_refl) H1 H2) as F.
      rewrite H in F. exact F.
    + pose proof (bi_breakpoints a l u st I j _ Hin (or_intror eq_refl) H1 H2) as F.
      rewrite H in F. exact F.
Qed.

Lemma value_ge_lower m j : nth j l 0 <= value m j.
Proof. apply max_ge_l. Qed.

Lemma total_le f g js :
  (forall j, In j js -> f j <= g j) -> total f js <= total g js.
Proof.
  induction js as [|j js IH]; intros H; simpl; [lra|].
  pose proof (H j (or_introl eq_refl)).
  assert (total f js <= total g js) by (apply IH; intros k Hk; apply H; now right).
  lra.
Qed.

Lemma value_sum_ge_lower m :
  total (fun j => nth j l 0) (seq 0 n) <= value_sum m.
Proof. apply total_le. intros j _. apply value_ge_lower. Qed.

(** Below [sum l] no candidate matches and every pass moves the upper
    end of the bracket only. *)
Lemma median_loop_low fuel :
  R + eps6 < total (fun j => nth j l 0) (seq 0 n) ->
  forall st ex,
    bracket_inv st ->
    median_loop a l u R lbs ubs fuel st = Ok ex ->
    exists st',
      ex = Exhausted st' /\ bracket_inv st' /\
      lower_breakpoint_bound st' = lower_breakpoint_bound st /\
      (st' = st \/
       Forall (pending (lower_breakpoint_bound st') (upper_breakpoint_bound st'))
              (undecided_variables_indices st')).
Proof.
  intros HR.
  induction fuel as [|fuel IH]; intros st ex I; cbn [median_loop];
    destruct ((0 <? num_undecided_variables st)%nat
              && (0 <? num_current_breakpoints st)%nat) eqn:Hcond;
    try discriminate;
    try (intros [= <-]; exists st;
         split; [reflexivity|]; split; [exact I|]; split; [reflexivity | now left]).
  apply andb_true_iff in Hcond as [_ Hcur]. apply Nat.ltb_lt in Hcur.
  assert (Hne : current_breakpoints st <> []).
  { intros E. rewrite (bi_num_current a l u st I), E in Hcur. simpl in Hcur. lia. }
  destruct (median_between _ Hne) as (c & x & y & Hmed & Hx & Hy & Hxc & Hcy).
  rewrite Hmed. cbn [bind].
  destruct (bi_current a l u st I x Hx) as [Hlox _].
  destruct (bi_current a l u st I y Hy) as [_ Hyhi].
  assert (Hhi : below (upper_breakpoint_bound st) c).
  { destruct (upper_breakpoint_bound st); simpl in *; [lra | trivial]. }
  pose proof (SummedVariables_bracket st c I ltac:(lra) Hhi) as Hs.
  pose proof (value_sum_ge_lower c) as Hge.
  set (s := SummedVariables a l u lbs ubs st c) in *.
  assert (Hbig : R + eps6 < s) by lra.
  destruct (Qle_bool _ eps6) eqn:Hmatch.
  { apply Qle_bool_iff in Hmatch. apply Qabs_Qle_condition in Hmatch. lra. }
  intros Hloop.
  pose proof (narrow_bracket st c s x y I Hx Hy Hxc Hcy) as I1.
  destruct (decide_bracket _ I1) as [I2 Hpend].
  destruct (IH _ _ I2 Hloop) as (st' & -> & I' & Hlo & Hp).
  destruct (decide_breakpoints a l u lbs ubs (narrow R st c s))
    as (_ & _ & Ed & Eh).
  exists st'. split; [reflexivity|]. split; [exact I'|]. split.
  - rewrite Hlo, Ed. unfold narrow.
    assert (E : Py.ltb R s = true).
    { apply ltb_lt. assert (0 < eps6) by reflexivity. lra. }
    rewrite E. reflexivity.
  - right. destruct Hp as [->|Hp]; [|exact Hp].
    rewrite Ed, Eh. exact Hpend.
Qed.

End Bracket.

Lemma clip_below lo hi x : x <= lo -> lo <= hi -> clip lo hi x = lo.
Proof.
  intros H1 H2. unfold clip, Py.min.
  repeat cmp; unfold Py.max; repeat cmp; try reflexivity; lra.
Qed.

Lemma QRAP_median_below (a l u : list Q) (R : Q) :
  a <> [] ->
  Forall (fun aj => 0 < aj) a ->
  length l = length a ->
  Forall2 Qle l u ->
  R + eps6 < Py.sum l -> QRAP_median a l u R = Ok l.
Proof.
  intros Hne Ha Hl Hlu HR.
  pose proof (Forall2_length Hlu) as Hu.
  assert (Hpos : forall j, (j < length a)%nat -> 0 < nth j a 0).
  { intros j Hj. now apply nth_positive. }
  assert (Hbox : forall j, (j < length a)%nat -> nth j l 0 <= nth j u 0).
  { intros j Hj. apply (Forall2_nth _ _ _ Hlu). lia. }
  assert (Hn : (0 < length a)%nat).
  { destruct a; [congruence | simpl; lia]. }
  assert (H6 : 0 < eps6) by reflexivity.
  unfold QRAP_median, QRAP_median_loop.
  rewrite (breakpoints_Ok a l) by (try apply positive_nonzero; auto; lia).
  rewrite (breakpoints_Ok a u) by (try apply positive_nonzero; auto; lia).
  cbn [bind].
  set (lbs := map (fun j => nth j l 0 / nth j a 0) (seq 0 (length a))).
  set (ubs := map (fun j => nth j u 0 / nth j a 0) (seq 0 (length a))).
  assert (Hlen : length (lbs ++ ubs) = (2 * length a)%nat).
  { rewrite length_app. unfold lbs, ubs. rewrite !length_map, !length_seq. lia. }
  destruct (lbs ++ ubs) as [|b bs] eqn:Hbs; [simpl in Hlen; lia|].
  cbn [min_list bind].
  set (lo := fold_left Py.min bs b).
  assert (Hlo : forall x, In x (lbs ++ ubs) -> lo <= x).
  { intros x Hx. rewrite Hbs in Hx. now apply fold_min_le. }
  assert (Hlolb : forall j, (j < length a)%nat -> lo <= lb lbs j).
  { intros j Hj. apply Hlo, in_or_app. left. unfold lb.
    apply nth_In. unfold lbs. rewrite length_map, length_seq. exact Hj. }
  set (st0 := initial_state a lbs ubs lo).
  assert (I0 : bracket_inv a l u st0).
  { constructor; simpl.
    - apply Forall_forall. intros j Hj. apply in_seq in Hj. lia.
    - now rewrite length_seq.
    - rewrite length_app. unfold lbs, ubs.
      rewrite !length_map, !length_seq. lia.
    - intros m _ _. unfold value_sum. lra.
    - lra.
    - discriminate.
    - intros x Hx. split; [now apply Hlo | trivial].
    - intros j x Hj [->| ->] _ _; apply in_seq in Hj; apply in_or_app.
      + left. unfold lb. apply nth_In. unfold lbs.
        rewrite length_map, length_seq. lia.
      + right. unfold ub. apply nth_In. unfold ubs.
        rewrite length_map, length_seq. lia. }
  destruct (median_loop_total a l u R lbs ubs (2 * length a) st0) as [ex Hex].
  { apply I0. }
  { simpl. rewrite Hbs. lia. }
  fold lbs ubs lo st0 in Hex |- *. rewrite Hex. cbn [bind fst].
  assert (HR' : R + eps6 < total (fun j => nth j l 0) (seq 0 (length a))).
  { rewrite <- Hl, <- sum_as_total. exact HR. }
  destruct (median_loop_low a l u R Hpos Hbox _ HR' _ _ I0 Hex)
    as (st' & -> & I' & Elo & Hp).
  pose proof (median_loop_exhausted _ _ _ _ _ _ _ _ _ Hex) as Hexit.
  destruct Hp as [->|Hp].
  { exfalso. simpl in Hexit. lia. }
  pose proof (bracket_exit a l u st' I' Hp Hexit) as Hund.
  cbn [median_result]. f_equal.
  set (m := final_multiplier R st').
  assert (Hm : m <= lo).
  { unfold m, final_multiplier. simpl in Elo. cmp; [rewrite Elo; lra|].
    pose proof (bi_free a l u st' I') as Hfree.
    assert (Hfpos : 0 < free st') by lra.
    assert (Hb : below (upper_breakpoint_bound st') (lower_breakpoint_bound st')).
    { destruct (upper_breakpoint_bound st') as [h|] eqn:Hh; simpl; [|trivial].
      apply (bi_order a l u st' I' h Hh). }
    pose proof (bi_sum a l u st' I' (lower_breakpoint_bound st') ltac:(lra) Hb) as Hs.
    rewrite Hund in Hs. simpl in Hs.
    pose proof (value_sum_ge_lower a l u (lower_breakpoint_bound st')) as Hge.
    rewrite Elo in Hs, Hge.
    apply Qlt_le_weak. apply (Qmult_lt_l _ _ (free st') Hfpos).
    setoid_replace (free st' * ((R - fixed st') / free st'))
      with (R - fixed st') by (field; lra).
    lra. }
  unfold clipped.
  transitivity (map (fun j => nth j l 0) (seq 0 (length a)));
    [|rewrite <- Hl; apply map_nth_seq_self].
  apply map_ext_in. intros j Hj. apply in_seq in Hj.
  unfold l_, u_, a_. apply clip_below; [|apply Hbox; lia].
  apply (lb_spec a l Hpos j m); [lia|].
  specialize (Hlolb j ltac:(lia)). fold lbs. lra.
Qed.

Lemma QRAP_median_above (a l u : list Q) (R : Q) :
  a <> [] ->
  Forall (fun aj => 0 < aj) a ->
  length l = length a ->
  Forall2 Qle l u ->
  Py.sum u + eps6 < R ->
  exists x, QRAP_median a l u R = Ok x /\ same_vector x u.
Proof.
  intros Hne Ha Hl Hlu HR.
  assert (H6 : 0 < eps6) by reflexivity.
  destruct (QRAP_median_sum a l u R Hne Ha Hl Hlu) as (m & Hm & Hsum).
  { pose proof (sum_le _ _ Hlu). lra. }
  destruct (clipped_box a l u m Hl Hlu) as [Hlo Hhi].
  exists (clipped a l u m). split; [exact Hm|].
  apply sum_eq_pointwise; [exact Hhi|].
  destruct Hsum as [H|[E _]]; [|exact E].
  apply Qabs_Qle_condition in H. pose proof (sum_le _ _ Hhi). lra.
Qed.

(** X3.  A resource value outside [[sum l, sum u]] by more than [10^-6] is
    answered with the nearest vector of the box: the lower bounds
    themselves below [sum l], the upper bounds above [sum u]. *)
Theorem QRAP_median_saturates (a l u : list Q) (R : Q) :
  a <> [] ->
  Forall (fun aj => 0 < aj) a ->
  length l = length a ->
  Forall2 Qle l u ->
  (R + eps6 < Py.sum l -> QRAP_median a l u R = Ok l) /\
  (Py.sum u + eps6 < R ->
   exists x, QRAP_median a l u R = Ok x /\ same_vector x u).
Proof.
  intros Hne Ha Hl Hlu. split; intros HR.
  - now apply QRAP_median_below.
  - now apply QRAP_median_above.
Qed.

Lemma QRAP_median_saturates_witness :
  QRAP_median [1; 2] [0; 1] [4; 3] (-1) = Ok [0; 1] /\
  exists x, QRAP_median [1; 2] [0; 1] [4; 3] 100 = Ok x /\ same_vector x [4; 3].
Proof.
  split.
  - apply (QRAP_median_saturates [1; 2] [0; 1] [4; 3] (-1));
      [discriminate | repeat constructor | reflexivity
      | repeat constructor; discriminate | reflexivity].
  - apply (QRAP_median_saturates [1; 2] [0; 1] [4; 3] 100);
      [discriminate | repeat constructor | reflexivity
      | repeat constructor; discriminate | reflexivity].
Defined.

Lemma clip_cost aj lo hi m y :
  0 < aj -> lo <= hi -> lo <= y <= hi ->
  let x := clip lo hi (aj * m) in
  x * x / (2 * aj) + m * (y - x) <= y * y / (2 * aj).
Proof.
  intros Ha Hbox Hy x.
  assert (H : 2 * aj * m * (y - x) <= y * y - x * x).
  { assert (Hsq : 0 <= (y - x) * (y - x)).
    { destruct (Qlt_le_dec (y - x) 0).
      - setoid_replace ((y - x) * (y - x)) with ((x - y) * (x - y)) by ring.
        apply Qmult_le_0_compat; lra.
      - apply Qmult_le_0_compat; lra. }
    assert (Hpr : 0 <= (x - aj * m) * (y - x)).
    { destruct (clip_cases lo hi (aj * m) Hbox) as [[H E]|[[H E]|[H E]]];
        fold x in E.
      - apply Qmult_le_0_compat; lra.
      - setoid_replace (x - aj * m) with 0 by lra. lra.
      - setoid_replace ((x - aj * m) * (y - x)) with ((aj * m - x) * (x - y)) by ring.
        apply Qmult_le_0_compat; lra. }
    setoid_replace (y * y - x * x)
      with ((y - x) * (y - x) + 2 * ((x - aj * m) * (y - x)) + 2 * aj * m * (y - x))
      by ring.
    lra. }
  assert (E1 : 2 * aj * (x * x / (2 * aj)) == x * x) by (field; lra).
  assert (E2 : 2 * aj * (y * y / (2 * aj)) == y * y) by (field; lra).
  apply (Qmult_le_l _ _ (2 * aj)); [lra|].
  rewrite Qmult_plus_distr_r, E1, E2. lra.
Qed.

(** ** Optimality *)

(** X4.  The vector [QRAP_median] returns is the cheapest of its total: no
    vector within the box bounds with the same sum has a smaller cost
    [sum_j x_j^2 / (2 a_j)]. *)
Theorem QRAP_median_optimal (a l u : list Q) (R : Q) :
  a <> [] ->
  Forall (fun aj => 0 < aj) a ->
  length l = length a ->
  Forall2 Qle l u ->
  exists x,
    QRAP_median a l u R = Ok x /\
    forall y,
      Forall2 Qle l y -> Forall2 Qle y u -> Py.sum y == Py.sum x ->
      cost a x <= cost a y.
Proof.
  intros Hne Ha Hl Hlu.
  pose proof (Forall2_length Hlu) as Hu.
  destruct (QRAP_median_Ok a l u R Hne (positive_nonzero a Ha)) as [m Hm]; try lia.
  exists (clipped a l u m). split; [exact Hm|].
  intros y Hly Hyu Hsum.
  pose proof (Forall2_length Hly) as Hy.
  assert (Hterm : forall js, (forall j, In j js -> (j < length a)%nat) ->
            total (fun j => nth j (clipped a l u m) 0 * nth j (clipped a l u m) 0
                            / (2 * nth j a 0)) js
            + m * (total (fun j => nth j y 0) js
                   - total (fun j => nth j (clipped a l u m) 0) js)
            <= total (fun j => nth j y 0 * nth j y 0 / (2 * nth j a 0)) js).
  { induction js as [|j js IH]; intros Hjs; simpl; [lra|].
    assert (Hj : (j < length a)%nat) by (apply Hjs; now left).
    specialize (IH (fun k Hk => Hjs k (or_intror Hk))).
    rewrite clipped_nth in * by exact Hj.
    pose proof (clip_cost (nth j a 0) (nth j l 0) (nth j u 0) m (nth j y 0)
                  (nth_positive a j Ha Hj)
                  (Forall2_nth _ _ _ Hlu j ltac:(lia))
                  (conj (Forall2_nth _ _ _ Hly j ltac:(lia))
                        (Forall2_nth _ _ _ Hyu j ltac:(lia)))) as H.
    simpl in H.
    unfold clip in *. lra. }
  specialize (Hterm (seq 0 (length a))
                (fun j Hj => proj2 (proj1 (in_seq _ _ _) Hj))).
  assert (Ey : total (fun j => nth j y 0) (seq 0 (length a)) == Py.sum y).
  { rewrite <- Hl, Hy. symmetry. apply sum_as_total. }
  assert (Ex : total (fun j => nth j (clipped a l u m) 0) (seq 0 (length a))
               == Py.sum (clipped a l u m)).
  { rewrite (sum_as_total (clipped a l u m)), clipped_length. reflexivity. }
  rewrite Ey, Ex, Hsum in Hterm. unfold cost.
  setoid_replace (Py.sum (clipped a l u m) - Py.sum (clipped a l u m)) with 0 in Hterm
    by ring.
  lra.
Qed.

Lemma QRAP_median_optimal_witness :
  exists x,
    QRAP_median [1; 2] [0; 1] [4; 3] 5 = Ok x /\
    forall y,
      Forall2 Qle [0; 1] y -> Forall2 Qle y [4; 3] -> Py.sum y == Py.sum x ->
      cost [1; 2] x <= cost [1; 2] y.
Proof.
  apply (QRAP_median_optimal [1; 2] [0; 1] [4; 3] 5).
  - discriminate.
  - repeat constructor.
  - reflexivity.
  - repeat constructor; discriminate.
Defined.

(** ** The number of passes of the median search *)

Lemma filter_perm_length {A : Type} (f : A -> bool) xs ys :
  Permutation xs ys -> length (filter f xs) = length (filter f ys).
Proof.
  induction 1; simpl; try congruence.
  - destruct (f x); simpl; congruence.
  - destruct (f x), (f y); reflexivity.
Qed.

Lemma filter_length_le {A : Type} (f : A -> bool) xs :
  (length (filter f xs) <= length xs)%nat.
Proof.
  induction xs as [|x xs IH]; simpl; [lia|]. destruct (f x); simpl; lia.
Qed.

Lemma filter_all_false {A : Type} (f : A -> bool) xs :
  Forall (fun x => f x = false) xs -> filter f xs = [].
Proof.
  induction 1 as [|x xs Hx _ IH]; simpl; [reflexivity|]. now rewrite Hx.
Qed.

(** In an ascending list, the entries below [m] come before any entry
    that is not, and the entries above [m] after any that is not. *)
Lemma filter_lt_ascending m d :
  ascending d ->
  forall k, (k < length d)%nat -> m <= nth k d 0 ->
  (length (filter (fun x => Py.ltb x m) d) <= k)%nat.
Proof.
  induction 1 as [|x t Hx Hasc IH]; intros k Hk Hm; simpl in Hk; [lia|].
  destruct k as [|k]; simpl in Hm.
  - rewrite filter_all_false; [simpl; lia|].
    constructor.
    + apply ltb_ge. exact Hm.
    + eapply Forall_impl; [|exact Hx]. intros y Hy. apply ltb_ge. simpl in Hy. lra.
  - simpl. specialize (IH k ltac:(lia) Hm).
    destruct (Py.ltb x m); simpl; lia.
Qed.

Lemma filter_gt_ascending m d :
  ascending d ->
  forall k, (k < length d)%nat -> nth k d 0 <= m ->
  (length (filter (fun x => Py.ltb m x) d) <= length d - S k)%nat.
Proof.
  induction 1 as [|x t Hx Hasc IH]; intros k Hk Hm; simpl in Hk; [lia|].
  assert (Hxm : x <= m).
  { destruct k as [|k]; simpl in Hm; [exact Hm|].
    rewrite Forall_forall in Hx.
    assert (Hkt : (k < length t)%nat) by lia.
    pose proof (Hx (nth k t 0) (nth_In t 0 Hkt)) as H. simpl in H. lra. }
  simpl. apply ltb_ge in Hxm. rewrite Hxm.
  destruct k as [|k]; simpl in Hm.
  - pose proof (filter_length_le (fun x => Py.ltb m x) t). lia.
  - specialize (IH k ltac:(lia) Hm). lia.
Qed.

(** At most half of the data are below the median, and at most half
    above it. *)
Lemma median_halves xs m :
  Py.median xs = Ok m ->
  (length (filter (fun x => Py.ltb x m) xs) <= length xs / 2)%nat /\
  (length (filter (fun x => Py.ltb m x) xs) <= length xs / 2)%nat.
Proof.
  unfold Py.median.
  pose proof (sorted_length xs) as Hlen.
  pose proof (sorted_ascending xs) as Hasc.
  pose proof (sorted_perm xs) as Hperm.
  rewrite <- !(filter_perm_length _ _ _ Hperm), <- Hlen.
  remember (Py.sorted xs) as d eqn:Ed. clear Ed Hperm Hlen.
  destruct (length d) as [|n'] eqn:En; [discriminate|].
  cbv beta iota zeta. rewrite <- En.
  assert (Hn : (0 < length d)%nat) by lia. clear En n'.
  destruct (Nat.odd (length d)) eqn:Hodd; intros Hm.
  - assert (Em : m = nth (length d / 2) d 0) by congruence. subst m. clear Hm.
    apply Nat.odd_spec in Hodd. destruct Hodd as [q Hq].
    assert (Hhalf : (length d / 2 = q)%nat).
    { pose proof (Nat.div_mod_eq (length d) 2).
      pose proof (Nat.mod_upper_bound (length d) 2). lia. }
    split.
    + apply filter_lt_ascending; [exact Hasc | lia | apply Qle_refl].
    + assert (Hk : (length d / 2 < length d)%nat) by lia.
      pose proof (filter_gt_ascending (nth (length d / 2) d 0) d Hasc (length d / 2)
                    Hk (Qle_refl _)) as H.
      lia.
  - assert (Em : m = (nth (length d / 2 - 1) d 0 + nth (length d / 2) d 0) / 2)
      by congruence.
    subst m. clear Hm.
    assert (Heven : Nat.even (length d) = true).
    { rewrite <- Nat.negb_odd, Hodd. reflexivity. }
    apply Nat.even_spec in Heven. destruct Heven as [q Hq].
    assert (Hhalf : (length d / 2 = q)%nat).
    { pose proof (Nat.div_mod_eq (length d) 2).
      pose proof (Nat.mod_upper_bound (length d) 2). lia. }
    pose proof (ascending_nth d Hasc (length d / 2 - 1) (length d / 2) ltac:(lia)) as Hmid.
    set (lo := nth (length d / 2 - 1) d 0) in *.
    set (hi := nth (length d / 2) d 0) in *.
    assert (E : (lo + hi) / 2 == (lo + hi) * (1 # 2)) by field.
    split.
    + apply filter_lt_ascending; [exact Hasc | lia | fold hi; lra].
    + assert (Hk : (length d / 2 - 1 < length d)%nat) by lia.
      assert (Hlo : nth (length d / 2 - 1) d 0 <= (lo + hi) / 2) by (fold lo; lra).
      pose proof (filter_gt_ascending ((lo + hi) / 2) d Hasc (length d / 2 - 1)
                    Hk Hlo) as H.
      lia.
Qed.

Section Passes.

Variables (a l u : list Q) (R : Q) (lbs ubs : list Q).

#[local] Abbreviation loop := (median_loop a l u R lbs ubs).

Lemma narrow_halves st c s :
  Py.median (current_breakpoints st) = Ok c ->
  (length (current_breakpoints (narrow R st c s))
   <= length (current_breakpoints st) / 2)%nat.
Proof.
  intros Hmed. destruct (median_halves _ _ Hmed) as [H1 H2].
  unfold narrow. destruct (Py.ltb R s); simpl; assumption.
Qed.

(** A search among fewer than [2^fuel] breakpoints ends within [fuel]
    passes. *)
Lemma median_loop_log fuel :
  forall st,
    num_current_breakpoints st = length (current_breakpoints st) ->
    (length (current_breakpoints st) < 2 ^ fuel)%nat ->
    exists ex, loop fuel st = Ok ex.
Proof.
  induction fuel as [|fuel IH]; intros st Hnum Hfuel.
  - simpl in *. rewrite Hnum.
    replace (length (current_breakpoints st)) with 0%nat by lia.
    rewrite andb_false_r. eauto.
  - cbn [median_loop].
    destruct ((0 <? num_undecided_variables st)%nat
              && (0 <? num_current_breakpoints st)%nat) eqn:Hcond; [|eauto].
    apply andb_true_iff in Hcond as [_ Hcur]. apply Nat.ltb_lt in Hcur.
    assert (Hne : current_breakpoints st <> []).
    { intros E. rewrite E in Hnum. simpl in Hnum. lia. }
    destruct (median_between _ Hne) as (c & x & y & Hmed & Hx & Hy & Hxc & Hcy).
    rewrite Hmed. cbn [bind].
    destruct (Qle_bool _ eps6); [eauto|].
    set (s := SummedVariables a l u lbs ubs st c).
    destruct (narrow_shrinks R st c s x y Hx Hy Hxc Hcy) as [Hn _].
    pose proof (narrow_halves st c s Hmed) as Hhalf.
    destruct (decide_breakpoints a l u lbs ubs (narrow R st c s)) as (Hc & Hnc & _).
    apply IH.
    + rewrite Hc, Hnc. exact Hn.
    + rewrite Hc. rewrite Nat.pow_succ_r' in Hfuel.
      assert (length (current_breakpoints st) / 2 < 2 ^ fuel)%nat
        by (apply Nat.Div0.div_lt_upper_bound; lia).
      lia.
Qed.

(** More passes than needed change nothing. *)
Lemma median_loop_more fuel :
  forall st ex fuel',
    loop fuel st = Ok ex -> (fuel <= fuel')%nat -> loop fuel' st = Ok ex.
Proof.
  induction fuel as [|fuel IH]; intros st ex fuel'; cbn [median_loop].
  - destruct ((0 <? num_undecided_variables st)%nat
              && (0 <? num_current_breakpoints st)%nat) eqn:Hcond;
      [discriminate|].
    intros H _. destruct fuel'; cbn [median_loop]; rewrite Hcond; exact H.
  - intros H Hle. destruct fuel' as [|fuel']; [lia|]. cbn [median_loop].
    destruct ((0 <? num_undecided_variables st)%nat
              && (0 <? num_current_breakpoints st)%nat); [|exact H].
    destruct (median (current_breakpoints st)); cbn [bind] in *; try exact H.
    destruct (Qle_bool _ eps6); [exact H|].
    apply (IH _ _ _ H). lia.
Qed.

End Passes.

(** X6.  The [while] loop of [QRAP_median] makes at most
    [floor(log2(2n)) + 1] passes: every pass keeps at most half of the
    candidate breakpoints. *)
Theorem QRAP_median_passes (a l u : list Q) (R : Q) :
  a <> [] ->
  Forall nonzero a ->
  (length a <= length l)%nat ->
  (length a <= length u)%nat ->
  exists lbs ubs lo ex,
    breakpoints a l = Ok lbs /\ breakpoints a u = Ok ubs /\
    min_list (lbs ++ ubs) = Ok lo /\
    median_loop a l u R lbs ubs (S (Nat.log2 (2 * length a)))
      (initial_state a lbs ubs lo) = Ok ex /\
    QRAP_median a l u R = Ok (median_result a l u R ex).
Proof.
  intros Hne Ha Hl Hu.
  assert (Hn : (0 < length a)%nat).
  { destruct a; [congruence | simpl; lia]. }
  unfold QRAP_median, QRAP_median_loop.
  rewrite (breakpoints_Ok a l), (breakpoints_Ok a u) by auto.
  cbn [bind].
  set (lbs := map (fun j => nth j l 0 / nth j a 0) (seq 0 (length a))).
  set (ubs := map (fun j => nth j u 0 / nth j a 0) (seq 0 (length a))).
  assert (Hlen : length (lbs ++ ubs) = (2 * length a)%nat).
  { rewrite length_app. unfold lbs, ubs. rewrite !length_map, !length_seq. lia. }
  destruct (lbs ++ ubs) as [|b bs] eqn:Hbs; [simpl in Hlen; lia|].
  cbn [min_list bind].
  set (lo := fold_left Py.min bs b).
  set (st0 := initial_state a lbs ubs lo).
  destruct (median_loop_log a l u R lbs ubs (S (Nat.log2 (2 * length a))) st0)
    as [ex Hex].
  { simpl. rewrite Hbs. simpl in Hlen |- *. lia. }
  { simpl current_breakpoints. rewrite Hbs, Hlen.
    apply Nat.log2_spec. lia. }
  exists lbs, ubs, lo, ex.
  split; [reflexivity|]. split; [reflexivity|].
  split; [rewrite Hbs; reflexivity|]. split; [exact Hex|].
  fold lo st0.
  rewrite (median_loop_more a l u R lbs ubs _ st0 ex (2 * length a) Hex).
  - reflexivity.
  - pose proof (Nat.log2_lt_lin (2 * length a) ltac:(lia)). lia.
Qed.

Lemma QRAP_median_passes_witness :
  exists lbs ubs lo ex,
    breakpoints [1; 2; 1] [0; 1; 2] = Ok lbs /\
    breakpoints [1; 2; 1] [4; 3; 5] = Ok ubs /\
    min_list (lbs ++ ubs) = Ok lo /\
    median_loop [1; 2; 1] [0; 1; 2] [4; 3; 5] 6 lbs ubs
      (S (Nat.log2 (2 * length [1; 2; 1])))
      (initial_state [1; 2; 1] lbs ubs lo) = Ok ex /\
    QRAP_median [1; 2; 1] [0; 1; 2] [4; 3; 5] 6 = Ok (median_result [1; 2; 1] [0; 1; 2] [4; 3; 5] 6 ex).
Proof.
  apply (QRAP_median_passes [1; 2; 1] [0; 1; 2] [4; 3; 5] 6).
  - discriminate.
  - repeat constructor; discriminate.
  - simpl; lia.
  - simpl; lia.
Defined.

(** ** The search for the most violated constraint *)

Section ScanFirst.

Variables (L U y : list Q) (n : nat).
Hypothesis y_length : length y = n.
Hypothesis L_le_U : forall i, (i < n)%nat -> nth i L 0 <= nth i U 0.

Lemma scan_step_first k st :
  (k < n)%nat -> scan_inv L U y k st -> scan_first L U y st ->
  scan_first L U y (scan_step L U y st k).
Proof.
  intros Hk [Hsum Hv] Hf.
  assert (Hs : VAR_sum st + nth k y 0 == pre y (S k)).
  { rewrite pre_S by lia. rewrite Hsum. reflexivity. }
  assert (Heps : 0 < eps5) by reflexivity.
  assert (Hnew : forall v, Violation_value st < v -> eps5 < v ->
            forall i, (i < k)%nat ->
              pre y (S i) - nth i U 0 < v /\ nth i L 0 - pre y (S i) < v).
  { intros v Hlt Hv5 i Hi. destruct (most_violated st) as [[ty M]|].
    - destruct Hv as (_ & _ & _ & Hall). destruct (Hall i Hi). split; lra.
    - destruct Hv as (HV & Hall). destruct (Hall i Hi). split; lra. }
  unfold scan_step, scan_first in *.
  destruct (Py.ltb (nth k U 0 + eps5) (VAR_sum st + nth k y 0)) eqn:E1;
    [apply ltb_lt in E1 | apply ltb_ge in E1].
  - destruct (Py.ltb (Violation_value st) (VAR_sum st + nth k y 0 - nth k U 0)) eqn:E2;
      simpl; [apply ltb_lt in E2; apply Hnew; lra | exact Hf].
  - destruct (Py.ltb (VAR_sum st + nth k y 0) (nth k L 0 - eps5)) eqn:E3;
      [apply ltb_lt in E3 | exact Hf].
    destruct (Py.ltb (Violation_value st) (nth k L 0 - (VAR_sum st + nth k y 0))) eqn:E2;
      simpl; [apply ltb_lt in E2; apply Hnew; lra | exact Hf].
Qed.

Lemma scan_fold_first m :
  forall k st,
    (k + m <= n)%nat -> scan_inv L U y k st -> scan_first L U y st ->
    scan_first L U y (fold_left (scan_step L U y) (seq k m) st).
Proof.
  induction m as [|m IH]; intros k st Hk Hst Hf; simpl; [exact Hf|].
  apply IH; [lia | |].
  - apply (scan_step_inv L U y n); auto; lia.
  - apply scan_step_first; auto; lia.
Qed.

Lemma scan_first_spec : scan_first L U y (scan L U y n).
Proof.
  unfold scan. apply (scan_fold_first n 0%nat); [lia | | exact I].
  split; simpl; [reflexivity|]. split; [reflexivity|]. intros i Hi. lia.
Qed.

End ScanFirst.

(** X7.  The search of [QRAP_NC_infeasible] over the prefix sums of [y],
    for nested bounds with [L_i <= U_i].  It finds nothing exactly when
    every prefix sum is within [10^-5] of its bounds; otherwise it finds
    the index of the largest violation, the first one among equals. *)
Theorem scan_most_violated (L U y : list Q) (n : nat) :
  length y = n ->
  (forall i, (i < n)%nat -> nth i L 0 <= nth i U 0) ->
  match most_violated (scan L U y n) with
  | None =>
      forall i, (i < n)%nat ->
        nth i L 0 - eps5 <= pre y (S i) /\ pre y (S i) <= nth i U 0 + eps5
  | Some (ty, M) =>
      let V := match ty with
               | UpperViolation => pre y (S M) - nth M U 0
               | LowerViolation => nth M L 0 - pre y (S M)
               end in
      (M < n)%nat /\ eps5 < V /\
      (forall i, (i < n)%nat ->
         pre y (S i) - nth i U 0 <= V /\ nth i L 0 - pre y (S i) <= V) /\
      (forall i, (i < M)%nat ->
         pre y (S i) - nth i U 0 < V /\ nth i L 0 - pre y (S i) < V)
  end.
Proof.
  intros Hy HLU.
  destruct (scan_spec L U y n Hy HLU) as [_ Hscan].
  pose proof (scan_first_spec L U y n Hy HLU) as Hfirst.
  unfold scan_first in Hfirst.
  destruct (most_violated (scan L U y n)) as [[ty M]|].
  - destruct Hscan as (HM & Hpos & HV & Hall). cbv zeta.
    split; [exact HM|]. split; [rewrite <- HV; exact Hpos|]. split.
    + intros i Hi. destruct (Hall i Hi). rewrite <- HV. split; assumption.
    + intros i Hi. destruct (Hfirst i Hi). rewrite <- HV. split; assumption.
  - destruct Hscan as [_ Hall]. intros i Hi. destruct (Hall i Hi). split; lra.
Qed.

Lemma scan_most_violated_witness :
  match most_violated (scan [0; 0; 0] [1; 1; 9] [3; 0; 0] 3) with
  | None =>
      forall i, (i < 3)%nat ->
        nth i [0; 0; 0] 0 - eps5 <= pre [3; 0; 0] (S i)
        /\ pre [3; 0; 0] (S i) <= nth i [1; 1; 9] 0 + eps5
  | Some (ty, M) =>
      let V := match ty with
               | UpperViolation => pre [3; 0; 0] (S M) - nth M [1; 1; 9] 0
               | LowerViolation => nth M [0; 0; 0] 0 - pre [3; 0; 0] (S M)
               end in
      (M < 3)%nat /\ eps5 < V /\
      (forall i, (i < 3)%nat ->
         pre [3; 0; 0] (S i) - nth i [1; 1; 9] 0 <= V
         /\ nth i [0; 0; 0] 0 - pre [3; 0; 0] (S i) <= V) /\
      (forall i, (i < M)%nat ->
         pre [3; 0; 0] (S i) - nth i [1; 1; 9] 0 < V
         /\ nth i [0; 0; 0] 0 - pre [3; 0; 0] (S i) < V)
  end.
Proof.
  apply (scan_most_violated [0; 0; 0] [1; 1; 9] [3; 0; 0] 3).
  - reflexivity.
  - intros i Hi. destruct i as [|[|[|i]]]; simpl; try discriminate. lia.
Defined.

(** ** Missing entries of the nested bounds *)

Lemma skipn_nth_error (X : list Q) :
  forall s x, nth_error X s = Some x -> skipn s X = x :: skipn (S s) X.
Proof.
  induction X as [|x0 X IH]; intros [|s] x E; simpl in E; try discriminate.
  - now injection E as ->.
  - apply (IH s x E).
Qed.

Lemma comprehension_get_from (X : list Q) k :
  forall s, (s <= length X)%nat ->
    comprehension (get X) (seq s k)
    = if (s + k <=? length X)%nat then Ok (firstn k (skipn s X))
      else Raise IndexError.
Proof.
  induction k as [|k IH]; intros s Hs; simpl.
  - replace (s + 0 <=? length X)%nat with true
      by (symmetry; apply Nat.leb_le; lia).
    reflexivity.
  - unfold get at 1. destruct (nth_error X s) as [x|] eqn:E.
    + cbn [bind].
      assert (Hs' : (s < length X)%nat) by (apply nth_error_Some; congruence).
      rewrite IH by lia.
      replace (s + S k <=? length X)%nat with (S s + k <=? length X)%nat
        by (f_equal; lia).
      destruct (S s + k <=? length X)%nat; [|reflexivity]. cbn [bind].
      f_equal.
      rewrite (skipn_nth_error X s x E). reflexivity.
    + cbn [bind]. apply nth_error_None in E.
      destruct (s + S k <=? length X)%nat eqn:E'; [|reflexivity].
      apply Nat.leb_le in E'. lia.
Qed.

(** X9.  [QRAP_NC_infeasible] copies the first [n] nested bounds before
    anything else: with no variable, or with fewer than [n] entries in
    [L] or [U], the call ends in an [IndexError]. *)
Theorem QRAP_NC_infeasible_index_error (depth : nat) (a l u L U : list Q) :
  a = [] \/ (length L < length a)%nat \/ (length U < length a)%nat ->
  QRAP_NC_infeasible (S depth) a l u L U = Raise IndexError.
Proof.
  intros H. cbn [QRAP_NC_infeasible].
  rewrite !comprehension_get_from by lia. simpl Nat.add.
  destruct (length a <=? length L)%nat eqn:EL; [|reflexivity].
  destruct (length a <=? length U)%nat eqn:EU; [|reflexivity].
  apply Nat.leb_le in EL, EU. cbn [bind].
  destruct H as [->|[H|H]]; [reflexivity | lia | lia].
Qed.

Lemma QRAP_NC_infeasible_index_error_witness :
  QRAP_NC_infeasible 1 [1; 1] [0; 0] [1; 1] [0] [1; 2] = Raise IndexError.
Proof.
  apply (QRAP_NC_infeasible_index_error 0 [1; 1] [0; 0] [1; 1] [0] [1; 2]).
  right. left. simpl. lia.
Defined.

(** ** Infeasible instances *)

Lemma same_vector_pre x u : same_vector x u -> forall k, pre x k == pre u k.
Proof.
  induction 1 as [|x0 u0 x u E _ IH]; intros [|k]; try reflexivity.
  rewrite !pre_cons, IH, E. reflexivity.
Qed.

Lemma nth_set_at M pin (X : list Q) i :
  (M < length X)%nat ->
  nth i (set_at M pin X) 0 = if (i =? M)%nat then pin else nth i X 0.
Proof.
  intros HM. unfold set_at.
  destruct (i =? M)%nat eqn:E; [apply Nat.eqb_eq in E | apply Nat.eqb_neq in E].
  - subst i. rewrite app_nth2; rewrite length_firstn, Nat.min_l by lia; [|lia].
    now rewrite Nat.sub_diag.
  - destruct (Nat.lt_ge_cases i M) as [Hlt|Hge].
    + rewrite app_nth1 by (rewrite length_firstn; lia).
      rewrite nth_firstn.
      destruct (i <? M)%nat eqn:E'; [reflexivity | apply Nat.ltb_ge in E'; lia].
    + rewrite app_nth2; rewrite length_firstn, Nat.min_l by lia; [|lia].
      destruct (i - M)%nat as [|d] eqn:Ed; [lia|]. cbn [nth].
      rewrite nth_skipn. f_equal. lia.
Qed.

Lemma set_at_firstn_all M pin (X : list Q) :
  length X = S M -> firstn (S M) (set_at M pin X) = set_at M pin X.
Proof.
  intros H. apply firstn_all2. rewrite set_at_length; lia.
Qed.

(** The last nested lower bound above what the box allows: the
    relaxation returns [u], the last constraint is the most violated one,
    and the left half of the split is the whole instance again. *)
Lemma infeasible_diverges_lower :
  forall depth a l u L U,
    (2 <= length a)%nat ->
    length l = length a -> length L = length a ->
    Forall (fun aj => 0 < aj) a -> Forall2 Qle l u -> Forall2 Qle L U ->
    Py.sum u + eps5 < nth (length a - 1) L 0 ->
    (forall i, (i < length a - 1)%nat ->
       nth i L 0 - eps5 <= pre u (S i) /\ pre u (S i) <= nth i U 0 + eps5) ->
    QRAP_NC_infeasible depth a l u L U = Timeout.
Proof.
  induction depth as [|depth IH]; intros a l u L U Hn Hl HL Ha Hlu HLU Hlast Hrest;
    [reflexivity|].
  pose proof (Forall2_length Hlu) as Hu.
  pose proof (Forall2_length HLU) as HU.
  assert (HLUn : forall i, (i < length a)%nat -> nth i L 0 <= nth i U 0).
  { intros i Hi. apply (Forall2_nth _ _ _ HLU). lia. }
  assert (H56 : eps6 < eps5) by reflexivity.
  assert (H5 : 0 < eps5) by reflexivity.
  cbn [QRAP_NC_infeasible].
  replace (comprehension (get L) (seq 0 (length a))) with (Ok L)
    by (rewrite <- HL; symmetry; apply comprehension_get).
  replace (comprehension (get U) (seq 0 (length a))) with (Ok U)
    by (rewrite <- HL, HU; symmetry; apply comprehension_get).
  cbn [bind].
  destruct (length a =? 1)%nat eqn:E1; [apply Nat.eqb_eq in E1; lia|].
  rewrite get_Ok by lia. cbn [bind].
  assert (Hne : a <> []) by (destruct a; [simpl in Hn; lia | discriminate]).
  pose proof (HLUn (length a - 1)%nat ltac:(lia)) as Hend.
  destruct (QRAP_median_above a l u (nth (length a - 1) U 0) Hne Ha Hl Hlu)
    as (y & -> & Hy); [lra|].
  cbn [bind].
  pose proof (same_vector_pre y u Hy) as Hpre.
  assert (Hylen : length y = length a).
  { rewrite (Forall2_length Hy). lia. }
  destruct (scan_spec L U y (length a) Hylen HLUn) as [_ Hscan].
  assert (Hsum : pre y (S (length a - 1)) == Py.sum u).
  { rewrite Hpre, pre_all by lia. reflexivity. }
  destruct (most_violated (scan L U y (length a))) as [[ty M]|].
  2: { exfalso. destruct Hscan as [_ Hall].
       destruct (Hall (length a - 1)%nat ltac:(lia)) as [_ H]. lra. }
  destruct Hscan as (HM & Hpos & HV & Hall).
  assert (EM : M = (length a - 1)%nat).
  { destruct (Nat.eq_dec M (length a - 1)) as [E|E]; [exact E|exfalso].
    destruct (Hrest M ltac:(lia)) as [H1 H2]. rewrite <- Hpre in H1, H2.
    destruct ty; lra. }
  subst M.
  destruct ty; [|exfalso; lra].
  cbn [pin_bounds].
  rewrite !slice_0.
  replace (length a - 1 + 1)%nat with (S (length a - 1)) by lia.
  rewrite !shift_after_left by (rewrite ?set_at_length; lia).
  rewrite set_at_firstn_all by lia.
  replace (S (length a - 1)) with (length a) by lia.
  rewrite (firstn_all2 (n := length a) a), (firstn_all2 (n := length a) l),
          (firstn_all2 (n := length a) u), (firstn_all2 (n := length a) L) by lia.
  rewrite IH; [reflexivity | | | | | | | |]; auto.
  - apply Forall2_of_nth; [rewrite set_at_length; lia|].
    intros i Hi. rewrite nth_set_at by lia.
    destruct (i =? length a - 1)%nat eqn:E;
      [apply Nat.eqb_eq in E; subst i; apply Qle_refl | apply HLUn; lia].
  - intros i Hi. rewrite nth_set_at by lia.
    replace (i =? length a - 1)%nat with false
      by (symmetry; apply Nat.eqb_neq; lia).
    now apply Hrest.
Qed.

(** The mirror image: the last nested upper bound below what the box
    allows. *)
Lemma infeasible_diverges_upper :
  forall depth a l u L U,
    (2 <= length a)%nat ->
    length l = length a -> length L = length a ->
    Forall (fun aj => 0 < aj) a -> Forall2 Qle l u -> Forall2 Qle L U ->
    nth (length a - 1) U 0 + eps5 < Py.sum l ->
    (forall i, (i < length a - 1)%nat ->
       nth i L 0 - eps5 <= pre l (S i) /\ pre l (S i) <= nth i U 0 + eps5) ->
    QRAP_NC_infeasible depth a l u L U = Timeout.
Proof.
  induction depth as [|depth IH]; intros a l u L U Hn Hl HL Ha Hlu HLU Hlast Hrest;
    [reflexivity|].
  pose proof (Forall2_length Hlu) as Hu.
  pose proof (Forall2_length HLU) as HU.
  assert (HLUn : forall i, (i < length a)%nat -> nth i L 0 <= nth i U 0).
  { intros i Hi. apply (Forall2_nth _ _ _ HLU). lia. }
  assert (H56 : eps6 < eps5) by reflexivity.
  assert (H5 : 0 < eps5) by reflexivity.
  cbn [QRAP_NC_infeasible].
  replace (comprehension (get L) (seq 0 (length a))) with (Ok L)
    by (rewrite <- HL; symmetry; apply comprehension_get).
  replace (comprehension (get U) (seq 0 (length a))) with (Ok U)
    by (rewrite <- HL, HU; symmetry; apply comprehension_get).
  cbn [bind].
  destruct (length a =? 1)%nat eqn:E1; [apply Nat.eqb_eq in E1; lia|].
  rewrite get_Ok by lia. cbn [bind].
  assert (Hne : a <> []) by (destruct a; [simpl in Hn; lia | discriminate]).
  pose proof (HLUn (length a - 1)%nat ltac:(lia)) as Hend.
  rewrite (QRAP_median_below a l u (nth (length a - 1) U 0) Hne Ha Hl Hlu)
    by lra.
  cbn [bind].
  destruct (scan_spec L U l (length a) Hl HLUn) as [_ Hscan].
  assert (Hsum : pre l (S (length a - 1)) == Py.sum l).
  { rewrite pre_all by lia. reflexivity. }
  destruct (most_violated (scan L U l (length a))) as [[ty M]|].
  2: { exfalso. destruct Hscan as [_ Hall].
       destruct (Hall (length a - 1)%nat ltac:(lia)) as [H _]. lra. }
  destruct Hscan as (HM & Hpos & HV & Hall).
  assert (EM : M = (length a - 1)%nat).
  { destruct (Nat.eq_dec M (length a - 1)) as [E|E]; [exact E|exfalso].
    destruct (Hrest M ltac:(lia)) as [H1 H2].
    destruct ty; lra. }
  subst M.
  destruct ty; [exfalso; lra|].
  cbn [pin_bounds].
  rewrite !slice_0.
  replace (length a - 1 + 1)%nat with (S (length a - 1)) by lia.
  rewrite !shift_after_left by (rewrite ?set_at_length; lia).
  rewrite set_at_firstn_all by lia.
  replace (S (length a - 1)) with (length a) by lia.
  rewrite (firstn_all2 (n := length a) a), (firstn_all2 (n := length a) l),
          (firstn_all2 (n := length a) u), (firstn_all2 (n := length a) U) by lia.
  rewrite IH; [reflexivity | | | | | | | |]; auto.
  - rewrite set_at_length; lia.
  - apply Forall2_of_nth; [rewrite set_at_length; lia|].
    rewrite set_at_length by lia.
    intros i Hi. rewrite nth_set_at by lia.
    destruct (i =? length a - 1)%nat eqn:E;
      [apply Nat.eqb_eq in E; subst i; apply Qle_refl | apply HLUn; lia].
  - intros i Hi. rewrite nth_set_at by lia.
    replace (i =? length a - 1)%nat with false
      by (symmetry; apply Nat.eqb_neq; lia).
    now apply Hrest.
Qed.

(** X10.  [QRAP_NC_infeasible] has no test of feasibility either.  When the
    box bounds cannot reach the last nested bound by more than [10^-5]
    while the other nested bounds hold at the bound vector the
    relaxation returns, every call splits at the last index and calls
    itself on the whole instance again: no depth of the call stack is
    enough. *)
Theorem QRAP_NC_infeasible_diverges (a l u L U : list Q) :
  (2 <= length a)%nat ->
  length l = length a -> length L = length a ->
  Forall (fun aj => 0 < aj) a -> Forall2 Qle l u -> Forall2 Qle L U ->
  (Py.sum u + eps5 < nth (length a - 1) L 0 /\
   forall i, (i < length a - 1)%nat ->
     nth i L 0 - eps5 <= pre u (S i) /\ pre u (S i) <= nth i U 0 + eps5)
  \/
  (nth (length a - 1) U 0 + eps5 < Py.sum l /\
   forall i, (i < length a - 1)%nat ->
     nth i L 0 - eps5 <= pre l (S i) /\ pre l (S i) <= nth i U 0 + eps5) ->
  forall depth, QRAP_NC_infeasible depth a l u L U = Timeout.
Proof.
  intros Hn Hl HL Ha Hlu HLU [[H1 H2]|[H1 H2]] depth.
  - now apply infeasible_diverges_lower.
  - now apply infeasible_diverges_upper.
Qed.

Lemma QRAP_NC_infeasible_diverges_witness :
  QRAP_NC_infeasible 1000 [1; 1] [0; 0] [1; 1] [0; 5] [1; 5] = Timeout.
Proof.
  apply (QRAP_NC_infeasible_diverges [1; 1] [0; 0] [1; 1] [0; 5] [1; 5]).
  - simpl. lia.
  - reflexivity.
  - reflexivity.
  - repeat constructor.
  - repeat constructor; discriminate.
  - repeat constructor; discriminate.
  - left. split; [reflexivity|].
    intros i Hi. simpl in Hi. assert (i = 0%nat) by lia. subst i.
    split; discriminate.
Defined.

(** ** The tightening of [QRAP_NC_seq] *)

Lemma max_absorb x y : y <= x -> Py.max x y = x.
Proof. intros H. unfold Py.max. cmp; [lra | reflexivity]. Qed.

Lemma min_absorb x y : x <= y -> Py.min x y = x.
Proof. intros H. unfold Py.min. cmp; [lra | reflexivity]. Qed.

(** The tightened bounds admit the same vectors. *)
Lemma tightened_from_nested :
  forall x l u L U acc pl pu,
    Forall2 Qle l x -> Forall2 Qle x u -> pl <= acc -> acc <= pu ->
    (nested_ok acc x L U <->
     nested_ok acc x (tightened_lower_from pl L l) (tightened_upper_from pu U u)).
Proof.
  induction x as [|xi x IH]; intros l u L U acc pl pu Hl Hu Hpl Hpu.
  - inversion Hl; inversion Hu; subst. destruct L, U; simpl; tauto.
  - inversion Hl as [|li ? l' ? Hli Hl']; subst.
    inversion Hu as [|? ui ? u' Hui Hu']; subst.
    destruct L as [|Li L], U as [|Ui U];
      cbn [tightened_lower_from tightened_upper_from];
      try (simpl; tauto).
    cbv zeta. cbn [nested_ok].
    pose proof (max_ge_l Li (pl + li)) as M1.
    pose proof (max_ge_r Li (pl + li)) as M2.
    pose proof (min_le_l Ui (pu + ui)) as M3.
    pose proof (min_le_r Ui (pu + ui)) as M4.
    split.
    + intros (G1 & G2 & G3).
      assert (Py.max Li (pl + li) <= acc + xi) by (apply max_lub; lra).
      assert (acc + xi <= Py.min Ui (pu + ui)) by (apply min_glb; lra).
      split; [assumption|]. split; [assumption|].
      apply IH; assumption.
    + intros (G1 & G2 & G3).
      split; [lra|]. split; [lra|].
      eapply IH; eassumption.
Qed.

(** X11.  [QRAP_NC_seq] rewrites the caller's bounds but not the problem:
    a vector meets the bounds left in the store exactly when it meets
    the bounds passed in. *)
Theorem QRAP_NC_seq_keeps_feasible_set (a l u L U : list Q) :
  a <> [] ->
  length l = length a -> length u = length a ->
  length L = length a -> length U = length a ->
  let s' := snd (QRAP_NC_seq (instance a l u L U)) in
  forall x,
    (Forall2 Qle l x /\ Forall2 Qle x u /\ nested_ok 0 x L U) <->
    (Forall2 Qle (lower_bound s') x /\ Forall2 Qle x (upper_bound s') /\
     nested_ok 0 x (lower_nested s') (upper_nested s')).
Proof.
  intros Hne Hl Hu HL HU s' x. subst s'.
  rewrite QRAP_NC_seq_snd, (tighten_run a l u L U) by assumption.
  cbn [snd instance lower_bound upper_bound lower_nested upper_nested].
  destruct a as [|a0 a']; [congruence|].
  destruct l as [|l0 l], u as [|u0 u], L as [|L0 L], U as [|U0 U];
    simpl in Hl, Hu, HL, HU; try discriminate.
  cbn [nth upd tightened_lower tightened_upper].
  pose proof (max_ge_l L0 l0) as M1. pose proof (max_ge_r L0 l0) as M2.
  pose proof (min_le_l U0 u0) as M3. pose proof (min_le_r U0 u0) as M4.
  rewrite (max_absorb (Py.max L0 l0) l0) by exact M2.
  rewrite (min_absorb (Py.min U0 u0) u0) by exact M4.
  split.
  - intros (Hlx & Hxu & Hn).
    inversion Hlx as [|? x0 ? x' Hl0 Hl']; subst.
    inversion Hxu as [|? ? ? ? Hu0 Hu']; subst.
    cbn [nested_ok] in Hn |- *. destruct Hn as (H1 & H2 & H3).
    assert (Py.max L0 l0 <= x0) by (apply max_lub; lra).
    assert (x0 <= Py.min U0 u0) by (apply min_glb; lra).
    split; [constructor; assumption|]. split; [constructor; assumption|].
    split; [lra|]. split; [lra|].
    apply tightened_from_nested; auto; lra.
  - intros (Hlx & Hxu & Hn).
    inversion Hlx as [|? x0 ? x' Hl0 Hl']; subst.
    inversion Hxu as [|? ? ? ? Hu0 Hu']; subst.
    cbn [nested_ok] in Hn |- *. destruct Hn as (H1 & H2 & H3).
    split; [constructor; [lra | assumption]|].
    split; [constructor; [lra | assumption]|].
    split; [lra|]. split; [lra|].
    eapply tightened_from_nested; [| | | | exact H3]; auto; lra.
Qed.

Lemma QRAP_NC_seq_keeps_feasible_set_witness :
  (Forall2 Qle [0; 1] [3; 2] /\ Forall2 Qle [3; 2] [10; 10] /\
   nested_ok 0 [3; 2] [2; 4] [5; 20]) <->
  (Forall2 Qle
     (lower_bound (snd (QRAP_NC_seq (instance [1; 1] [0; 1] [10; 10] [2; 4] [5; 20]))))
     [3; 2] /\
   Forall2 Qle [3; 2]
     (upper_bound (snd (QRAP_NC_seq (instance [1; 1] [0; 1] [10; 10] [2; 4] [5; 20])))) /\
   nested_ok 0 [3; 2]
     (lower_nested (snd (QRAP_NC_seq (instance [1; 1] [0; 1] [10; 10] [2; 4] [5; 20]))))
     (upper_nested (snd (QRAP_NC_seq (instance [1; 1] [0; 1] [10; 10] [2; 4] [5; 20]))))).
Proof.
  apply (QRAP_NC_seq_keeps_feasible_set [1; 1] [0; 1] [10; 10] [2; 4] [5; 20]);
    first [discriminate | reflexivity].
Defined.

(** A second pass changes nothing. *)
Lemma tightened_lower_from_twice :
  forall L l prev,
    tightened_lower_from prev (tightened_lower_from prev L l) l
    = tightened_lower_from prev L l.
Proof.
  induction L as [|Li L IH]; intros [|li l] prev; try reflexivity.
  cbn [tightened_lower_from]. cbv zeta.
  rewrite (max_absorb (Py.max Li (prev + li)) (prev + li)) by apply max_ge_r.
  now rewrite IH.
Qed.

Lemma tightened_upper_from_twice :
  forall U u prev,
    tightened_upper_from prev (tightened_upper_from prev U u) u
    = tightened_upper_from prev U u.
Proof.
  induction U as [|Ui U IH]; intros [|ui u] prev; try reflexivity.
  cbn [tightened_upper_from]. cbv zeta.
  rewrite (min_absorb (Py.min Ui (prev + ui)) (prev + ui)) by apply min_le_r.
  now rewrite IH.
Qed.

Lemma tightened_lower_from_length :
  forall L l prev, length (tightened_lower_from prev L l) = length L.
Proof.
  induction L as [|Li L IH]; intros [|li l] prev; try reflexivity.
  cbn [tightened_lower_from]. cbv zeta. simpl. now rewrite IH.
Qed.

Lemma tightened_upper_from_length :
  forall U u prev, length (tightened_upper_from prev U u) = length U.
Proof.
  induction U as [|Ui U IH]; intros [|ui u] prev; try reflexivity.
  cbn [tightened_upper_from]. cbv zeta. simpl. now rewrite IH.
Qed.

(** X12.  The tightening is idempotent: a call on the lists an earlier call
    has left returns the same result and leaves the lists as they
    are. *)
Theorem QRAP_NC_seq_idempotent (a l u L U : list Q) :
  a <> [] ->
  length l = length a -> length u = length a ->
  length L = length a -> length U = length a ->
  let r := QRAP_NC_seq (instance a l u L U) in
  QRAP_NC_seq (snd r) = r.
Proof.
  intros Hne Hl Hu HL HU r. subst r.
  unfold QRAP_NC_seq at 2 3.
  rewrite (tighten_run a l u L U) by assumption. cbn [snd].
  destruct a as [|a0 a']; [congruence|].
  destruct l as [|l0 l], u as [|u0 u], L as [|L0 L], U as [|U0 U];
    simpl in Hl, Hu, HL, HU; try discriminate.
  cbn [nth upd tightened_lower tightened_upper].
  rewrite (max_absorb (Py.max L0 l0) l0) by apply max_ge_r.
  rewrite (min_absorb (Py.min U0 u0) u0) by apply min_le_r.
  unfold QRAP_NC_seq.
  rewrite tighten_run;
    try (simpl; rewrite ?tightened_lower_from_length, ?tightened_upper_from_length;
         congruence).
  cbn [nth upd tightened_lower tightened_upper].
  rewrite !(max_absorb (Py.max L0 l0) (Py.max L0 l0)) by apply Qle_refl.
  rewrite !(min_absorb (Py.min U0 u0) (Py.min U0 u0)) by apply Qle_refl.
  rewrite tightened_lower_from_twice, tightened_upper_from_twice.
  reflexivity.
Qed.

Lemma QRAP_NC_seq_idempotent_witness :
  QRAP_NC_seq (snd (QRAP_NC_seq (instance [1; 1] [0; 1] [10; 10] [2; 4] [5; 20])))
  = QRAP_NC_seq (instance [1; 1] [0; 1] [10; 10] [2; 4] [5; 20]).
Proof.
  apply (QRAP_NC_seq_idempotent [1; 1] [0; 1] [10; 10] [2; 4] [5; 20]);
    first [discriminate | reflexivity].
Defined.

(** ** What [QRAP_NC_decomposition] can end in *)

Lemma bind_unless_nonfinite {A B : Type} (P : A -> Prop) (Q : B -> Prop)
    (m : result A) (k : A -> result B) :
  returns_unless_nonfinite P m ->
  (forall x, P x -> returns_unless_nonfinite Q (k x)) ->
  returns_unless_nonfinite Q (bind m k).
Proof. destruct m as [x|[]|]; simpl; auto; contradiction. Qed.

Lemma rows_assign n t s0 s1 i j ys :
  rows n t -> (i <= j <= n)%nat -> length ys = (j - i)%nat ->
  rows n (table_assign t s0 s1 i j ys).
Proof.
  intros Ht Hij Hys b0 b1. unfold table_assign, row_set.
  destruct (Bool.eqb b0 s0 && Bool.eqb b1 s1); [|apply Ht].
  unfold slice_assign.
  rewrite !length_app, length_firstn, length_skipn, Ht. lia.
Qed.

Lemma slice_length (xs : list Q) i j :
  (i <= j <= length xs)%nat -> length (slice xs i j) = (j - i)%nat.
Proof.
  intros H. unfold slice. rewrite length_firstn, length_skipn. lia.
Qed.

Section DecompositionOutcome.

Variables (a l u L U : list Q).

Let n := length a.

Hypothesis a_nonzero : Forall nonzero a.
Hypothesis l_length : (n <= length l)%nat.
Hypothesis u_length : (n <= length u)%nat.
Hypothesis L_length : (n <= length L)%nat.
Hypothesis U_length : (n <= length U)%nat.

Lemma MDA_single_rows start t :
  (start < n)%nat -> rows n t ->
  returns_unless_nonfinite (rows n) (MDA_single L U start t).
Proof.
  intros Hs Ht. unfold MDA_single.
  rewrite (get_Ok L start) by lia. cbn [bind].
  rewrite (get_Ok U start) by lia. cbn [bind].
  destruct start as [|prev].
  - cbn [returns_unless_nonfinite].
    repeat apply rows_assign; auto; cbn [length]; lia.
  - rewrite (get_Ok L prev) by lia. cbn [bind].
    rewrite (get_Ok U prev) by lia. cbn [bind returns_unless_nonfinite].
    repeat apply rows_assign; auto; cbn [length]; lia.
Qed.

Lemma alternative_bounds_Ok start end_index cl cu :
  (start <= end_index < n)%nat ->
  exists alt,
    alternative_bounds l u start end_index cl cu = Ok alt /\
    length alt = (end_index + 1 - start)%nat.
Proof.
  intros H. unfold alternative_bounds.
  eexists. split.
  - apply (comprehension_Ok _
             (fun j => (alternative_lower (nth j cl 0) (nth j cu 0)
                          (nth (j + start) l 0),
                        alternative_upper (nth j cl 0) (nth j cu 0)
                          (nth (j + start) u 0)))).
    intros j Hj. apply in_seq in Hj. rewrite !get_Ok by lia. reflexivity.
  - now rewrite length_map, length_seq.
Qed.

Lemma target_Ok start end_index s0 s1 :
  (start <= end_index < n)%nat ->
  exists t, target L U start end_index s0 s1 = Ok t.
Proof.
  intros H. unfold target. destruct start as [|prev].
  - destruct s1; rewrite get_Ok by lia; eauto.
  - destruct s1, s0; rewrite !get_Ok by lia; cbn [bind]; eauto.
Qed.

Lemma MDA_subcase_rows start new_index end_index t subcase :
  (start <= end_index < n)%nat -> rows n t ->
  returns_unless_nonfinite (rows n)
    (MDA_subcase a l u L U start new_index end_index t subcase).
Proof.
  intros H Ht. unfold MDA_subcase. destruct subcase as [s0 s1].
  destruct (alternative_bounds_Ok start end_index
              (map (entry t s0 false) (seq start (new_index + 1 - start))
               ++ map (entry t true s1) (seq (new_index + 1) (end_index - new_index)))
              (map (entry t s0 true) (seq start (new_index + 1 - start))
               ++ map (entry t false s1) (seq (new_index + 1) (end_index - new_index)))
              H) as (alt & -> & Halt).
  cbn [bind].
  destruct (target_Ok start end_index s0 s1 H) as (tv & ->). cbn [bind].
  destruct (Py.ltb tv _).
  { unfold help_sum. destruct (Qeq_bool _ 0); [exact I|].
    cbn [bind returns_unless_nonfinite].
    apply rows_assign; [exact Ht | lia |].
    rewrite length_map, length_seq. lia. }
  destruct (Py.ltb _ tv).
  { unfold help_sum. destruct (Qeq_bool _ 0); [exact I|].
    cbn [bind returns_unless_nonfinite].
    apply rows_assign; [exact Ht | lia |].
    rewrite length_map, length_seq. lia. }
  assert (Hsl : length (slice a start (end_index + 1)) = (end_index + 1 - start)%nat).
  { apply slice_length. fold n. lia. }
  destruct (QRAP_median_Ok (slice a start (end_index + 1))
              (map fst alt) (map snd alt) tv) as [m ->].
  - intros E. rewrite E in Hsl. simpl in Hsl. lia.
  - unfold slice.
    apply (Forall_firstn_skipn _ (end_index + 1 - start)).
    apply (Forall_firstn_skipn _ start). exact a_nonzero.
  - rewrite length_map. lia.
  - rewrite length_map. lia.
  - cbn [bind returns_unless_nonfinite]. apply rows_assign; [exact Ht | lia |].
    rewrite clipped_length. lia.
Qed.

Lemma for_subcases_rows start new_index end_index subcases :
  (start <= end_index < n)%nat ->
  forall t, rows n t ->
    returns_unless_nonfinite (rows n)
      (for_subcases a l u L U start new_index end_index subcases t).
Proof.
  intros H. induction subcases as [|sc rest IH]; intros t Ht; simpl; [exact Ht|].
  apply (bind_unless_nonfinite (rows n)); [now apply MDA_subcase_rows | exact IH].
Qed.

Lemma MDA_rows d :
  forall start end_index t,
    (start <= end_index < n)%nat -> (end_index - start < 2 ^ d)%nat ->
    rows n t ->
    returns_unless_nonfinite (rows n) (MDA a l u L U (S d) start end_index t).
Proof.
  induction d as [|d IH]; intros start end_index t Hle Hsize Ht;
    cbn [MDA]; destruct (start =? end_index)%nat eqn:E;
    try (apply MDA_single_rows; [lia | exact Ht]).
  - apply Nat.eqb_neq in E. simpl in Hsize. lia.
  - apply Nat.eqb_neq in E. rewrite Nat.pow_succ_r' in Hsize.
    pose proof (Nat.div_mod_eq (start + end_index) 2) as Hdiv.
    pose proof (Nat.mod_upper_bound (start + end_index) 2 ltac:(lia)) as Hmod.
    apply (bind_unless_nonfinite (rows n)); [apply IH; auto; lia|]. intros r1 H1.
    apply (bind_unless_nonfinite (rows n)); [apply IH; auto; lia|]. intros r2 H2.
    apply for_subcases_rows; [lia | exact H2].
Qed.

End DecompositionOutcome.

(** X15.  For lists of [n >= 1] entries or more and non-zero coefficients,
    [QRAP_NC_decomposition] ends within depth [d + 1] when [n <= 2^d]:
    it returns a vector of length [n], unless a quotient [HELP_sum] had
    a zero divisor.  No index is out of range, and no row of the table
    changes its length. *)
Theorem QRAP_NC_decomposition_outcome (a l u L U : list Q) (d : nat) :
  a <> [] ->
  Forall nonzero a ->
  (length a <= length l)%nat -> (length a <= length u)%nat ->
  (length a <= length L)%nat -> (length a <= length U)%nat ->
  (length a <= 2 ^ d)%nat ->
  returns_unless_nonfinite (fun x => length x = length a)
    (QRAP_NC_decomposition a l u L U (S d)).
Proof.
  intros Hne Ha Hl Hu HL HU Hd. unfold QRAP_NC_decomposition.
  destruct (length a) as [|last] eqn:E.
  { destruct a; [congruence | discriminate]. }
  apply (bind_unless_nonfinite (rows (S last))).
  - rewrite <- E. apply MDA_rows; rewrite ?E; auto; try lia.
    intros s0 s1. apply repeat_length.
  - intros t Ht. simpl. apply Ht.
Qed.

Lemma QRAP_NC_decomposition_outcome_witness :
  returns_unless_nonfinite (fun x => length x = length [1; 1; 1])
    (QRAP_NC_decomposition [1; 1; 1] [0; 0; 0] [5; 5; 5] [1; 2; 15] [9; 9; 15] 3).
Proof.
  apply (QRAP_NC_decomposition_outcome [1; 1; 1] [0; 0; 0] [5; 5; 5] [1; 2; 15] [9; 9; 15] 2).
  - discriminate.
  - repeat constructor; discriminate.
  - simpl; lia.
  - simpl; lia.
  - simpl; lia.
  - simpl; lia.
  - simpl; lia.
Defined.

(** ** The sweep of [QRAP_NC_seq] raises no [IndexError] and ends *)

Lemma bind_unless_zero_division {A B : Type} (P : A -> Prop) (Q : B -> Prop)
    (m : result A) (k : A -> result B) :
  returns_unless_zero_division P m ->
  (forall x, P x -> returns_unless_zero_division Q (k x)) ->
  returns_unless_zero_division Q (bind m k).
Proof. destruct m as [x|[]|]; simpl; auto; contradiction. Qed.

Lemma heappush_perm h x : Permutation (heappush h x) (x :: h).
Proof.
  induction h as [|y t IH]; simpl; [reflexivity|].
  destruct (entry_ltb y x); [|reflexivity].
  rewrite IH. apply perm_swap.
Qed.

Lemma nth_upd_bool (R : list bool) k i :
  nth i (upd R k true) false
  = if (i =? k)%nat && (k <? length R)%nat then true else nth i R false.
Proof.
  revert k i. induction R as [|r R IH]; intros k i.
  - cbn [length]. replace (k <? 0)%nat with false by reflexivity.
    rewrite andb_false_r. destruct k; reflexivity.
  - destruct k as [|k], i as [|i]; simpl; auto.
Qed.

Lemma live_upd_absent R k h :
  ~ In k (map snd h) -> live (upd R k true) h = live R h.
Proof.
  intros H. unfold live. apply filter_ext_in. intros e He.
  rewrite nth_upd_bool.
  destruct (snd e =? k)%nat eqn:E; [|reflexivity].
  apply Nat.eqb_eq in E. exfalso. apply H. rewrite <- E. now apply in_map.
Qed.

Lemma live_upd_present R k h :
  NoDup (map snd h) -> In k (map snd h) ->
  nth k R false = false -> (k < length R)%nat ->
  S (length (live (upd R k true) h)) = length (live R h).
Proof.
  intros Hnd Hin Hk Hlen. induction h as [|[v i] t IH]; [destruct Hin|].
  simpl in Hnd, Hin. inversion Hnd as [|? ? Hnotin Hnd']; subst.
  unfold live in *. cbn [filter snd].
  rewrite nth_upd_bool.
  destruct Hin as [->|Hin].
  - rewrite Nat.eqb_refl. replace (k <? length R)%nat with true
      by (symmetry; apply Nat.ltb_lt; exact Hlen).
    rewrite Hk. simpl. f_equal.
    f_equal. apply (live_upd_absent R k t Hnotin).
  - assert (Hne : i <> k) by (intros ->; contradiction).
    replace (i =? k)%nat with false by (symmetry; apply Nat.eqb_neq; exact Hne).
    simpl. destruct (nth i R false); simpl; [apply IH | f_equal; apply IH]; auto.
Qed.

(** [first_live] drops flagged entries only and stops at a live one. *)
Lemma first_live_spec R h :
  match first_live R h with
  | Ok (c, h') =>
      exists dropped t,
        h = dropped ++ c :: t /\ h' = c :: t /\
        Forall (fun e => nth (snd e) R false = true) dropped /\
        nth (snd c) R false = false
  | Raise IndexError => live R h = []
  | _ => False
  end.
Proof.
  induction h as [|e t IH]; cbn [first_live]; [reflexivity|].
  destruct (nth (snd e) R false) eqn:E.
  - destruct (first_live R t) as [[c h']|[]|]; try contradiction.
    + destruct IH as (dropped & t' & -> & -> & Hd & Hc).
      exists (e :: dropped), t'. repeat split; auto.
    + unfold live in *. cbn [filter]. rewrite E. exact IH.
  - exists [], t. repeat split; auto.
Qed.

Lemma live_dropped R dropped rest :
  Forall (fun e => nth (snd e) R false = true) dropped ->
  live R (dropped ++ rest) = live R rest.
Proof.
  intros H. unfold live. rewrite filter_app.
  rewrite filter_all_false; [reflexivity|].
  eapply Forall_impl; [|exact H]. intros e He. simpl in He. now rewrite He.
Qed.

Lemma live_cons_live R e t :
  nth (snd e) R false = false -> live R (e :: t) = e :: live R t.
Proof. intros H. unfold live. cbn [filter]. now rewrite H. Qed.

(** Dropping the flagged entries at the top of a heap. *)
Lemma bp_clean_min n j b c h' :
  bp_inv n j b ->
  first_live (Removed_BP b) (heap_min b) = Ok (c, h') ->
  bp_inv n j (with_heap_min b h') /\
  (length h' <= length (heap_min b))%nat /\
  exists t, h' = c :: t /\ nth (snd c) (Removed_BP b) false = false.
Proof.
  intros I H. pose proof (first_live_spec (Removed_BP b) (heap_min b)) as S.
  rewrite H in S. destruct S as (dropped & t & Eh & -> & Hd & Hc).
  split; [|split; [rewrite Eh, length_app; simpl; lia | eauto]].
  destruct I as [I1 I2 I3 I4 I5 I6 I7 I8 I9 I10].
  rewrite Eh in I3, I5, I7, I8.
  constructor; unfold with_heap_min; cbn [heap_min heap_max num_breakpoints_heap Removed_BP];
    auto.
  - apply Forall_app in I3. apply I3.
  - rewrite map_app in I5. apply NoDup_app_remove_l in I5. exact I5.
  - intros k Hk. rewrite <- (I7 k Hk). rewrite !map_app, in_app_iff.
    split; [now right|]. intros [Hin|Hin]; [exfalso | exact Hin].
    apply in_map_iff in Hin as (e & <- & He).
    rewrite Forall_forall in Hd. rewrite (Hd e He) in Hk. discriminate.
  - rewrite I8. now rewrite live_dropped.
Qed.

Lemma bp_clean_max n j b c h' :
  bp_inv n j b ->
  first_live (Removed_BP b) (heap_max b) = Ok (c, h') ->
  bp_inv n j (with_heap_max b h') /\
  (length h' <= length (heap_max b))%nat /\
  exists t, h' = c :: t /\ nth (snd c) (Removed_BP b) false = false.
Proof.
  intros I H. pose proof (first_live_spec (Removed_BP b) (heap_max b)) as S.
  rewrite H in S. destruct S as (dropped & t & Eh & -> & Hd & Hc).
  split; [|split; [rewrite Eh, length_app; simpl; lia | eauto]].
  destruct I as [I1 I2 I3 I4 I5 I6 I7 I8 I9 I10].
  rewrite Eh in I4, I6, I7, I9.
  constructor; unfold with_heap_max; cbn [heap_min heap_max num_breakpoints_heap Removed_BP];
    auto.
  - apply Forall_app in I4. apply I4.
  - rewrite map_app in I6. apply NoDup_app_remove_l in I6. exact I6.
  - intros k Hk. rewrite (I7 k Hk). rewrite !map_app, in_app_iff.
    split; [|now right]. intros [Hin|Hin]; [exfalso | exact Hin].
    apply in_map_iff in Hin as (e & <- & He).
    rewrite Forall_forall in Hd. rewrite (Hd e He) in Hk. discriminate.
  - rewrite I9. now rewrite live_dropped.
Qed.

Lemma bp_first_live_min n j b :
  bp_inv n j b -> (0 < num_breakpoints_heap b)%nat ->
  exists c h', first_live (Removed_BP b) (heap_min b) = Ok (c, h').
Proof.
  intros I H. pose proof (first_live_spec (Removed_BP b) (heap_min b)) as S.
  destruct (first_live _ _) as [[c h']|[]|]; try contradiction; eauto.
  rewrite (bp_num_min n j b I), S in H. simpl in H. lia.
Qed.

Lemma bp_first_live_max n j b :
  bp_inv n j b -> (0 < num_breakpoints_heap b)%nat ->
  exists c h', first_live (Removed_BP b) (heap_max b) = Ok (c, h').
Proof.
  intros I H. pose proof (first_live_spec (Removed_BP b) (heap_max b)) as S.
  destruct (first_live _ _) as [[c h']|[]|]; try contradiction; eauto.
  rewrite (bp_num_max n j b I), S in H. simpl in H. lia.
Qed.

(** Removing the live entry at the top of one heap: its twin in the
    other heap is flagged with it. *)
Lemma bp_remove_min n j b v k t :
  bp_inv n j b ->
  heap_min b = (v, k) :: t -> nth k (Removed_BP b) false = false ->
  exists b',
    remove_min b k = Ok b' /\ bp_inv n j b' /\
    heap_min b' = t /\ heap_max b' = heap_max b.
Proof.
  intros I Eh Hk. unfold remove_min. rewrite Eh. cbn [heappop bind].
  eexists. split; [reflexivity|]. split; [|split; reflexivity].
  destruct I as [I1 I2 I3 I4 I5 I6 I7 I8 I9 I10].
  rewrite Eh in I3, I5, I7, I8. cbn [map snd] in I5, I7.
  inversion I3 as [|? ? Hkj I3']; subst. cbn [snd] in Hkj.
  inversion I5 as [|? ? Hnotin I5']; subst.
  assert (Hklen : (k < length (Removed_BP b))%nat) by lia.
  assert (Hkmax : In k (map snd (heap_max b))).
  { apply (I7 k Hk). now left. }
  constructor; cbn [heap_min heap_max num_breakpoints_heap Removed_BP]; auto.
  - now rewrite upd_length.
  - intros k' Hk'. rewrite nth_upd_bool in Hk'.
    destruct (k' =? k)%nat eqn:E.
    + replace (k <? length (Removed_BP b))%nat with true in Hk'
        by (symmetry; apply Nat.ltb_lt; exact Hklen).
      discriminate.
    + apply Nat.eqb_neq in E. simpl in Hk'. rewrite <- (I7 k' Hk').
      split; [now right|]. intros [F|F]; [congruence | exact F].
  - rewrite live_upd_absent by exact Hnotin.
    rewrite I8, live_cons_live by exact Hk. reflexivity.
  - pose proof (live_upd_present (Removed_BP b) k (heap_max b) I6 Hkmax Hk Hklen) as H.
    rewrite I9, <- H. reflexivity.
  - intros k' Hk'. rewrite nth_upd_bool.
    replace (k' =? k)%nat with false by (symmetry; apply Nat.eqb_neq; lia).
    simpl. now apply I10.
Qed.

Lemma bp_remove_max n j b v k t :
  bp_inv n j b ->
  heap_max b = (v, k) :: t -> nth k (Removed_BP b) false = false ->
  exists b',
    remove_max b k = Ok b' /\ bp_inv n j b' /\
    heap_max b' = t /\ heap_min b' = heap_min b.
Proof.
  intros I Eh Hk. unfold remove_max. rewrite Eh. cbn [heappop bind].
  eexists. split; [reflexivity|]. split; [|split; reflexivity].
  destruct I as [I1 I2 I3 I4 I5 I6 I7 I8 I9 I10].
  rewrite Eh in I4, I6, I7, I9. cbn [map snd] in I6, I7.
  inversion I4 as [|? ? Hkj I4']; subst. cbn [snd] in Hkj.
  inversion I6 as [|? ? Hnotin I6']; subst.
  assert (Hklen : (k < length (Removed_BP b))%nat) by lia.
  assert (Hkmin : In k (map snd (heap_min b))).
  { apply (I7 k Hk). now left. }
  constructor; cbn [heap_min heap_max num_breakpoints_heap Removed_BP]; auto.
  - now rewrite upd_length.
  - intros k' Hk'. rewrite nth_upd_bool in Hk'.
    destruct (k' =? k)%nat eqn:E.
    + replace (k <? length (Removed_BP b))%nat with true in Hk'
        by (symmetry; apply Nat.ltb_lt; exact Hklen).
      discriminate.
    + apply Nat.eqb_neq in E. simpl in Hk'. rewrite (I7 k' Hk').
      split; [|now right]. intros [F|F]; [congruence | exact F].
  - pose proof (live_upd_present (Removed_BP b) k (heap_min b) I5 Hkmin Hk Hklen) as H.
    rewrite I8, <- H. reflexivity.
  - rewrite live_upd_absent by exact Hnotin.
    rewrite I9, live_cons_live by exact Hk. reflexivity.
  - intros k' Hk'. rewrite nth_upd_bool.
    replace (k' =? k)%nat with false by (symmetry; apply Nat.eqb_neq; lia).
    simpl. now apply I10.
Qed.

Lemma index_absent (h : heap) j :
  Forall (fun e => (snd e < j)%nat) h -> ~ In j (map snd h).
Proof.
  intros H Hin. apply in_map_iff in Hin as (e & E & He).
  rewrite Forall_forall in H. specialize (H e He). lia.
Qed.

(** The breakpoint of index [j] enters both heaps. *)
Lemma bp_add n j b v :
  bp_inv n j b -> (j < n)%nat -> bp_inv n (S j) (add_breakpoint b v j).
Proof.
  intros [I1 I2 I3 I4 I5 I6 I7 I8 I9 I10] Hj.
  pose proof (heappush_perm (heap_min b) (v, j)) as Pmin.
  pose proof (heappush_perm (heap_max b) (- v, j)) as Pmax.
  assert (Hlive : nth j (Removed_BP b) false = false) by (apply I10; lia).
  constructor; unfold add_breakpoint;
    cbn [heap_min heap_max num_breakpoints_heap Removed_BP]; auto.
  - eapply Permutation_Forall; [symmetry; exact Pmin|].
    constructor; [simpl; lia|]. eapply Forall_impl; [|exact I3]. simpl. intros; lia.
  - eapply Permutation_Forall; [symmetry; exact Pmax|].
    constructor; [simpl; lia|]. eapply Forall_impl; [|exact I4]. simpl. intros; lia.
  - eapply Permutation_NoDup; [symmetry; apply Permutation_map; exact Pmin|].
    simpl. constructor; [now apply index_absent | exact I5].
  - eapply Permutation_NoDup; [symmetry; apply Permutation_map; exact Pmax|].
    simpl. constructor; [now apply index_absent | exact I6].
  - intros k Hk.
    pose proof (Permutation_map snd Pmin) as Qmin.
    pose proof (Permutation_map snd Pmax) as Qmax.
    specialize (I7 k Hk). split; intros Hin.
    + apply (Permutation_in _ Qmin) in Hin.
      apply (Permutation_in _ (Permutation_sym Qmax)).
      simpl in Hin |- *. tauto.
    + apply (Permutation_in _ Qmax) in Hin.
      apply (Permutation_in _ (Permutation_sym Qmin)).
      simpl in Hin |- *. tauto.
  - unfold live. rewrite (filter_perm_length _ _ _ Pmin). fold (live (Removed_BP b)).
    change (filter _ ((v, j) :: heap_min b)) with (live (Removed_BP b) ((v, j) :: heap_min b)).
    rewrite live_cons_live by exact Hlive. simpl. now rewrite I8.
  - unfold live. rewrite (filter_perm_length _ _ _ Pmax).
    change (filter _ ((- v, j) :: heap_max b)) with (live (Removed_BP b) ((- v, j) :: heap_max b)).
    rewrite live_cons_live by exact Hlive. simpl. now rewrite I9.
  - intros k Hk. apply I10. lia.
Qed.

Lemma bp_next n j b : bp_inv n j b -> (j < n)%nat -> bp_inv n (S j) b.
Proof.
  intros [I1 I2 I3 I4 I5 I6 I7 I8 I9 I10] Hj.
  constructor; auto.
  - eapply Forall_impl; [|exact I3]. simpl. intros; lia.
  - eapply Forall_impl; [|exact I4]. simpl. intros; lia.
  - intros k Hk. apply I10. lia.
Qed.

Lemma improve_min_cases cur v k ty :
  improve_min cur v k ty = Some (v, k, ty) \/ improve_min cur v k ty = cur.
Proof.
  unfold improve_min. destruct cur as [[[m ?] ?]|]; [|now left].
  destruct (Py.ltb v m); [now left | now right].
Qed.

Lemma improve_max_cases cur v k ty :
  improve_max cur v k ty = Some (v, k, ty) \/ improve_max cur v k ty = cur.
Proof.
  unfold improve_max. destruct cur as [[[m ?] ?]|]; [|now left].
  destruct (Py.ltb m v); [now left | now right].
Qed.

Lemma get_index_Ok (d : list nat) i :
  (i < length d)%nat -> exists k, get_index d i = Ok k.
Proof.
  intros H. unfold get_index. destruct (nth_error d i) eqn:E; [eauto|].
  apply nth_error_None in E. lia.
Qed.

Section Candidates.

Variables (n j : nat).

(** The four stages of "Determine next candidate breakpoint". *)
Lemma lower_heap_min_stage st :
  sweep_inv n j st ->
  exists st1 cur1,
    (if (0 <? num_lower_breakpoints_heap st)%nat then
       c <- first_live (Removed_BP (lower_BP st)) (heap_min (lower_BP st)) ;;
       Ok (with_lower_BP st (with_heap_min (lower_BP st) (snd c)),
           improve_min None (fst (fst c)) (snd (fst c)) LowerInitial)
     else Ok (st, None)) = Ok (st1, cur1) /\
    sweep_inv n j st1 /\
    (candidates_min st1 <= candidates_min st)%nat /\
    candidate_there heap_min st1 cur1 /\
    (cur1 = None \/ exists v k, cur1 = Some (v, k, LowerInitial)).
Proof.
  intros [Il Iu Ilb Iub].
  destruct (0 <? num_lower_breakpoints_heap st)%nat eqn:E.
  - apply Nat.ltb_lt in E.
    destruct (bp_first_live_min _ _ _ Ilb E) as (c & h' & F). rewrite F.
    cbn [bind fst snd].
    destruct (bp_clean_min _ _ _ _ _ Ilb F) as (Ilb' & Hlen & t & -> & Hc).
    destruct c as [v k].
    eexists _, _. split; [reflexivity|]. split; [|split; [|split]].
    + constructor; assumption.
    + unfold candidates_min, lower_opt_multiplier_deque, upper_opt_multiplier_deque,
        with_lower_BP, with_heap_min. cbn. cbn in Hlen. lia.
    + cbn. exists v, t. split; [reflexivity | exact Hc].
    + right. cbn. eauto.
  - eexists _, _. split; [reflexivity|]. split; [|split; [|split]].
    + constructor; assumption.
    + lia.
    + exact I.
    + now left.
Qed.

Lemma upper_heap_min_stage st cur :
  sweep_inv n j st ->
  exists st1 cur1,
    (if (0 <? num_upper_breakpoints_heap st)%nat then
       c <- first_live (Removed_BP (upper_BP st)) (heap_min (upper_BP st)) ;;
       Ok (with_upper_BP st (with_heap_min (upper_BP st) (snd c)),
           improve_min cur (fst (fst c)) (snd (fst c)) UpperInitial)
     else Ok (st, cur)) = Ok (st1, cur1) /\
    sweep_inv n j st1 /\
    (candidates_min st1 <= candidates_min st)%nat /\
    lower_BP st1 = lower_BP st /\ lower st1 = lower st /\ upper st1 = upper st /\
    (cur1 = cur \/
     exists v k t, cur1 = Some (v, k, UpperInitial) /\
       heap_min (upper_BP st1) = (v, k) :: t /\
       nth k (Removed_BP (upper_BP st1)) false = false).
Proof.
  intros [Il Iu Ilb Iub].
  destruct (0 <? num_upper_breakpoints_heap st)%nat eqn:E.
  - apply Nat.ltb_lt in E.
    destruct (bp_first_live_min _ _ _ Iub E) as (c & h' & F). rewrite F.
    cbn [bind fst snd].
    destruct (bp_clean_min _ _ _ _ _ Iub F) as (Iub' & Hlen & t & -> & Hc).
    destruct c as [v k].
    eexists _, _. split; [reflexivity|]. split; [|split; [|split; [|split; [|split]]]];
      try reflexivity.
    + constructor; assumption.
    + unfold candidates_min, lower_opt_multiplier_deque, upper_opt_multiplier_deque,
        with_upper_BP, with_heap_min. cbn. cbn in Hlen. lia.
    + cbn [fst snd]. destruct (improve_min_cases cur v k UpperInitial) as [->| ->];
        [right | now left].
      exists v, k, t. repeat split. exact Hc.
  - eexists _, _. split; [reflexivity|]. split; [|split; [|split; [|split; [|split]]]];
      try reflexivity; try lia.
    + constructor; assumption.
    + now left.
Qed.

Lemma lower_heap_max_stage st :
  sweep_inv n j st ->
  exists st1 cur1,
    (if (0 <? num_lower_breakpoints_heap st)%nat then
       c <- first_live (Removed_BP (lower_BP st)) (heap_max (lower_BP st)) ;;
       Ok (with_lower_BP st (with_heap_max (lower_BP st) (snd c)),
           improve_max None (- fst (fst c)) (snd (fst c)) LowerInitial)
     else Ok (st, None)) = Ok (st1, cur1) /\
    sweep_inv n j st1 /\
    (candidates_max st1 <= candidates_max st)%nat /\
    candidate_there heap_max st1 cur1 /\
    (cur1 = None \/ exists v k, cur1 = Some (v, k, LowerInitial)).
Proof.
  intros [Il Iu Ilb Iub].
  destruct (0 <? num_lower_breakpoints_heap st)%nat eqn:E.
  - apply Nat.ltb_lt in E.
    destruct (bp_first_live_max _ _ _ Ilb E) as (c & h' & F). rewrite F.
    cbn [bind fst snd].
    destruct (bp_clean_max _ _ _ _ _ Ilb F) as (Ilb' & Hlen & t & -> & Hc).
    destruct c as [v k].
    eexists _, _. split; [reflexivity|]. split; [|split; [|split]].
    + constructor; assumption.
    + unfold candidates_max, lower_opt_multiplier_deque, upper_opt_multiplier_deque,
        with_lower_BP, with_heap_max. cbn. cbn in Hlen. lia.
    + cbn. exists v, t. split; [reflexivity | exact Hc].
    + right. cbn. eauto.
  - eexists _, _. split; [reflexivity|]. split; [|split; [|split]].
    + constructor; assumption.
    + lia.
    + exact I.
    + now left.
Qed.

Lemma upper_heap_max_stage st cur :
  sweep_inv n j st ->
  exists st1 cur1,
    (if (0 <? num_upper_breakpoints_heap st)%nat then
       c <- first_live (Removed_BP (upper_BP st)) (heap_max (upper_BP st)) ;;
       Ok (with_upper_BP st (with_heap_max (upper_BP st) (snd c)),
           improve_max cur (- fst (fst c)) (snd (fst c)) UpperInitial)
     else Ok (st, cur)) = Ok (st1, cur1) /\
    sweep_inv n j st1 /\
    (candidates_max st1 <= candidates_max st)%nat /\
    lower_BP st1 = lower_BP st /\ lower st1 = lower st /\ upper st1 = upper st /\
    (cur1 = cur \/
     exists v k t w, cur1 = Some (v, k, UpperInitial) /\
       heap_max (upper_BP st1) = (w, k) :: t /\
       nth k (Removed_BP (upper_BP st1)) false = false).
Proof.
  intros [Il Iu Ilb Iub].
  destruct (0 <? num_upper_breakpoints_heap st)%nat eqn:E.
  - apply Nat.ltb_lt in E.
    destruct (bp_first_live_max _ _ _ Iub E) as (c & h' & F). rewrite F.
    cbn [bind fst snd].
    destruct (bp_clean_max _ _ _ _ _ Iub F) as (Iub' & Hlen & t & -> & Hc).
    destruct c as [v k].
    eexists _, _. split; [reflexivity|]. split; [|split; [|split; [|split; [|split]]]];
      try reflexivity.
    + constructor; assumption.
    + unfold candidates_max, lower_opt_multiplier_deque, upper_opt_multiplier_deque,
        with_upper_BP, with_heap_max. cbn. cbn in Hlen. lia.
    + cbn [fst snd]. destruct (improve_max_cases cur (- v) k UpperInitial) as [->| ->];
        [right | now left].
      exists (- v), k, t, v. repeat split. exact Hc.
  - eexists _, _. split; [reflexivity|]. split; [|split; [|split; [|split; [|split]]]];
      try reflexivity; try lia.
    + constructor; assumption.
    + now left.
Qed.

End Candidates.

Lemma side_nonempty sd :
  side_inv sd -> (0 <? num_opt_multiplier_deque sd)%nat = true ->
  opt_multiplier_deque sd <> [] /\
  (0 < length (opt_multiplier_deque sd))%nat /\
  (num_opt_multiplier_deque sd - 1 < length (opt_multiplier_deque sd))%nat.
Proof.
  unfold side_inv. intros H E. apply Nat.ltb_lt in E. rewrite H in *.
  destruct (opt_multiplier_deque sd); [simpl in E; lia|].
  repeat split; simpl; try lia. discriminate.
Qed.

Lemma lower_candidates_spec n j st :
  sweep_inv n j st ->
  exists st' cur,
    lower_candidates st = Ok (st', cur) /\
    sweep_inv n j st' /\
    (candidates_min st' <= candidates_min st)%nat /\
    candidate_there heap_min st' cur.
Proof.
  intros I0. unfold lower_candidates.
  destruct (lower_heap_min_stage n j st I0) as (st1 & cur1 & -> & I1 & M1 & T1 & C1).
  cbn [bind]. cbv beta iota zeta.
  destruct (upper_heap_min_stage n j st1 cur1 I1)
    as (st2 & cur2 & -> & I2 & M2 & Elb & El & Eu & C2).
  cbn [bind]. cbv beta iota zeta.
  assert (T2 : candidate_there heap_min st2 cur2).
  { destruct C2 as [->|(v & k & t & -> & Eh & Hk)].
    - destruct C1 as [->|(v & k & ->)]; [exact I|].
      cbn in T1 |- *. rewrite Elb. exact T1.
    - cbn. eauto. }
  destruct I2 as [Il Iu Ilb Iub].
  unfold num_lower_opt_multiplier_deque, num_upper_opt_multiplier_deque,
    lower_opt_multiplier_deque, upper_opt_multiplier_deque.
  assert (exists cur3,
    (if (0 <? num_opt_multiplier_deque (lower st2))%nat then
       k <- get_index (opt_multiplier_deque (lower st2)) 0 ;;
       Ok (improve_min cur2 (nth k (lower_opt_multiplier st2) 0) k LowerMultiplier)
     else Ok cur2) = Ok cur3 /\ candidate_there heap_min st2 cur3)
    as (cur3 & -> & T3).
  { destruct (0 <? num_opt_multiplier_deque (lower st2))%nat eqn:E; [|eauto].
    destruct (side_nonempty _ Il E) as (Hne & Hlen & _).
    destruct (get_index_Ok _ 0 Hlen) as [k ->]. cbn [bind].
    eexists. split; [reflexivity|].
    destruct (improve_min_cases cur2 (nth k (lower_opt_multiplier st2) 0) k LowerMultiplier)
      as [->| ->]; [exact Hne | exact T2]. }
  cbn [bind].
  assert (exists cur4,
    (if (0 <? num_opt_multiplier_deque (upper st2))%nat then
       k <- get_index (opt_multiplier_deque (upper st2)) 0 ;;
       Ok (improve_min cur3 (nth k (upper_opt_multiplier st2) 0) k UpperMultiplier)
     else Ok cur3) = Ok cur4 /\ candidate_there heap_min st2 cur4)
    as (cur4 & -> & T4).
  { destruct (0 <? num_opt_multiplier_deque (upper st2))%nat eqn:E; [|eauto].
    destruct (side_nonempty _ Iu E) as (Hne & Hlen & _).
    destruct (get_index_Ok _ 0 Hlen) as [k ->]. cbn [bind].
    eexists. split; [reflexivity|].
    destruct (improve_min_cases cur3 (nth k (upper_opt_multiplier st2) 0) k UpperMultiplier)
      as [->| ->]; [exact Hne | exact T3]. }
  cbn [bind].
  exists st2, cur4. split; [reflexivity|]. split; [constructor; assumption|].
  split; [lia | exact T4].
Qed.

Lemma upper_candidates_spec n j st :
  sweep_inv n j st ->
  exists st' cur,
    upper_candidates st = Ok (st', cur) /\
    sweep_inv n j st' /\
    (candidates_max st' <= candidates_max st)%nat /\
    candidate_there heap_max st' cur.
Proof.
  intros I0. unfold upper_candidates.
  destruct (lower_heap_max_stage n j st I0) as (st1 & cur1 & -> & I1 & M1 & T1 & C1).
  cbn [bind]. cbv beta iota zeta.
  destruct (upper_heap_max_stage n j st1 cur1 I1)
    as (st2 & cur2 & -> & I2 & M2 & Elb & El & Eu & C2).
  cbn [bind]. cbv beta iota zeta.
  assert (T2 : candidate_there heap_max st2 cur2).
  { destruct C2 as [->|(v & k & t & w & -> & Eh & Hk)].
    - destruct C1 as [->|(v & k & ->)]; [exact I|].
      cbn in T1 |- *. rewrite Elb. exact T1.
    - cbn. eauto. }
  destruct I2 as [Il Iu Ilb Iub].
  unfold num_lower_opt_multiplier_deque, num_upper_opt_multiplier_deque,
    lower_opt_multiplier_deque, upper_opt_multiplier_deque.
  assert (exists cur3,
    (if (0 <? num_opt_multiplier_deque (lower st2))%nat then
       k <- get_index (opt_multiplier_deque (lower st2))
              (num_opt_multiplier_deque (lower st2) - 1) ;;
       Ok (improve_max cur2 (nth k (lower_opt_multiplier st2) 0) k LowerMultiplier)
     else Ok cur2) = Ok cur3 /\ candidate_there heap_max st2 cur3)
    as (cur3 & -> & T3).
  { destruct (0 <? num_opt_multiplier_deque (lower st2))%nat eqn:E; [|eauto].
    destruct (side_nonempty _ Il E) as (Hne & _ & Hlen).
    destruct (get_index_Ok _ _ Hlen) as [k ->]. cbn [bind].
    eexists. split; [reflexivity|].
    destruct (improve_max_cases cur2 (nth k (lower_opt_multiplier st2) 0) k LowerMultiplier)
      as [->| ->]; [exact Hne | exact T2]. }
  cbn [bind].
  assert (exists cur4,
    (if (0 <? num_opt_multiplier_deque (upper st2))%nat then
       k <- get_index (opt_multiplier_deque (upper st2))
              (num_opt_multiplier_deque (upper st2) - 1) ;;
       Ok (improve_max cur3 (nth k (upper_opt_multiplier st2) 0) k UpperMultiplier)
     else Ok cur3) = Ok cur4 /\ candidate_there heap_max st2 cur4)
    as (cur4 & -> & T4).
  { destruct (0 <? num_opt_multiplier_deque (upper st2))%nat eqn:E; [|eauto].
    destruct (side_nonempty _ Iu E) as (Hne & _ & Hlen).
    destruct (get_index_Ok _ _ Hlen) as [k ->]. cbn [bind].
    eexists. split; [reflexivity|].
    destruct (improve_max_cases cur3 (nth k (upper_opt_multiplier st2) 0) k UpperMultiplier)
      as [->| ->]; [exact Hne | exact T3]. }
  cbn [bind].
  exists st2, cur4. split; [reflexivity|]. split; [constructor; assumption|].
  split; [lia | exact T4].
Qed.

Lemma removelast_length (d : list nat) :
  length (removelast d) = pred (length d).
Proof.
  induction d as [|x [|y t] IH]; try reflexivity.
  cbn [removelast length] in *. now rewrite IH.
Qed.

Lemma side_inv_close front j m fx fr sd :
  side_inv sd -> side_inv (close_side front j m fx fr sd).
Proof.
  unfold side_inv, close_side. cbn. intros ->.
  destruct front; [reflexivity|]. rewrite length_app. simpl. lia.
Qed.

Section Pass.

Variables (a l u : list Q) (n j : nat).

Lemma lower_pass_spec st fx fr c k ty :
  sweep_inv n j st ->
  candidate_there heap_min st (Some (c, k, ty)) ->
  exists st' q,
    lower_pass a l u st fx fr c k ty = Ok (st', q) /\
    sweep_inv n j st' /\ (candidates_min st' < candidates_min st)%nat.
Proof.
  intros [Il Iu Ilb Iub] T. unfold lower_pass. destruct ty; cbn in T.
  - destruct T as (v & t & Eh & Hk).
    destruct (bp_remove_min _ _ _ _ _ _ Ilb Eh Hk) as (b' & -> & Ib' & Emin & Emax).
    cbn [bind]. eexists _, _. split; [reflexivity|]. split.
    + constructor; assumption.
    + unfold candidates_min, lower_opt_multiplier_deque, upper_opt_multiplier_deque,
        with_lower_BP. cbn. rewrite Emin, Eh. simpl. lia.
  - destruct T as (v & t & Eh & Hk).
    destruct (bp_remove_min _ _ _ _ _ _ Iub Eh Hk) as (b' & -> & Ib' & Emin & Emax).
    cbn [bind]. eexists _, _. split; [reflexivity|]. split.
    + constructor; assumption.
    + unfold candidates_min, lower_opt_multiplier_deque, upper_opt_multiplier_deque,
        with_upper_BP. cbn. rewrite Emin, Eh. simpl. lia.
  - unfold lower_opt_multiplier_deque in *.
    destruct (opt_multiplier_deque (lower st)) as [|x d] eqn:Ed; [congruence|].
    cbn [popleft bind]. eexists _, _. split; [reflexivity|]. split.
    + constructor; try assumption.
      unfold side_inv, with_deque, with_lower, with_upper,
        num_lower_opt_multiplier_deque in *.
      cbn [lower upper num_opt_multiplier_deque opt_multiplier_deque].
      rewrite Il, Ed. reflexivity.
    + unfold candidates_min, lower_opt_multiplier_deque, upper_opt_multiplier_deque,
        with_lower, with_deque. cbn. rewrite Ed. simpl. lia.
  - unfold upper_opt_multiplier_deque in *.
    destruct (opt_multiplier_deque (upper st)) as [|x d] eqn:Ed; [congruence|].
    cbn [popleft bind]. eexists _, _. split; [reflexivity|]. split.
    + constructor; try assumption.
      unfold side_inv, with_deque, with_lower, with_upper,
        num_upper_opt_multiplier_deque in *.
      cbn [lower upper num_opt_multiplier_deque opt_multiplier_deque].
      rewrite Iu, Ed. reflexivity.
    + unfold candidates_min, lower_opt_multiplier_deque, upper_opt_multiplier_deque,
        with_upper, with_deque. cbn. rewrite Ed. simpl. lia.
Qed.

Lemma upper_pass_spec st fx fr c k ty :
  sweep_inv n j st ->
  candidate_there heap_max st (Some (c, k, ty)) ->
  exists st' q,
    upper_pass a l u st fx fr c k ty = Ok (st', q) /\
    sweep_inv n j st' /\ (candidates_max st' < candidates_max st)%nat.
Proof.
  intros [Il Iu Ilb Iub] T. unfold upper_pass. destruct ty; cbn in T.
  - destruct T as (v & t & Eh & Hk).
    destruct (bp_remove_max _ _ _ _ _ _ Ilb Eh Hk) as (b' & -> & Ib' & Emax & Emin).
    cbn [bind]. eexists _, _. split; [reflexivity|]. split.
    + constructor; assumption.
    + unfold candidates_max, lower_opt_multiplier_deque, upper_opt_multiplier_deque,
        with_lower_BP. cbn. rewrite Emax, Eh. simpl. lia.
  - destruct T as (v & t & Eh & Hk).
    destruct (bp_remove_max _ _ _ _ _ _ Iub Eh Hk) as (b' & -> & Ib' & Emax & Emin).
    cbn [bind]. eexists _, _. split; [reflexivity|]. split.
    + constructor; assumption.
    + unfold candidates_max, lower_opt_multiplier_deque, upper_opt_multiplier_deque,
        with_upper_BP. cbn. rewrite Emax, Eh. simpl. lia.
  - unfold lower_opt_multiplier_deque in *.
    destruct (opt_multiplier_deque (lower st)) as [|x d] eqn:Ed; [congruence|].
    cbn [pop bind]. eexists _, _. split; [reflexivity|]. split.
    + constructor; try assumption.
      unfold side_inv, with_deque, with_lower, with_upper,
        num_lower_opt_multiplier_deque in *.
      cbn [lower upper num_opt_multiplier_deque opt_multiplier_deque].
      rewrite Il, Ed, removelast_length. reflexivity.
    + unfold candidates_max, lower_opt_multiplier_deque, upper_opt_multiplier_deque,
        with_lower, with_deque.
      cbn [lower upper lower_BP upper_BP opt_multiplier_deque].
      rewrite Ed, removelast_length. simpl. lia.
  - unfold upper_opt_multiplier_deque in *.
    destruct (opt_multiplier_deque (upper st)) as [|x d] eqn:Ed; [congruence|].
    cbn [pop bind]. eexists _, _. split; [reflexivity|]. split.
    + constructor; try assumption.
      unfold side_inv, with_deque, with_lower, with_upper,
        num_upper_opt_multiplier_deque in *.
      cbn [lower upper num_opt_multiplier_deque opt_multiplier_deque].
      rewrite Iu, Ed, removelast_length. reflexivity.
    + unfold candidates_max, lower_opt_multiplier_deque, upper_opt_multiplier_deque,
        with_upper, with_deque.
      cbn [lower upper lower_BP upper_BP opt_multiplier_deque].
      rewrite Ed, removelast_length. simpl. lia.
Qed.

End Pass.

Section Search.

Variables (a l u L U : list Q) (n J : nat).

Lemma lower_close_outcome j st fx fr :
  sweep_inv n J st ->
  returns_unless_zero_division (sweep_inv n J) (lower_close L j st fx fr).
Proof.
  intros [Il Iu Ilb Iub]. unfold lower_close, div.
  destruct (Qeq_bool fr 0); [exact I|]. cbn.
  constructor; try assumption. now apply side_inv_close.
Qed.

Lemma upper_close_outcome j st fx fr :
  sweep_inv n J st ->
  returns_unless_zero_division (sweep_inv n J) (upper_close U j st fx fr).
Proof.
  intros [Il Iu Ilb Iub]. unfold upper_close, div.
  destruct (Qeq_bool fr 0); [exact I|]. cbn.
  constructor; try assumption. now apply side_inv_close.
Qed.

(** Every pass of a search that does not close it removes a candidate:
    the search ends. *)
Lemma lower_search_outcome fuel :
  forall j st fx fr,
    sweep_inv n J st -> (candidates_min st < fuel)%nat ->
    returns_unless_zero_division (sweep_inv n J)
      (lower_search a l u L fuel j st fx fr).
Proof.
  induction fuel as [|fuel IH]; intros j st fx fr I0 Hfuel; [lia|].
  cbn [lower_search].
  destruct (lower_candidates_spec n J st I0) as (st1 & cur & -> & I1 & M1 & T1).
  cbn [bind]. cbv beta iota zeta.
  destruct cur as [[[c k] ty]|]; [|now apply lower_close_outcome].
  destruct (Qle_bool _ eps6).
  { cbn. destruct I1 as [Il Iu Ilb Iub]. constructor; try assumption.
    now apply side_inv_close. }
  destruct (Py.ltb _ _); [now apply lower_close_outcome|].
  destruct (lower_pass_spec a l u n J st1 fx fr c k ty I1 T1)
    as (st2 & q & -> & I2 & M2).
  cbn [bind fst snd]. apply IH; [exact I2 | lia].
Qed.

Lemma upper_search_outcome fuel :
  forall j st fx fr,
    sweep_inv n J st -> (candidates_max st < fuel)%nat ->
    returns_unless_zero_division (sweep_inv n J)
      (upper_search a l u U fuel j st fx fr).
Proof.
  induction fuel as [|fuel IH]; intros j st fx fr I0 Hfuel; [lia|].
  cbn [upper_search].
  destruct (upper_candidates_spec n J st I0) as (st1 & cur & -> & I1 & M1 & T1).
  cbn [bind]. cbv beta iota zeta.
  destruct cur as [[[c k] ty]|]; [|now apply upper_close_outcome].
  destruct (Qle_bool _ eps6).
  { cbn. destruct I1 as [Il Iu Ilb Iub]. constructor; try assumption.
    now apply side_inv_close. }
  destruct (Py.ltb _ _); [now apply upper_close_outcome|].
  destruct (upper_pass_spec a l u n J st1 fx fr c k ty I1 T1)
    as (st2 & q & -> & I2 & M2).
  cbn [bind fst snd]. apply IH; [exact I2 | lia].
Qed.

End Search.

Section Step.

Variables (a l u L U lower_breakpoints upper_breakpoints : list Q) (n : nat).

Lemma lower_check_outcome j J st :
  sweep_inv n J st ->
  returns_unless_zero_division (fun p => sweep_inv n J (fst p))
    (lower_check a l u L lower_breakpoints upper_breakpoints j st).
Proof.
  intros [Il Iu Ilb Iub]. unfold lower_check.
  destruct (Qeq_bool _ _).
  { destruct (0 <? num_opt_multiplier_deque (lower st))%nat eqn:E.
    - destruct (side_nonempty _ Il E) as (_ & Hlen & _).
      destruct (get_index_Ok _ 0 Hlen) as [d0 ->]. cbn [bind].
      destruct (if Py.ltb _ _ then _ else _) as [fx fr].
      cbn. constructor; try assumption.
      unfold side_inv in *. cbn.
      destruct (d0 =? j - 1)%nat; [rewrite upd_length|]; exact Il.
    - cbn [bind]. destruct (if Py.ltb _ _ then _ else _) as [fx fr].
      cbn. constructor; try assumption; exact Il. }
  destruct (Py.ltb _ _).
  { unfold div. destruct (Qeq_bool _ 0); [exact I|]. cbn.
    constructor; try assumption. now apply side_inv_close. }
  destruct (0 <? num_opt_multiplier_deque (lower st))%nat eqn:E.
  - destruct (side_nonempty _ Il E) as (Hne & Hlen & _).
    destruct (get_index_Ok _ 0 Hlen) as [d0 ->]. cbn [bind].
    destruct (d0 =? j - 1)%nat.
    + destruct (opt_multiplier_deque (lower st)) as [|x d] eqn:Ed; [congruence|].
      cbn. constructor; try assumption.
      unfold side_inv in *. cbn. rewrite Il, Ed. reflexivity.
    + cbn. constructor; assumption.
  - cbn. constructor; assumption.
Qed.

Lemma upper_check_outcome j J st :
  sweep_inv n J st ->
  returns_unless_zero_division (fun p => sweep_inv n J (fst p))
    (upper_check a l u U lower_breakpoints upper_breakpoints j st).
Proof.
  intros [Il Iu Ilb Iub]. unfold upper_check.
  destruct (Qeq_bool _ _).
  { destruct (0 <? num_opt_multiplier_deque (upper st))%nat eqn:E.
    - destruct (side_nonempty _ Iu E) as (_ & _ & Hlen).
      destruct (get_index_Ok _ _ Hlen) as [d0 ->]. cbn [bind].
      destruct (if Py.ltb _ _ then _ else _) as [fx fr].
      cbn. constructor; try assumption.
      unfold side_inv in *. cbn.
      destruct (d0 =? j - 1)%nat; [rewrite upd_length|]; exact Iu.
    - cbn [bind]. destruct (if Py.ltb _ _ then _ else _) as [fx fr].
      cbn. constructor; try assumption; exact Iu. }
  destruct (Py.ltb _ _).
  { unfold div. destruct (Qeq_bool _ 0); [exact I|]. cbn.
    constructor; try assumption. now apply side_inv_close. }
  destruct (0 <? num_opt_multiplier_deque (upper st))%nat eqn:E.
  - destruct (side_nonempty _ Iu E) as (Hne & _ & Hlen).
    destruct (get_index_Ok _ _ Hlen) as [d0 ->]. cbn [bind].
    destruct (d0 =? j - 1)%nat.
    + destruct (opt_multiplier_deque (upper st)) as [|x d] eqn:Ed; [congruence|].
      cbn [pop bind returns_unless_zero_division fst]. constructor; try assumption.
      unfold side_inv, with_upper, with_deque in *.
      cbn [upper num_opt_multiplier_deque opt_multiplier_deque].
      rewrite Iu, Ed, removelast_length. reflexivity.
    + cbn. constructor; assumption.
  - cbn. constructor; assumption.
Qed.

Lemma add_breakpoints_inv j fl fu st :
  (j < n)%nat -> sweep_inv n j st ->
  sweep_inv n (S j)
    (add_breakpoints lower_breakpoints upper_breakpoints j fl fu st).
Proof.
  intros Hj [Il Iu Ilb Iub]. unfold add_breakpoints. cbv zeta.
  destruct (_ && _); destruct (_ && _); constructor; cbn;
    auto using bp_add, bp_next.
Qed.

Lemma sweep_step_outcome j st :
  (j < n)%nat -> sweep_inv n j st ->
  returns_unless_zero_division (sweep_inv n (S j))
    (sweep_step a l u L U lower_breakpoints upper_breakpoints j st).
Proof.
  intros Hj I0. unfold sweep_step.
  apply (bind_unless_zero_division (fun p => sweep_inv n j (fst p)));
    [now apply lower_check_outcome|].
  intros [st1 lower_help] I1. cbn [fst] in I1.
  apply (bind_unless_zero_division (fun p => sweep_inv n j (fst p)));
    [now apply upper_check_outcome|].
  intros [st2 upper_help] I2. cbn [fst] in I2. cbv zeta.
  pose proof (add_breakpoints_inv j
                match lower_help with Some _ => true | None => false end
                match upper_help with Some _ => true | None => false end
                st2 Hj I2) as I3.
  set (st3 := add_breakpoints _ _ _ _ _ _) in *.
  apply (bind_unless_zero_division (sweep_inv n (S j))).
  - destruct lower_help as [help|]; [|exact I3].
    unfold lower_problem. destruct (if Py.ltb _ _ then _ else _) as [fx fr].
    apply lower_search_outcome; [exact I3|].
    unfold lower_search_fuel, candidates_min. lia.
  - intros st4 I4. destruct upper_help as [help|]; [|exact I4].
    unfold upper_problem. destruct (if Py.ltb _ _ then _ else _) as [fx fr].
    apply upper_search_outcome; [exact I4|].
    unfold upper_search_fuel, candidates_max. lia.
Qed.

Lemma sweep_outcome k :
  forall j st,
    (j + k <= n)%nat -> sweep_inv n j st ->
    returns_unless_zero_division (sweep_inv n (j + k))
      (sweep a l u L U lower_breakpoints upper_breakpoints (seq j k) st).
Proof.
  induction k as [|k IH]; intros j st Hk I0; cbn [seq sweep].
  - rewrite Nat.add_0_r. exact I0.
  - apply (bind_unless_zero_division (sweep_inv n (S j)));
      [apply sweep_step_outcome; [lia | exact I0]|].
    intros st' I'. replace (j + S k)%nat with (S j + k)%nat by lia.
    apply IH; [lia | exact I'].
Qed.

Lemma no_breakpoints_inv :
  (1 <= n)%nat ->
  bp_inv n 1 {| heap_min := []; heap_max := []; num_breakpoints_heap := 0;
                Removed_BP := repeat false n |}.
Proof.
  intros Hn. constructor; cbn [heap_min heap_max num_breakpoints_heap Removed_BP map];
    try constructor; try reflexivity; try tauto; try exact Hn.
  - apply repeat_length.
  - intros k _. apply nth_repeat.
Qed.

Lemma sweep_init_inv lower0 upper0 :
  (1 <= n)%nat -> sweep_inv n 1 (sweep_init a n lower0 upper0).
Proof.
  intros Hn. unfold sweep_init.
  constructor; cbn [lower upper lower_BP upper_BP];
    try reflexivity; now apply no_breakpoints_inv.
Qed.

End Step.

Lemma backward_length a l u num_var st :
  length (opt_lower (backward a l u num_var st)) = num_var.
Proof.
  unfold backward.
  assert (H : forall js b,
             length (opt_lower b) = num_var ->
             length (opt_lower (fold_left (backward_step a l u st) js b)) = num_var).
  { induction js as [|j js IH]; intros b Hb; [exact Hb|].
    cbn [fold_left]. apply IH. unfold backward_step. cbn [opt_lower].
    now rewrite upd_length. }
  apply H. unfold backward_init. cbn [opt_lower].
  rewrite upd_length. apply repeat_length.
Qed.

Lemma solution_length a l u L U num_var st :
  length (solution a L U num_var (backward a l u num_var st)) = num_var.
Proof.
  unfold solution. destruct (Qeq_bool _ _).
  - apply backward_length.
  - now rewrite length_map, length_seq.
Qed.

(** X13.  For lists of one length [n >= 1] and non-zero coefficients,
    [QRAP_NC_seq] returns a vector of length [n] or ends in a division
    by zero, the one of a breakpoint search closed with a zero
    [free_help]: no index is out of range, no heap or deque is read
    when it is empty, and every search loop ends. *)
Theorem QRAP_NC_seq_outcome (a l u L U : list Q) :
  a <> [] ->
  Forall nonzero a ->
  length l = length a -> length u = length a ->
  length L = length a -> length U = length a ->
  returns_unless_zero_division (fun x => length x = length a)
    (fst (QRAP_NC_seq (instance a l u L U))).
Proof.
  intros Hne Ha Hl Hu HL HU.
  assert (Hn : (1 <= length a)%nat) by (destruct a; [congruence | simpl; lia]).
  unfold QRAP_NC_seq. rewrite (tighten_run a l u L U) by assumption.
  cbn [fst]. unfold seq_solve.
  cbn [instance objective_par lower_bound upper_bound lower_nested upper_nested].
  rewrite !breakpoints_Ok by (rewrite ?upd_length; auto; lia).
  cbn [bind].
  rewrite !get_Ok by (rewrite length_map, length_seq; lia).
  cbn [bind].
  eapply bind_unless_zero_division.
  - apply (sweep_outcome _ _ _ _ _ _ _ (length a) (length a - 1) 1); [lia|].
    now apply sweep_init_inv.
  - intros st _. cbn. apply solution_length.
Qed.

Lemma QRAP_NC_seq_outcome_witness :
  returns_unless_zero_division (fun x => length x = length [1; 1])
    (fst (QRAP_NC_seq (instance [1; 1] [0; 1] [10; 10] [2; 4] [5; 20]))).
Proof.
  apply (QRAP_NC_seq_outcome [1; 1] [0; 1] [10; 10] [2; 4] [5; 20]);
    first [discriminate | reflexivity | repeat constructor; discriminate].
Defined.

(** ** The accuracy of [QRAP_median] *)

Lemma clip_mono lo hi x y : x <= y -> clip lo hi x <= clip lo hi y.
Proof.
  intros H. unfold clip, Py.min. repeat cmp; unfold Py.max; repeat cmp; lra.
Qed.

Lemma total_sub f g js :
  total (fun j => f j - g j) js == total f js - total g js.
Proof. induction js as [|j js IH]; simpl; [lra | rewrite IH; lra]. Qed.

Lemma total_term_le f js k :
  (forall j, In j js -> 0 <= f j) -> In k js -> f k <= total f js.
Proof.
  induction js as [|j js IH]; intros Hpos Hin; [destruct Hin|].
  simpl. pose proof (Hpos j (or_introl eq_refl)) as Hj.
  assert (Hrest : 0 <= total f js).
  { clear IH Hin. induction js as [|i js IH']; simpl; [lra|].
    pose proof (Hpos i (or_intror (or_introl eq_refl))).
    assert (0 <= total f js).
    { apply IH'. intros i' [->|Hi']; apply Hpos; [now left | right; now right]. }
    lra. }
  destruct Hin as [->|Hin]; [lra|].
  assert (f k <= total f js).
  { apply IH; [|exact Hin]. intros i Hi. apply Hpos. now right. }
  lra.
Qed.

(** Two vectors clipped at two multipliers differ, in every entry, by
    no more than their sums do. *)
Lemma clipped_close a l u m1 m2 :
  Forall (fun aj => 0 < aj) a -> m1 <= m2 ->
  forall j, (j < length a)%nat ->
    0 <= nth j (clipped a l u m2) 0 - nth j (clipped a l u m1) 0
    /\ nth j (clipped a l u m2) 0 - nth j (clipped a l u m1) 0
       <= Py.sum (clipped a l u m2) - Py.sum (clipped a l u m1).
Proof.
  intros Ha Hm j Hj.
  assert (Hmono : forall i, In i (seq 0 (length a)) ->
            0 <= value a l u m2 i - value a l u m1 i).
  { intros i Hi. apply in_seq in Hi. unfold value.
    pose proof (nth_positive a i Ha ltac:(lia)) as Hai.
    pose proof (clip_mono (nth i l 0) (nth i u 0) (nth i a 0 * m1) (nth i a 0 * m2)) as H.
    assert (nth i a 0 * m1 <= nth i a 0 * m2).
    { apply Qmult_le_l; assumption. }
    specialize (H ltac:(assumption)). lra. }
  rewrite !clipped_nth by exact Hj.
  assert (Hs : forall m, Py.sum (clipped a l u m) == value_sum a l u m).
  { intros m. unfold clipped. apply sum_map_total. }
  rewrite !Hs. unfold value_sum. rewrite <- total_sub.
  assert (Hin : In j (seq 0 (length a))) by (apply in_seq; lia).
  split.
  - apply (Hmono j Hin).
  - apply (total_term_le (fun i => value a l u m2 i - value a l u m1 i) _ j Hmono Hin).
Qed.

(** X5.  For data of moderate size and a resource value between
    [sum l] and [sum u], every entry of the vector [QRAP_median] returns
    is within [10^-6] of the corresponding entry of any clipped vector
    [max(l_j, min(u_j, a_j*m))] whose sum is exactly [R]. *)
Theorem QRAP_median_accuracy (a l u : list Q) (R : Q) :
  a <> [] ->
  Forall (fun aj => 0 < aj) a ->
  length l = length a ->
  Forall2 Qle l u ->
  moderate a [l; u] ->
  Py.sum l <= R <= Py.sum u ->
  exists x,
    QRAP_median a l u R = Ok x /\
    forall m, Py.sum (clipped a l u m) == R ->
      forall j, (j < length a)%nat ->
        Qabs (nth j x 0 - nth j (clipped a l u m) 0) <= eps6.
Proof.
  intros Hne Ha Hl Hlu _ [HlR HRu].
  destruct (QRAP_median_sum a l u R Hne Ha Hl Hlu HlR) as (m0 & Hm0 & Hsum).
  exists (clipped a l u m0). split; [exact Hm0|].
  assert (H6 : 0 < eps6) by reflexivity.
  assert (Hres : Qabs (Py.sum (clipped a l u m0) - R) <= eps6).
  { destruct Hsum as [H|[E1 E2]]; [exact H|].
    apply Qabs_Qle_condition. split; lra. }
  apply Qabs_Qle_condition in Hres.
  intros m Hm j Hj. apply Qabs_Qle_condition.
  destruct (Qlt_le_dec m m0) as [Hlt|Hle].
  - destruct (clipped_close a l u m m0 Ha (Qlt_le_weak _ _ Hlt) j Hj) as [H1 H2].
    split; lra.
  - destruct (clipped_close a l u m0 m Ha Hle j Hj) as [H1 H2].
    split; lra.
Qed.

Lemma QRAP_median_accuracy_witness :
  exists x,
    QRAP_median [1; 2] [0; 1] [4; 3] 5 = Ok x /\
    forall j, (j < length [1; 2])%nat ->
      Qabs (nth j x 0 - nth j (clipped [1; 2] [0; 1] [4; 3] 2) 0) <= eps6.
Proof.
  destruct (QRAP_median_accuracy [1; 2] [0; 1] [4; 3] 5) as (x & Hx & Hacc).
  - discriminate.
  - repeat constructor.
  - reflexivity.
  - repeat constructor; discriminate.
  - apply moderate_decided; reflexivity.
  - split; discriminate.
  - exists x. split; [exact Hx|]. apply (Hacc 2). reflexivity.
Defined.

(** ** The exceptions of [QRAP_NC_seq] *)

(** X14.  With no variable [QRAP_NC_seq] ends in an [IndexError], at the
    latest when it reads [lower_breakpoints[0]]; with lists of one
    length and a zero coefficient it ends in the [ZeroDivisionError] of
    [lower_bound[j]/objective_par[j]], after the tightening. *)
Theorem QRAP_NC_seq_raises (a l u L U : list Q) :
  (a = [] -> fst (QRAP_NC_seq (instance a l u L U)) = Raise IndexError) /\
  (a <> [] ->
   length l = length a -> length u = length a ->
   length L = length a -> length U = length a ->
   (exists j, (j < length a)%nat /\ nth j a 0 == 0) ->
   fst (QRAP_NC_seq (instance a l u L U)) = Raise ZeroDivisionError).
Proof.
  split.
  - intros ->. destruct L, l, U, u; reflexivity.
  - intros Hne Hl Hu HL HU (j & Hj & E).
    unfold QRAP_NC_seq. rewrite (tighten_run a l u L U) by assumption.
    cbn [fst]. unfold seq_solve.
    cbn [instance objective_par lower_bound upper_bound lower_nested upper_nested].
    pose proof (breakpoints_outcome a
                  (upd l 0 (Py.max (Py.max (nth 0 L 0) (nth 0 l 0)) (nth 0 l 0)))) as H.
    destruct (breakpoints a _) as [bs|[]|]; try contradiction; try reflexivity.
    + exfalso. destruct H as [_ Hnz]. rewrite Forall_forall in Hnz.
      apply (Hnz (nth j a 0)); [apply nth_In; exact Hj | exact E].
    + rewrite upd_length in H. lia.
Qed.

Lemma QRAP_NC_seq_raises_witness :
  fst (QRAP_NC_seq (instance [] [0] [1] [0] [1])) = Raise IndexError /\
  fst (QRAP_NC_seq (instance [1; 0] [0; 0] [1; 1] [0; 0] [1; 2])) = Raise ZeroDivisionError.
Proof.
  split.
  - apply (QRAP_NC_seq_raises [] [0] [1] [0] [1]). reflexivity.
  - apply (QRAP_NC_seq_raises [1; 0] [0; 0] [1; 1] [0; 0] [1; 2]);
      try reflexivity; try discriminate.
    exists 1%nat. split; [simpl; lia | reflexivity].
Defined.

(** ** The entries [MDA] writes *)

Lemma returns_unless_nonfinite_and {A : Type} (P Q : A -> Prop) (r : result A) :
  returns_unless_nonfinite P r -> returns_unless_nonfinite Q r ->
  returns_unless_nonfinite (fun x => P x /\ Q x) r.
Proof. destruct r as [x|[]|]; simpl; auto. Qed.

Lemma returns_unless_nonfinite_impl {A : Type} (P Q : A -> Prop) (r : result A) :
  returns_unless_nonfinite P r -> (forall x, P x -> Q x) ->
  returns_unless_nonfinite Q r.
Proof. destruct r as [x|[]|]; simpl; auto. Qed.

Lemma writes_within_refl start end_index t : writes_within start end_index t t.
Proof. intros s0 s1 k _. reflexivity. Qed.

Lemma writes_within_trans start end_index s e s' e' t1 t2 t3 :
  (start <= s)%nat -> (e <= end_index)%nat ->
  (start <= s')%nat -> (e' <= end_index)%nat ->
  writes_within s e t1 t2 -> writes_within s' e' t2 t3 ->
  writes_within start end_index t1 t3.
Proof.
  intros H1 H2 H3 H4 W1 W2 s0 s1 k Hk.
  rewrite (W2 s0 s1 k) by lia. apply W1. lia.
Qed.

Lemma writes_within_assign n t s0 s1 i j ys :
  rows n t -> (i <= j <= n)%nat -> length ys = (j - i)%nat -> (i < j)%nat ->
  writes_within i (j - 1) t (table_assign t s0 s1 i j ys).
Proof.
  intros Ht Hij Hys Hlt b0 b1 k Hk. unfold table_assign, row_set.
  destruct (Bool.eqb b0 s0 && Bool.eqb b1 s1) eqn:E; [|reflexivity].
  apply andb_true_iff in E as [E0 E1].
  apply Bool.eqb_prop in E0, E1. subst b0 b1.
  unfold slice_assign. pose proof (Ht s0 s1) as Hlen.
  destruct Hk as [Hk|Hk].
  - rewrite app_nth1 by (rewrite length_firstn; lia).
    rewrite nth_firstn.
    destruct (k <? i)%nat eqn:E; [reflexivity | apply Nat.ltb_ge in E; lia].
  - rewrite app_nth2 by (rewrite length_firstn; lia).
    rewrite app_nth2 by (rewrite length_firstn; lia).
    rewrite length_firstn, Nat.min_l, Hys, nth_skipn by lia.
    f_equal. lia.
Qed.

Section DecompositionFrame.

Variables (a l u L U : list Q).

Let n := length a.

Hypothesis a_nonzero : Forall nonzero a.
Hypothesis l_length : (n <= length l)%nat.
Hypothesis u_length : (n <= length u)%nat.
Hypothesis L_length : (n <= length L)%nat.
Hypothesis U_length : (n <= length U)%nat.

#[local] Abbreviation kept start end_index t :=
  (fun t' => rows n t' /\ writes_within start end_index t t').

Lemma MDA_single_frame start t :
  (start < n)%nat -> rows n t ->
  returns_unless_nonfinite (kept start start t) (MDA_single L U start t).
Proof.
  intros Hs Ht. apply returns_unless_nonfinite_and.
  { now apply (MDA_single_rows a l u L U). }
  unfold MDA_single.
  rewrite (get_Ok L start) by lia. cbn [bind].
  rewrite (get_Ok U start) by lia. cbn [bind].
  assert (Hstep : forall t1 s0 s1 v,
            rows n t1 -> writes_within start start t t1 ->
            rows n (table_assign t1 s0 s1 start (S start) [v]) /\
            writes_within start start t (table_assign t1 s0 s1 start (S start) [v])).
  { intros t1 s0 s1 v H1 W1. split.
    - apply rows_assign; auto; cbn [length]; lia.
    - apply (writes_within_trans start start start start start start t t1);
        auto.
      replace start with (S start - 1)%nat at 2 by lia.
      apply (writes_within_assign n); auto; cbn [length]; lia. }
  destruct start as [|prev].
  - cbn [returns_unless_nonfinite].
    repeat (apply Hstep; try apply proj1; try apply proj2).
    all: try exact Ht; try apply writes_within_refl.
  - rewrite (get_Ok L prev) by lia. cbn [bind].
    rewrite (get_Ok U prev) by lia. cbn [bind returns_unless_nonfinite].
    repeat (apply Hstep; try apply proj1; try apply proj2).
    all: try exact Ht; try apply writes_within_refl.
Qed.

Lemma MDA_subcase_frame start new_index end_index t subcase :
  (start <= end_index < n)%nat -> rows n t ->
  returns_unless_nonfinite (kept start end_index t)
    (MDA_subcase a l u L U start new_index end_index t subcase).
Proof.
  intros H Ht. apply returns_unless_nonfinite_and.
  { now apply (MDA_subcase_rows a l u L U). }
  unfold MDA_subcase. destruct subcase as [s0 s1].
  destruct (alternative_bounds_Ok a l u L U l_length u_length L_length U_length
              start end_index
              (map (entry t s0 false) (seq start (new_index + 1 - start))
               ++ map (entry t true s1) (seq (new_index + 1) (end_index - new_index)))
              (map (entry t s0 true) (seq start (new_index + 1 - start))
               ++ map (entry t false s1) (seq (new_index + 1) (end_index - new_index)))
              H) as (alt & -> & Halt).
  cbn [bind].
  destruct (target_Ok a l u L U l_length u_length L_length U_length
              start end_index s0 s1 H) as (tv & ->). cbn [bind].
  assert (Hw : forall ys, length ys = (end_index + 1 - start)%nat ->
            writes_within start end_index t
              (table_assign t s0 s1 start (end_index + 1) ys)).
  { intros ys Hys. replace end_index with (end_index + 1 - 1)%nat at 1 by lia.
    apply (writes_within_assign n); auto; lia. }
  destruct (Py.ltb tv _).
  { unfold help_sum. destruct (Qeq_bool _ 0); [exact I|].
    cbn [bind returns_unless_nonfinite].
    apply Hw. rewrite length_map, length_seq. lia. }
  destruct (Py.ltb _ tv).
  { unfold help_sum. destruct (Qeq_bool _ 0); [exact I|].
    cbn [bind returns_unless_nonfinite].
    apply Hw. rewrite length_map, length_seq. lia. }
  assert (Hsl : length (slice a start (end_index + 1)) = (end_index + 1 - start)%nat).
  { apply slice_length. fold n. lia. }
  destruct (QRAP_median_Ok (slice a start (end_index + 1))
              (map fst alt) (map snd alt) tv) as [m ->].
  - intros E. rewrite E in Hsl. simpl in Hsl. lia.
  - unfold slice.
    apply (Forall_firstn_skipn _ (end_index + 1 - start)).
    apply (Forall_firstn_skipn _ start). exact a_nonzero.
  - rewrite length_map. lia.
  - rewrite length_map. lia.
  - cbn [bind returns_unless_nonfinite]. apply Hw.
    rewrite clipped_length. lia.
Qed.

Lemma for_subcases_frame start new_index end_index subcases :
  (start <= end_index < n)%nat ->
  forall t, rows n t ->
    returns_unless_nonfinite (kept start end_index t)
      (for_subcases a l u L U start new_index end_index subcases t).
Proof.
  intros H. induction subcases as [|sc rest IH]; intros t Ht; simpl.
  - split; [exact Ht | apply writes_within_refl].
  - apply (bind_unless_nonfinite (kept start end_index t));
      [now apply MDA_subcase_frame|].
    intros t1 [H1 W1].
    apply (returns_unless_nonfinite_impl (kept start end_index t1));
      [exact (IH t1 H1)|].
    intros t2 [H2 W2]. split; [exact H2|].
    apply (writes_within_trans start end_index start end_index start end_index t t1);
      auto.
Qed.

Lemma MDA_frame d :
  forall start end_index t,
    (start <= end_index < n)%nat -> (end_index - start < 2 ^ d)%nat ->
    rows n t ->
    returns_unless_nonfinite (kept start end_index t)
      (MDA a l u L U (S d) start end_index t).
Proof.
  induction d as [|d IH]; intros start end_index t Hle Hsize Ht;
    cbn [MDA]; destruct (start =? end_index)%nat eqn:E.
  - apply Nat.eqb_eq in E. subst end_index.
    apply MDA_single_frame; [lia | exact Ht].
  - apply Nat.eqb_neq in E. simpl in Hsize. lia.
  - apply Nat.eqb_eq in E. subst end_index.
    apply MDA_single_frame; [lia | exact Ht].
  - apply Nat.eqb_neq in E. rewrite Nat.pow_succ_r' in Hsize.
    pose proof (Nat.div_mod_eq (start + end_index) 2) as Hdiv.
    pose proof (Nat.mod_upper_bound (start + end_index) 2 ltac:(lia)) as Hmod.
    set (new_index := ((start + end_index) / 2)%nat) in *.
    apply (bind_unless_nonfinite (kept start new_index t));
      [apply IH; auto; lia|].
    intros t1 HW1. cbv beta in HW1. destruct HW1 as [H1 W1].
    apply (bind_unless_nonfinite (kept start end_index t)).
    + apply (returns_unless_nonfinite_impl (kept (new_index + 1) end_index t1));
        [apply IH; auto; lia|].
      intros t2 [H2 W2]. split; [exact H2|].
      apply (writes_within_trans start end_index start new_index
               (new_index + 1) end_index t t1); auto; lia.
    + intros t2 HW2. cbv beta in HW2. destruct HW2 as [H2 W2].
      apply (returns_unless_nonfinite_impl (kept start end_index t2));
        [apply for_subcases_frame; [lia | exact H2]|].
      intros t3 [H3 W3]. split; [exact H3|].
      apply (writes_within_trans start end_index start end_index
               start end_index t t2); auto.
Qed.

End DecompositionFrame.

(** X16.  A call [MDA(start_index, end_index, result)] writes the entries
    [start_index .. end_index] of the four rows only: what the calls on
    the other ranges have stored stays. *)
Theorem MDA_writes_within (a l u L U : list Q) (d start end_index : nat) (t : table) :
  Forall nonzero a ->
  (length a <= length l)%nat -> (length a <= length u)%nat ->
  (length a <= length L)%nat -> (length a <= length U)%nat ->
  (start <= end_index < length a)%nat -> (end_index - start < 2 ^ d)%nat ->
  rows (length a) t ->
  returns_unless_nonfinite
    (fun t' => rows (length a) t' /\ writes_within start end_index t t')
    (MDA a l u L U (S d) start end_index t).
Proof. intros. now apply MDA_frame. Qed.

Lemma MDA_writes_within_witness :
  returns_unless_nonfinite
    (fun t' => rows (length [1; 1; 1]) t' /\ writes_within 1 2 (zeros 3) t')
    (MDA [1; 1; 1] [0; 0; 0] [5; 5; 5] [1; 2; 15] [9; 9; 15] 2 1 2 (zeros 3)).
Proof.
  apply (MDA_writes_within [1; 1; 1] [0; 0; 0] [5; 5; 5] [1; 2; 15] [9; 9; 15] 1 1 2 (zeros 3)).
  - repeat constructor; discriminate.
  - simpl; lia.
  - simpl; lia.
  - simpl; lia.
  - simpl; lia.
  - simpl; lia.
  - simpl; lia.
  - intros s0 s1. reflexivity.
Defined.

(** ** Two variables in [QRAP_NC_decomposition], with exact arithmetic *)

Lemma alternative_ordered cl cu l u :
  cl <= cu -> l <= u -> alternative_lower cl cu l <= alternative_upper cl cu u.
Proof.
  intros H1 H2. unfold alternative_lower, alternative_upper.
  repeat cmp; lra.
Qed.

Lemma alternative_lower_between cl cu l :
  cl <= cu -> cl <= alternative_lower cl cu l <= cu.
Proof. intros H. unfold alternative_lower. repeat cmp; lra. Qed.

Lemma alternative_upper_between cl cu u :
  cl <= cu -> cl <= alternative_upper cl cu u <= cu.
Proof. intros H. unfold alternative_upper. repeat cmp; lra. Qed.

Lemma total_interpolated (f g : nat -> Q) (h : Q) js :
  total (fun j => f j + h * (g j - f j)) js
  == total f js + h * (total g js - total f js).
Proof. induction js as [|j js IH]; simpl; [lra | rewrite IH; lra]. Qed.

Lemma sum_interpolated (al cl : list Q) (h : Q) len :
  length al = len -> length cl = len ->
  Py.sum (map (fun j => nth j al 0 + h * (nth j cl 0 - nth j al 0)) (seq 0 len))
  == Py.sum al + h * (Py.sum cl - Py.sum al).
Proof.
  intros Ha Hc. rewrite sum_map_total, total_interpolated.
  rewrite (sum_as_total al), (sum_as_total cl), Ha, Hc. reflexivity.
Qed.

Lemma nth_app_map (f g : nat -> Q) s k1 k2 j :
  (j < k1 + k2)%nat ->
  nth j (map f (seq s k1) ++ map g (seq (s + k1) k2)) 0
  = if (j <? k1)%nat then f (s + j)%nat else g (s + j)%nat.
Proof.
  intros Hj. destruct (j <? k1)%nat eqn:E.
  - apply Nat.ltb_lt in E. rewrite app_nth1 by (rewrite length_map, length_seq; lia).
    rewrite (nth_indep _ 0 (f 0%nat)) by (rewrite length_map, length_seq; lia).
    rewrite map_nth, seq_nth by lia. reflexivity.
  - apply Nat.ltb_ge in E. rewrite app_nth2 by (rewrite length_map, length_seq; lia).
    rewrite length_map, length_seq.
    rewrite (nth_indep _ 0 (g 0%nat)) by (rewrite length_map, length_seq; lia).
    rewrite map_nth, seq_nth by lia. f_equal. lia.
Qed.

(** A quotient of two negative numbers, the divisor not nearer to 0. *)
Lemma quotient_unit (p q : Q) :
  q <= p -> p < 0 -> 0 < p / q <= 1.
Proof.
  intros Hqp Hp.
  assert (Hq : q < 0) by lra.
  assert (Hinv : / q < 0).
  { assert (H : 0 < / (- q)) by (apply Qinv_lt_0_compat; lra).
    assert (E : / (- q) == - / q) by (field; lra).
    rewrite E in H. lra. }
  unfold Qdiv. split.
  - assert (H : 0 < (- p) * (- / q)) by (apply Qmult_lt_0_compat; lra).
    assert (E : (- p) * (- / q) == p * / q) by ring. rewrite E in H. exact H.
  - assert (H : 0 <= (p - q) * (- / q)) by (apply Qmult_le_0_compat; lra).
    assert (E : (p - q) * (- / q) == 1 - p * / q) by (field; lra).
    rewrite E in H. lra.
Qed.

Lemma interpolated_between (al cl h : Q) :
  0 < h <= 1 ->
  (cl <= al -> cl <= al + h * (cl - al) <= al) /\
  (al <= cl -> al <= al + h * (cl - al) <= cl).
Proof.
  intros [H0 H1]. split; intros H.
  - assert (A : 0 <= h * (al - cl)) by (apply Qmult_le_0_compat; lra).
    assert (B : 0 <= (1 - h) * (al - cl)) by (apply Qmult_le_0_compat; lra).
    split; lra.
  - assert (A : 0 <= h * (cl - al)) by (apply Qmult_le_0_compat; lra).
    assert (B : 0 <= (1 - h) * (cl - al)) by (apply Qmult_le_0_compat; lra).
    split; lra.
Qed.

(** One merge of [MDA], in exact arithmetic, on sub-solutions that are
    ordered and whose sums bracket the target: no divisor is 0, every
    entry written lies between the two sub-solutions, and the entries
    add up to the target within [10^-6]. *)
Lemma MDA_subcase_merges (a l u L U : list Q)
    (start new_index end_index : nat) (t : table) (s0 s1 : bool) (tv : Q) :
  Forall (fun aj => 0 < aj) a ->
  (length a <= length l)%nat -> (length a <= length u)%nat ->
  (forall j, (j < length a)%nat -> nth j l 0 <= nth j u 0) ->
  (start <= new_index <= end_index)%nat -> (end_index < length a)%nat ->
  let cl := map (entry t s0 false) (seq start (new_index + 1 - start))
            ++ map (entry t true s1) (seq (new_index + 1) (end_index - new_index)) in
  let cu := map (entry t s0 true) (seq start (new_index + 1 - start))
            ++ map (entry t false s1) (seq (new_index + 1) (end_index - new_index)) in
  (forall j, (start <= j <= new_index)%nat ->
     entry t s0 false j <= entry t s0 true j) ->
  (forall j, (new_index < j <= end_index)%nat ->
     entry t true s1 j <= entry t false s1 j) ->
  target L U start end_index s0 s1 = Ok tv ->
  Py.sum cl <= tv <= Py.sum cu ->
  exists x,
    MDA_subcase a l u L U start new_index end_index t (s0, s1)
    = Ok (table_assign t s0 s1 start (end_index + 1) x) /\
    length x = (end_index + 1 - start)%nat /\
    (forall j, (j < end_index + 1 - start)%nat ->
       nth j cl 0 <= nth j x 0 <= nth j cu 0) /\
    Qabs (Py.sum x - tv) <= eps6.
Proof.
  intros Ha Hl Hu Hbox Hnew Hend cl cu Hleft Hright Etv [Hlo Hhi].
  assert (H6 : 0 < eps6) by reflexivity.
  set (len := (end_index + 1 - start)%nat).
  assert (Hcl : length cl = len).
  { unfold cl. rewrite length_app, !length_map, !length_seq. unfold len. lia. }
  assert (Hcu : length cu = len).
  { unfold cu. rewrite length_app, !length_map, !length_seq. unfold len. lia. }
  assert (Hord : forall j, (j < len)%nat -> nth j cl 0 <= nth j cu 0).
  { intros j Hj. unfold cl, cu.
    replace (new_index + 1)%nat with (start + (new_index + 1 - start))%nat at 2 4 by lia.
    rewrite !nth_app_map by (unfold len in Hj; lia).
    destruct (j <? new_index + 1 - start)%nat eqn:E.
    - apply Nat.ltb_lt in E. apply Hleft. lia.
    - apply Nat.ltb_ge in E. apply Hright. unfold len in Hj. lia. }
  unfold MDA_subcase. fold cl cu.
  unfold alternative_bounds.
  rewrite (comprehension_Ok _
             (fun j => (alternative_lower (nth j cl 0) (nth j cu 0)
                          (nth (j + start) l 0),
                        alternative_upper (nth j cl 0) (nth j cu 0)
                          (nth (j + start) u 0))));
    [|intros j Hj; apply in_seq in Hj; rewrite !get_Ok by lia; reflexivity].
  cbn [bind]. fold len.
  set (alt := map _ (seq 0 len)).
  assert (Hal : length (map fst alt) = len).
  { unfold alt. now rewrite !length_map, length_seq. }
  assert (Hau : length (map snd alt) = len).
  { unfold alt. now rewrite !length_map, length_seq. }
  assert (Hfst : forall j, (j < len)%nat ->
            nth j (map fst alt) 0
            = alternative_lower (nth j cl 0) (nth j cu 0) (nth (j + start) l 0)).
  { intros j Hj. unfold alt. rewrite map_map. cbn [fst].
    now rewrite nth_map_seq. }
  assert (Hsnd : forall j, (j < len)%nat ->
            nth j (map snd alt) 0
            = alternative_upper (nth j cl 0) (nth j cu 0) (nth (j + start) u 0)).
  { intros j Hj. unfold alt. rewrite map_map. cbn [snd].
    now rewrite nth_map_seq. }
  assert (Halt : Forall2 Qle (map fst alt) (map snd alt)).
  { apply Forall2_of_nth; [congruence|]. intros j Hj. rewrite Hal in Hj.
    rewrite Hfst, Hsnd by exact Hj.
    apply alternative_ordered; [now apply Hord | apply Hbox; unfold len in Hj; lia]. }
  rewrite Etv. cbn [bind].
  replace (end_index - start + 1)%nat with len by (unfold len; lia).
  cmp.
  { (* the target is below what the box allows *)
    unfold help_sum. cmp.
    { exfalso. lra. }
    cbn [bind]. eexists. split; [reflexivity|].
    set (sl := Py.sum (map fst alt)) in *. set (so := Py.sum cl) in *.
    assert (Hh : 0 < (tv - sl) / (so - sl) <= 1) by (apply quotient_unit; lra).
    split; [now rewrite length_map, length_seq|]. split.
    - intros j Hj. rewrite nth_map_seq by exact Hj.
      rewrite Hfst by exact Hj.
      pose proof (Hord j Hj) as Ho.
      pose proof (alternative_lower_between _ _ (nth (j + start) l 0) Ho) as [B1 B2].
      destruct (interpolated_between
                  (alternative_lower (nth j cl 0) (nth j cu 0) (nth (j + start) l 0))
                  (nth j cl 0) _ Hh) as [I _].
      specialize (I B1). split; lra.
    - rewrite sum_interpolated by assumption. fold sl so.
      apply Qabs_Qle_condition.
      assert (Eq : sl + (tv - sl) / (so - sl) * (so - sl) == tv) by (field; exact E0).
      split; lra. }
  cmp.
  { unfold help_sum. cmp.
    { exfalso. lra. }
    cbn [bind]. eexists. split; [reflexivity|].
    set (su := Py.sum (map snd alt)) in *. set (so := Py.sum cu) in *.
    assert (Hh : 0 < (tv - su) / (so - su) <= 1).
    { assert (E3 : (tv - su) / (so - su) == (su - tv) / (su - so)) by (field; lra).
      rewrite E3. apply quotient_unit; lra. }
    split; [now rewrite length_map, length_seq|]. split.
    - intros j Hj. rewrite nth_map_seq by exact Hj.
      rewrite Hsnd by exact Hj.
      pose proof (Hord j Hj) as Ho.
      pose proof (alternative_upper_between _ _ (nth (j + start) u 0) Ho) as [B1 B2].
      destruct (interpolated_between
                  (alternative_upper (nth j cl 0) (nth j cu 0) (nth (j + start) u 0))
                  (nth j cu 0) _ Hh) as [_ I].
      specialize (I B2). split; lra.
    - rewrite sum_interpolated by assumption. fold su so.
      apply Qabs_Qle_condition.
      assert (Eq : su + (tv - su) / (so - su) * (so - su) == tv) by (field; exact E1).
      split; lra. }
  assert (Hsl : length (slice a start (end_index + 1)) = len).
  { rewrite slice_length by lia. reflexivity. }
  destruct (QRAP_median_sum (slice a start (end_index + 1))
              (map fst alt) (map snd alt) tv) as (m & -> & Hsum).
  - intros Enil. rewrite Enil in Hsl. unfold len in Hsl. simpl in Hsl. lia.
  - unfold slice.
    apply (Forall_firstn_skipn _ (end_index + 1 - start)).
    apply (Forall_firstn_skipn _ start). exact Ha.
  - congruence.
  - exact Halt.
  - exact E.
  - cbn [bind]. eexists. split; [reflexivity|].
    split; [rewrite clipped_length; exact Hsl|]. split.
    + intros j Hj.
      destruct (clipped_box (slice a start (end_index + 1)) (map fst alt) (map snd alt) m)
        as [B1 B2]; [congruence | exact Halt |].
      pose proof (Forall2_nth _ _ _ B1 j) as N1.
      pose proof (Forall2_nth _ _ _ B2 j) as N2.
      rewrite Hal in N1. rewrite clipped_length, Hsl in N2.
      specialize (N1 Hj). specialize (N2 Hj).
      rewrite Hfst in N1 by exact Hj. rewrite Hsnd in N2 by exact Hj.
      pose proof (Hord j Hj) as Ho.
      pose proof (alternative_lower_between _ _ (nth (j + start) l 0) Ho) as [B3 B4].
      pose proof (alternative_upper_between _ _ (nth (j + start) u 0) Ho) as [B5 B6].
      fold len in Hj. split; lra.
    + destruct Hsum as [H|[H1 H2]]; [exact H|].
      apply Qabs_Qle_condition. split; lra.
Qed.

Ltac table_entries :=
  cbn [entry table_assign row_set slice_assign zeros repeat firstn skipn app
       Bool.eqb andb nth map seq Nat.add Nat.sub].

Lemma sum_two (x y : Q) : Py.sum [x; y] == x + y.
Proof. rewrite !sum_cons. unfold Py.sum. simpl. lra. Qed.

Lemma length_two (x : list Q) :
  length x = 2%nat -> exists x0 x1, x = [x0; x1].
Proof. destruct x as [|x0 [|x1 [|]]]; try discriminate. eauto. Qed.

Ltac merge_side :=
  match goal with
  | |- (_ <= _)%nat => simpl; lia
  | |- (_ < _)%nat => simpl; lia
  | |- (_ <= _ <= _)%nat => lia
  | |- forall j, (j < _)%nat -> _ =>
      intros [|[|j]] Hj; simpl in *; try assumption; lia
  | |- forall j, (0 <= j <= 0)%nat -> _ =>
      intros j Hj; assert (j = 0%nat) by lia; subst j; table_entries; lra
  | |- forall j, (0 < j <= 1)%nat -> _ =>
      intros j Hj; assert (j = 1%nat) by lia; subst j; table_entries; lra
  | |- target _ _ _ _ _ _ = _ => reflexivity
  | |- _ <= _ <= _ => table_entries; rewrite !sum_two; split; lra
  end.

(** In exact arithmetic the four merges of two variables meet these
    conditions one after the other, whatever the box: the vector
    returned has [L_0 <= x_0 <= U_0] and [x_0 + x_1] within [10^-6] of
    [U_1].  In binary64 the sums of the merge are rounded, and the
    conditions can fail by one unit in the last place
    ([QRAP_NC_decomposition_not_a_number]). *)
Lemma QRAP_NC_decomposition_two_variables (a0 a1 l0 l1 u0 u1 L0 L1 U0 U1 : Q) (depth : nat) :
  0 < a0 -> 0 < a1 -> l0 <= u0 -> l1 <= u1 -> L0 <= U0 -> L1 <= U1 ->
  exists x0 x1,
    QRAP_NC_decomposition [a0; a1] [l0; l1] [u0; u1] [L0; L1] [U0; U1] (S (S depth))
    = Ok [x0; x1] /\
    L0 <= x0 <= U0 /\ Qabs (x0 + x1 - U1) <= eps6.
Proof.
  intros Ha0 Ha1 Hl0 Hl1 HL0 HL1.
  unfold QRAP_NC_decomposition. cbn [length].
  cbn [MDA Nat.eqb Nat.add Nat.div Nat.divmod fst bind].
  unfold MDA_single. cbn [get nth_error bind].
  cbn [for_subcases option_list].
  assert (Ha : Forall (fun aj => 0 < aj) [a0; a1]) by (repeat constructor; assumption).
  assert (Hbox : forall j, (j < length [a0; a1])%nat ->
                   nth j [l0; l1] 0 <= nth j [u0; u1] 0).
  { intros [|[|j]] Hj; simpl in *; try assumption; lia. }
  assert (H6 : 0 < eps6) by reflexivity.
  (* subcase [0,0] *)
  match goal with |- context [MDA_subcase _ _ _ _ _ _ _ _ ?t (false, false)] =>
    destruct (MDA_subcase_merges [a0; a1] [l0; l1] [u0; u1] [L0; L1] [U0; U1]
                0 0 1 t false false L1 Ha) as (x & -> & Hlen & Hb & Hs)
  end; [merge_side ..|].
  destruct (length_two x Hlen) as (p0 & p1 & ->).
  pose proof (Hb 0%nat ltac:(lia)) as P0. pose proof (Hb 1%nat ltac:(lia)) as P1.
  clear Hb Hlen. revert P0 P1 Hs. table_entries. rewrite sum_two. intros P0 P1 Ps.
  apply Qabs_Qle_condition in Ps. cbn [bind].
  (* subcase [0,1] *)
  match goal with |- context [MDA_subcase _ _ _ _ _ _ _ _ ?t (false, true)] =>
    destruct (MDA_subcase_merges [a0; a1] [l0; l1] [u0; u1] [L0; L1] [U0; U1]
                0 0 1 t false true U1 Ha) as (x & -> & Hlen & Hb & Hs)
  end; [merge_side ..|].
  destruct (length_two x Hlen) as (q0 & q1 & ->).
  pose proof (Hb 0%nat ltac:(lia)) as Q0. pose proof (Hb 1%nat ltac:(lia)) as Q1.
  clear Hb Hlen. revert Q0 Q1 Hs. table_entries. rewrite sum_two. intros Q0 Q1 Qs.
  cbn [bind].
  (* subcase [1,0] *)
  match goal with |- context [MDA_subcase _ _ _ _ _ _ _ _ ?t (true, false)] =>
    destruct (MDA_subcase_merges [a0; a1] [l0; l1] [u0; u1] [L0; L1] [U0; U1]
                0 0 1 t true false L1 Ha) as (x & -> & Hlen & Hb & Hs)
  end; [merge_side ..|].
  destruct (length_two x Hlen) as (r0 & r1 & ->).
  pose proof (Hb 0%nat ltac:(lia)) as R0. pose proof (Hb 1%nat ltac:(lia)) as R1.
  clear Hb Hlen Hs. revert R0 R1. table_entries. intros R0 R1.
  cbn [bind].
  (* subcase [1,1] *)
  match goal with |- context [MDA_subcase _ _ _ _ _ _ _ _ ?t (true, true)] =>
    destruct (MDA_subcase_merges [a0; a1] [l0; l1] [u0; u1] [L0; L1] [U0; U1]
                0 0 1 t true true U1 Ha) as (x & -> & Hlen & Hb & Hs)
  end; [merge_side ..|].
  cbn [bind]. table_entries.
  exists q0, q1. split; [reflexivity|]. split; [lra | exact Qs].
Qed.
